(** * Batched tensor-network contraction: the scheduler of [batch-tn]

    A shallow embedding of the two schedulers of the repository,

    - [src/batch_contract.py]   (module [BatchContract] below), and
    - [src/batch_tn/batch.py]   (module [Batch] below),

    together with the properties the specification states about them.

    Python values are modelled as follows.  A [str] is the list of its code
    points, a tuple of ints ([ArrayShape]) is a list of integers, a
    [frozenset[int]] is a [gset nat], a [dict] is an association list in
    insertion order with pairwise distinct keys, and a computation that can
    raise returns a [result].  The array backend (numpy in the first file,
    autoray/cotengra in the second) is an interface, see [Backend]. *)

From Stdlib Require Import ZArith String Ascii.
From stdpp Require Import gmap list.

(** ** Exceptions *)

Inductive exn : Set :=
| KeyError | IndexError | ValueError | AssertionError | StopIteration.

Inductive result (A : Type) : Type :=
| Ok (a : A)
| Raise (e : exn).
Arguments Ok {A} a.
Arguments Raise {A} e.

#[global] Instance result_ret : MRet result := @Ok.
#[global] Instance result_bind : MBind result :=
  λ A B f m, match m with Ok a => f a | Raise e => Raise e end.

Definition of_option {A} (e : exn) (o : option A) : result A :=
  match o with Some a => Ok a | None => Raise e end.

(** [[f(x) for x in l]] where [f] may raise: elements are evaluated left to
    right and the first exception wins. *)
Fixpoint traverse {A B} (f : A → result B) (l : list A) : result (list B) :=
  match l with
  | [] => Ok []
  | x :: l' => y ← f x; ys ← traverse f l'; Ok (y :: ys)
  end.

(** [for x in l: st = body(x, st)] where the body may raise. *)
Fixpoint for_each {A S} (body : A → S → result S) (l : list A) (st : S)
  : result S :=
  match l with
  | [] => Ok st
  | x :: l' => st' ← body x st; for_each body l' st'
  end.

(** [enumerate(l)] *)
Definition enumerate {A} (l : list A) : list (nat * A) :=
  zip (seq 0 (length l)) l.

(** ** Strings *)

(** A Python [str]: the list of its code points ([ord] of each character). *)
Abbreviation str := (list Z).

Definition max_code_point : Z := 1114111%Z.

(** [chr(n)] raises [ValueError] outside [range(0x110000)]. *)
Definition chr (n : Z) : result Z :=
  if bool_decide (0 ≤ n ≤ max_code_point)%Z then Ok n else Raise ValueError.

(** A string literal, for the examples. *)
Fixpoint py (s : string) : str :=
  match s with
  | EmptyString => []
  | String c s' => Z.of_nat (nat_of_ascii c) :: py s'
  end.

Definition is_prefix (p s : str) : bool := bool_decide (take (length p) s = p).

(** [s.split(sep)] for a non-empty separator: the pieces between the
    non-overlapping occurrences of [sep], scanned from the left.  [skip]
    counts the characters of a matched separator still to be passed over. *)
Fixpoint split_from (sep : str) (skip : nat) (s : str) : list str :=
  match s with
  | [] => [[]]
  | c :: s' =>
    match skip with
    | S k => split_from sep k s'
    | O =>
      if is_prefix sep s then [] :: split_from sep (length sep - 1) s'
      else match split_from sep 0 s' with
           | piece :: pieces => (c :: piece) :: pieces
           | [] => [[c]]
           end
    end
  end.

Definition split (sep s : str) : list str := split_from sep 0 s.

(** [sep.join(pieces)] *)
Fixpoint join (sep : str) (pieces : list str) : str :=
  match pieces with
  | [] => []
  | [p] => p
  | p :: ps => p ++ sep ++ join sep ps
  end.

Definition arrow : str := Eval vm_compute in py "->".
Definition comma : str := Eval vm_compute in py ",".
Definition ellipsis : str := Eval vm_compute in py "...".

(** [a, b = l]: unpacking into two names raises [ValueError] unless [l] has
    exactly two elements. *)
Definition unpack2 {A} (l : list A) : result (A * A) :=
  match l with
  | [a; b] => Ok (a, b)
  | _ => Raise ValueError
  end.

(** [max(ord(c) for c in s)] raises [ValueError] on the empty string. *)
Definition max_ord (s : str) : result Z :=
  match s with
  | [] => Raise ValueError
  | c :: s' => Ok (foldl Z.max c s')
  end.

(** ** Dictionaries

    A [dict] keeps its keys in insertion order; assigning to a key that is
    present replaces the value in place, assigning to a new key adds it at
    the end. *)

Abbreviation dict K V := (list (K * V)).

Section Dict.
Context {K V : Type} {EqK : EqDecision K}.

(** [d.get(k)] *)
Fixpoint dget (k : K) (d : dict K V) : option V :=
  match d with
  | [] => None
  | (k', v) :: d' => if decide (k = k') then Some v else dget k d'
  end.

(** [k in d] *)
Definition dmem (k : K) (d : dict K V) : bool :=
  match dget k d with Some _ => true | None => false end.

(** [d[k]] *)
Definition dindex (k : K) (d : dict K V) : result V :=
  of_option KeyError (dget k d).

(** [d[k] = v] *)
Fixpoint dset (k : K) (v : V) (d : dict K V) : dict K V :=
  match d with
  | [] => [(k, v)]
  | (k', v') :: d' =>
    if decide (k = k') then (k, v) :: d' else (k', v') :: dset k v d'
  end.

Fixpoint ddel (k : K) (d : dict K V) : dict K V :=
  match d with
  | [] => []
  | (k', v') :: d' => if decide (k = k') then d' else (k', v') :: ddel k d'
  end.

(** [d.pop(k)]: the value and the dictionary without the key. *)
Definition dpop (k : K) (d : dict K V) : result (V * dict K V) :=
  match dget k d with
  | Some v => Ok (v, ddel k d)
  | None => Raise KeyError
  end.

(** [{k: v for k, v in l}] *)
Definition dict_of (l : list (K * V)) : dict K V :=
  foldl (λ d kv, dset kv.1 kv.2 d) [] l.

(** [next(iter(d.values()))] *)
Definition first_value (d : dict K V) : result V :=
  match d with
  | [] => Raise StopIteration
  | (_, v) :: _ => Ok v
  end.

End Dict.

Section GroupTable.
Context {K I : Type} {EqK : EqDecision K}.

(** [table[k].append(i)] on a [defaultdict(list)] *)
Fixpoint dappend (k : K) (i : I) (d : dict K (list I)) : dict K (list I) :=
  match d with
  | [] => [(k, [i])]
  | (k', l) :: d' =>
    if decide (k = k') then (k', l ++ [i]) :: d' else (k', l) :: dappend k i d'
  end.

(** [max(table, key=lambda k: len(table[k]))]: the first key, in insertion
    order, whose list is longest; [ValueError] on the empty table. *)
Fixpoint max_by_len (best : K * list I) (d : dict K (list I)) : K :=
  match d with
  | [] => best.1
  | (k, l) :: d' =>
    if bool_decide (length best.2 < length l) then max_by_len (k, l) d'
    else max_by_len best d'
  end.

Definition dmax (d : dict K (list I)) : result K :=
  match d with
  | [] => Raise ValueError
  | kl :: d' => Ok (max_by_len kl d')
  end.

(** [any(table.values())]: some list is non-empty. *)
Definition any_values (d : dict K (list I)) : bool :=
  existsb (λ kl, match kl.2 with [] => false | _ :: _ => true end) d.

End GroupTable.

(** ** Shared data types *)

(** [ArrayShape = tuple[int, ...]] *)
Abbreviation ArrayShape := (list Z).

(** [Signature = tuple[str, ArrayShape, ArrayShape]] *)
Abbreviation Signature := (str * ArrayShape * ArrayShape)%type.

(** [TreeNode = frozenset[int]] *)
Abbreviation TreeNode := (gset nat).

(** [frozenset([i])] *)
Definition leaf (i : nat) : TreeNode := {[ i ]}.

(** A ready instance [(tree_idx, parent, left, right)]. *)
Abbreviation Instance := (nat * TreeNode * TreeNode * TreeNode)%type.

(** ** The array backend

    The schedulers use three operations of the array library: stacking a
    list of arrays along a new leading axis, a binary [einsum], and reading
    the slices of an array along its leading axis (iteration over the array
    in the first file, [result[i]] in the second).  [tshape] is the [shape]
    attribute. *)

Class Backend : Type := {
  Tensor : Type;
  tshape : Tensor → ArrayShape;
  np_stack : list Tensor → result Tensor;
  np_einsum : str → Tensor → Tensor → result Tensor;
  rows : Tensor → list Tensor;
}.

(** [l[i]] for a list and a non-negative index. *)
Definition lindex {A} (i : nat) (l : list A) : result A :=
  of_option IndexError (l !! i).

(** * [src/batch_contract.py] *)

Module BatchContract.

(** The part of cotengra's [ContractionTree] that the file reads: the
    number of leaves, the [children] dictionary, the size of every index and
    the two methods [get_inds] and [get_einsum_eq]. *)
Record ContractionTree : Type := {
  N : nat;
  children : dict TreeNode (TreeNode * TreeNode);
  size_dict : dict str Z;
  get_inds : TreeNode → list str;
  get_einsum_eq : TreeNode → str;
}.

Definition get_node_shape (tree : ContractionTree) (node : TreeNode)
  : result ArrayShape :=
  traverse (λ i, dindex i (size_dict tree)) (get_inds tree node).

Definition extract_signature (tree : ContractionTree) (parent : TreeNode)
  : result Signature :=
  let eq := get_einsum_eq tree parent in
  '(left_, right_) ← dindex parent (children tree);
  left_shape ← get_node_shape tree left_;
  right_shape ← get_node_shape tree right_;
  Ok (eq, left_shape, right_shape).

Definition get_batched_einsum_equation (original_eq : str) : result str :=
  let BATCH_SYMBOL := ellipsis in
  '(left_side, right_side) ← unpack2 (split arrow original_eq);
  let terms := split comma left_side in
  let batched_terms := map (λ term, BATCH_SYMBOL ++ term) terms in
  let batched_output := BATCH_SYMBOL ++ right_side in
  Ok (join comma batched_terms ++ arrow ++ batched_output).

(** [{node: parent for parent, (left, right) in tree.children.items()
      for node in (left, right)}] *)
Definition parent_dict (tree : ContractionTree) : dict TreeNode TreeNode :=
  dict_of (flat_map (λ '(parent, (left_, right_)),
                       [(left_, parent); (right_, parent)]) (children tree)).

Definition tree_parent (trees : list ContractionTree)
  : list (dict TreeNode TreeNode) :=
  map parent_dict trees.

Section WithBackend.
Context {B : Backend}.

(** The variables of [batch_contract] that change during a run.  [promoted]
    is not a variable of the source: it records, in order, the instance of
    every assignment [tree_active_nodes[tree_idx][parent] = result]. *)
Record State : Type := {
  ready : dict Signature (list Instance);
  tree_active_nodes : list (dict TreeNode Tensor);
  promoted : list Instance;
}.

(** Lines 114-117, one entry of [tree.children.items()]. *)
Definition register (tree_idx : nat) (tree : ContractionTree)
    (nodes : dict TreeNode Tensor) (entry : TreeNode * (TreeNode * TreeNode))
    (table : dict Signature (list Instance))
  : result (dict Signature (list Instance)) :=
  let '(parent, (left_, right_)) := entry in
  if dmem left_ nodes && dmem right_ nodes then
    signature ← extract_signature tree parent;
    Ok (dappend signature (tree_idx, parent, left_, right_) table)
  else Ok table.

(** Lines 108-117, one iteration of the loop over [enumerate(trees)]. *)
Definition seed (arrays : list (list Tensor)) (it : nat * ContractionTree)
    (st : State) : result State :=
  let '(tree_idx, tree) := it in
  array ← lindex tree_idx arrays;
  let leaves := map leaf (seq 0 (N tree)) in
  let nodes := dict_of (zip leaves array) in
  table ← for_each (register tree_idx tree nodes) (children tree) (ready st);
  Ok {| ready := table;
        tree_active_nodes := <[tree_idx := nodes]> (tree_active_nodes st);
        promoted := promoted st |}.

(** Lines 100-117. *)
Definition init (trees : list ContractionTree) (arrays : list (list Tensor))
  : result State :=
  for_each (seed arrays) (enumerate trees)
    {| ready := []; tree_active_nodes := map (λ _, []) trees; promoted := [] |}.

(** Lines 126-137: the batched contraction of one group.  The print of line
    129 changes no variable and is omitted. *)
Definition execute (signature : Signature) (to_contract : list Instance)
    (active : list (dict TreeNode Tensor)) : result Tensor :=
  let '(eq, left_shape, right_shape) := signature in
  batched_eq ← get_batched_einsum_equation eq;
  left_arrays ←
    traverse (λ '(tree_idx, _, left_, _),
                nodes ← lindex tree_idx active; dindex left_ nodes) to_contract;
  right_arrays ←
    traverse (λ '(tree_idx, _, _, right_),
                nodes ← lindex tree_idx active; dindex right_ nodes) to_contract;
  left_array_stack ← np_stack left_arrays;
  right_array_stack ← np_stack right_arrays;
  np_einsum batched_eq left_array_stack right_array_stack.

(** Lines 141-151, one iteration of the loop over
    [zip(result_stack, to_contract)]. *)
Definition promote (trees : list ContractionTree)
    (item : Tensor * Instance) (st : State) : result State :=
  let '(res, (tree_idx, parent, left_, right_)) := item in
  nodes ← lindex tree_idx (tree_active_nodes st);
  '(_, nodes) ← dpop left_ nodes;
  '(_, nodes) ← dpop right_ nodes;
  let nodes := dset parent res nodes in
  let st := {| ready := ready st;
               tree_active_nodes := <[tree_idx := nodes]> (tree_active_nodes st);
               promoted := promoted st ++ [(tree_idx, parent, left_, right_)] |} in
  parents ← lindex tree_idx (tree_parent trees);
  match dget parent parents with
  | None => Ok st
  | Some grandparent =>
    tree ← lindex tree_idx trees;
    '(left_child, right_child) ← dindex grandparent (children tree);
    if dmem left_child nodes && dmem right_child nodes then
      signature ← extract_signature tree grandparent;
      Ok {| ready := dappend signature
                       (tree_idx, grandparent, left_child, right_child)
                       (ready st);
            tree_active_nodes := tree_active_nodes st;
            promoted := promoted st |}
    else Ok st
  end.

(** Lines 121-151, the body of the [while] loop. *)
Definition step (trees : list ContractionTree) (st : State) : result State :=
  signature ← dmax (ready st);
  to_contract ← dindex signature (ready st);
  let st := {| ready := ddel signature (ready st);
               tree_active_nodes := tree_active_nodes st;
               promoted := promoted st |} in
  result_stack ← execute signature to_contract (tree_active_nodes st);
  for_each (promote trees) (zip (rows result_stack) to_contract) st.

(** Lines 120-151.  [None] means that [fuel] iterations were not enough. *)
Fixpoint loop (fuel : nat) (trees : list ContractionTree) (st : State)
  : option (result State) :=
  if any_values (ready st) then
    match fuel with
    | O => None
    | S fuel' =>
      match step trees st with
      | Ok st' => loop fuel' trees st'
      | Raise e => Some (Raise e)
      end
    end
  else Some (Ok st).

(** Lines 153-155. *)
Definition finish (st : State) : result (list Tensor) :=
  if forallb (λ nodes, bool_decide (length nodes = 1)) (tree_active_nodes st)
  then traverse first_value (tree_active_nodes st)
  else Raise AssertionError.

(** The state in which the [while] loop ends. *)
Definition run (fuel : nat) (trees : list ContractionTree)
    (arrays : list (list Tensor)) : option (result State) :=
  match init trees arrays with
  | Ok st => loop fuel trees st
  | Raise e => Some (Raise e)
  end.

Definition batch_contract (fuel : nat) (trees : list ContractionTree)
    (arrays : list (list Tensor)) : option (result (list Tensor)) :=
  match run fuel trees arrays with
  | Some (Ok st) => Some (finish st)
  | Some (Raise e) => Some (Raise e)
  | None => None
  end.

End WithBackend.

End BatchContract.

(** * [src/batch_tn/batch.py] *)

Module Batch.

(** One entry [(parent, left, right, eq)] of a contraction list, as
    [get_contractions] extracts it from cotengra; [left] and [right] may be
    [None]. *)
Abbreviation Contraction :=
  (TreeNode * option TreeNode * option TreeNode * str)%type.

(** Lines 19-23, one iteration of the loop over [zip(term, shape)]. *)
Definition bind_size (cs : Z * Z) (size_dict : dict Z Z) : result (dict Z Z) :=
  let '(c, size) := cs in
  match dget c size_dict with
  | None => Ok (dset c size size_dict)
  | Some known =>
    if bool_decide (known ≠ size) then Raise ValueError else Ok size_dict
  end.

(** Lines 16-23, one iteration of the loop over [zip(terms, shapes)]. *)
Definition bind_term (ts : str * ArrayShape) (size_dict : dict Z Z)
  : result (dict Z Z) :=
  let '(term, shape) := ts in
  if bool_decide (length shape ≠ length term) then Raise ValueError
  else for_each bind_size (zip term shape) size_dict.

Definition get_result_shape (eq : str) (shapes : list ArrayShape)
  : result ArrayShape :=
  '(inputs, output) ← unpack2 (split arrow eq);
  let terms := split comma inputs in
  if bool_decide (length terms ≠ length shapes) then Raise ValueError
  else
    size_dict ← for_each bind_term (zip terms shapes) [];
    traverse (λ c, dindex c size_dict) output.

Definition get_batched_einsum_equation (original_eq : str)
    (batch_symbol : option str) : result str :=
  batch_symbol ←
    match batch_symbol with
    | Some symbol => Ok symbol
    | None => top ← max_ord original_eq; c ← chr (top + 1); Ok [c]
    end;
  '(left_side, right_side) ← unpack2 (split arrow original_eq);
  let terms := split comma left_side in
  let batched_terms := map (λ term, batch_symbol ++ term) terms in
  let batched_output := batch_symbol ++ right_side in
  Ok (join comma batched_terms ++ arrow ++ batched_output).

(** The three dictionaries built for one contraction list (lines 74-83). *)
Record Maps : Type := {
  children_map : dict TreeNode (TreeNode * TreeNode);
  parent_map : dict TreeNode TreeNode;
  eq_map : dict TreeNode str;
}.

(** Lines 78-83, one iteration. *)
Definition add_contraction (m : Maps) (c : Contraction) : Maps :=
  let '(parent, left_, right_, eq) := c in
  match left_, right_ with
  | Some left_, Some right_ =>
    {| children_map := dset parent (left_, right_) (children_map m);
       parent_map := dset right_ parent (dset left_ parent (parent_map m));
       eq_map := dset parent eq (eq_map m) |}
  | _, _ => m
  end.

Definition build_maps (contractions : list Contraction) : Maps :=
  foldl add_contraction
        {| children_map := []; parent_map := []; eq_map := [] |} contractions.

(** [{frozenset([n]): arr for n, arr in enumerate(values)}] *)
Definition leaf_dict {V} (values : list V) : dict TreeNode V :=
  dict_of (map (λ '(n, arr), (leaf n, arr)) (enumerate values)).

(** The variables of [get_batched_contractions] that change in its loops. *)
Record Sched : Type := {
  contractible : dict Signature (list Instance);
  node2shape_batch : list (dict TreeNode ArrayShape);
  batched_contractions : list (str * list Instance);
}.

(** Lines 91-97, one iteration of the inner loop.  [None] is never a key of
    [node2shape], so an entry with a missing child fails the test. *)
Definition register (i : nat) (node2shape : dict TreeNode ArrayShape)
    (c : Contraction) (table : dict Signature (list Instance))
  : result (dict Signature (list Instance)) :=
  let '(parent, left_, right_, eq) := c in
  match left_, right_ with
  | Some left_, Some right_ =>
    if dmem left_ node2shape && dmem right_ node2shape then
      shape_left ← dindex left_ node2shape;
      shape_right ← dindex right_ node2shape;
      let key := (eq, shape_left, shape_right) in
      let target := (i, parent, left_, right_) in
      Ok (dappend key target table)
    else Ok table
  | _, _ => Ok table
  end.

(** Lines 90-97, one iteration of the outer loop. *)
Definition seed (it : nat * (list Contraction * dict TreeNode ArrayShape))
    (table : dict Signature (list Instance))
  : result (dict Signature (list Instance)) :=
  let '(i, (contractions, node2shape)) := it in
  for_each (register i node2shape) contractions table.

(** Lines 67-97. *)
Definition init (contractions_batch : list (list Contraction))
    (shapes_batch : list (list ArrayShape)) : result Sched :=
  let shapes := map leaf_dict shapes_batch in
  table ← for_each seed (enumerate (zip contractions_batch shapes)) [];
  Ok {| contractible := table;
        node2shape_batch := shapes;
        batched_contractions := [] |}.

(** Lines 109-124, one iteration of the loop over [targets]. *)
Definition promote (maps : list Maps) (result_shape : ArrayShape)
    (target : Instance) (st : Sched) : result Sched :=
  let '(i, parent, left_, right_) := target in
  nodes ← lindex i (node2shape_batch st);
  '(_, nodes) ← dpop left_ nodes;
  '(_, nodes) ← dpop right_ nodes;
  let nodes := dset parent result_shape nodes in
  let st := {| contractible := contractible st;
               node2shape_batch := <[i := nodes]> (node2shape_batch st);
               batched_contractions := batched_contractions st |} in
  m ← lindex i maps;
  match dget parent (parent_map m) with
  | None => Ok st
  | Some grandparent =>
    '(grand_left, grand_right) ← dindex grandparent (children_map m);
    if dmem grand_left nodes && dmem grand_right nodes then
      shape_left ← dindex grand_left nodes;
      shape_right ← dindex grand_right nodes;
      eq ← dindex grandparent (eq_map m);
      let key := (eq, shape_left, shape_right) in
      let target := (i, grandparent, grand_left, grand_right) in
      Ok {| contractible := dappend key target (contractible st);
            node2shape_batch := node2shape_batch st;
            batched_contractions := batched_contractions st |}
    else Ok st
  end.

(** Lines 101-124, the body of the [while] loop. *)
Definition step (maps : list Maps) (st : Sched) : result Sched :=
  key ← dmax (contractible st);
  '(targets, table) ← dpop key (contractible st);
  let '(eq, shape_left, shape_right) := key in
  let st := {| contractible := table;
               node2shape_batch := node2shape_batch st;
               batched_contractions :=
                 batched_contractions st ++ [(eq, targets)] |} in
  result_shape ← get_result_shape eq [shape_left; shape_right];
  for_each (promote maps result_shape) targets st.

(** Lines 100-124.  [None] means that [fuel] iterations were not enough. *)
Fixpoint loop (fuel : nat) (maps : list Maps) (st : Sched)
  : option (result Sched) :=
  match contractible st with
  | [] => Some (Ok st)
  | _ :: _ =>
    match fuel with
    | O => None
    | S fuel' =>
      match step maps st with
      | Ok st' => loop fuel' maps st'
      | Raise e => Some (Raise e)
      end
    end
  end.

(** The state in which the [while] loop of [get_batched_contractions]
    ends. *)
Definition schedule (fuel : nat) (contractions_batch : list (list Contraction))
    (shapes_batch : list (list ArrayShape)) : option (result Sched) :=
  match init contractions_batch shapes_batch with
  | Ok st => loop fuel (map build_maps contractions_batch) st
  | Raise e => Some (Raise e)
  end.

Definition get_batched_contractions (fuel : nat)
    (contractions_batch : list (list Contraction))
    (shapes_batch : list (list ArrayShape))
  : option (result (list (str * list Instance))) :=
  match schedule fuel contractions_batch shapes_batch with
  | Some (Ok st) => Some (Ok (batched_contractions st))
  | Some (Raise e) => Some (Raise e)
  | None => None
  end.

Section WithBackend.
Context {B : Backend}.

(** Lines 135-137, one iteration: both operands are popped. *)
Definition take_operands (target : Instance)
    (acc : list Tensor * list Tensor * list (dict TreeNode Tensor))
  : result (list Tensor * list Tensor * list (dict TreeNode Tensor)) :=
  let '(network_idx, parent, left_, right_) := target in
  let '(arrays_left, arrays_right, node2array_batch) := acc in
  nodes ← lindex network_idx node2array_batch;
  '(a, nodes) ← dpop left_ nodes;
  let node2array_batch := <[network_idx := nodes]> node2array_batch in
  nodes ← lindex network_idx node2array_batch;
  '(b, nodes) ← dpop right_ nodes;
  let node2array_batch := <[network_idx := nodes]> node2array_batch in
  Ok (arrays_left ++ [a], arrays_right ++ [b], node2array_batch).

(** Lines 143-144, one iteration. *)
Definition store_result (res : Tensor) (it : nat * Instance)
    (node2array_batch : list (dict TreeNode Tensor))
  : result (list (dict TreeNode Tensor)) :=
  let '(i, (network_idx, parent, left_, right_)) := it in
  slice ← lindex i (rows res);
  nodes ← lindex network_idx node2array_batch;
  Ok (<[network_idx := dset parent slice nodes]> node2array_batch).

Definition _batched_einsum (eq : str) (targets : list Instance)
    (node2array_batch : list (dict TreeNode Tensor))
  : result (list (dict TreeNode Tensor)) :=
  batched_eq ← get_batched_einsum_equation eq None;
  '(arrays_left, arrays_right, node2array_batch) ←
    for_each take_operands targets ([], [], node2array_batch);
  stack_left ← np_stack arrays_left;
  stack_right ← np_stack arrays_right;
  res ← np_einsum batched_eq stack_left stack_right;
  for_each (store_result res) (enumerate targets) node2array_batch.

(** Lines 165-170: the schedule is replayed on the arrays. *)
Definition replay (batched : list (str * list Instance))
    (arrays_batch : list (list Tensor)) : result (list Tensor) :=
  let node2array_batch := map leaf_dict arrays_batch in
  node2array_batch ←
    for_each (λ '(eq, targets), _batched_einsum eq targets)
             batched node2array_batch;
  traverse first_value node2array_batch.

Definition batch_contract (fuel : nat)
    (contractions_batch : list (list Contraction))
    (arrays_batch : list (list Tensor)) : option (result (list Tensor)) :=
  let shapes_batch := map (map tshape) arrays_batch in
  match get_batched_contractions fuel contractions_batch shapes_batch with
  | Some (Ok batched) => Some (replay batched arrays_batch)
  | Some (Raise e) => Some (Raise e)
  | None => None
  end.

(** [get_contractions] asks cotengra for the contraction list of an
    equation; it is a parameter here. *)
Definition batch_einsum
    (get_contractions : str → list ArrayShape → list Contraction)
    (fuel : nat) (eq_batch : list str) (arrays_batch : list (list Tensor))
  : option (result (list Tensor)) :=
  let shapes_batch := map (map tshape) arrays_batch in
  let contractions_batch :=
    map (λ '(eq, shapes), get_contractions eq shapes)
        (zip eq_batch shapes_batch) in
  batch_contract fuel contractions_batch arrays_batch.

End WithBackend.

End Batch.

(** * A backend that computes shapes

    Used for the examples: an array is represented by its shape, and the
    three operations follow the shape rules of numpy.  [einsum] accepts a
    leading ellipsis on a term, which stands for the leading axes that the
    named indices of the term leave over. *)

Module ShapeBackend.

Definition stack (arrays : list ArrayShape) : result ArrayShape :=
  match arrays with
  | [] => Raise ValueError
  | s :: rest =>
    if forallb (λ s', bool_decide (s' = s)) rest
    then Ok (Z.of_nat (length arrays) :: s)
    else Raise ValueError
  end.

(** The batch axes, the named indices and the sizes of the named axes of
    one operand. *)
Definition operand (term : str) (shape : ArrayShape)
  : result (ArrayShape * str * ArrayShape) :=
  if is_prefix ellipsis term then
    let named := drop (length ellipsis) term in
    if bool_decide (length named ≤ length shape) then
      let k := length shape - length named in
      Ok (take k shape, named, drop k shape)
    else Raise ValueError
  else if bool_decide (length term = length shape) then Ok ([], term, shape)
  else Raise ValueError.

Definition broadcast (a b : ArrayShape) : result ArrayShape :=
  match a, b with
  | [], _ => Ok b
  | _, [] => Ok a
  | _, _ => if bool_decide (a = b) then Ok a else Raise ValueError
  end.

Definition einsum (eq : str) (a b : ArrayShape) : result ArrayShape :=
  '(inputs, output) ← unpack2 (split arrow eq);
  '(term_a, term_b) ← unpack2 (split comma inputs);
  '(batch_a, named_a, sizes_a) ← operand term_a a;
  '(batch_b, named_b, sizes_b) ← operand term_b b;
  batch ← broadcast batch_a batch_b;
  size_dict ← for_each Batch.bind_size (zip named_a sizes_a) [];
  size_dict ← for_each Batch.bind_size (zip named_b sizes_b) size_dict;
  if is_prefix ellipsis output then
    named ← traverse (λ c, dindex c size_dict) (drop (length ellipsis) output);
    Ok (batch ++ named)
  else
    match batch with
    | [] => traverse (λ c, dindex c size_dict) output
    | _ :: _ => Raise ValueError
    end.

Definition slices (a : ArrayShape) : list ArrayShape :=
  match a with
  | [] => []
  | n :: s => replicate (Z.to_nat n) s
  end.

Definition backend : Backend :=
  {| Tensor := ArrayShape;
     tshape := λ a, a;
     np_stack := stack;
     np_einsum := einsum;
     rows := slices |}.

End ShapeBackend.

(** * Examples *)

Module Examples.

(** The matrix product [ab,bc->ac] of two leaves. *)
Definition matmul : str := Eval vm_compute in py "ab,bc->ac".

Definition root2 : TreeNode := {[ 0%nat; 1%nat ]}.

Definition index_of (node : TreeNode) : list str :=
  if bool_decide (node = leaf 0) then [py "a"; py "b"]
  else if bool_decide (node = leaf 1) then [py "b"; py "c"]
  else [py "a"; py "c"].

(** A tree of two leaves of shapes [(2, 3)] and [(3, 4)]. *)
Definition tree2 : BatchContract.ContractionTree :=
  {| BatchContract.N := 2;
     BatchContract.children := [(root2, (leaf 0, leaf 1))];
     BatchContract.size_dict := [(py "a", 2%Z); (py "b", 3%Z); (py "c", 4%Z)];
     BatchContract.get_inds := index_of;
     BatchContract.get_einsum_eq := λ _, matmul |}.

(** The same contraction as a contraction list of the second file. *)
Definition contractions2 : list Batch.Contraction :=
  [(root2, Some (leaf 0), Some (leaf 1), matmul)].

Definition arrays2 : list ArrayShape := [[2; 3]; [3; 4]]%Z.

(** The chain [(ab,bc->ac), cd -> ad] over three leaves of shapes [(2, 3)],
    [(3, 4)] and [(4, 5)]. *)
Definition chain : str := Eval vm_compute in py "ac,cd->ad".

Definition node01 : TreeNode := {[ 0%nat; 1%nat ]}.
Definition root3 : TreeNode := {[ 0%nat; 1%nat; 2%nat ]}.

Definition index_of3 (node : TreeNode) : list str :=
  if bool_decide (node = leaf 0) then [py "a"; py "b"]
  else if bool_decide (node = leaf 1) then [py "b"; py "c"]
  else if bool_decide (node = leaf 2) then [py "c"; py "d"]
  else if bool_decide (node = node01) then [py "a"; py "c"]
  else [py "a"; py "d"].

Definition tree3 : BatchContract.ContractionTree :=
  {| BatchContract.N := 3;
     BatchContract.children :=
       [(node01, (leaf 0, leaf 1)); (root3, (node01, leaf 2))];
     BatchContract.size_dict :=
       [(py "a", 2%Z); (py "b", 3%Z); (py "c", 4%Z); (py "d", 5%Z)];
     BatchContract.get_inds := index_of3;
     BatchContract.get_einsum_eq :=
       λ node, if bool_decide (node = node01) then matmul else chain |}.

Definition contractions3 : list Batch.Contraction :=
  [(node01, Some (leaf 0), Some (leaf 1), matmul);
   (root3, Some node01, Some (leaf 2), chain)].

Definition arrays3 : list ArrayShape := [[2; 3]; [3; 4]; [4; 5]]%Z.

(** A table with a group of one and a group of two instances. *)
Definition table12 : dict Signature (list Instance) :=
  [((chain, [2; 4], [4; 5])%Z, [(0, root3, node01, leaf 2)]);
   ((matmul, [2; 3], [3; 4])%Z,
    [(1, root2, leaf 0, leaf 1); (2, root2, leaf 0, leaf 1)])].

(** The forest [[tree3; tree2; tree2]] after the first contraction of
    [tree3], in the first and in the second file. *)
Definition state12 : BatchContract.State (B := ShapeBackend.backend) :=
  @BatchContract.Build_State ShapeBackend.backend
    table12
    [[(leaf 2, [4; 5]); (node01, [2; 4])];
     [(leaf 0, [2; 3]); (leaf 1, [3; 4])];
     [(leaf 0, [2; 3]); (leaf 1, [3; 4])]]%Z
    [(0, node01, leaf 0, leaf 1)].

Definition sched12 : Batch.Sched :=
  {| Batch.contractible := table12;
     Batch.node2shape_batch :=
       [[(leaf 2, [4; 5]); (node01, [2; 4])];
        [(leaf 0, [2; 3]); (leaf 1, [3; 4])];
        [(leaf 0, [2; 3]); (leaf 1, [3; 4])]]%Z;
     Batch.batched_contractions :=
       [(matmul, [(0, node01, leaf 0, leaf 1)])] |}.

(** The forest [[tree3]] as the two files set it up. *)
Definition state3 : BatchContract.State (B := ShapeBackend.backend) :=
  @BatchContract.Build_State ShapeBackend.backend
    [((matmul, [2; 3], [3; 4])%Z, [(0, node01, leaf 0, leaf 1)])]
    [[(leaf 0, [2; 3]); (leaf 1, [3; 4]); (leaf 2, [4; 5])]]%Z
    [].

Definition sched3 : Batch.Sched :=
  {| Batch.contractible :=
       [((matmul, [2; 3], [3; 4])%Z, [(0, node01, leaf 0, leaf 1)])];
     Batch.node2shape_batch :=
       [[(leaf 0, [2; 3]); (leaf 1, [3; 4]); (leaf 2, [4; 5])]]%Z;
     Batch.batched_contractions := [] |}.

End Examples.

(** * Definitions used by the statements *)

(** The instances that the initial pass over the entries of one tree
    registers: the entries whose two children are keys of [nodes]. *)
Definition ready_entries {V} (t : nat) (nodes : dict TreeNode V)
    (entries : list (TreeNode * (TreeNode * TreeNode))) : list Instance :=
  omap (λ '(p, (l, r)),
          if dmem l nodes && dmem r nodes then Some (t, p, l, r) else None)
       entries.

(** Every list of the table is non-empty and holds only instances whose
    signature, as [sig_of] gives it, is the key of the list. *)
Definition grouped {S} (sig_of : Instance → S → Prop)
    (table : dict S (list Instance)) : Prop :=
  Forall (λ kl, kl.2 ≠ [] ∧ Forall (λ inst, sig_of inst kl.1) kl.2) table.

(** ** Well-formed trees

    A binary tree over the leaves [frozenset([0])], ..., whose internal
    nodes carry the identifier under which [children] lists them. *)

Inductive btree : Type :=
| BLeaf (i : nat)
| BNode (p : TreeNode) (l r : btree).

Definition root_id (bt : btree) : TreeNode :=
  match bt with
  | BLeaf i => leaf i
  | BNode p _ _ => p
  end.

Fixpoint leaves (bt : btree) : list nat :=
  match bt with
  | BLeaf i => [i]
  | BNode _ l r => leaves l ++ leaves r
  end.

(** The items of the [children] dictionary of the tree. *)
Fixpoint entries (bt : btree) : list (TreeNode * (TreeNode * TreeNode)) :=
  match bt with
  | BLeaf _ => []
  | BNode p l r => (p, (root_id l, root_id r)) :: entries l ++ entries r
  end.

(** The identifiers of all nodes. *)
Fixpoint ids (bt : btree) : list TreeNode :=
  match bt with
  | BLeaf i => [leaf i]
  | BNode p l r => p :: ids l ++ ids r
  end.

(** The children of a list of entries. *)
Definition child_list (es : list (TreeNode * (TreeNode * TreeNode)))
  : list TreeNode :=
  flat_map (λ e, [e.2.1; e.2.2]) es.

(** [ch] is the [children] dictionary of the binary tree [bt] over [n]
    leaves: it lists the internal nodes of [bt] in some order, the leaves
    of [bt] are the leaves [0 .. n-1], and no two nodes share an
    identifier. *)
Definition is_tree (n : nat) (ch : dict TreeNode (TreeNode * TreeNode))
    (bt : btree) : Prop :=
  ch ≡ₚ entries bt ∧ leaves bt ≡ₚ seq 0 n ∧ NoDup (ids bt).

(** The items of the parent dictionary of a list of entries. *)
Definition tn_items (es : list (TreeNode * (TreeNode * TreeNode)))
  : list (TreeNode * TreeNode) :=
  flat_map (λ '(parent, (left_, right_)), [(left_, parent); (right_, parent)]) es.

(** The pairs (tree, child) of a list of instances. *)
Definition operands (targets : list Instance) : list (nat * TreeNode) :=
  flat_map (λ '(t, _, l, r), [(t, l); (t, r)]) targets.

(** ** The frontier of a run

    A forest is described by the number of leaves and the [children]
    dictionary of each tree.  A log [L] is the list of the instances
    promoted so far; everything else is determined by it. *)

Abbreviation Forest := (list (nat * dict TreeNode (TreeNode * TreeNode))).

Section Frontier.
Variable F : Forest.

Definition entry (t : nat) (p l r : TreeNode) : Prop :=
  ∃ n ch, F !! t = Some (n, ch) ∧ dget p ch = Some (l, r).

Definition is_leaf (t : nat) (x : TreeNode) : Prop :=
  ∃ n ch i, F !! t = Some (n, ch) ∧ i < n ∧ x = leaf i.

(** The node has been promoted. *)
Definition done (L : list Instance) (t : nat) (p : TreeNode) : Prop :=
  ∃ l r, (t, p, l, r) ∈ L.

(** The node has a value: it is a leaf or has been promoted. *)
Definition avail (L : list Instance) (t : nat) (x : TreeNode) : Prop :=
  is_leaf t x ∨ done L t x.

(** The node has a value that has not been consumed by its parent. *)
Definition active (L : list Instance) (t : nat) (x : TreeNode) : Prop :=
  avail L t x
  ∧ ∀ g l r, entry t g l r → x = l ∨ x = r → ¬ done L t g.

(** The instance is ready: both children have a value and the parent has
    not been promoted. *)
Definition pending (L : list Instance) (inst : Instance) : Prop :=
  let '(t, p, l, r) := inst in
  entry t p l r ∧ ¬ done L t p ∧ avail L t l ∧ avail L t r.

(** Only entries of the forest are promoted, each once, and only after both
    children have a value. *)
Definition log_ok (L : list Instance) : Prop :=
  NoDup L
  ∧ ∀ t p l r, (t, p, l, r) ∈ L → entry t p l r ∧ avail L t l ∧ avail L t r.

Definition wf_forest : Prop :=
  ∀ t n ch, F !! t = Some (n, ch) → ∃ bt, is_tree n ch bt.

(** All the instances of the forest, tree by tree. *)
Definition all_instances : list Instance :=
  flat_map (λ '(t, (n, ch)), map (λ '(p, (l, r)), (t, p, l, r)) ch)
           (enumerate F).

End Frontier.

(** ** The invariant of the scheduler loops

    [acts] are the dictionaries of the active nodes, [table] is the table of
    ready instances, [L] the log of the promoted instances and [todo] the
    instances of the group in progress that are still to be promoted.
    [value] gives the content that a node of a tree has once it is
    computed. *)

Section SchedInv.
Context {V S : Type}.
Variables (F : Forest) (value : nat → TreeNode → V)
          (sig_of : Instance → S → Prop).

Definition nodes_ok (L : list Instance) (t : nat) (nodes : dict TreeNode V)
  : Prop :=
  NoDup nodes.*1
  ∧ ∀ x, (is_Some (dget x nodes) ↔ active F L t x)
         ∧ ∀ v, dget x nodes = Some v → v = value t x.

Definition sched_inv (acts : list (dict TreeNode V))
    (table : dict S (list Instance)) (L todo : list Instance) : Prop :=
  log_ok F L
  ∧ length acts = length F
  ∧ (∀ t nodes, acts !! t = Some nodes → nodes_ok L t nodes)
  ∧ NoDup table.*1
  ∧ grouped sig_of table
  ∧ NoDup (todo ++ concat table.*2)
  ∧ ∀ inst, inst ∈ todo ++ concat table.*2 ↔ pending F L inst.

End SchedInv.

(** Every dictionary of [arrs] has distinct keys, its keys in tree [t] are
    the nodes [x] with [P t x], and it maps every key to its value. *)
Definition dicts_ok {V} (value : nat → TreeNode → V)
    (P : nat → TreeNode → Prop) (arrs : list (dict TreeNode V)) : Prop :=
  ∀ t nodes, arrs !! t = Some nodes →
    NoDup nodes.*1
    ∧ ∀ x, (is_Some (dget x nodes) ↔ P t x)
           ∧ ∀ v, dget x nodes = Some v → v = value t x.

(** ** Hypotheses and statements about [batch_contract.py] *)

Section SpecBatchContract.
Context {B : Backend}.
Import BatchContract.

Definition bc_forest (trees : list ContractionTree) : Forest :=
  map (λ tree, (N tree, children tree)) trees.

(** The signature under which the file registers an instance. *)
Definition bc_sig_of (trees : list ContractionTree) (inst : Instance)
    (sig : Signature) : Prop :=
  let '(t, p, _, _) := inst in
  ∃ tree, trees !! t = Some tree ∧ extract_signature tree p = Ok sig.

(** The dictionary of the leaves of a tree (line 112). *)
Definition bc_leaf_nodes (tree : ContractionTree) (array : list Tensor)
  : dict TreeNode Tensor :=
  zip (map leaf (seq 0 (N tree))) array.

(** The instances registered before the loop (lines 114-117). *)
Definition bc_initial_ready (trees : list ContractionTree)
    (arrays : list (list Tensor)) : list Instance :=
  flat_map (λ '(t, tree),
              ready_entries t (bc_leaf_nodes tree (default [] (arrays !! t)))
                            (children tree))
           (enumerate trees).

(** One batched call of the backend: both stacks and the contraction
    succeed and the result has the slices [outs]. *)
Definition batched_call (batched_eq : result str)
    (ls rs outs : list Tensor) : Prop :=
  ∃ beq L R res,
    batched_eq = Ok beq ∧ np_stack ls = Ok L ∧ np_stack rs = Ok R
    ∧ np_einsum beq L R = Ok res ∧ rows res = outs.

(** The contract of the backend: on the operands of any non-empty list of
    instances of the forest that share a signature, the batched call with
    the batched equation returns the tensor of each parent. *)
Definition bc_backend_sound (trees : list ContractionTree)
    (val : nat → TreeNode → Tensor) : Prop :=
  ∀ sig group,
    group ≠ [] →
    Forall (λ inst, inst ∈ all_instances (bc_forest trees)
                    ∧ bc_sig_of trees inst sig) group →
    batched_call (get_batched_einsum_equation sig.1.1)
      (map (λ '(t, _, l, _), val t l) group)
      (map (λ '(t, _, _, r), val t r) group)
      (map (λ '(t, p, _, _), val t p) group).

(** A well-formed input: one array list per tree with one array per leaf,
    every [children] dictionary is that of a binary tree, and the sizes of
    the indices of every child are known. *)
Definition bc_well_formed (trees : list ContractionTree)
    (arrays : list (list Tensor)) : Prop :=
  length arrays = length trees
  ∧ wf_forest (bc_forest trees)
  ∧ (∀ t tree array, trees !! t = Some tree → arrays !! t = Some array →
                     length array = N tree)
  ∧ (∀ inst, inst ∈ all_instances (bc_forest trees) →
             ∃ sig, bc_sig_of trees inst sig).

(** [val] gives the arrays of the input at the leaves. *)
Definition leaf_values (arrays : list (list Tensor))
    (val : nat → TreeNode → Tensor) : Prop :=
  ∀ t array i a, arrays !! t = Some array → array !! i = Some a →
                 val t (leaf i) = a.

(** The invariant of the [while] loop and of the loop over a group. *)
Definition bc_invariant (trees : list ContractionTree)
    (val : nat → TreeNode → Tensor) (st : State) (todo : list Instance)
  : Prop :=
  sched_inv (bc_forest trees) val (bc_sig_of trees)
            (tree_active_nodes st) (ready st) (promoted st) todo.

End SpecBatchContract.

(** ** Hypotheses and statements about [batch_tn/batch.py] *)

Section SpecBatch.
Context {B : Backend}.
Import Batch.

(** The entries of a contraction list that have two children: the ones
    that [get_batched_contractions] enters into its dictionaries. *)
Definition tn_binary (contractions : list Contraction)
  : list (TreeNode * (TreeNode * TreeNode)) :=
  omap (λ '(p, l, r, _),
          match l, r with
          | Some l, Some r => Some (p, (l, r))
          | _, _ => None
          end) contractions.

(** The equations of the entries with two children. *)
Definition tn_eqs (contractions : list Contraction) : list (TreeNode * str) :=
  omap (λ '(p, l, r, eq),
          match l, r with
          | Some _, Some _ => Some (p, eq)
          | _, _ => None
          end) contractions.

Definition tn_forest (contractions_batch : list (list Contraction))
    (arrays_batch : list (list Tensor)) : Forest :=
  map (λ '(contractions, arrays), (length arrays, tn_binary contractions))
      (zip contractions_batch arrays_batch).

(** The key under which the file registers an instance: the equation of
    the parent and the shapes of the two children. *)
Definition tn_sig_of (contractions_batch : list (list Contraction))
    (val : nat → TreeNode → Tensor) (inst : Instance) (sig : Signature)
  : Prop :=
  let '(t, p, l, r) := inst in
  let '(eq, shape_left, shape_right) := sig in
  ∃ contractions,
    contractions_batch !! t = Some contractions
    ∧ dget p (eq_map (build_maps contractions)) = Some eq
    ∧ shape_left = tshape (val t l) ∧ shape_right = tshape (val t r).

(** The instances registered before the loop (lines 90-97). *)
Definition tn_ready_entries (t : nat) (nodes : dict TreeNode ArrayShape)
    (contractions : list Contraction) : list Instance :=
  omap (λ '(p, l, r, _),
          match l, r with
          | Some l, Some r =>
            if dmem l nodes && dmem r nodes then Some (t, p, l, r) else None
          | _, _ => None
          end) contractions.

Definition tn_initial_ready (contractions_batch : list (list Contraction))
    (shapes_batch : list (list ArrayShape)) : list Instance :=
  flat_map (λ '(t, (contractions, shapes)),
              tn_ready_entries t (leaf_dict shapes) contractions)
           (enumerate (zip contractions_batch shapes_batch)).

(** The key under which an instance is registered before the loop: the
    equation of its entry and the shapes of the two leaves. *)
Definition tn_initial_key (contractions_batch : list (list Contraction))
    (shapes_batch : list (list ArrayShape)) (inst : Instance)
    (sig : Signature) : Prop :=
  let '(t, p, l, r) := inst in
  let '(eq, shape_left, shape_right) := sig in
  ∃ contractions shapes,
    contractions_batch !! t = Some contractions
    ∧ shapes_batch !! t = Some shapes
    ∧ (p, Some l, Some r, eq) ∈ contractions
    ∧ dget l (leaf_dict shapes) = Some shape_left
    ∧ dget r (leaf_dict shapes) = Some shape_right.

(** A well-formed input: one array list per contraction list, and the
    entries with two children of every contraction list are those of a
    binary tree over as many leaves as there are arrays. *)
Definition tn_well_formed (contractions_batch : list (list Contraction))
    (arrays_batch : list (list Tensor)) : Prop :=
  length contractions_batch = length arrays_batch
  ∧ wf_forest (tn_forest contractions_batch arrays_batch).

(** The shapes that [get_result_shape] computes are those of the tensors. *)
Definition tn_shapes_sound (contractions_batch : list (list Contraction))
    (arrays_batch : list (list Tensor)) (val : nat → TreeNode → Tensor)
  : Prop :=
  ∀ t p l r eq shape_left shape_right,
    (t, p, l, r) ∈ all_instances (tn_forest contractions_batch arrays_batch) →
    tn_sig_of contractions_batch val (t, p, l, r) (eq, shape_left, shape_right) →
    get_result_shape eq [shape_left; shape_right] = Ok (tshape (val t p)).

(** The contract of the backend, as for the first file. *)
Definition tn_backend_sound (contractions_batch : list (list Contraction))
    (arrays_batch : list (list Tensor)) (val : nat → TreeNode → Tensor)
  : Prop :=
  ∀ sig group,
    group ≠ [] →
    Forall (λ inst,
              inst ∈ all_instances (tn_forest contractions_batch arrays_batch)
              ∧ tn_sig_of contractions_batch val inst sig) group →
    batched_call (get_batched_einsum_equation sig.1.1 None)
      (map (λ '(t, _, l, _), val t l) group)
      (map (λ '(t, _, _, r), val t r) group)
      (map (λ '(t, p, _, _), val t p) group).

(** A batch of a schedule can be run when the log is [L]: its targets are
    distinct ready instances that share a key with the equation of the
    batch. *)
Definition tn_batch_valid (contractions_batch : list (list Contraction))
    (arrays_batch : list (list Tensor)) (val : nat → TreeNode → Tensor)
    (L : list Instance) (batch : str * list Instance) : Prop :=
  batch.2 ≠ []
  ∧ NoDup batch.2
  ∧ Forall (pending (tn_forest contractions_batch arrays_batch) L) batch.2
  ∧ ∃ shape_left shape_right,
      Forall (λ inst, tn_sig_of contractions_batch val inst
                                (batch.1, shape_left, shape_right)) batch.2.

Fixpoint tn_replayable (contractions_batch : list (list Contraction))
    (arrays_batch : list (list Tensor)) (val : nat → TreeNode → Tensor)
    (L : list Instance) (batched : list (str * list Instance)) : Prop :=
  match batched with
  | [] => True
  | batch :: rest =>
    tn_batch_valid contractions_batch arrays_batch val L batch
    ∧ tn_replayable contractions_batch arrays_batch val (L ++ batch.2) rest
  end.

(** The invariant of the [while] loop of [get_batched_contractions] and of
    its loop over the targets of a group. *)
Definition tn_invariant (contractions_batch : list (list Contraction))
    (arrays_batch : list (list Tensor)) (val : nat → TreeNode → Tensor)
    (st : Sched) (L todo : list Instance) : Prop :=
  sched_inv (tn_forest contractions_batch arrays_batch)
            (λ t x, tshape (val t x))
            (tn_sig_of contractions_batch val)
            (node2shape_batch st) (contractible st) L todo
  ∧ concat (batched_contractions st).*2 = L ++ todo
  ∧ tn_replayable contractions_batch arrays_batch val []
                  (batched_contractions st).

End SpecBatch.

(** ** The example trees as binary trees, and the shapes of their nodes *)

Module Witness.
Import Examples.

Definition bt2 : btree := BNode root2 (BLeaf 0) (BLeaf 1).

Definition bt3 : btree := BNode root3 (BNode node01 (BLeaf 0) (BLeaf 1)) (BLeaf 2).

(** The shape of every node of [tree2] and of [tree3]. *)
Definition val2 (x : TreeNode) : ArrayShape :=
  match BatchContract.get_node_shape tree2 x with
  | Ok shape => shape
  | Raise _ => []
  end.

Definition val3 (x : TreeNode) : ArrayShape :=
  match BatchContract.get_node_shape tree3 x with
  | Ok shape => shape
  | Raise _ => []
  end.

End Witness.

(** ** Reading the dictionaries of a batch *)

(** The value of node [x] in the dictionary of tree [t], if any. *)
Definition node_at {V} (dicts : list (dict TreeNode V)) (t : nat)
    (x : TreeNode) : option V :=
  nodes ← dicts !! t; dget x nodes.

(** ** A measure for the loops *)

(** The number of entries of all the dictionaries of a batch together. *)
Definition dict_size {K V} (dicts : list (dict K V)) : nat :=
  sum_list (map length dicts).

(** ** Entries with a missing child *)

(** The entry has both children. *)
Definition is_binary (c : Batch.Contraction) : bool :=
  match c with
  | (_, Some _, Some _, _) => true
  | _ => false
  end.

(** The entries of a contraction list that have both children. *)
Definition binary_only (contractions : list Batch.Contraction)
  : list Batch.Contraction :=
  List.filter is_binary contractions.

(** ** Copies of one tree in a batch *)

(** An entry [(parent, left, right)] of one tree; with the index of a tree
    it is an instance. *)
Abbreviation Entry := (TreeNode * TreeNode * TreeNode)%type.

Definition tag (t : nat) (e : Entry) : Instance :=
  let '(p, l, r) := e in (t, p, l, r).

(** The instances of the entries [seg] in trees [0], ..., [n - 1], tree by
    tree. *)
Definition expand (n : nat) (seg : list Entry) : list Instance :=
  flat_map (λ t, map (tag t) seg) (seq 0 n).

(** [ln] lists, for [n] copies of a tree, the instances that [l1] lists for
    the tree alone: [l1] is cut into segments and every segment is repeated
    for each copy in turn. *)
Definition replicated (n : nat) (l1 ln : list Instance) : Prop :=
  ∃ segs : list (list Entry),
    l1 = map (tag 0) (concat segs) ∧ ln = flat_map (expand n) segs.

(** The table after the instances of [A] in tree [t] have been appended
    under their keys, in order. *)
Definition extend {K} {EqK : EqDecision K} (table : dict K (list Instance))
    (A : list (K * Entry)) (t : nat) : dict K (list Instance) :=
  foldl (λ table '(k, e), dappend k (tag t e) table) table A.

(** The entries that [A] lists under the key [k]. *)
Definition select {K} {EqK : EqDecision K} (k : K) (A : list (K * Entry))
  : list Entry :=
  omap (λ '(k', e), if decide (k' = k) then Some e else None) A.

(** Lines 109-124 of [batch_tn/batch.py] for one target, as they act on the
    dictionary of the target's tree: the new dictionary and the instance
    registered for the grandparent, if any, with its key. *)
Definition promote_tree (m : Batch.Maps) (result_shape : ArrayShape)
    (e : Entry) (nodes : dict TreeNode ArrayShape)
  : result (dict TreeNode ArrayShape * list (Signature * Entry)) :=
  let '(parent, left_, right_) := e in
  '(_, nodes) ← dpop left_ nodes;
  '(_, nodes) ← dpop right_ nodes;
  let nodes := dset parent result_shape nodes in
  match dget parent (Batch.parent_map m) with
  | None => Ok (nodes, [])
  | Some grandparent =>
    '(grand_left, grand_right) ← dindex grandparent (Batch.children_map m);
    if dmem grand_left nodes && dmem grand_right nodes then
      shape_left ← dindex grand_left nodes;
      shape_right ← dindex grand_right nodes;
      eq ← dindex grandparent (Batch.eq_map m);
      Ok (nodes, [((eq, shape_left, shape_right),
                   (grandparent, grand_left, grand_right))])
    else Ok (nodes, [])
  end.

(** The same for a list of targets of one tree. *)
Definition promote_tree_all (m : Batch.Maps) (result_shape : ArrayShape)
    (seg : list Entry)
    (acc : dict TreeNode ArrayShape * list (Signature * Entry))
  : result (dict TreeNode ArrayShape * list (Signature * Entry)) :=
  for_each (λ e '(nodes, A),
              '(nodes', a) ← promote_tree m result_shape e nodes;
              Ok (nodes', A ++ a)) seg acc.

(** The instances that lines 91-97 register for one tree, with their
    keys. *)
Definition register_tree (node2shape : dict TreeNode ArrayShape)
    (contractions : list Batch.Contraction) : list (Signature * Entry) :=
  omap (λ '(parent, left_, right_, eq),
          match left_, right_ with
          | Some left_, Some right_ =>
            match dget left_ node2shape, dget right_ node2shape with
            | Some shape_left, Some shape_right =>
              Some ((eq, shape_left, shape_right), (parent, left_, right_))
            | _, _ => None
            end
          | _, _ => None
          end) contractions.

(** The table for [n] copies of a tree against the table for the tree
    alone: the same keys in the same order, and under every key the
    instances of the copies. *)
Definition table_rel {K} {EqK : EqDecision K} (n : nat)
    (T1 Tn : dict K (list Instance)) : Prop :=
  T1.*1 = Tn.*1 ∧ NoDup T1.*1
  ∧ ∀ k, replicated n (default [] (dget k T1)) (default [] (dget k Tn)).

(** The state of [get_batched_contractions] on [n] copies of a tree
    against its state on the tree alone. *)
Definition sched_sim (n : nat) (st1 stn : Batch.Sched) : Prop :=
  ∃ nodes,
    Batch.node2shape_batch st1 = [nodes]
    ∧ Batch.node2shape_batch stn = replicate n nodes
    ∧ table_rel n (Batch.contractible st1) (Batch.contractible stn)
    ∧ Forall2 (λ b1 bn, b1.1 = bn.1 ∧ replicated n b1.2 bn.2)
              (Batch.batched_contractions st1)
              (Batch.batched_contractions stn).

(** ** The dictionaries as the log determines them *)

(** The effect of one promotion on the dictionaries (lines 142-144 of
    [batch_contract.py], lines 109-111 of [batch_tn/batch.py]): the left and
    the right node are popped from the dictionary of the tree and the parent
    is assigned its value. *)
Definition promote_nodes {V} (value : nat → TreeNode → V)
    (dicts : list (dict TreeNode V)) (inst : Instance)
  : list (dict TreeNode V) :=
  let '(t, p, l, r) := inst in
  match dicts !! t with
  | Some nodes => <[t := dset p (value t p) (ddel r (ddel l nodes))]> dicts
  | None => dicts
  end.

(** The dictionaries after the promotions of a log, in order. *)
Definition replay_log {V} (value : nat → TreeNode → V) (L : list Instance)
    (dicts : list (dict TreeNode V)) : list (dict TreeNode V) :=
  foldl (promote_nodes value) dicts L.

(** ** Forests that do not reduce to one node *)

Module Incomplete.

(** Two leaves and no entry, for [batch_contract.py]; the same forest in
    [batch_tn/batch.py] is the empty contraction list with two arrays. *)
Definition tree2_no_entry : BatchContract.ContractionTree :=
  {| BatchContract.N := 2;
     BatchContract.children := [];
     BatchContract.size_dict := BatchContract.size_dict Examples.tree2;
     BatchContract.get_inds := BatchContract.get_inds Examples.tree2;
     BatchContract.get_einsum_eq := BatchContract.get_einsum_eq Examples.tree2 |}.

(** Three leaves of which the first two are contracted and the third is
    left alone: the chain of [Examples.tree3] without its root. *)
Definition tree3_no_root : BatchContract.ContractionTree :=
  {| BatchContract.N := 3;
     BatchContract.children := [(Examples.node01, (leaf 0, leaf 1))];
     BatchContract.size_dict := BatchContract.size_dict Examples.tree3;
     BatchContract.get_inds := BatchContract.get_inds Examples.tree3;
     BatchContract.get_einsum_eq := BatchContract.get_einsum_eq Examples.tree3 |}.

Definition contractions3_no_root : list Batch.Contraction :=
  [(Examples.node01, Some (leaf 0), Some (leaf 1), Examples.matmul)].

End Incomplete.

(** * Strings: [split] and [join] *)

Section SplitJoin.
Variables (c0 : Z) (rs : str).
Let sep : str := c0 :: rs.

Lemma split_from_skip (k b : str) :
  split_from sep (length k) (k ++ b) = split_from sep 0 b.
Proof. induction k as [|x k IH]; simpl; [done | apply IH]. Qed.

Lemma is_prefix_app (p s : str) : is_prefix p (p ++ s) = true.
Proof.
  unfold is_prefix. apply bool_decide_eq_true_2.
  by rewrite take_app_length.
Qed.

Lemma is_prefix_head (x : Z) (s : str) : x ≠ c0 → is_prefix sep (x :: s) = false.
Proof.
  intros Hx. unfold is_prefix, sep. apply bool_decide_eq_false_2.
  simpl. congruence.
Qed.

Lemma split_none (a : str) : c0 ∉ a → split sep a = [a].
Proof.
  unfold split. induction a as [|x a IH]; intros Hin; simpl; [done|].
  apply not_elem_of_cons in Hin as [Hx Ha].
  fold sep. rewrite (is_prefix_head x a) by congruence.
  by rewrite IH.
Qed.

Lemma split_app_sep (a b : str) :
  c0 ∉ a → split sep (a ++ sep ++ b) = a :: split sep b.
Proof.
  unfold split. induction a as [|x a IH]; intros Hin.
  - change ([] ++ sep ++ b) with (c0 :: rs ++ b).
    cbn [split_from]. fold sep.
    change (c0 :: rs ++ b) with (sep ++ b). rewrite is_prefix_app.
    replace (length sep - 1) with (length rs) by (unfold sep; simpl; lia).
    by rewrite split_from_skip.
  - apply not_elem_of_cons in Hin as [Hx Ha].
    change ((x :: a) ++ sep ++ b) with (x :: (a ++ sep ++ b)).
    cbn [split_from]. fold sep.
    rewrite is_prefix_head by congruence.
    by rewrite IH.
Qed.

Lemma split_join (pieces : list str) :
  pieces ≠ [] → Forall (λ p, c0 ∉ p) pieces →
  split sep (join sep pieces) = pieces.
Proof.
  induction pieces as [|p ps IH]; intros Hne Hall; [done|].
  apply Forall_cons in Hall as [Hp Hps].
  destruct ps as [|q ps].
  - simpl. by apply split_none.
  - change (join sep (p :: q :: ps)) with (p ++ sep ++ join sep (q :: ps)).
    rewrite split_app_sep by done. by rewrite IH.
Qed.

End SplitJoin.

Lemma not_elem_of_join (c : Z) (sep : str) (pieces : list str) :
  c ∉ sep → Forall (λ p, c ∉ p) pieces → c ∉ join sep pieces.
Proof.
  intros Hsep. induction 1 as [|p ps Hp Hps IH]; simpl.
  - apply not_elem_of_nil.
  - destruct ps as [|q ps]; [done|].
    rewrite !not_elem_of_app. auto.
Qed.

Lemma foldl_max_ge (s : str) (c : Z) : (c ≤ foldl Z.max c s)%Z.
Proof. revert c. induction s as [|x s IH]; intros c; simpl; [lia|]. specialize (IH (Z.max c x)). lia. Qed.

Lemma foldl_max_upper (s : str) (c x : Z) : x ∈ s → (x ≤ foldl Z.max c s)%Z.
Proof.
  revert c. induction s as [|y s IH]; intros c Hin; simpl.
  - by apply elem_of_nil in Hin.
  - apply elem_of_cons in Hin as [->|Hin].
    + pose proof (foldl_max_ge s (Z.max c y)). lia.
    + by apply IH.
Qed.

Lemma foldl_max_bound (s : str) (c b : Z) :
  (c < b)%Z → Forall (λ x, (x < b)%Z) s → (foldl Z.max c s < b)%Z.
Proof.
  revert c. induction s as [|y s IH]; intros c Hc Hall; simpl; [done|].
  apply Forall_cons in Hall as [Hy Hs]. apply IH; [lia | done].
Qed.

Lemma max_ord_upper (s : str) (top x : Z) :
  max_ord s = Ok top → x ∈ s → (x ≤ top)%Z.
Proof.
  destruct s as [|c s]; simpl; [done|]. intros [= <-] Hin.
  apply elem_of_cons in Hin as [->|Hin].
  - apply foldl_max_ge.
  - by apply foldl_max_upper.
Qed.

(** * The batched equation *)

Lemma split_equation (terms : list str) (output : str) :
  terms ≠ [] →
  Forall (λ t, (44%Z ∉ t) ∧ (45%Z ∉ t)) terms →
  45%Z ∉ output →
  split arrow (join comma terms ++ arrow ++ output)
  = [join comma terms; output]
  ∧ split comma (join comma terms) = terms.
Proof.
  intros Hne Hterms Hout. split.
  - change arrow with (45 :: [62])%Z.
    rewrite split_app_sep.
    + by rewrite split_none.
    + apply not_elem_of_join.
      * unfold comma. by intros [?|?%elem_of_nil]%elem_of_cons.
      * eapply Forall_impl; [exact Hterms|]. by intros t [_ ?].
  - change comma with (44 :: [])%Z. apply split_join; [done|].
    eapply Forall_impl; [exact Hterms|]. by intros t [? _].
Qed.

(** C4, as amended.  For an equation [t1,...,tn->out] whose terms contain
    neither a comma nor a hyphen: the function of [batch_tn/batch.py],
    called without a batch symbol on an equation whose code points are below
    U+10FFFF, prepends the single character that follows the largest
    character of the equation, which does not occur in the equation, to
    every input term and to the output; the function of [batch_contract.py]
    prepends the fixed ellipsis ["..."] instead. *)
Theorem batched_equation_prefix (terms : list str) (output : str) :
  terms ≠ [] →
  Forall (λ t, (44%Z ∉ t) ∧ (45%Z ∉ t)) terms →
  45%Z ∉ output →
  let eq := join comma terms ++ arrow ++ output in
  (Forall (λ c, (c < max_code_point)%Z) eq →
   ∃ z, max_ord eq = Ok (z - 1)%Z ∧ (z ∉ eq) ∧
        Batch.get_batched_einsum_equation eq None
        = Ok (join comma (map (cons z) terms) ++ arrow ++ z :: output)) ∧
  BatchContract.get_batched_einsum_equation eq
  = Ok (join comma (map (app ellipsis) terms) ++ arrow ++ ellipsis ++ output).
Proof.
  intros Hne Hterms Hout eq.
  destruct (split_equation terms output Hne Hterms Hout) as [Harrow Hcomma].
  fold eq in Harrow. split.
  - intros Hbound.
    assert (Hin : 45%Z ∈ eq).
    { unfold eq, arrow. rewrite !elem_of_app. right. left. apply elem_of_cons. by left. }
    destruct (max_ord eq) as [top|e] eqn:Htop.
    2:{ destruct eq; [by apply elem_of_nil in Hin | done]. }
    exists (top + 1)%Z.
    assert (Hlow : (45 ≤ top)%Z) by (by eapply max_ord_upper).
    assert (Hup : (top < max_code_point)%Z).
    { destruct eq as [|c s]; [done|]. simpl in Htop. injection Htop as <-.
      apply Forall_cons in Hbound as [Hc Hs]. by apply foldl_max_bound. }
    split; [f_equal; lia|]. split.
    { intros Hz. pose proof (max_ord_upper _ _ _ Htop Hz). lia. }
    unfold Batch.get_batched_einsum_equation. rewrite Htop. simpl.
    unfold chr. rewrite bool_decide_eq_true_2 by lia. simpl.
    rewrite Harrow. simpl. by rewrite Hcomma.
  - unfold BatchContract.get_batched_einsum_equation.
    rewrite Harrow. simpl. by rewrite Hcomma.
Qed.

Lemma batched_equation_prefix_witness :
  let eq := Examples.matmul in
  (∃ z, max_ord eq = Ok (z - 1)%Z ∧ (z ∉ eq) ∧
        Batch.get_batched_einsum_equation eq None
        = Ok (join comma (map (cons z) [py "ab"; py "bc"])
              ++ arrow ++ z :: py "ac")) ∧
  BatchContract.get_batched_einsum_equation eq
  = Ok (join comma (map (app ellipsis) [py "ab"; py "bc"])
        ++ arrow ++ ellipsis ++ py "ac").
Proof.
  pose proof (batched_equation_prefix [py "ab"; py "bc"] (py "ac")) as Hthm.
  destruct Hthm as [Hfresh Hdots].
  - discriminate.
  - repeat constructor; vm_compute; intros Hin;
      repeat (apply elem_of_cons in Hin as [Hin|Hin]; [discriminate|]);
      by apply elem_of_nil in Hin.
  - vm_compute; intros Hin;
      repeat (apply elem_of_cons in Hin as [Hin|Hin]; [discriminate|]);
      by apply elem_of_nil in Hin.
  - split; [|exact Hdots]. apply Hfresh.
    repeat constructor.
Defined.

(** C4, as stated, fails for [batch_contract.py]: the example equation of
    the claim is not turned into ["zab,zbc->zac"] for any symbol [z]. *)
Lemma batched_equation_ellipsis_counterexample :
  ¬ ∃ z : Z,
      BatchContract.get_batched_einsum_equation (py "ab,bc->ac")
      = Ok ([z] ++ py "ab," ++ [z] ++ py "bc->" ++ [z] ++ py "ac").
Proof. intros [z Hz]. vm_compute in Hz. discriminate Hz. Qed.

(** * The empty input *)

(** C10.  Both [batch_contract] functions return the empty list on an empty
    list of trees and an empty list of array lists. *)
Theorem batch_contract_empty (B : Backend) (fuel : nat) :
  BatchContract.batch_contract fuel [] [] = Some (Ok [])
  ∧ Batch.batch_contract fuel [] [] = Some (Ok []).
Proof. by destruct fuel. Qed.

(** * Dictionaries: lookups after updates *)

Section DictFacts.
Context {K V : Type} {EqK : EqDecision K}.
Implicit Types (k : K) (v : V) (d : dict K V).

Lemma dget_Some_elem_of k v d : dget k d = Some v → (k, v) ∈ d.
Proof.
  induction d as [|[k' v'] d IH]; simpl; [done|].
  destruct (decide (k = k')) as [->|Hne].
  - intros [= ->]. apply elem_of_cons. by left.
  - intros Hget. apply elem_of_cons. right. by apply IH.
Qed.

Lemma dget_None k d : dget k d = None ↔ k ∉ d.*1.
Proof.
  induction d as [|[k' v'] d IH]; simpl.
  - split; [intros _; apply not_elem_of_nil | done].
  - rewrite not_elem_of_cons. destruct (decide (k = k')) as [->|Hne].
    + split; [done | by intros [? _]].
    + rewrite IH. tauto.
Qed.

Lemma dget_is_Some k d : is_Some (dget k d) ↔ k ∈ d.*1.
Proof.
  destruct (dget k d) as [v|] eqn:Hget.
  - split; [intros _ | by eauto].
    apply dget_Some_elem_of in Hget.
    apply list_elem_of_fmap. by exists (k, v).
  - apply dget_None in Hget. split; [by intros [? ?] | done].
Qed.

Lemma elem_of_dget k v d : NoDup d.*1 → (k, v) ∈ d → dget k d = Some v.
Proof.
  induction d as [|[k' v'] d IH]; simpl; intros Hnd Hin.
  - by apply elem_of_nil in Hin.
  - apply NoDup_cons in Hnd as [Hk' Hnd].
    apply elem_of_cons in Hin as [[= -> ->]|Hin].
    + by rewrite decide_True.
    + rewrite decide_False; [by apply IH|].
      intros ->. apply Hk'. apply list_elem_of_fmap. by exists (k', v).
Qed.

Lemma dmem_true k d : dmem k d = true ↔ is_Some (dget k d).
Proof.
  unfold dmem. by destruct (dget k d); split; intros Hx.
Qed.

Lemma dmem_false k d : dmem k d = false ↔ dget k d = None.
Proof. unfold dmem. by destruct (dget k d). Qed.

Lemma dget_dset k' k v d :
  dget k' (dset k v d) = if decide (k' = k) then Some v else dget k' d.
Proof.
  induction d as [|[k0 v0] d IH]; simpl.
  - by destruct (decide (k' = k)).
  - destruct (decide (k = k0)) as [->|Hne]; simpl.
    + by destruct (decide (k' = k0)).
    + rewrite IH. destruct (decide (k' = k0)) as [->|?]; [|done].
      by rewrite decide_False.
Qed.

Lemma dset_keys k' k v d : k' ∈ (dset k v d).*1 ↔ k' = k ∨ k' ∈ d.*1.
Proof.
  rewrite <-!dget_is_Some, dget_dset.
  destruct (decide (k' = k)) as [->|Hne]; [split; eauto | intuition congruence].
Qed.

Lemma dset_fresh k v d : k ∉ d.*1 → dset k v d = d ++ [(k, v)].
Proof.
  induction d as [|[k0 v0] d IH]; simpl; [done|].
  rewrite not_elem_of_cons. intros [Hne Hnot].
  rewrite decide_False by done. by rewrite IH.
Qed.

Lemma NoDup_dset k v d : NoDup d.*1 → NoDup (dset k v d).*1.
Proof.
  induction d as [|[k0 v0] d IH]; simpl; intros Hnd.
  - apply NoDup_singleton.
  - apply NoDup_cons in Hnd as [Hk0 Hnd].
    destruct (decide (k = k0)) as [->|Hne]; simpl.
    + by apply NoDup_cons.
    + apply NoDup_cons. split; [|by apply IH].
      rewrite dset_keys. intros [?|?]; [congruence | done].
Qed.

Lemma dget_ddel_ne k' k d : k' ≠ k → dget k' (ddel k d) = dget k' d.
Proof.
  intros Hne. induction d as [|[k0 v0] d IH]; simpl; [done|].
  destruct (decide (k = k0)) as [->|Hne'].
  - by rewrite decide_False.
  - simpl. by rewrite IH.
Qed.

Lemma ddel_keys_subseteq k d : (ddel k d).*1 ⊆ d.*1.
Proof.
  induction d as [|[k0 v0] d IH]; simpl; [done|].
  destruct (decide (k = k0)); simpl.
  - intros x Hx. apply elem_of_cons. by right.
  - intros x [->|Hx]%elem_of_cons; apply elem_of_cons; auto.
Qed.

Lemma NoDup_ddel k d : NoDup d.*1 → NoDup (ddel k d).*1.
Proof.
  induction d as [|[k0 v0] d IH]; simpl; intros Hnd; [done|].
  apply NoDup_cons in Hnd as [Hk0 Hnd].
  destruct (decide (k = k0)); simpl; [done|].
  apply NoDup_cons. split; [|by apply IH].
  intros Hin. by apply Hk0, (ddel_keys_subseteq k).
Qed.

Lemma dget_ddel_eq k d : NoDup d.*1 → dget k (ddel k d) = None.
Proof.
  induction d as [|[k0 v0] d IH]; simpl; intros Hnd; [done|].
  apply NoDup_cons in Hnd as [Hk0 Hnd].
  destruct (decide (k = k0)) as [->|Hne]; simpl.
  - by apply dget_None.
  - rewrite decide_False by done. by apply IH.
Qed.

Lemma dget_ddel k' k d :
  NoDup d.*1 →
  dget k' (ddel k d) = if decide (k' = k) then None else dget k' d.
Proof.
  intros Hnd. destruct (decide (k' = k)) as [->|Hne].
  - by apply dget_ddel_eq.
  - by apply dget_ddel_ne.
Qed.

Lemma ddel_Permutation k v d :
  dget k d = Some v → d ≡ₚ (k, v) :: ddel k d.
Proof.
  induction d as [|[k0 v0] d IH]; simpl; [done|].
  destruct (decide (k = k0)) as [->|Hne].
  - by intros [= ->].
  - intros Hget. rewrite (IH Hget) at 1. apply Permutation_swap.
Qed.

Lemma ddel_length k v d : dget k d = Some v → length d = S (length (ddel k d)).
Proof. intros Hget. by rewrite (ddel_Permutation k v d Hget) at 1. Qed.

Lemma dset_length_le k v d : length (dset k v d) ≤ S (length d).
Proof.
  induction d as [|[k0 v0] d IH]; simpl; [done|].
  destruct (decide (k = k0)); simpl; lia.
Qed.

Lemma dict_of_app (acc l : list (K * V)) :
  NoDup (acc ++ l).*1 →
  foldl (λ d kv, dset kv.1 kv.2 d) acc l = acc ++ l.
Proof.
  revert acc. induction l as [|[k v] l IH]; intros acc Hnd; simpl.
  - by rewrite app_nil_r.
  - rewrite dset_fresh.
    + rewrite IH; rewrite <-app_assoc; [done|]. exact Hnd.
    + rewrite fmap_app in Hnd. apply NoDup_app in Hnd as (_ & Hdisj & _).
      intros Hin. apply (Hdisj k Hin). simpl. apply elem_of_cons. by left.
Qed.

Lemma dict_of_NoDup (l : list (K * V)) : NoDup l.*1 → dict_of l = l.
Proof. intros Hnd. unfold dict_of. by rewrite dict_of_app. Qed.

End DictFacts.

(** * The group table *)

Section GroupFacts.
Context {K I : Type} {EqK : EqDecision K}.
Implicit Types (k : K) (i : I) (d : dict K (list I)).

Lemma dget_dappend k' k i d :
  dget k' (dappend k i d)
  = if decide (k' = k) then Some (default [] (dget k d) ++ [i]) else dget k' d.
Proof.
  induction d as [|[k0 l0] d IH]; simpl.
  - by destruct (decide (k' = k)).
  - destruct (decide (k = k0)) as [->|Hne]; simpl.
    + by destruct (decide (k' = k0)).
    + rewrite IH. destruct (decide (k' = k0)) as [->|?]; [|done].
      by rewrite decide_False.
Qed.

Lemma dappend_keys k' k i d : k' ∈ (dappend k i d).*1 ↔ k' = k ∨ k' ∈ d.*1.
Proof.
  rewrite <-!dget_is_Some, dget_dappend.
  destruct (decide (k' = k)) as [->|Hne]; [split; eauto | intuition congruence].
Qed.

Lemma NoDup_dappend k i d : NoDup d.*1 → NoDup (dappend k i d).*1.
Proof.
  induction d as [|[k0 l0] d IH]; simpl; intros Hnd.
  - apply NoDup_singleton.
  - apply NoDup_cons in Hnd as [Hk0 Hnd].
    destruct (decide (k = k0)) as [->|Hne]; simpl.
    + by apply NoDup_cons.
    + apply NoDup_cons. split; [|by apply IH].
      rewrite dappend_keys. intros [?|?]; [congruence | done].
Qed.

Lemma concat_dappend k i d : concat (dappend k i d).*2 ≡ₚ concat d.*2 ++ [i].
Proof.
  induction d as [|[k0 l0] d IH]; simpl; [done|].
  destruct (decide (k = k0)) as [->|Hne]; simpl.
  - rewrite <-!app_assoc. apply Permutation_app_head, Permutation_app_comm.
  - by rewrite IH, app_assoc.
Qed.

Lemma elem_of_dappend k' l' k i d :
  (k', l') ∈ dappend k i d →
  (k', l') ∈ d ∨ (k' = k ∧ ∃ l0, l' = l0 ++ [i]).
Proof.
  induction d as [|[k0 l0] d IH]; simpl.
  - intros [[= -> ->]|[]%elem_of_nil]%elem_of_cons. right. split; [done|]. by exists [].
  - destruct (decide (k = k0)) as [->|Hne].
    + intros [[= -> ->]|Hin]%elem_of_cons.
      * right. split; [done|]. by exists l0.
      * left. apply elem_of_cons. by right.
    + intros [[= -> ->]|Hin]%elem_of_cons.
      * left. apply elem_of_cons. by left.
      * destruct (IH Hin) as [?|?]; [left; apply elem_of_cons; by right | by right].
Qed.

Lemma max_by_len_spec (best : K * list I) d :
  ∃ l, (max_by_len best d, l) ∈ best :: d
       ∧ ∀ k' l', (k', l') ∈ best :: d → length l' ≤ length l.
Proof.
  revert best. induction d as [|[k0 l0] d IH]; intros [kb lb]; simpl.
  - exists lb. split; [apply elem_of_cons; by left|].
    by intros k' l' [[= -> ->]|[]%elem_of_nil]%elem_of_cons.
  - case_bool_decide as Hlt.
    + destruct (IH (k0, l0)) as (l & Hin & Hmax). exists l. split.
      * apply elem_of_cons. by right.
      * intros k' l' [[= -> ->]|Hin']%elem_of_cons; [|by eapply Hmax].
        specialize (Hmax k0 l0 ltac:(apply elem_of_cons; by left)). lia.
    + destruct (IH (kb, lb)) as (l & Hin & Hmax). exists l. split.
      * apply elem_of_cons in Hin as [Heq|Hin]; apply elem_of_cons; [by left|].
        right. apply elem_of_cons. by right.
      * intros k' l' [[= -> ->]|[[= -> ->]|Hin']%elem_of_cons]%elem_of_cons.
        -- apply (Hmax kb lb). apply elem_of_cons. by left.
        -- specialize (Hmax kb lb ltac:(apply elem_of_cons; by left)).
           simpl in Hlt. lia.
        -- apply (Hmax k' l'). apply elem_of_cons. by right.
Qed.

Lemma dmax_spec d :
  d ≠ [] →
  ∃ k l, dmax d = Ok k ∧ (k, l) ∈ d
         ∧ ∀ k' l', (k', l') ∈ d → length l' ≤ length l.
Proof.
  destruct d as [|best d]; [done|]. intros _.
  destruct (max_by_len_spec best d) as (l & Hin & Hmax).
  by exists (max_by_len best d), l.
Qed.

Lemma any_values_true d :
  any_values d = true ↔ ∃ k l, (k, l) ∈ d ∧ l ≠ [].
Proof.
  unfold any_values. rewrite existsb_exists. split.
  - intros ([k l] & Hin & Hne). exists k, l. split; [by apply list_elem_of_In|].
    simpl in Hne. by destruct l.
  - intros (k & l & Hin & Hne). exists (k, l). split; [by apply list_elem_of_In|].
    simpl. by destruct l.
Qed.

Lemma any_values_false d :
  any_values d = false → Forall (λ kl, kl.2 ≠ []) d → d = [].
Proof.
  intros Hany Hall. destruct d as [|[k l] d]; [done|].
  apply Forall_cons in Hall as [Hl _]. simpl in *. by destruct l.
Qed.

(** The group chosen by a scheduler step: it is one of the longest lists of
    the table, and deleting its key leaves every other entry alone. *)
Lemma pop_largest d :
  NoDup d.*1 → d ≠ [] →
  ∃ k l, dmax d = Ok k ∧ dget k d = Some l
         ∧ (∀ k' l', (k', l') ∈ d → length l' ≤ length l)
         ∧ dget k (ddel k d) = None
         ∧ (∀ k', k' ≠ k → dget k' (ddel k d) = dget k' d)
         ∧ d ≡ₚ (k, l) :: ddel k d.
Proof.
  intros Hnd Hne. destruct (dmax_spec d Hne) as (k & l & Hmax & Hin & Hlen).
  exists k, l. assert (Hget : dget k d = Some l) by by apply elem_of_dget.
  split_and!; try done.
  - by apply dget_ddel_eq.
  - intros k' Hk'. by apply dget_ddel_ne.
  - by apply ddel_Permutation.
Qed.

End GroupFacts.

(** * Selection of the largest group *)

(** C3.  When the table holds a non-empty list, a step of either scheduler
    takes a signature whose list is at least as long as every list of the
    table, deletes the whole entry from the table (the other entries are
    kept as they are), and runs on exactly that list. *)
Theorem step_pops_largest_group (B : Backend) :
  (∀ (trees : list BatchContract.ContractionTree) (st : BatchContract.State),
     NoDup (BatchContract.ready st).*1 →
     any_values (BatchContract.ready st) = true →
     ∃ signature to_contract,
       dget signature (BatchContract.ready st) = Some to_contract
       ∧ (∀ sig' group', (sig', group') ∈ BatchContract.ready st →
                         length group' ≤ length to_contract)
       ∧ dget signature (ddel signature (BatchContract.ready st)) = None
       ∧ (∀ sig', sig' ≠ signature →
            dget sig' (ddel signature (BatchContract.ready st))
            = dget sig' (BatchContract.ready st))
       ∧ BatchContract.step trees st
         = (result_stack ← BatchContract.execute signature to_contract
                              (BatchContract.tree_active_nodes st);
            for_each (BatchContract.promote trees)
              (zip (rows result_stack) to_contract)
              {| BatchContract.ready := ddel signature (BatchContract.ready st);
                 BatchContract.tree_active_nodes :=
                   BatchContract.tree_active_nodes st;
                 BatchContract.promoted := BatchContract.promoted st |}))
  ∧ (∀ (maps : list Batch.Maps) (st : Batch.Sched),
       NoDup (Batch.contractible st).*1 →
       Batch.contractible st ≠ [] →
       ∃ eq shape_left shape_right targets,
         let key := (eq, shape_left, shape_right) in
         dget key (Batch.contractible st) = Some targets
         ∧ (∀ key' group', (key', group') ∈ Batch.contractible st →
                           length group' ≤ length targets)
         ∧ dget key (ddel key (Batch.contractible st)) = None
         ∧ (∀ key', key' ≠ key →
              dget key' (ddel key (Batch.contractible st))
              = dget key' (Batch.contractible st))
         ∧ Batch.step maps st
           = (result_shape ← Batch.get_result_shape eq [shape_left; shape_right];
              for_each (Batch.promote maps result_shape) targets
                {| Batch.contractible := ddel key (Batch.contractible st);
                   Batch.node2shape_batch := Batch.node2shape_batch st;
                   Batch.batched_contractions :=
                     Batch.batched_contractions st ++ [(eq, targets)] |})).
Proof.
  split.
  - intros trees st Hnd Hany.
    assert (Hne : BatchContract.ready st ≠ []).
    { intros Heq. by rewrite Heq in Hany. }
    destruct (pop_largest _ Hnd Hne)
      as (sig & group & Hmax & Hget & Hlen & Hgone & Hrest & _).
    exists sig, group. split_and!; try done.
    unfold BatchContract.step. rewrite Hmax. simpl.
    unfold dindex. by rewrite Hget.
  - intros maps st Hnd Hne.
    destruct (pop_largest _ Hnd Hne)
      as ([[eq sl] sr] & group & Hmax & Hget & Hlen & Hgone & Hrest & _).
    exists eq, sl, sr, group. split_and!; try done.
    unfold Batch.step. rewrite Hmax. simpl.
    unfold dpop. by rewrite Hget.
Qed.

Lemma step_pops_largest_group_witness :
  let st := Examples.state12 in
  let sched := Examples.sched12 in
  let trees := [Examples.tree3; Examples.tree2; Examples.tree2] in
  let maps := map Batch.build_maps
                  [Examples.contractions3; Examples.contractions2;
                   Examples.contractions2] in
  (∃ signature to_contract,
     dget signature (BatchContract.ready st) = Some to_contract
     ∧ (∀ sig' group', (sig', group') ∈ BatchContract.ready st →
                       length group' ≤ length to_contract)
     ∧ dget signature (ddel signature (BatchContract.ready st)) = None
     ∧ BatchContract.step trees st
       = (result_stack ← BatchContract.execute signature to_contract
                            (BatchContract.tree_active_nodes st);
          for_each (BatchContract.promote trees)
            (zip (rows result_stack) to_contract)
            {| BatchContract.ready := ddel signature (BatchContract.ready st);
               BatchContract.tree_active_nodes :=
                 BatchContract.tree_active_nodes st;
               BatchContract.promoted := BatchContract.promoted st |}))
  ∧ (∃ eq shape_left shape_right targets,
       dget (eq, shape_left, shape_right) (Batch.contractible sched)
       = Some targets
       ∧ (∀ key' group', (key', group') ∈ Batch.contractible sched →
                         length group' ≤ length targets)
       ∧ dget (eq, shape_left, shape_right)
              (ddel (eq, shape_left, shape_right) (Batch.contractible sched))
         = None).
Proof.
  intros st sched trees maps.
  assert (Hnd : NoDup Examples.table12.*1).
  { apply (bool_decide_unpack _). by vm_compute. }
  split.
  - destruct (proj1 (step_pops_largest_group ShapeBackend.backend) trees st)
      as (sig & group & Hget & Hlen & Hgone & _ & Hstep);
      [exact Hnd | reflexivity |].
    exists sig, group. by split_and!.
  - destruct (proj2 (step_pops_largest_group ShapeBackend.backend) maps sched)
      as (eq & sl & sr & group & Hget & Hlen & Hgone & _);
      [exact Hnd | discriminate |].
    exists eq, sl, sr, group. by split_and!.
Defined.

(** * Promotion of one instance *)

Lemma bind_Ok {A C} (m : result A) (f : A → result C) (c : C) :
  (m ≫= f) = Ok c → ∃ a, m = Ok a ∧ f a = Ok c.
Proof. destruct m as [a|e]; simpl; [by exists a | done]. Qed.

Lemma lindex_Ok {A} (i : nat) (l : list A) (a : A) :
  lindex i l = Ok a ↔ l !! i = Some a.
Proof. unfold lindex. destruct (l !! i); simpl; split; congruence. Qed.

Lemma dindex_Ok {K V} {EqK : EqDecision K} (k : K) (d : dict K V) (v : V) :
  dindex k d = Ok v ↔ dget k d = Some v.
Proof. unfold dindex. destruct (dget k d); simpl; split; congruence. Qed.

Lemma dpop_Ok {K V} {EqK : EqDecision K} (k : K) (d d' : dict K V) (v : V) :
  dpop k d = Ok (v, d') ↔ dget k d = Some v ∧ d' = ddel k d.
Proof.
  unfold dpop. destruct (dget k d) as [v0|]; simpl; split.
  - by intros [= -> ->].
  - by intros [[= ->] ->].
  - done.
  - by intros [? _].
Qed.

(** The lookups of the dictionary after [pop(left)], [pop(right)] and the
    assignment of the parent. *)
Lemma dget_promoted {V} (nodes : dict TreeNode V) (p l r n : TreeNode) (v : V) :
  NoDup nodes.*1 →
  dget n (dset p v (ddel r (ddel l nodes)))
  = if decide (n = p) then Some v
    else if decide (n = l ∨ n = r) then None else dget n nodes.
Proof.
  intros Hnd. rewrite dget_dset. destruct (decide (n = p)); [done|].
  rewrite dget_ddel by by apply NoDup_ddel.
  destruct (decide (n = r)) as [->|Hr].
  - rewrite decide_True; [done | by right].
  - rewrite dget_ddel by done.
    destruct (decide (n = l)) as [->|Hl].
    + rewrite decide_True; [done | by left].
    + rewrite decide_False; [done | by intros [?|?]].
Qed.

Section PromoteA.
Context {B : Backend}.
Import BatchContract.

Lemma bc_promote_inv trees st st' res t p l r :
  promote trees (res, (t, p, l, r)) st = Ok st' →
  ∃ tree nodes,
    trees !! t = Some tree
    ∧ tree_active_nodes st !! t = Some nodes
    ∧ is_Some (dget l nodes) ∧ is_Some (dget r (ddel l nodes))
    ∧ let nodes' := dset p res (ddel r (ddel l nodes)) in
      tree_active_nodes st' = <[t := nodes']> (tree_active_nodes st)
      ∧ promoted st' = promoted st ++ [(t, p, l, r)]
      ∧ match dget p (parent_dict tree) with
        | None => ready st' = ready st
        | Some g =>
          ∃ gl gr, dget g (children tree) = Some (gl, gr)
            ∧ if dmem gl nodes' && dmem gr nodes'
              then ∃ sig, extract_signature tree g = Ok sig
                          ∧ ready st' = dappend sig (t, g, gl, gr) (ready st)
              else ready st' = ready st
        end.
Proof.
  unfold promote. intros Hp.
  apply bind_Ok in Hp as (nodes & Hnodes%lindex_Ok & Hp).
  apply bind_Ok in Hp as ([v1 nodes1] & [Hl ->]%dpop_Ok & Hp).
  apply bind_Ok in Hp as ([v2 nodes2] & [Hr ->]%dpop_Ok & Hp).
  apply bind_Ok in Hp as (parents & Hparents%lindex_Ok & Hp).
  unfold tree_parent in Hparents. rewrite list_lookup_fmap in Hparents.
  destruct (trees !! t) as [tree|] eqn:Htree; [|done].
  simpl in Hparents. injection Hparents as <-.
  exists tree, nodes.
  split; [done|]. split; [done|]. split; [by eauto|]. split; [by eauto|].
  simpl. destruct (dget p (parent_dict tree)) as [g|].
  - apply bind_Ok in Hp as (tree' & Htree'%lindex_Ok & Hp).
    rewrite Htree in Htree'. injection Htree' as <-.
    apply bind_Ok in Hp as ([gl gr] & Hg%dindex_Ok & Hp).
    destruct (dmem gl _ && dmem gr _) eqn:Hmem.
    + apply bind_Ok in Hp as (sig & Hsig & Hp). injection Hp as <-. simpl.
      split; [done|]. split; [done|]. exists gl, gr. split; [done|].
      rewrite Hmem. by exists sig.
    + injection Hp as <-. simpl. split; [done|]. split; [done|].
      exists gl, gr. split; [done|]. by rewrite Hmem.
  - injection Hp as <-. by simpl.
Qed.

End PromoteA.

Section PromoteB.
Import Batch.

Lemma tn_promote_inv maps result_shape st st' t p l r :
  promote maps result_shape (t, p, l, r) st = Ok st' →
  ∃ m nodes,
    maps !! t = Some m
    ∧ node2shape_batch st !! t = Some nodes
    ∧ is_Some (dget l nodes) ∧ is_Some (dget r (ddel l nodes))
    ∧ let nodes' := dset p result_shape (ddel r (ddel l nodes)) in
      node2shape_batch st' = <[t := nodes']> (node2shape_batch st)
      ∧ batched_contractions st' = batched_contractions st
      ∧ match dget p (parent_map m) with
        | None => contractible st' = contractible st
        | Some g =>
          ∃ gl gr, dget g (children_map m) = Some (gl, gr)
            ∧ if dmem gl nodes' && dmem gr nodes'
              then ∃ eq sl sr,
                     dget g (eq_map m) = Some eq
                     ∧ dget gl nodes' = Some sl ∧ dget gr nodes' = Some sr
                     ∧ contractible st'
                       = dappend (eq, sl, sr) (t, g, gl, gr) (contractible st)
              else contractible st' = contractible st
        end.
Proof.
  unfold promote. intros Hp.
  apply bind_Ok in Hp as (nodes & Hnodes%lindex_Ok & Hp).
  apply bind_Ok in Hp as ([v1 nodes1] & [Hl ->]%dpop_Ok & Hp).
  apply bind_Ok in Hp as ([v2 nodes2] & [Hr ->]%dpop_Ok & Hp).
  apply bind_Ok in Hp as (m & Hm%lindex_Ok & Hp).
  exists m, nodes.
  split; [done|]. split; [done|]. split; [by eauto|]. split; [by eauto|].
  simpl. destruct (dget p (parent_map m)) as [g|].
  - apply bind_Ok in Hp as ([gl gr] & Hg%dindex_Ok & Hp).
    destruct (dmem gl _ && dmem gr _) eqn:Hmem.
    + apply bind_Ok in Hp as (sl & Hsl%dindex_Ok & Hp).
      apply bind_Ok in Hp as (sr & Hsr%dindex_Ok & Hp).
      apply bind_Ok in Hp as (eq & Heq%dindex_Ok & Hp).
      injection Hp as <-. simpl.
      split; [done|]. split; [done|]. exists gl, gr. split; [done|].
      rewrite Hmem. by exists eq, sl, sr.
    + injection Hp as <-. simpl. split; [done|]. split; [done|].
      exists gl, gr. split; [done|]. by rewrite Hmem.
  - injection Hp as <-. by simpl.
Qed.

End PromoteB.

Lemma dappend_neq {K I} {EqK : EqDecision K} (k : K) (i : I) (d : dict K (list I)) :
  dappend k i d ≠ d.
Proof.
  intros Heq. pose proof (concat_dappend k i d) as Hperm.
  rewrite Heq in Hperm. apply Permutation_length in Hperm.
  rewrite length_app in Hperm. simpl in Hperm. lia.
Qed.

(** C2.  A successful promotion of [(tree_idx, parent, left, right)] pops
    [left] and [right] from the tree's dictionary and assigns the result to
    [parent]; the table gets the instance of the grandparent appended exactly
    when [parent] has an entry in the parent dictionary and both children of
    that grandparent are keys of the updated dictionary, and is unchanged
    otherwise.  This holds for the promotion on tensors of
    [batch_contract.py] and for the promotion on shapes of
    [batch_tn/batch.py]. *)
Theorem promote_effect (B : Backend) :
  (∀ trees st st' res t p l r,
     BatchContract.promote trees (res, (t, p, l, r)) st = Ok st' →
     ∃ tree nodes nodes',
       trees !! t = Some tree
       ∧ BatchContract.tree_active_nodes st !! t = Some nodes
       ∧ is_Some (dget l nodes) ∧ is_Some (dget r (ddel l nodes))
       ∧ nodes' = dset p res (ddel r (ddel l nodes))
       ∧ BatchContract.tree_active_nodes st'
         = <[t := nodes']> (BatchContract.tree_active_nodes st)
       ∧ (NoDup nodes.*1 →
          ∀ n, dget n nodes'
               = if decide (n = p) then Some res
                 else if decide (n = l ∨ n = r) then None else dget n nodes)
       ∧ ((∃ sig g gl gr,
             BatchContract.ready st'
             = dappend sig (t, g, gl, gr) (BatchContract.ready st)
             ∧ dget p (BatchContract.parent_dict tree) = Some g
             ∧ dget g (BatchContract.children tree) = Some (gl, gr)
             ∧ BatchContract.extract_signature tree g = Ok sig)
          ↔ (∃ g gl gr,
               dget p (BatchContract.parent_dict tree) = Some g
               ∧ dget g (BatchContract.children tree) = Some (gl, gr)
               ∧ dmem gl nodes' = true ∧ dmem gr nodes' = true))
       ∧ ((¬ ∃ g gl gr,
               dget p (BatchContract.parent_dict tree) = Some g
               ∧ dget g (BatchContract.children tree) = Some (gl, gr)
               ∧ dmem gl nodes' = true ∧ dmem gr nodes' = true) →
          BatchContract.ready st' = BatchContract.ready st))
  ∧ (∀ maps result_shape st st' t p l r,
       Batch.promote maps result_shape (t, p, l, r) st = Ok st' →
       ∃ m nodes nodes',
         maps !! t = Some m
         ∧ Batch.node2shape_batch st !! t = Some nodes
         ∧ is_Some (dget l nodes) ∧ is_Some (dget r (ddel l nodes))
         ∧ nodes' = dset p result_shape (ddel r (ddel l nodes))
         ∧ Batch.node2shape_batch st'
           = <[t := nodes']> (Batch.node2shape_batch st)
         ∧ (NoDup nodes.*1 →
            ∀ n, dget n nodes'
                 = if decide (n = p) then Some result_shape
                   else if decide (n = l ∨ n = r) then None else dget n nodes)
         ∧ ((∃ eq sl sr g gl gr,
               Batch.contractible st'
               = dappend (eq, sl, sr) (t, g, gl, gr) (Batch.contractible st)
               ∧ dget p (Batch.parent_map m) = Some g
               ∧ dget g (Batch.children_map m) = Some (gl, gr)
               ∧ dget g (Batch.eq_map m) = Some eq
               ∧ dget gl nodes' = Some sl ∧ dget gr nodes' = Some sr)
            ↔ (∃ g gl gr,
                 dget p (Batch.parent_map m) = Some g
                 ∧ dget g (Batch.children_map m) = Some (gl, gr)
                 ∧ dmem gl nodes' = true ∧ dmem gr nodes' = true))
         ∧ ((¬ ∃ g gl gr,
                 dget p (Batch.parent_map m) = Some g
                 ∧ dget g (Batch.children_map m) = Some (gl, gr)
                 ∧ dmem gl nodes' = true ∧ dmem gr nodes' = true) →
            Batch.contractible st' = Batch.contractible st)).
Proof.
  split.
  - intros trees st st' res t p l r Hp.
    destruct (bc_promote_inv _ _ _ _ _ _ _ _ Hp)
      as (tree & nodes & Htree & Hnodes & Hl & Hr & Hact & _ & Hready).
    exists tree, nodes, (dset p res (ddel r (ddel l nodes))).
    split_and!; try done.
    + intros Hnd n. by apply dget_promoted.
    + destruct (dget p (BatchContract.parent_dict tree)) as [g|];
        [|by split; [intros (?&?&?&?&?&?&?) | intros (?&?&?&?&?)]].
      destruct Hready as (gl & gr & Hg & Hready).
      destruct (dmem gl _ && dmem gr _) eqn:Hmem.
      * destruct Hready as (sig & Hsig & Hready).
        apply andb_true_iff in Hmem as [Hgl Hgr]. split.
        -- intros _. by exists g, gl, gr.
        -- intros _. by exists sig, g, gl, gr.
      * split.
        -- intros (sig & g' & gl' & gr' & Heq & _). rewrite Hready in Heq.
           symmetry in Heq. by apply dappend_neq in Heq.
        -- intros (g' & gl' & gr' & [= <-] & Hg' & Hgl & Hgr).
           rewrite Hg in Hg'. injection Hg' as <- <-.
           by rewrite Hgl, Hgr in Hmem.
    + intros Hno. destruct (dget p (BatchContract.parent_dict tree)) as [g|]; [|done].
      destruct Hready as (gl & gr & Hg & Hready).
      destruct (dmem gl _ && dmem gr _) eqn:Hmem; [|done].
      apply andb_true_iff in Hmem as [Hgl Hgr].
      destruct Hno. by exists g, gl, gr.
  - intros maps result_shape st st' t p l r Hp.
    destruct (tn_promote_inv _ _ _ _ _ _ _ _ Hp)
      as (m & nodes & Hm & Hnodes & Hl & Hr & Hact & _ & Hready).
    exists m, nodes, (dset p result_shape (ddel r (ddel l nodes))).
    split_and!; try done.
    + intros Hnd n. by apply dget_promoted.
    + destruct (dget p (Batch.parent_map m)) as [g|];
        [|by split; [intros (?&?&?&?&?&?&?&?&?) | intros (?&?&?&?&?)]].
      destruct Hready as (gl & gr & Hg & Hready).
      destruct (dmem gl _ && dmem gr _) eqn:Hmem.
      * destruct Hready as (eq & sl & sr & Heq & Hsl & Hsr & Hready).
        apply andb_true_iff in Hmem as [Hgl Hgr]. split.
        -- intros _. by exists g, gl, gr.
        -- intros _. by exists eq, sl, sr, g, gl, gr.
      * split.
        -- intros (eq & sl & sr & g' & gl' & gr' & Heq & _).
           rewrite Hready in Heq.
           symmetry in Heq. by apply dappend_neq in Heq.
        -- intros (g' & gl' & gr' & [= <-] & Hg' & Hgl & Hgr).
           rewrite Hg in Hg'. injection Hg' as <- <-.
           by rewrite Hgl, Hgr in Hmem.
    + intros Hno. destruct (dget p (Batch.parent_map m)) as [g|]; [|done].
      destruct Hready as (gl & gr & Hg & Hready).
      destruct (dmem gl _ && dmem gr _) eqn:Hmem; [|done].
      apply andb_true_iff in Hmem as [Hgl Hgr].
      destruct Hno. by exists g, gl, gr.
Qed.

Lemma promote_effect_witness :
  let trees := [Examples.tree3] in
  let maps := [Batch.build_maps Examples.contractions3] in
  let inst : Instance := (0, Examples.node01, leaf 0, leaf 1) in
  (∃ st' sig,
     BatchContract.promote (B := ShapeBackend.backend) trees ([2; 4]%Z, inst)
       Examples.state3
     = Ok st'
     ∧ BatchContract.tree_active_nodes st'
       = [[(leaf 2, [4; 5]); (Examples.node01, [2; 4])]]%Z
     ∧ BatchContract.ready st'
       = dappend sig (0, Examples.root3, Examples.node01, leaf 2)
                 (BatchContract.ready Examples.state3))
  ∧ (∃ st' key,
       Batch.promote maps [2; 4]%Z inst Examples.sched3 = Ok st'
       ∧ Batch.node2shape_batch st'
         = [[(leaf 2, [4; 5]); (Examples.node01, [2; 4])]]%Z
       ∧ Batch.contractible st'
         = dappend key (0, Examples.root3, Examples.node01, leaf 2)
                   (Batch.contractible Examples.sched3)).
Proof.
  intros trees maps inst. split.
  - destruct (BatchContract.promote (B := ShapeBackend.backend) trees
                ([2; 4]%Z, inst) Examples.state3)
      as [st'|] eqn:Hp; [|by vm_compute in Hp].
    destruct (proj1 (promote_effect ShapeBackend.backend) _ _ _ _ _ _ _ _ Hp)
      as (tree & nodes & nodes' & [= <-] & [= <-] & _ & _ & -> & Hact
          & _ & [_ Happ] & _).
    destruct Happ as (sig & g & gl & gr & Hready & [= <-] & [= <- <-] & _).
    { exists Examples.root3, Examples.node01, (leaf 2). by vm_compute. }
    exists st', sig. split; [done|]. split; [|done].
    rewrite Hact. by vm_compute.
  - destruct (Batch.promote maps [2; 4]%Z inst Examples.sched3)
      as [st'|] eqn:Hp; [|by vm_compute in Hp].
    destruct (proj2 (promote_effect ShapeBackend.backend) _ _ _ _ _ _ _ _ Hp)
      as (m & nodes & nodes' & [= <-] & [= <-] & _ & _ & -> & Hact
          & _ & [_ Happ] & _).
    destruct Happ as (eq & sl & sr & g & gl & gr & Hready & [= <-] & [= <- <-] & _).
    { exists Examples.root3, Examples.node01, (leaf 2). by vm_compute. }
    exists st', (eq, sl, sr). split; [done|]. split; [|done].
    rewrite Hact. by vm_compute.
Defined.

(** * Binary trees *)

Lemma root_id_in_ids (bt : btree) : root_id bt ∈ ids bt.
Proof. destruct bt; simpl; apply elem_of_cons; by left. Qed.

Lemma ids_root_children (bt : btree) :
  ids bt ≡ₚ root_id bt :: child_list (entries bt).
Proof.
  induction bt as [i|p l IHl r IHr]; simpl; [done|].
  unfold child_list in *. rewrite flat_map_app.
  rewrite IHl, IHr. solve_Permutation.
Qed.

Lemma ids_leaves_keys (bt : btree) :
  ids bt ≡ₚ map leaf (leaves bt) ++ (entries bt).*1.
Proof.
  induction bt as [i|p l IHl r IHr]; simpl; [done|].
  rewrite IHl, IHr, map_app, fmap_app. solve_Permutation.
Qed.

Lemma leaves_length (bt : btree) : length (leaves bt) = S (length (entries bt)).
Proof.
  induction bt as [i|p l IHl r IHr]; simpl; [done|].
  rewrite !length_app, IHl, IHr. lia.
Qed.

Lemma entries_ids (bt : btree) p l r :
  (p, (l, r)) ∈ entries bt → p ∈ ids bt ∧ l ∈ ids bt ∧ r ∈ ids bt.
Proof.
  intros Hin. split_and!.
  - rewrite (ids_leaves_keys bt).
    apply elem_of_app. right. apply list_elem_of_fmap. by exists (p, (l, r)).
  - rewrite (ids_root_children bt).
    apply elem_of_cons. right. apply list_elem_of_In, in_flat_map.
    exists (p, (l, r)). split; [by apply list_elem_of_In | by left].
  - rewrite (ids_root_children bt).
    apply elem_of_cons. right. apply list_elem_of_In, in_flat_map.
    exists (p, (l, r)). split; [by apply list_elem_of_In | right; by left].
Qed.

Lemma entries_distinct (bt : btree) p l r :
  NoDup (ids bt) → (p, (l, r)) ∈ entries bt → p ≠ l ∧ p ≠ r ∧ l ≠ r.
Proof.
  induction bt as [i|p0 l0 IHl r0 IHr]; simpl; intros Hnd Hin.
  - by apply elem_of_nil in Hin.
  - apply NoDup_cons in Hnd as [Hp0 Hnd].
    apply NoDup_app in Hnd as (Hndl & Hdisj & Hndr).
    apply elem_of_cons in Hin as [[= -> -> ->]|Hin].
    + pose proof (root_id_in_ids l0). pose proof (root_id_in_ids r0).
      split_and!.
      * intros ->. apply Hp0, elem_of_app. by left.
      * intros ->. apply Hp0, elem_of_app. by right.
      * intros Heq. apply (Hdisj (root_id l0)); [done | by rewrite Heq].
    + apply elem_of_app in Hin as [Hin|Hin]; [by apply IHl | by apply IHr].
Qed.

(** ** The dictionary of a tree *)

Section TreeFacts.
Variables (n : nat) (ch : dict TreeNode (TreeNode * TreeNode)) (bt : btree).
Hypothesis Htree : is_tree n ch bt.

Lemma tree_keys_NoDup : NoDup ch.*1.
Proof.
  destruct Htree as (Hch & Hleaves & Hnd).
  rewrite Hch. rewrite (ids_leaves_keys bt) in Hnd.
  by apply NoDup_app in Hnd as (_ & _ & ?).
Qed.

Lemma tree_entry p l r : dget p ch = Some (l, r) ↔ (p, (l, r)) ∈ entries bt.
Proof.
  destruct Htree as (Hch & _). rewrite <-Hch. split.
  - apply dget_Some_elem_of.
  - apply elem_of_dget, tree_keys_NoDup.
Qed.

Lemma tree_children_NoDup : NoDup (root_id bt :: child_list ch).
Proof.
  destruct Htree as (Hch & Hleaves & Hnd).
  unfold child_list. rewrite Hch. by rewrite <-(ids_root_children bt).
Qed.

Lemma tree_child_elem p l r :
  dget p ch = Some (l, r) → l ∈ child_list ch ∧ r ∈ child_list ch.
Proof.
  intros Hin%dget_Some_elem_of. unfold child_list.
  split; apply list_elem_of_In, in_flat_map; exists (p, (l, r));
    (split; [by apply list_elem_of_In|]); simpl; auto.
Qed.

Lemma tree_distinct p l r : dget p ch = Some (l, r) → p ≠ l ∧ p ≠ r ∧ l ≠ r.
Proof.
  intros Hin%tree_entry. destruct Htree as (_ & _ & Hnd).
  by eapply entries_distinct.
Qed.

Lemma child_list_NoDup_unique (es : list (TreeNode * (TreeNode * TreeNode)))
    p l r p' l' r' x :
  NoDup (child_list es) →
  (p, (l, r)) ∈ es → (p', (l', r')) ∈ es →
  x = l ∨ x = r → x = l' ∨ x = r' →
  (p, (l, r)) = (p', (l', r')).
Proof.
  induction es as [|[q [a b]] es IH]; simpl; intros Hnd Hin Hin' Hx Hx'.
  - by apply elem_of_nil in Hin.
  - apply NoDup_cons in Hnd as [Ha Hnd]. apply NoDup_cons in Hnd as [Hb Hnd].
    assert (Hrest : ∀ q' a' b', (q', (a', b')) ∈ es →
                                a' ∈ child_list es ∧ b' ∈ child_list es).
    { intros q' a' b' Hq. split; apply list_elem_of_In, in_flat_map;
        exists (q', (a', b')); (split; [by apply list_elem_of_In|]); simpl; auto. }
    apply elem_of_cons in Hin as [[= -> -> ->]|Hin];
      apply elem_of_cons in Hin' as [[= -> -> ->]|Hin'].
    + done.
    + destruct (Hrest _ _ _ Hin') as [Hl' Hr']. exfalso.
      rewrite not_elem_of_cons in Ha.
      destruct Hx as [->| ->], Hx' as [Heq|Heq]; subst; tauto.
    + destruct (Hrest _ _ _ Hin) as [Hl' Hr']. exfalso.
      rewrite not_elem_of_cons in Ha.
      destruct Hx as [->| ->], Hx' as [Heq|Heq]; subst; tauto.
    + by apply IH.
Qed.

Lemma tree_unique_parent p l r p' l' r' x :
  dget p ch = Some (l, r) → dget p' ch = Some (l', r') →
  x = l ∨ x = r → x = l' ∨ x = r' → p = p' ∧ l = l' ∧ r = r'.
Proof.
  intros Hin%dget_Some_elem_of Hin'%dget_Some_elem_of Hx Hx'.
  pose proof tree_children_NoDup as [_ Hnd]%NoDup_cons.
  pose proof (child_list_NoDup_unique ch _ _ _ _ _ _ x Hnd Hin Hin' Hx Hx') as Heq.
  by injection Heq as -> -> ->.
Qed.

Lemma tree_key_not_leaf p l r i : dget p ch = Some (l, r) → i < n → p ≠ leaf i.
Proof.
  intros Hin%tree_entry Hi ->. destruct Htree as (Hch & Hleaves & Hnd).
  rewrite (ids_leaves_keys bt) in Hnd.
  apply NoDup_app in Hnd as (_ & Hdisj & _).
  apply (Hdisj (leaf i)).
  - apply list_elem_of_fmap. exists i. split; [done|].
    rewrite Hleaves. apply elem_of_seq. lia.
  - apply list_elem_of_fmap. by exists (leaf i, (l, r)).
Qed.

(** A node of the tree is a leaf below [n] or a key of the dictionary. *)
Lemma tree_node x :
  x ∈ ids bt ↔ (∃ i, i < n ∧ x = leaf i) ∨ is_Some (dget x ch).
Proof.
  destruct Htree as (Hch & Hleaves & Hnd).
  rewrite (ids_leaves_keys bt). split.
  - intros [Hx|Hx]%elem_of_app.
    + apply list_elem_of_fmap in Hx as (i & -> & Hi).
      rewrite Hleaves in Hi. apply elem_of_seq in Hi.
      left. exists i. split; [lia|done].
    + right. apply dget_is_Some. by rewrite Hch.
  - intros [(i & Hi & ->)|Hx]; apply elem_of_app.
    + left. apply list_elem_of_fmap. exists i. split; [done|].
      rewrite Hleaves. apply elem_of_seq. lia.
    + right. apply dget_is_Some in Hx. by rewrite <-Hch.
Qed.

Lemma tree_child_node p l r :
  dget p ch = Some (l, r) → l ∈ ids bt ∧ r ∈ ids bt.
Proof. intros Hin%tree_entry. by apply entries_ids in Hin as (_ & ? & ?). Qed.

Lemma tree_root_not_child p l r :
  dget p ch = Some (l, r) → root_id bt ≠ l ∧ root_id bt ≠ r.
Proof.
  intros Hin. destruct (tree_child_elem _ _ _ Hin) as [Hl Hr].
  pose proof tree_children_NoDup as [Hroot _]%NoDup_cons.
  split; intros Heq; apply Hroot; by rewrite Heq.
Qed.

Lemma tree_nonroot_child x :
  x ∈ ids bt → x ≠ root_id bt →
  ∃ p l r, dget p ch = Some (l, r) ∧ (x = l ∨ x = r).
Proof.
  intros Hx Hne. destruct Htree as (Hch & _).
  rewrite (ids_root_children bt) in Hx.
  apply elem_of_cons in Hx as [?|Hx]; [done|].
  apply list_elem_of_In, in_flat_map in Hx as ([p [l r]] & Hin & Hx).
  apply list_elem_of_In in Hin. exists p, l, r. split.
  - by apply tree_entry.
  - simpl in Hx. destruct Hx as [<-|[<-|[]]]; auto.
Qed.

Lemma tree_size : n = S (length ch).
Proof.
  destruct Htree as (Hch & Hleaves & _).
  rewrite Hch, <-leaves_length, Hleaves. by rewrite length_seq.
Qed.

End TreeFacts.

(** * Initialisation *)

Lemma for_each_app {A S} (body : A → S → result S) (l1 l2 : list A) (st : S) :
  for_each body (l1 ++ l2) st
  = (st' ← for_each body l1 st; for_each body l2 st').
Proof.
  revert st. induction l1 as [|x l1 IH]; intros st; simpl; [done|].
  destruct (body x st) as [st1|e]; simpl; [apply IH | done].
Qed.

Lemma enumerate_snoc {A} (l : list A) (x : A) :
  enumerate (l ++ [x]) = enumerate l ++ [(length l, x)].
Proof.
  unfold enumerate. rewrite length_app. simpl.
  rewrite Nat.add_1_r, seq_S. simpl.
  rewrite zip_with_app by by rewrite length_seq. done.
Qed.

Lemma enumerate_lookup {A} (l : list A) (i : nat) (x : A) :
  (i, x) ∈ enumerate l ↔ l !! i = Some x.
Proof.
  induction l as [|y l IH] using rev_ind.
  - split; [by intros ?%elem_of_nil | done].
  - rewrite enumerate_snoc, elem_of_app, IH, list_elem_of_singleton. split.
    + intros [Hl|[= -> ->]].
      * by apply lookup_app_l_Some.
      * by rewrite lookup_app_r, Nat.sub_diag.
    + intros Hl. destruct (decide (i < length l)) as [Hlt|Hge].
      * left. by rewrite lookup_app_l in Hl.
      * right. rewrite lookup_app_r in Hl by lia.
        destruct (i - length l) as [|k] eqn:Hk; simpl in Hl; [|done].
        injection Hl as ->. f_equal. lia.
Qed.


(** * The frontier *)

Section FrontierFacts.
Variable F : Forest.
Hypothesis Hwf : wf_forest F.

Implicit Types (L : list Instance) (t : nat) (p l r x g : TreeNode).

Lemma entry_fun t p l r l' r' :
  entry F t p l r → entry F t p l' r' → l = l' ∧ r = r'.
Proof.
  intros (n & ch & Ht & Hp) (n' & ch' & Ht' & Hp').
  rewrite Ht in Ht'. injection Ht' as <- <-.
  rewrite Hp in Hp'. by injection Hp' as <- <-.
Qed.

Lemma entry_unique_parent t p l r p' l' r' x :
  entry F t p l r → entry F t p' l' r' →
  x = l ∨ x = r → x = l' ∨ x = r' → p = p' ∧ l = l' ∧ r = r'.
Proof.
  intros (n & ch & Ht & Hp) (n' & ch' & Ht' & Hp') Hx Hx'.
  rewrite Ht in Ht'. injection Ht' as <- <-.
  destruct (Hwf _ _ _ Ht) as [bt Htree].
  by eapply (tree_unique_parent n ch bt).
Qed.

Lemma entry_distinct t p l r : entry F t p l r → p ≠ l ∧ p ≠ r ∧ l ≠ r.
Proof.
  intros (n & ch & Ht & Hp). destruct (Hwf _ _ _ Ht) as [bt Htree].
  by eapply (tree_distinct n ch bt).
Qed.

Lemma entry_not_leaf t p l r : entry F t p l r → ¬ is_leaf F t p.
Proof.
  intros (n & ch & Ht & Hp) (n' & ch' & i & Ht' & Hi & ->).
  rewrite Ht in Ht'. injection Ht' as <- <-.
  destruct (Hwf _ _ _ Ht) as [bt Htree].
  by eapply (tree_key_not_leaf n ch bt).
Qed.

Lemma done_app L t x t0 p0 l0 r0 :
  done (L ++ [(t0, p0, l0, r0)]) t x ↔ done L t x ∨ (t = t0 ∧ x = p0).
Proof.
  unfold done. split.
  - intros (l & r & [Hin|Hin%list_elem_of_singleton]%elem_of_app).
    + left. by exists l, r.
    + right. by injection Hin as -> -> _ _.
  - intros [(l & r & Hin)|[-> ->]].
    + exists l, r. apply elem_of_app. by left.
    + exists l0, r0. apply elem_of_app. right. by apply list_elem_of_singleton.
Qed.

Lemma avail_app L t x t0 p0 l0 r0 :
  avail F (L ++ [(t0, p0, l0, r0)]) t x ↔ avail F L t x ∨ (t = t0 ∧ x = p0).
Proof. unfold avail. rewrite done_app. tauto. Qed.

Lemma done_decidable L t x : done L t x ∨ ¬ done L t x.
Proof.
  induction L as [|[[[t0 p0] l0] r0] L IH].
  - right. intros (l & r & Hin). by apply elem_of_nil in Hin.
  - destruct IH as [(l & r & Hin)|Hno].
    + left. exists l, r. apply elem_of_cons. by right.
    + destruct (decide (t0 = t ∧ p0 = x)) as [[-> ->]|Hne].
      * left. exists l0, r0. apply elem_of_cons. by left.
      * right. intros (l & r & [[= -> -> _ _]|Hin]%elem_of_cons); [tauto|].
        apply Hno. by exists l, r.
Qed.

Lemma done_entry L t p :
  log_ok F L → done L t p →
  ∃ l r, (t, p, l, r) ∈ L ∧ entry F t p l r ∧ avail F L t l ∧ avail F L t r.
Proof.
  intros [_ Hlog] (l & r & Hin). exists l, r.
  split; [done|]. by apply Hlog.
Qed.

(** The children of a ready instance are active and its parent has no
    value yet. *)
Lemma pending_active L t p l r :
  log_ok F L → pending F L (t, p, l, r) →
  active F L t l ∧ active F L t r ∧ ¬ avail F L t p.
Proof.
  intros Hlog (Hentry & Hnot & Hl & Hr). split_and!.
  - split; [done|]. intros g a b Hg Hx Hdone.
    destruct (entry_unique_parent t p l r g a b l Hentry Hg) as (-> & _); auto.
  - split; [done|]. intros g a b Hg Hx Hdone.
    destruct (entry_unique_parent t p l r g a b r Hentry Hg) as (-> & _); auto.
  - intros [Hleaf|Hdone]; [by eapply entry_not_leaf | done].
Qed.

Lemma log_ok_promote L t p l r :
  log_ok F L → pending F L (t, p, l, r) → log_ok F (L ++ [(t, p, l, r)]).
Proof.
  intros [Hnd Hlog] (Hentry & Hnot & Hl & Hr). split.
  - apply NoDup_app. split_and!; [done| |apply NoDup_singleton].
    intros i Hi ->%list_elem_of_singleton. apply Hnot. by exists l, r.
  - intros t' p' l' r' [Hin|Hin%list_elem_of_singleton]%elem_of_app.
    + destruct (Hlog _ _ _ _ Hin) as (? & ? & ?).
      split_and!; [done | |]; apply avail_app; by left.
    + injection Hin as -> -> -> ->.
      split_and!; [done | |]; apply avail_app; by left.
Qed.

Lemma active_promote L t p l r t' x :
  log_ok F L → pending F L (t, p, l, r) →
  active F (L ++ [(t, p, l, r)]) t' x
  ↔ (t' = t ∧ x = p) ∨ (active F L t' x ∧ ¬ (t' = t ∧ (x = l ∨ x = r))).
Proof.
  intros Hlog Hpend.
  destruct (pending_active _ _ _ _ _ Hlog Hpend) as (Hal & Har & Hnp).
  destruct Hpend as (Hentry & Hnot & Hl & Hr).
  destruct (entry_distinct _ _ _ _ Hentry) as (Hpl & Hpr & Hlr).
  unfold active. setoid_rewrite done_app. rewrite avail_app. split.
  - intros [[Hav|[-> ->]] Hpar]; [right | by left]. split.
    + split; [done|]. intros g a b Hg Hx Hdone. apply (Hpar g a b Hg Hx). by left.
    + intros [-> Hx]. apply (Hpar p l r Hentry Hx). by right.
  - intros [[-> ->]|[[Hav Hpar] Hne]].
    + split; [by right|]. intros g a b Hg Hx [Hdone|[_ ->]].
      * destruct (done_entry _ _ _ Hlog Hdone) as (a' & b' & _ & Hg' & Ha' & Hb').
        destruct (entry_fun _ _ _ _ _ _ Hg Hg') as [<- <-].
        destruct Hx as [->| ->]; by apply Hnp.
      * destruct (entry_fun _ _ _ _ _ _ Hg Hentry) as [-> ->]. tauto.
    + split; [by left|]. intros g a b Hg Hx [Hdone|[-> ->]].
      * by apply (Hpar g a b Hg Hx).
      * destruct (entry_fun _ _ _ _ _ _ Hg Hentry) as [-> ->]. tauto.
Qed.

Lemma pending_promote L t p l r t' p' l' r' :
  log_ok F L → pending F L (t, p, l, r) →
  pending F (L ++ [(t, p, l, r)]) (t', p', l', r')
  ↔ (pending F L (t', p', l', r') ∧ (t', p', l', r') ≠ (t, p, l, r))
    ∨ (t' = t ∧ entry F t p' l' r' ∧ (p = l' ∨ p = r')
       ∧ active F (L ++ [(t, p, l, r)]) t l'
       ∧ active F (L ++ [(t, p, l, r)]) t r').
Proof.
  intros Hlog Hpend.
  pose proof (active_promote L t p l r t p Hlog Hpend) as Hactp.
  destruct (pending_active _ _ _ _ _ Hlog Hpend) as (Hal & Har & Hnp).
  pose proof Hpend as (Hentry & Hnot & Hl & Hr).
  split.
  - intros (Hentry' & Hnot' & Hl' & Hr').
    rewrite done_app in Hnot'. rewrite avail_app in Hl', Hr'.
    assert (Hchild : ∀ x, x = l' ∨ x = r' →
              avail F (L ++ [(t, p, l, r)]) t' x →
              active F (L ++ [(t, p, l, r)]) t' x).
    { intros x Hx Hav. split; [done|]. intros g a b Hg Hxg.
      destruct (entry_unique_parent _ _ _ _ _ _ _ x Hentry' Hg Hx Hxg) as (<- & _).
      by rewrite done_app. }
    destruct Hl' as [Hl'|[-> ->]]; [destruct Hr' as [Hr'|[-> ->]]|].
    + left. split; [split_and!; tauto|]. intros [= -> -> -> ->]. tauto.
    + right. split_and!; [done | done | by right | |];
        apply Hchild; rewrite ?avail_app; auto.
    + right. split_and!; [done | done | by left | |];
        apply Hchild; rewrite ?avail_app; auto.
  - intros [[(Hentry' & Hnot' & Hl' & Hr') Hne]|(-> & Hentry' & Hp & Hl' & Hr')].
    + split_and!; [done | | apply avail_app; by left | apply avail_app; by left].
      rewrite done_app. intros [?|[-> ->]]; [done|].
      destruct (entry_fun _ _ _ _ _ _ Hentry Hentry') as [-> ->]. done.
    + split_and!; [done | | apply Hl' | apply Hr'].
      assert (Hp_active : active F (L ++ [(t, p, l, r)]) t p)
        by (apply Hactp; by left).
      destruct Hp_active as [_ Hpar]. by apply (Hpar p' l' r').
Qed.

(** ** The end of a run *)

Lemma stuck_subtree L t n ch bt (s : btree) :
  log_ok F L → (∀ inst, ¬ pending F L inst) →
  F !! t = Some (n, ch) → is_tree n ch bt →
  (∀ e, e ∈ entries s → e ∈ entries bt) →
  (∀ i, i ∈ leaves s → i ∈ leaves bt) →
  avail F L t (root_id s)
  ∧ ∀ p l r, (p, (l, r)) ∈ entries s → done L t p.
Proof.
  intros Hlog Hstuck Ht Htree.
  induction s as [i|p l IHl r IHr]; simpl; intros Hsub Hleaves.
  - split; [|by intros p l r ?%elem_of_nil].
    left. exists n, ch, i. split_and!; [done| |done].
    destruct Htree as (_ & Hperm & _).
    specialize (Hleaves i ltac:(by apply list_elem_of_singleton)).
    rewrite Hperm in Hleaves. apply elem_of_seq in Hleaves. lia.
  - destruct IHl as [Hl Hdl].
    { intros e He. apply Hsub. apply elem_of_cons. right. apply elem_of_app. by left. }
    { intros i Hi. apply Hleaves. apply elem_of_app. by left. }
    destruct IHr as [Hr Hdr].
    { intros e He. apply Hsub. apply elem_of_cons. right. apply elem_of_app. by right. }
    { intros i Hi. apply Hleaves. apply elem_of_app. by right. }
    assert (Hentry : entry F t p (root_id l) (root_id r)).
    { exists n, ch. split; [done|]. apply (tree_entry n ch bt Htree).
      apply Hsub. apply elem_of_cons. by left. }
    assert (Hdone : done L t p).
    { destruct (done_decidable L t p) as [?|Hnot]; [done|].
      destruct (Hstuck (t, p, root_id l, root_id r)). by split_and!. }
    split; [by right|].
    intros p' l' r' [[= -> -> ->]|[?|?]%elem_of_app]%elem_of_cons; eauto.
Qed.

(** When no instance is ready, every entry of the forest has been
    promoted. *)
Lemma stuck_all_done L :
  log_ok F L → (∀ inst, ¬ pending F L inst) →
  ∀ t p l r, entry F t p l r → done L t p.
Proof.
  intros Hlog Hstuck t p l r (n & ch & Ht & Hp).
  destruct (Hwf _ _ _ Ht) as [bt Htree].
  destruct (stuck_subtree L t n ch bt bt Hlog Hstuck Ht Htree) as [_ Hall]; [done..|].
  apply (Hall p l r). by apply (tree_entry n ch bt Htree).
Qed.

(** Then the root is the only active node of each tree. *)
Lemma final_active L t n ch bt x :
  log_ok F L → (∀ t p l r, entry F t p l r → done L t p) →
  F !! t = Some (n, ch) → is_tree n ch bt →
  active F L t x ↔ x = root_id bt.
Proof.
  intros Hlog Hall Ht Htree.
  assert (Hnode : ∀ y, avail F L t y → y ∈ ids bt).
  { intros y [(n' & ch' & i & Ht' & Hi & ->)|Hdone].
    - rewrite Ht in Ht'. injection Ht' as <- <-.
      apply (tree_node n ch bt Htree). left. by exists i.
    - destruct (done_entry _ _ _ Hlog Hdone) as (l & r & _ & (n' & ch' & Ht' & Hy) & _).
      rewrite Ht in Ht'. injection Ht' as <- <-.
      apply (tree_node n ch bt Htree). right. by eauto. }
  split.
  - intros [Hav Hpar]. destruct (decide (x = root_id bt)) as [?|Hne]; [done|].
    destruct (tree_nonroot_child n ch bt Htree x (Hnode x Hav) Hne)
      as (p & l & r & Hp & Hx).
    assert (Hentry : entry F t p l r) by by exists n, ch.
    destruct (Hpar p l r Hentry Hx). by eapply Hall.
  - intros ->. split.
    + pose proof (root_id_in_ids bt) as Hroot.
      apply (tree_node n ch bt Htree) in Hroot as [(i & Hi & Heq)|[[l r] Hkey]].
      * left. by exists n, ch, i.
      * right. apply (Hall t _ l r). by exists n, ch.
    + intros g l r (n' & ch' & Ht' & Hg) Hx.
      rewrite Ht in Ht'. injection Ht' as <- <-.
      destruct (tree_root_not_child n ch bt Htree g l r Hg). tauto.
Qed.

Lemma elem_of_all_instances t p l r :
  (t, p, l, r) ∈ all_instances F ↔ ∃ n ch, F !! t = Some (n, ch) ∧ (p, (l, r)) ∈ ch.
Proof.
  unfold all_instances. rewrite list_elem_of_In, in_flat_map. split.
  - intros ([t' [n ch]] & Hin%list_elem_of_In%enumerate_lookup & Hx).
    apply list_elem_of_In, list_elem_of_fmap in Hx as ([p' [l' r']] & [= -> -> -> ->] & Hx).
    by exists n, ch.
  - intros (n & ch & Ht & Hin). exists (t, (n, ch)). split.
    + by apply list_elem_of_In, enumerate_lookup.
    + apply list_elem_of_In, list_elem_of_fmap. by exists (p, (l, r)).
Qed.

Lemma elem_of_all_instances_entry t p l r :
  (t, p, l, r) ∈ all_instances F ↔ entry F t p l r.
Proof.
  rewrite elem_of_all_instances. unfold entry. split.
  - intros (n & ch & Ht & Hin). exists n, ch. split; [done|].
    destruct (Hwf _ _ _ Ht) as [bt Htree].
    apply elem_of_dget; [by eapply tree_keys_NoDup | done].
  - intros (n & ch & Ht & Hp). exists n, ch. split; [done|].
    by apply dget_Some_elem_of.
Qed.

Lemma all_instances_NoDup : NoDup (all_instances F).
Proof.
  unfold all_instances, enumerate.
  assert (Hgen : ∀ k (G : Forest),
    (∀ n ch, (n, ch) ∈ G → NoDup ch.*1) →
    NoDup (flat_map (λ '(t, (n, ch)), map (λ '(p, (l, r)), (t, p, l, r)) ch)
                    (zip (seq k (length G)) G))
    ∧ ∀ t p l r,
        (t, p, l, r) ∈ flat_map (λ '(t, (n, ch)),
                                   map (λ '(p, (l, r)), (t, p, l, r)) ch)
                                (zip (seq k (length G)) G) → k ≤ t).
  { intros k G. revert k. induction G as [|[n ch] G IH]; intros k Hnd; simpl.
    - split; [apply NoDup_nil_2 | by intros ???? ?%elem_of_nil].
    - destruct (IH (S k)) as [IHnd IHge].
      { intros n' ch' Hin. apply (Hnd n' ch'). apply elem_of_cons. by right. }
      split.
      + apply NoDup_app. split_and!; [| |done].
        * apply (NoDup_fmap_1 (λ i : Instance, i.1.1.2)).
          rewrite <-list_fmap_compose.
          erewrite list_fmap_ext; [apply (Hnd n ch); apply elem_of_cons; by left|].
          by intros i [p [l r]] _.
        * intros [[[t p] l] r] Hin Hin'.
          apply list_elem_of_fmap in Hin as ([p' [l' r']] & [= -> -> -> ->] & _).
          apply IHge in Hin'. lia.
      + intros t p l r [Hin|Hin]%elem_of_app.
        * by apply list_elem_of_fmap in Hin as ([p' [l' r']] & [= -> -> -> ->] & _).
        * apply IHge in Hin. lia. }
  apply Hgen. intros n ch Hin.
  apply list_elem_of_lookup in Hin as [t Ht].
  destruct (Hwf _ _ _ Ht) as [bt Htree]. by eapply tree_keys_NoDup.
Qed.

(** Every instance of the forest is then in the log exactly once. *)
Lemma final_log L :
  log_ok F L → (∀ t p l r, entry F t p l r → done L t p) →
  L ≡ₚ all_instances F.
Proof.
  intros Hlog Hall. apply NoDup_Permutation.
  - by destruct Hlog.
  - apply all_instances_NoDup.
  - intros [[[t p] l] r]. rewrite elem_of_all_instances_entry. split.
    + intros Hin. by apply Hlog.
    + intros Hentry.
      destruct (done_entry _ _ _ Hlog (Hall _ _ _ _ Hentry)) as (l' & r' & Hin & Hentry' & _).
      by destruct (entry_fun _ _ _ _ _ _ Hentry Hentry') as [-> ->].
Qed.

Lemma all_instances_length :
  length (all_instances F) = sum_list (map (λ nc, nc.1 - 1) F).
Proof.
  unfold all_instances, enumerate.
  assert (Hgen : ∀ k (G : Forest),
    (∀ n ch, (n, ch) ∈ G → n = S (length ch)) →
    length (flat_map (λ '(t, (n, ch)), map (λ '(p, (l, r)), (t, p, l, r)) ch)
                     (zip (seq k (length G)) G))
    = sum_list (map (λ nc, nc.1 - 1) G)).
  { intros k G. revert k. induction G as [|[n ch] G IH]; intros k Hsz; simpl; [done|].
    rewrite length_app, length_map, IH.
    - rewrite (Hsz n ch) by (apply elem_of_cons; by left). simpl. lia.
    - intros n' ch' Hin. apply Hsz. apply elem_of_cons. by right. }
  apply Hgen. intros n ch Hin.
  apply list_elem_of_lookup in Hin as [t Ht].
  destruct (Hwf _ _ _ Ht) as [bt Htree]. by eapply tree_size.
Qed.

(** ** The start of a run *)

Lemma log_ok_nil : log_ok F [].
Proof. split; [apply NoDup_nil_2 | by intros ???? ?%elem_of_nil]. Qed.

Lemma done_nil t x : ¬ done [] t x.
Proof. intros (l & r & Hin). by apply elem_of_nil in Hin. Qed.

Lemma active_nil t x : active F [] t x ↔ is_leaf F t x.
Proof.
  unfold active, avail. split.
  - intros [[?|?%done_nil] _]; done.
  - intros Hleaf. split; [by left|]. intros g l r _ _. apply done_nil.
Qed.

Lemma pending_nil t p l r :
  pending F [] (t, p, l, r) ↔ entry F t p l r ∧ is_leaf F t l ∧ is_leaf F t r.
Proof.
  unfold pending, avail. split.
  - intros (? & _ & [?|?%done_nil] & [?|?%done_nil]); done.
  - intros (? & ? & ?). split_and!; [done | apply done_nil | by left | by left].
Qed.

End FrontierFacts.

(** * The invariant is kept by a promotion *)

Lemma grouped_dappend {S} {EqS : EqDecision S} (sig_of : Instance → S → Prop)
    (table : dict S (list Instance)) (sig : S) (inst : Instance) :
  grouped sig_of table → sig_of inst sig →
  grouped sig_of (dappend sig inst table).
Proof.
  intros Hgr Hsig. induction table as [|[k l] table IH]; simpl.
  - apply Forall_singleton. simpl. split; [done|]. by apply Forall_singleton.
  - apply Forall_cons in Hgr as [[Hne Hl] Hgr]. simpl in *.
    destruct (decide (sig = k)) as [->|Hk].
    + apply Forall_cons. split; [|done]. simpl. split; [by destruct l|].
      apply Forall_app. split; [done | by apply Forall_singleton].
    + apply Forall_cons. split; [done | by apply IH].
Qed.

Lemma grouped_ddel {S} {EqS : EqDecision S} (sig_of : Instance → S → Prop)
    (table : dict S (list Instance)) (sig : S) :
  grouped sig_of table → grouped sig_of (ddel sig table).
Proof.
  intros Hgr. induction table as [|[k l] table IH]; simpl; [done|].
  apply Forall_cons in Hgr as [Hkl Hgr].
  destruct (decide (sig = k)); [done|].
  apply Forall_cons. split; [done | by apply IH].
Qed.

Lemma grouped_lookup {S} {EqS : EqDecision S} (sig_of : Instance → S → Prop)
    (table : dict S (list Instance)) (sig : S) (group : list Instance) :
  grouped sig_of table → dget sig table = Some group →
  group ≠ [] ∧ Forall (λ inst, sig_of inst sig) group.
Proof.
  intros Hgr Hget%dget_Some_elem_of.
  by apply (proj1 (Forall_forall _ _) Hgr (sig, group)).
Qed.

Section SchedInvFacts.
Context {V S : Type} {EqS : EqDecision S}.
Variables (F : Forest) (value : nat → TreeNode → V)
          (sig_of : Instance → S → Prop).
Hypothesis Hwf : wf_forest F.

Implicit Types (acts : list (dict TreeNode V)) (table : dict S (list Instance))
         (L todo : list Instance).

Lemma sched_inv_operands acts table L todo t p l r :
  sched_inv F value sig_of acts table L todo →
  (t, p, l, r) ∈ todo →
  ∃ nodes, acts !! t = Some nodes
           ∧ dget l nodes = Some (value t l)
           ∧ dget r nodes = Some (value t r)
           ∧ l ≠ r.
Proof.
  intros (Hlog & Hlen & Hnodes & _ & _ & _ & Hpend) Hin.
  assert (Hp : pending F L (t, p, l, r)).
  { apply Hpend. apply elem_of_app. by left. }
  destruct (pending_active F Hwf _ _ _ _ _ Hlog Hp) as (Hl & Hr & _).
  destruct Hp as (Hentry & _).
  destruct (entry_distinct F Hwf _ _ _ _ Hentry) as (_ & _ & Hlr).
  destruct Hentry as (n & ch & Ht & _).
  destruct (acts !! t) as [nodes|] eqn:Hacts.
  2:{ apply lookup_ge_None in Hacts. apply lookup_lt_Some in Ht. lia. }
  exists nodes. destruct (Hnodes t nodes Hacts) as [_ Hok].
  split; [done|].
  destruct (Hok l) as [Hiff Hval]. apply Hiff in Hl as [v Hv].
  destruct (Hok r) as [Hiff' Hval']. apply Hiff' in Hr as [v' Hv'].
  by rewrite Hv, Hv', (Hval v Hv), (Hval' v' Hv').
Qed.

Lemma sched_inv_promote acts table L todo t p l r nodes table' :
  let nodes' := dset p (value t p) (ddel r (ddel l nodes)) in
  sched_inv F value sig_of acts table L ((t, p, l, r) :: todo) →
  acts !! t = Some nodes →
  (table' = table
   ∧ ¬ (∃ g gl gr, entry F t g gl gr ∧ (p = gl ∨ p = gr)
                   ∧ dmem gl nodes' = true ∧ dmem gr nodes' = true))
  ∨ (∃ g gl gr sig,
       entry F t g gl gr ∧ (p = gl ∨ p = gr)
       ∧ dmem gl nodes' = true ∧ dmem gr nodes' = true
       ∧ (nodes_ok F value (L ++ [(t, p, l, r)]) t nodes' → sig_of (t, g, gl, gr) sig)
       ∧ table' = dappend sig (t, g, gl, gr) table) →
  sched_inv F value sig_of (<[t := nodes']> acts) table' (L ++ [(t, p, l, r)]) todo.
Proof.
  intros nodes' (Hlog & Hlen & Hnodes & Hkeys & Hgr & Hnd & Hpend) Hacts Htable.
  assert (Hp : pending F L (t, p, l, r)).
  { apply Hpend. apply elem_of_cons. by left. }
  pose proof (log_ok_promote F _ _ _ _ _ Hlog Hp) as Hlog'.
  assert (Hnodes' : nodes_ok F value (L ++ [(t, p, l, r)]) t nodes').
  { destruct (Hnodes t nodes Hacts) as [Hnd0 Hok]. split.
    - by apply NoDup_dset, NoDup_ddel, NoDup_ddel.
    - intros x. unfold nodes'. rewrite dget_promoted by done.
      rewrite (active_promote F Hwf L t p l r t x Hlog Hp).
      destruct (Hok x) as [Hiff Hval].
      destruct (decide (x = p)) as [->|Hxp].
      + split; [|by intros v [= <-]]. split; [by left | by eauto].
      + destruct (decide (x = l ∨ x = r)) as [Hx|Hx].
        * split; [|done]. split; [by intros [? ?] | intros [[_ ?]|[_ ?]]; tauto].
        * split; [|done]. rewrite Hiff. split; [right; tauto | intros [[_ ?]|[? _]]; tauto]. }
  assert (Hother : ∀ t' nodes0, t' ≠ t → acts !! t' = Some nodes0 →
                                nodes_ok F value (L ++ [(t, p, l, r)]) t' nodes0).
  { intros t' nodes0 Hne Hacts'. destruct (Hnodes t' nodes0 Hacts') as [Hnd0 Hok].
    split; [done|]. intros x. destruct (Hok x) as [Hiff Hval].
    split; [|done]. rewrite Hiff.
    rewrite (active_promote F Hwf L t p l r t' x Hlog Hp). tauto. }
  assert (Hmem : ∀ x, dmem x nodes' = true ↔ active F (L ++ [(t, p, l, r)]) t x).
  { intros x. rewrite dmem_true. by destruct Hnodes' as [_ Hok]; destruct (Hok x). }
  assert (Hold : ∀ inst', inst' ∈ todo ++ concat table.*2
                          ↔ pending F L inst' ∧ inst' ≠ (t, p, l, r)).
  { intros inst'. rewrite <-Hpend. simpl in Hnd |- *.
    apply NoDup_cons in Hnd as [Hnotin _]. rewrite elem_of_cons. split.
    - intros Hin. split; [by right|]. by intros ->.
    - intros [[?|?] ?]; done. }
  assert (Hnew : ∀ t' p' l' r',
            (t' = t ∧ entry F t p' l' r' ∧ (p = l' ∨ p = r')
             ∧ active F (L ++ [(t, p, l, r)]) t l' ∧ active F (L ++ [(t, p, l, r)]) t r')
            → ¬ pending F L (t', p', l', r')).
  { intros t' p' l' r' (-> & Hentry & Hchild & _) (_ & _ & Hl' & Hr').
    destruct (pending_active F Hwf _ _ _ _ _ Hlog Hp) as (_ & _ & Hnp).
    destruct Hchild as [->| ->]; tauto. }
  split_and!; try done.
  - by rewrite length_insert.
  - intros t' nodes0 Hlook. destruct (decide (t' = t)) as [->|Hne].
    + rewrite list_lookup_insert_eq in Hlook by by eapply lookup_lt_Some.
      by injection Hlook as <-.
    + rewrite list_lookup_insert_ne in Hlook by done. by apply Hother.
  - destruct Htable as [[-> _]|(g & gl & gr & sig & _ & _ & _ & _ & _ & ->)];
      [done | by apply NoDup_dappend].
  - destruct Htable as [[-> _]|(g & gl & gr & sig & _ & _ & _ & _ & Hsig & ->)];
      [done | apply grouped_dappend; auto].
  - simpl in Hnd. apply NoDup_cons in Hnd as [_ Hnd].
    destruct Htable as [[-> _]|(g & gl & gr & sig & Hg & Hchild & Hgl & Hmr & _ & ->)];
      [done|].
    rewrite concat_dappend, app_assoc. apply NoDup_app. split_and!; [done| |apply NoDup_singleton].
    intros i Hi ->%list_elem_of_singleton.
    apply Hold in Hi as [Hi _]. revert Hi. apply Hnew.
    split_and!; try done; by apply Hmem.
  - intros [[[t' p'] l'] r'].
    rewrite (pending_promote F Hwf L t p l r t' p' l' r' Hlog Hp).
    destruct Htable as [[-> Hno]|(g & gl & gr & sig & Hg & Hchild & Hgl & Hmr & _ & ->)].
    + rewrite Hold. split; [by left|]. intros [?|(-> & Hentry & Hc & Hl' & Hr')]; [done|].
      destruct Hno. exists p', l', r'. split_and!; try done; by apply Hmem.
    + rewrite concat_dappend, app_assoc, elem_of_app, Hold, list_elem_of_singleton.
      split.
      * intros [?|[= -> -> -> ->]]; [by left|]. right.
        split_and!; try done; by apply Hmem.
      * intros [?|(-> & Hentry & Hc & Hl' & Hr')]; [by left|]. right.
        assert (Hpar : ∃ x, (x = gl ∨ x = gr) ∧ (x = l' ∨ x = r')).
        { exists p. tauto. }
        destruct Hpar as (x & Hx & Hx').
        by destruct (entry_unique_parent F Hwf _ _ _ _ _ _ _ x Hg Hentry Hx Hx')
          as (-> & -> & ->).
Qed.

Lemma sched_inv_pop acts table L sig group :
  sched_inv F value sig_of acts table L [] →
  dget sig table = Some group →
  sched_inv F value sig_of acts (ddel sig table) L group
  ∧ group ≠ [] ∧ Forall (λ inst, sig_of inst sig) group.
Proof.
  intros (Hlog & Hlen & Hnodes & Hkeys & Hgr & Hnd & Hpend) Hget.
  pose proof (ddel_Permutation _ _ _ Hget) as Hperm.
  assert (Hconcat : concat table.*2 ≡ₚ group ++ concat (ddel sig table).*2).
  { by rewrite Hperm at 1. }
  simpl in Hnd, Hpend.
  split; [|by eapply grouped_lookup].
  split_and!; try done.
  - by apply NoDup_ddel.
  - by apply grouped_ddel.
  - by rewrite <-Hconcat.
  - intros inst. by rewrite <-Hconcat.
Qed.

(** When the loop ends, the log holds every instance of the forest and the
    dictionary of each tree holds the root alone. *)
Lemma sched_inv_final acts table L :
  sched_inv F value sig_of acts table L [] →
  concat table.*2 = [] →
  L ≡ₚ all_instances F
  ∧ ∀ t n ch bt, F !! t = Some (n, ch) → is_tree n ch bt →
      acts !! t = Some [(root_id bt, value t (root_id bt))].
Proof.
  intros (Hlog & Hlen & Hnodes & Hkeys & Hgr & Hnd & Hpend) Hempty.
  rewrite Hempty in Hpend. simpl in Hpend.
  assert (Hstuck : ∀ inst, ¬ pending F L inst).
  { intros inst Hp%Hpend. by apply elem_of_nil in Hp. }
  pose proof (stuck_all_done F Hwf L Hlog Hstuck) as Hall.
  split; [by apply final_log|].
  intros t n ch bt Ht Htree.
  destruct (acts !! t) as [nodes|] eqn:Hacts.
  2:{ apply lookup_ge_None in Hacts. apply lookup_lt_Some in Ht. lia. }
  destruct (Hnodes t nodes Hacts) as [Hnd0 Hok]. f_equal.
  assert (Hkey : ∀ x, x ∈ nodes.*1 ↔ x = root_id bt).
  { intros x. rewrite <-dget_is_Some. destruct (Hok x) as [-> _].
    by eapply final_active. }
  destruct nodes as [|[x v] nodes].
  { pose proof (proj2 (Hkey (root_id bt)) eq_refl) as Hin. by apply elem_of_nil in Hin. }
  assert (x = root_id bt) as -> by (apply Hkey; simpl; apply elem_of_cons; by left).
  destruct nodes as [|[y w] nodes].
  - f_equal. f_equal. destruct (Hok (root_id bt)) as [_ Hval].
    apply Hval. simpl. by rewrite decide_True.
  - assert (y = root_id bt) as ->.
    { apply Hkey. simpl. apply elem_of_cons. right. apply elem_of_cons. by left. }
    simpl in Hnd0. apply NoDup_cons in Hnd0 as [Hnotin _].
    destruct Hnotin. apply elem_of_cons. by left.
Qed.

End SchedInvFacts.

(** * [batch_contract.py]: initialisation *)

Lemma zip_keys {A C} (l : list A) (a : list C) : (zip l a).*1 = take (length a) l.
Proof.
  revert a. induction l as [|x l IH]; intros [|y a]; simpl; try done.
  by rewrite IH.
Qed.

Lemma zip_dget_leaf {V} (m : nat) (a : list V) (x : TreeNode) (v : V) :
  dget x (zip (map leaf (seq 0 m)) a) = Some v
  ↔ ∃ i, i < m ∧ x = leaf i ∧ a !! i = Some v.
Proof.
  assert (Hgen : ∀ k, dget x (zip (map leaf (seq k m)) a) = Some v
                      ↔ ∃ i, i < m ∧ x = leaf (k + i) ∧ a !! i = Some v).
  { revert a. induction m as [|m IH]; intros a k.
    - simpl. split; [done | intros (i & ? & _); lia].
    - destruct a as [|y a]; simpl.
      { split; [done | by intros (i & _ & _ & ?)]. }
      destruct (decide (x = leaf k)) as [->|Hne].
      + split.
        * intros [= ->]. exists 0. rewrite Nat.add_0_r. split_and!; [lia|done..].
        * intros (i & Hi & Heq & Hv). destruct i as [|i]; [by simpl in Hv|].
          unfold leaf in Heq. apply singleton_inj in Heq. lia.
      + rewrite IH. split.
        * intros (i & Hi & -> & Hv). exists (S i).
          split_and!; [lia | f_equal; lia | done].
        * intros (i & Hi & -> & Hv). destruct i as [|i].
          { rewrite Nat.add_0_r in Hne. done. }
          exists i. split_and!; [lia | f_equal; lia | done]. }
  apply (Hgen 0).
Qed.

Lemma leaf_inj (i j : nat) : leaf i = leaf j → i = j.
Proof. unfold leaf. apply singleton_inj. Qed.

Lemma leaf_keys_NoDup {V} (m : nat) (a : list V) :
  NoDup (zip (map leaf (seq 0 m)) a).*1.
Proof.
  rewrite zip_keys. eapply sublist_NoDup; [|apply sublist_take].
  apply NoDup_fmap_2; [intros i j; apply leaf_inj | apply NoDup_seq].
Qed.

Lemma elem_of_ready_entries {V} (t : nat) (nodes : dict TreeNode V) es inst :
  inst ∈ ready_entries t nodes es
  ↔ ∃ p l r, inst = (t, p, l, r) ∧ (p, (l, r)) ∈ es
             ∧ dmem l nodes = true ∧ dmem r nodes = true.
Proof.
  unfold ready_entries. rewrite list_elem_of_omap. split.
  - intros ([p [l r]] & Hin & Hsome).
    destruct (dmem l nodes) eqn:Hl, (dmem r nodes) eqn:Hr; simpl in Hsome; try done.
    injection Hsome as <-. by exists p, l, r.
  - intros (p & l & r & -> & Hin & Hl & Hr). exists (p, (l, r)).
    split; [done|]. by rewrite Hl, Hr.
Qed.

Lemma ready_entries_sublist {V} (t : nat) (nodes : dict TreeNode V) es :
  ready_entries t nodes es `sublist_of` map (λ '(p, (l, r)), (t, p, l, r)) es.
Proof.
  induction es as [|[p [l r]] es IH]; simpl; [done|].
  unfold ready_entries in *. simpl.
  destruct (dmem l nodes && dmem r nodes); simpl.
  - by apply sublist_skip.
  - by apply sublist_cons.
Qed.

Section InitA.
Context {B : Backend}.
Import BatchContract.

Lemma bc_forest_lookup trees t n ch :
  bc_forest trees !! t = Some (n, ch)
  ↔ ∃ tree, trees !! t = Some tree ∧ n = N tree ∧ ch = children tree.
Proof.
  unfold bc_forest. rewrite list_lookup_fmap. destruct (trees !! t) as [tree|]; simpl.
  - split; [intros [= <- <-]; by exists tree | by intros (? & [= <-] & -> & ->)].
  - split; [done | by intros (? & ? & _)].
Qed.

Lemma bc_register_loop t tree nodes es table table' trees :
  trees !! t = Some tree →
  for_each (register t tree nodes) es table = Ok table' →
  NoDup table.*1 → grouped (bc_sig_of trees) table →
  NoDup table'.*1 ∧ grouped (bc_sig_of trees) table'
  ∧ concat table'.*2 ≡ₚ concat table.*2 ++ ready_entries t nodes es.
Proof.
  intros Htree. revert table.
  induction es as [|[p [l r]] es IH]; intros table Hloop Hnd Hgr; simpl in Hloop.
  - injection Hloop as <-. unfold ready_entries. simpl. by rewrite app_nil_r.
  - apply bind_Ok in Hloop as (table1 & Hreg & Hloop).
    unfold ready_entries in *. simpl.
    destruct (dmem l nodes && dmem r nodes) eqn:Hmem; simpl.
    + apply bind_Ok in Hreg as (sig & Hsig & [= <-]).
      destruct (IH _ Hloop) as (Hnd' & Hgr' & Hperm).
      * by apply NoDup_dappend.
      * apply grouped_dappend; [done|]. by exists tree.
      * split_and!; [done..|]. rewrite Hperm, concat_dappend.
        by rewrite <-app_assoc.
    + injection Hreg as <-. by apply IH.
Qed.

Lemma bc_seed_loop arrays trees ts st st' :
  (∀ t tree, ts !! t = Some tree → trees !! t = Some tree) →
  for_each (seed arrays) (enumerate ts) st = Ok st' →
  length ts ≤ length (tree_active_nodes st) →
  NoDup (ready st).*1 → grouped (bc_sig_of trees) (ready st) →
  promoted st' = promoted st
  ∧ length (tree_active_nodes st') = length (tree_active_nodes st)
  ∧ (∀ t tree, ts !! t = Some tree →
       ∃ array, arrays !! t = Some array
                ∧ tree_active_nodes st' !! t = Some (bc_leaf_nodes tree array))
  ∧ (∀ t, length ts ≤ t → tree_active_nodes st' !! t = tree_active_nodes st !! t)
  ∧ NoDup (ready st').*1 ∧ grouped (bc_sig_of trees) (ready st')
  ∧ concat (ready st').*2
    ≡ₚ concat (ready st).*2 ++ bc_initial_ready ts arrays.
Proof.
  revert st'. induction ts as [|tree ts IH] using rev_ind;
    intros st' Hsub Hloop Hlen Hnd Hgr.
  - injection Hloop as <-. unfold bc_initial_ready. simpl.
    rewrite app_nil_r. by split_and!.
  - rewrite enumerate_snoc, for_each_app in Hloop.
    apply bind_Ok in Hloop as (st1 & Hloop & Hseed).
    rewrite length_app in Hlen. simpl in Hlen.
    destruct (IH st1) as (Hprom & Hlen1 & Hact & Hrest & Hnd1 & Hgr1 & Hperm);
      [|done|lia|done..|].
    { intros t tree' Ht. apply Hsub. by apply lookup_app_l_Some. }
    simpl in Hseed. apply bind_Ok in Hseed as (st2 & Hseed & [= <-]).
    apply bind_Ok in Hseed as (array & Harray%lindex_Ok & Hseed).
    apply bind_Ok in Hseed as (table & Hreg & [= <-]). simpl.
    rewrite dict_of_NoDup in Hreg |- * by apply leaf_keys_NoDup.
    assert (Htree : trees !! length ts = Some tree).
    { apply Hsub. by rewrite lookup_app_r, Nat.sub_diag. }
    destruct (bc_register_loop _ _ _ _ _ _ trees Htree Hreg Hnd1 Hgr1)
      as (Hnd2 & Hgr2 & Hperm2).
    split_and!; try done.
    + by rewrite length_insert.
    + intros t tree' Ht. destruct (decide (t < length ts)) as [Hlt|Hge].
      * rewrite lookup_app_l in Ht by done.
        destruct (Hact t tree' Ht) as (array' & Ha & Hn). exists array'.
        split; [done|]. rewrite list_lookup_insert_ne by lia. done.
      * rewrite lookup_app_r in Ht by lia.
        destruct (t - length ts) as [|k] eqn:Hk; simpl in Ht; [|done].
        injection Ht as <-. assert (t = length ts) as -> by lia.
        exists array. split; [done|].
        rewrite list_lookup_insert_eq by lia. done.
    + intros t Ht. rewrite length_app in Ht. simpl in Ht.
      rewrite list_lookup_insert_ne by lia. apply Hrest. lia.
    + rewrite Hperm2, Hperm. rewrite <-app_assoc. apply Permutation_app_head.
      unfold bc_initial_ready. rewrite enumerate_snoc, flat_map_app. simpl.
      rewrite app_nil_r. by rewrite Harray.
Qed.

Lemma bc_init_spec trees arrays st :
  init trees arrays = Ok st →
  promoted st = []
  ∧ length (tree_active_nodes st) = length trees
  ∧ (∀ t tree, trees !! t = Some tree →
       ∃ array, arrays !! t = Some array
                ∧ tree_active_nodes st !! t = Some (bc_leaf_nodes tree array))
  ∧ NoDup (ready st).*1 ∧ grouped (bc_sig_of trees) (ready st)
  ∧ concat (ready st).*2 ≡ₚ bc_initial_ready trees arrays.
Proof.
  unfold init. intros Hloop.
  destruct (bc_seed_loop arrays trees trees _ _ (λ _ _ H, H) Hloop)
    as (Hprom & Hlen & Hact & _ & Hnd & Hgr & Hperm); simpl.
  - by rewrite length_map.
  - apply NoDup_nil_2.
  - apply Forall_nil_2.
  - simpl in *. rewrite length_map in Hlen. by split_and!.
Qed.

End InitA.

(** * [batch_contract.py]: the loop *)

Lemma traverse_map {A C} (f : A → result C) (g : A → C) (l : list A) :
  (∀ x, x ∈ l → f x = Ok (g x)) → traverse f l = Ok (map g l).
Proof.
  induction l as [|x l IH]; intros Hall; simpl; [done|].
  rewrite (Hall x) by (apply elem_of_cons; by left). simpl.
  rewrite IH; [done|]. intros y Hy. apply Hall. apply elem_of_cons. by right.
Qed.

(** The parent dictionary of a tree maps every child to its parent. *)
Lemma parent_dict_items (es : list (TreeNode * (TreeNode * TreeNode))) x g :
  NoDup (child_list es) →
  dget x (dict_of (flat_map (λ '(parent, (left_, right_)),
                               [(left_, parent); (right_, parent)]) es))
  = Some g
  ↔ ∃ l r, (g, (l, r)) ∈ es ∧ (x = l ∨ x = r).
Proof.
  intros Hnd.
  set (items := flat_map (λ '(parent, (left_, right_)),
                            [(left_, parent); (right_, parent)]) es).
  assert (Hkeys : items.*1 = child_list es).
  { unfold items, child_list. clear Hnd.
    induction es as [|[p [l r]] es IH]; [done|]. csimpl. by rewrite IH. }
  assert (Hndk : NoDup items.*1) by by rewrite Hkeys.
  rewrite dict_of_NoDup by done. split.
  - intros Hin%dget_Some_elem_of. unfold items in Hin.
    apply list_elem_of_In, in_flat_map in Hin as ([p [l r]] & Hp & Hx).
    apply list_elem_of_In in Hp. exists l, r.
    destruct Hx as [[= <- <-]|[[= <- <-]|[]]]; auto.
  - intros (l & r & Hin & Hx). apply elem_of_dget; [done|].
    apply list_elem_of_In, in_flat_map. exists (g, (l, r)).
    split; [by apply list_elem_of_In|]. simpl. destruct Hx as [->| ->]; auto.
Qed.

Section LoopA.
Context {B : Backend}.
Import BatchContract.

Variables (trees : list ContractionTree) (arrays : list (list Tensor))
          (val : nat → TreeNode → Tensor).
Hypothesis Hwf : bc_well_formed trees arrays.
Hypothesis Hsound : bc_backend_sound trees val.
Hypothesis Hleaves : leaf_values arrays val.

Let F : Forest := bc_forest trees.

Local Abbreviation bc_inv := (bc_invariant trees val).

Lemma bc_wf_forest : wf_forest F.
Proof. by destruct Hwf as (_ & ? & _). Qed.

Lemma bc_entry t p l r :
  entry F t p l r
  ↔ ∃ tree, trees !! t = Some tree ∧ dget p (children tree) = Some (l, r).
Proof.
  unfold entry, F. split.
  - intros (n & ch & (tree & Ht & -> & ->)%bc_forest_lookup & Hp). by exists tree.
  - intros (tree & Ht & Hp). exists (N tree), (children tree).
    split; [|done]. apply bc_forest_lookup. by exists tree.
Qed.

Lemma bc_parent_dict t tree x g :
  trees !! t = Some tree →
  dget x (parent_dict tree) = Some g
  ↔ ∃ l r, entry F t g l r ∧ (x = l ∨ x = r).
Proof.
  intros Ht.
  assert (HF : F !! t = Some (N tree, children tree)).
  { apply bc_forest_lookup. by exists tree. }
  destruct (bc_wf_forest _ _ _ HF) as [bt Htree].
  pose proof (tree_children_NoDup _ _ _ Htree) as [_ Hnd]%NoDup_cons.
  pose proof (tree_keys_NoDup _ _ _ Htree) as Hkeys.
  unfold parent_dict. rewrite parent_dict_items by done.
  split; intros (l & r & Hin & Hx); exists l, r; (split; [|done]).
  - apply bc_entry. exists tree. split; [done|]. by apply elem_of_dget.
  - apply bc_entry in Hin as (tree' & Ht' & Hp).
    rewrite Ht in Ht'. injection Ht' as <-. by apply dget_Some_elem_of.
Qed.

Lemma bc_signature t p l r :
  entry F t p l r → ∃ sig, bc_sig_of trees (t, p, l, r) sig.
Proof.
  intros Hentry. destruct Hwf as (_ & _ & _ & Hsig). apply Hsig.
  by apply elem_of_all_instances_entry; [apply bc_wf_forest|].
Qed.

Lemma bc_promote_ok st todo t p l r :
  bc_inv st ((t, p, l, r) :: todo) →
  ∃ st', promote trees (val t p, (t, p, l, r)) st = Ok st'
         ∧ bc_inv st' todo
         ∧ promoted st' = promoted st ++ [(t, p, l, r)].
Proof.
  intros Hinv. unfold bc_inv in *.
  destruct (sched_inv_operands F val _ bc_wf_forest _ _ _ _ t p l r Hinv)
    as (nodes & Hnodes & Hl & Hr & Hlr); [apply elem_of_cons; by left|].
  assert (Hp : entry F t p l r).
  { destruct Hinv as (_ & _ & _ & _ & _ & _ & Hpend).
    by destruct (proj1 (Hpend (t, p, l, r)) ltac:(apply elem_of_cons; by left)). }
  pose proof Hp as (tree & Htree & Hch)%bc_entry.
  set (nodes' := dset p (val t p) (ddel r (ddel l nodes))).
  unfold promote.
  rewrite (proj2 (lindex_Ok _ _ _) Hnodes). simpl.
  unfold dpop. rewrite Hl. simpl.
  rewrite dget_ddel_ne by done. rewrite Hr. simpl.
  unfold tree_parent, lindex. rewrite list_lookup_fmap, Htree. simpl.
  fold nodes'.
  destruct (dget p (parent_dict tree)) as [g|] eqn:Hg.
  - pose proof Hg as (gl & gr & Hgentry & Hchild)%(bc_parent_dict t tree p g Htree).
    pose proof Hgentry as (tree' & Htree' & Hgch)%bc_entry.
    rewrite Htree in Htree'. injection Htree' as <-.
    unfold dindex. rewrite Hgch. simpl.
    destruct (dmem gl nodes' && dmem gr nodes') eqn:Hmem.
    + apply andb_true_iff in Hmem as [Hgl Hgr].
      destruct (bc_signature _ _ _ _ Hgentry) as (sig & tree' & Htree' & Hsig).
      rewrite Htree in Htree'. injection Htree' as <-.
      rewrite Hsig. simpl. eexists. split; [done|]. simpl. split; [|done].
      apply (sched_inv_promote F val _ bc_wf_forest _ _ _ _ _ _ _ _ nodes _ Hinv Hnodes).
      right. exists g, gl, gr, sig. split_and!; try done.
      intros _. by exists tree.
    + eexists. split; [done|]. simpl. split; [|done].
      apply (sched_inv_promote F val _ bc_wf_forest _ _ _ _ _ _ _ _ nodes _ Hinv Hnodes).
      left. split; [done|]. intros (g' & gl' & gr' & Hg' & Hc' & Hgl' & Hgr').
      destruct (entry_unique_parent F bc_wf_forest _ _ _ _ _ _ _ p Hgentry Hg' Hchild Hc')
        as (<- & <- & <-).
      fold nodes' in Hgl', Hgr'. by rewrite Hgl', Hgr' in Hmem.
  - eexists. split; [done|]. simpl. split; [|done].
    apply (sched_inv_promote F val _ bc_wf_forest _ _ _ _ _ _ _ _ nodes _ Hinv Hnodes).
    left. split; [done|]. intros (g' & gl' & gr' & Hg' & Hc' & _).
    assert (Hsome : dget p (parent_dict tree) = Some g').
    { apply (bc_parent_dict t tree p g' Htree). by exists gl', gr'. }
    by rewrite Hg in Hsome.
Qed.

Lemma bc_promote_all st todo :
  bc_inv st todo →
  ∃ st', for_each (promote trees)
           (zip (map (λ '(t, p, _, _), val t p) todo) todo) st = Ok st'
         ∧ bc_inv st' []
         ∧ promoted st' = promoted st ++ todo.
Proof.
  revert st. induction todo as [|[[[t p] l] r] todo IH]; intros st Hinv.
  - exists st. simpl. by rewrite app_nil_r.
  - destruct (bc_promote_ok _ _ _ _ _ _ Hinv) as (st1 & Hprom & Hinv1 & Hlog1).
    destruct (IH st1 Hinv1) as (st' & Hloop & Hinv' & Hlog').
    change (for_each (promote trees)
              (zip (map (λ '(t, p, _, _), val t p) ((t, p, l, r) :: todo))
                   ((t, p, l, r) :: todo)) st)
      with (st1 ← promote trees (val t p, (t, p, l, r)) st;
            for_each (promote trees)
              (zip (map (λ '(t, p, _, _), val t p) todo) todo) st1).
    rewrite Hprom. simpl.
    exists st'. split_and!; [done..|]. by rewrite Hlog', Hlog1, <-app_assoc.
Qed.

Lemma bc_execute_ok st sig group :
  bc_inv st group → group ≠ [] →
  Forall (λ inst, bc_sig_of trees inst sig) group →
  ∃ res, execute sig group (tree_active_nodes st) = Ok res
         ∧ rows res = map (λ '(t, p, _, _), val t p) group.
Proof.
  intros Hinv Hne Hsig.
  assert (Hops : ∀ t p l r, (t, p, l, r) ∈ group →
            ∃ nodes, tree_active_nodes st !! t = Some nodes
                     ∧ dget l nodes = Some (val t l)
                     ∧ dget r nodes = Some (val t r)).
  { intros t p l r Hin.
    destruct (sched_inv_operands F val _ bc_wf_forest _ _ _ _ t p l r Hinv Hin)
      as (nodes & ? & ? & ? & _). by exists nodes. }
  destruct (Hsound sig group Hne) as (beq & Ls & Rs & res & Hbeq & HL & HR & Hres & Hrows).
  { apply Forall_forall. intros [[[t p] l] r] Hin. split.
    - apply elem_of_all_instances_entry; [apply bc_wf_forest|].
      destruct Hinv as (_ & _ & _ & _ & _ & _ & Hpend).
      by destruct (proj1 (Hpend (t, p, l, r)) ltac:(apply elem_of_app; by left)).
    - by apply (proj1 (Forall_forall _ _) Hsig). }
  exists res. split; [|done].
  destruct sig as [[eq sl] sr]. unfold execute. simpl in Hbeq. rewrite Hbeq. simpl.
  assert (Hleft :
    traverse (λ '(tree_idx, _, left_, _),
                nodes ← lindex tree_idx (tree_active_nodes st);
                dindex left_ nodes) group
    = Ok (map (λ '(t, _, l, _), val t l) group)).
  { apply traverse_map. intros [[[t p] l] r] Hin.
    destruct (Hops _ _ _ _ Hin) as (nodes & Hn & Hl & _).
    simpl. unfold lindex. rewrite Hn. simpl. unfold dindex. by rewrite Hl. }
  assert (Hright :
    traverse (λ '(tree_idx, _, _, right_),
                nodes ← lindex tree_idx (tree_active_nodes st);
                dindex right_ nodes) group
    = Ok (map (λ '(t, _, _, r), val t r) group)).
  { apply traverse_map. intros [[[t p] l] r] Hin.
    destruct (Hops _ _ _ _ Hin) as (nodes & Hn & _ & Hr).
    simpl. unfold lindex. rewrite Hn. simpl. unfold dindex. by rewrite Hr. }
  rewrite Hleft. simpl. rewrite Hright.
  simpl. rewrite HL. simpl. rewrite HR. simpl. done.
Qed.

Lemma bc_step_ok st :
  bc_inv st [] → any_values (ready st) = true →
  ∃ st', step trees st = Ok st' ∧ bc_inv st' []
         ∧ length (promoted st) < length (promoted st').
Proof.
  intros Hinv Hany.
  assert (Hkeys : NoDup (ready st).*1) by by destruct Hinv as (_ & _ & _ & ? & _).
  assert (Hne : ready st ≠ []) by (intros Heq; by rewrite Heq in Hany).
  destruct (pop_largest _ Hkeys Hne) as (sig & group & Hmax & Hget & _).
  destruct (sched_inv_pop F val _ _ _ _ _ _ Hinv Hget) as (Hinv1 & Hgne & Hsig).
  set (st1 := {| ready := ddel sig (ready st);
                 tree_active_nodes := tree_active_nodes st;
                 promoted := promoted st |}).
  change (bc_inv st1 group) in Hinv1.
  destruct (bc_execute_ok st1 sig group Hinv1 Hgne Hsig) as (res & Hexec & Hrows).
  destruct (bc_promote_all st1 group Hinv1) as (st' & Hloop & Hinv' & Hlog').
  exists st'. split_and!; [|done|].
  - unfold step. rewrite Hmax. simpl. unfold dindex. rewrite Hget. simpl.
    fold st1. simpl in Hexec. rewrite Hexec. simpl. by rewrite Hrows.
  - rewrite Hlog'. simpl. rewrite length_app. destruct group; [done|simpl; lia].
Qed.

Lemma bc_log_bound st todo :
  bc_inv st todo → length (promoted st) ≤ length (all_instances F).
Proof.
  intros ([Hnd Hlog] & _). apply submseteq_length, NoDup_submseteq; [done|].
  intros [[[t p] l] r] Hin.
  apply elem_of_all_instances_entry; [apply bc_wf_forest|]. by apply Hlog.
Qed.

Lemma bc_loop_ok fuel st :
  bc_inv st [] →
  length (all_instances F) - length (promoted st) ≤ fuel →
  ∃ st', loop fuel trees st = Some (Ok st') ∧ bc_inv st' []
         ∧ any_values (ready st') = false.
Proof.
  revert st. induction fuel as [|fuel IH]; intros st Hinv Hfuel.
  - destruct (any_values (ready st)) eqn:Hany.
    + destruct (bc_step_ok st Hinv Hany) as (st' & _ & Hinv' & Hlt).
      pose proof (bc_log_bound st' [] Hinv'). lia.
    + exists st. simpl. by rewrite Hany.
  - simpl. destruct (any_values (ready st)) eqn:Hany.
    + destruct (bc_step_ok st Hinv Hany) as (st' & -> & Hinv' & Hlt).
      apply IH; [done|lia].
    + by exists st.
Qed.

End LoopA.

Lemma flat_map_sublist {A C} (f g : A → list C) (l : list A) :
  (∀ x, x ∈ l → f x `sublist_of` g x) → flat_map f l `sublist_of` flat_map g l.
Proof.
  induction l as [|x l IH]; intros Hall; simpl; [done|].
  apply sublist_app.
  - apply Hall. apply elem_of_cons. by left.
  - apply IH. intros y Hy. apply Hall. apply elem_of_cons. by right.
Qed.

Lemma flat_map_fmap {A A' C} (f : A' → list C) (g : A → A') (l : list A) :
  flat_map f (g <$> l) = flat_map (λ x, f (g x)) l.
Proof. induction l as [|x l IH]; csimpl; [done | by rewrite IH]. Qed.

Lemma enumerate_fmap {A C} (f : A → C) (l : list A) :
  enumerate (f <$> l) = (λ '(i, x), (i, f x)) <$> enumerate l.
Proof.
  induction l as [|x l IH] using rev_ind; [done|].
  rewrite fmap_app. change (f <$> [x]) with [f x].
  by rewrite !enumerate_snoc, fmap_app, IH, length_fmap.
Qed.

Lemma elem_of_flat_map_enumerate {A C} (f : nat * A → list C) (l : list A) y :
  y ∈ flat_map f (enumerate l) ↔ ∃ i x, l !! i = Some x ∧ y ∈ f (i, x).
Proof.
  rewrite list_elem_of_In, in_flat_map. split.
  - intros ([i x] & Hin%list_elem_of_In%enumerate_lookup & Hy%list_elem_of_In). eauto.
  - intros (i & x & Hl & Hy). exists (i, x).
    split; apply list_elem_of_In; [by apply enumerate_lookup | done].
Qed.

Section FinalA.
Context {B : Backend}.
Import BatchContract.

Variables (trees : list ContractionTree) (arrays : list (list Tensor))
          (val : nat → TreeNode → Tensor).
Hypothesis Hwf : bc_well_formed trees arrays.
Hypothesis Hsound : bc_backend_sound trees val.
Hypothesis Hleaves : leaf_values arrays val.

Let F : Forest := bc_forest trees.
Local Abbreviation bc_inv := (bc_invariant trees val).

Lemma bc_initial_ready_sublist :
  bc_initial_ready trees arrays `sublist_of` all_instances F.
Proof.
  unfold bc_initial_ready, all_instances, F, bc_forest.
  rewrite enumerate_fmap, flat_map_fmap.
  apply flat_map_sublist. intros [t tree] _. simpl.
  apply ready_entries_sublist.
Qed.

Lemma bc_leaf_nodes_active t tree array x :
  trees !! t = Some tree → arrays !! t = Some array →
  (is_Some (dget x (bc_leaf_nodes tree array)) ↔ is_leaf F t x)
  ∧ ∀ v, dget x (bc_leaf_nodes tree array) = Some v → v = val t x.
Proof.
  intros Ht Ha. destruct Hwf as (_ & _ & Hlen & _).
  specialize (Hlen t tree array Ht Ha).
  assert (HF : F !! t = Some (N tree, children tree)).
  { apply bc_forest_lookup. by exists tree. }
  unfold bc_leaf_nodes. split; [split|].
  - intros [v (i & Hi & -> & _)%zip_dget_leaf]. by exists (N tree), (children tree), i.
  - intros (n & ch & i & HF' & Hi & ->). rewrite HF in HF'. injection HF' as <- <-.
    destruct (array !! i) as [v|] eqn:Hv.
    + exists v. apply zip_dget_leaf. by exists i.
    + apply lookup_ge_None in Hv. lia.
  - intros v (i & Hi & -> & Hv)%zip_dget_leaf. symmetry. by eapply Hleaves.
Qed.

Lemma bc_init_success :
  ∃ st, init trees arrays = Ok st.
Proof.
  unfold init.
  assert (Hgen : ∀ ts st,
    (∀ t tree, ts !! t = Some tree → trees !! t = Some tree) →
    ∃ st', for_each (seed arrays) (enumerate ts) st = Ok st').
  { induction ts as [|tree ts IH] using rev_ind; intros st Hsub; [by exists st|].
    rewrite enumerate_snoc, for_each_app.
    destruct (IH st) as [st1 ->].
    { intros t tree' Ht. apply Hsub. by apply lookup_app_l_Some. }
    simpl.
    assert (Htree : trees !! length ts = Some tree).
    { apply Hsub. by rewrite lookup_app_r, Nat.sub_diag. }
    destruct (arrays !! length ts) as [array|] eqn:Harray.
    2:{ apply lookup_ge_None in Harray. apply lookup_lt_Some in Htree.
        destruct Hwf as (Hlen & _). lia. }
    unfold lindex. rewrite Harray. simpl.
    assert (Hreg : ∀ es table,
      (∀ e, e ∈ es → e ∈ children tree) →
      ∃ table', for_each (register (length ts) tree
                            (dict_of (zip (map leaf (seq 0 (N tree))) array)))
                         es table = Ok table').
    { induction es as [|[p [l r]] es IHes]; intros table Hes; [by exists table|].
      simpl. destruct (dmem l _ && dmem r _).
      - destruct Hwf as (_ & _ & _ & Hsig).
        destruct (Hsig (length ts, p, l, r)) as (sig & tree' & Ht' & Hs).
        { apply elem_of_all_instances. exists (N tree), (children tree).
          split; [apply bc_forest_lookup; by exists tree|].
          apply Hes. apply elem_of_cons. by left. }
        rewrite Htree in Ht'. injection Ht' as <-. rewrite Hs. simpl.
        apply IHes. intros e He. apply Hes. apply elem_of_cons. by right.
      - simpl. apply IHes. intros e He. apply Hes. apply elem_of_cons. by right. }
    destruct (Hreg (children tree) (ready st1)) as [table ->]; [done|].
    simpl. by eexists. }
  by apply Hgen.
Qed.

Lemma bc_init_ok :
  ∃ st, init trees arrays = Ok st ∧ bc_inv st [] ∧ promoted st = [].
Proof.
  destruct bc_init_success as [st Hinit]. exists st. split; [done|].
  destruct (bc_init_spec _ _ _ Hinit) as (Hprom & Hlen & Hact & Hnd & Hgr & Hperm).
  split; [|done]. unfold bc_invariant. rewrite Hprom.
  pose proof (bc_wf_forest trees arrays Hwf) as HwfF.
  split_and!; try done.
  - apply log_ok_nil.
  - unfold bc_forest. by rewrite length_map.
  - intros t nodes Hn.
    destruct (trees !! t) as [tree|] eqn:Ht.
    2:{ apply lookup_ge_None in Ht. apply lookup_lt_Some in Hn. lia. }
    destruct (Hact t tree Ht) as (array & Ha & Hn'). rewrite Hn in Hn'.
    injection Hn' as ->. split; [apply leaf_keys_NoDup|].
    intros x. destruct (bc_leaf_nodes_active t tree array x Ht Ha) as [Hiff Hval].
    split; [|done]. by rewrite active_nil.
  - simpl. rewrite Hperm. eapply sublist_NoDup; [|apply bc_initial_ready_sublist].
    by apply all_instances_NoDup.
  - intros [[[t p] l] r]. rewrite (pending_nil (bc_forest trees)).
    simpl. rewrite Hperm.
    unfold bc_initial_ready. rewrite elem_of_flat_map_enumerate. split.
    + intros (t' & tree & Ht & Hin).
      apply elem_of_ready_entries in Hin as (p' & l' & r' & [= -> -> -> ->] & Hin & Hl & Hr).
      destruct (Hact t' tree Ht) as (array & Ha & _). rewrite Ha in Hl, Hr. simpl in Hl, Hr.
      assert (HF : bc_forest trees !! t' = Some (N tree, children tree)).
      { apply bc_forest_lookup. by exists tree. }
      destruct (HwfF _ _ _ HF) as [bt Htree].
      split_and!.
      * exists (N tree), (children tree). split; [done|].
        apply elem_of_dget; [by eapply tree_keys_NoDup | done].
      * by apply (bc_leaf_nodes_active t' tree array), dmem_true.
      * by apply (bc_leaf_nodes_active t' tree array), dmem_true.
    + intros ((n & ch & (tree & Ht & -> & ->)%bc_forest_lookup & Hp) & Hl & Hr).
      exists t, tree. split; [done|].
      destruct (Hact t tree Ht) as (array & Ha & _). rewrite Ha. simpl.
      apply elem_of_ready_entries. exists p, l, r.
      split_and!; [done | by apply dget_Some_elem_of | |];
        by apply dmem_true, (bc_leaf_nodes_active t tree array).
Qed.

(** With enough fuel the loop ends; every instance of the forest has then
    been promoted once, and the dictionary of each tree holds its root
    alone, with the value that [val] gives it. *)
Lemma bc_run_ok fuel :
  length (all_instances F) ≤ fuel →
  ∃ st, run fuel trees arrays = Some (Ok st)
        ∧ any_values (ready st) = false
        ∧ promoted st ≡ₚ all_instances F
        ∧ length (tree_active_nodes st) = length trees
        ∧ ∀ t tree bt, trees !! t = Some tree →
            is_tree (N tree) (children tree) bt →
            tree_active_nodes st !! t = Some [(root_id bt, val t (root_id bt))].
Proof.
  intros Hfuel. destruct bc_init_ok as (st0 & Hinit & Hinv0 & Hlog0).
  destruct (bc_loop_ok trees arrays val Hwf Hsound fuel st0 Hinv0) as (st & Hloop & Hinv & Hany).
  { rewrite Hlog0. simpl. fold F. lia. }
  exists st. unfold run. rewrite Hinit. split_and!; [done..| | |].
  2:{ destruct Hinv as (_ & Hlen & _). rewrite Hlen. unfold F, bc_forest.
      by rewrite length_map. }
  - assert (Hempty : ready st = []).
    { apply any_values_false; [done|].
      destruct Hinv as (_ & _ & _ & _ & Hgr & _).
      eapply Forall_impl; [exact Hgr|]. by intros kl [? _]. }
    eapply (sched_inv_final F val); [by eapply bc_wf_forest | exact Hinv|].
    by rewrite Hempty.
  - intros t tree bt Ht Htree.
    assert (Hempty : ready st = []).
    { apply any_values_false; [done|].
      destruct Hinv as (_ & _ & _ & _ & Hgr & _).
      eapply Forall_impl; [exact Hgr|]. by intros kl [? _]. }
    eapply (sched_inv_final F val); [by eapply bc_wf_forest | exact Hinv | by rewrite Hempty| |done].
    apply bc_forest_lookup. by exists tree.
Qed.

End FinalA.

(** * [batch_tn/batch.py]: the dictionaries and the initialisation *)

Lemma dset_keys_eq {K V1 V2} {EqK : EqDecision K} (k : K) (v1 : V1) (v2 : V2)
    (d1 : dict K V1) (d2 : dict K V2) :
  d1.*1 = d2.*1 → (dset k v1 d1).*1 = (dset k v2 d2).*1.
Proof.
  revert d2. induction d1 as [|[k1 w1] d1 IH]; intros [|[k2 w2] d2]; simpl; try done.
  intros [= -> Hrest]. destruct (decide (k = k2)); simpl; [by rewrite Hrest|].
  f_equal. by apply IH.
Qed.

Lemma leaf_dict_zip {V} (values : list V) :
  Batch.leaf_dict values = zip (map leaf (seq 0 (length values))) values.
Proof.
  unfold Batch.leaf_dict, enumerate.
  assert (Heq : (λ '(n, arr), (leaf n, arr)) <$> zip (seq 0 (length values)) values
                = zip (map leaf (seq 0 (length values))) values).
  { generalize 0. induction values as [|v values IH]; intros k; simpl; [done|].
    by rewrite IH. }
  change (map ?f ?l) with (f <$> l) at 1.
  rewrite Heq. apply dict_of_NoDup, leaf_keys_NoDup.
Qed.

Lemma leaf_dict_dget {V} (values : list V) (x : TreeNode) (v : V) :
  dget x (Batch.leaf_dict values) = Some v
  ↔ ∃ i, x = leaf i ∧ values !! i = Some v.
Proof.
  rewrite leaf_dict_zip, zip_dget_leaf. split.
  - intros (i & _ & -> & Hv). by exists i.
  - intros (i & -> & Hv). exists i. split_and!; [|done..].
    by eapply lookup_lt_Some.
Qed.

Section MapsB.
Import Batch.

Lemma tn_build_maps_fold (m0 : Maps) (cs : list Contraction) :
  let m := foldl add_contraction m0 cs in
  children_map m
  = foldl (λ d kv, dset kv.1 kv.2 d) (children_map m0) (tn_binary cs)
  ∧ parent_map m
    = foldl (λ d kv, dset kv.1 kv.2 d) (parent_map m0) (tn_items (tn_binary cs))
  ∧ eq_map m = foldl (λ d kv, dset kv.1 kv.2 d) (eq_map m0) (tn_eqs cs)
  ∧ ((eq_map m0).*1 = (children_map m0).*1 → (eq_map m).*1 = (children_map m).*1).
Proof.
  revert m0. induction cs as [|[[[p l] r] eq] cs IH]; intros m0; simpl; [done|].
  destruct l as [l|], r as [r|]; simpl; try apply IH.
  destruct (IH {| children_map := dset p (l, r) (children_map m0);
                  parent_map := dset r p (dset l p (parent_map m0));
                  eq_map := dset p eq (eq_map m0) |}) as (Hch & Hpar & Heqs & Hkeys).
  simpl in *. split_and!; [done..|].
  intros Heq. apply Hkeys. by apply dset_keys_eq.
Qed.

Lemma tn_eqs_keys (cs : list Contraction) : (tn_eqs cs).*1 = (tn_binary cs).*1.
Proof.
  induction cs as [|[[[p l] r] eq] cs IH]; [done|].
  unfold tn_eqs, tn_binary in *. simpl.
  destruct l as [l|], r as [r|]; csimpl; by rewrite ?IH.
Qed.

Lemma tn_eq_map (cs : list Contraction) p l r eq :
  NoDup (tn_binary cs).*1 → (p, Some l, Some r, eq) ∈ cs →
  dget p (eq_map (build_maps cs)) = Some eq.
Proof.
  intros Hnd Hin. unfold build_maps. destruct (tn_build_maps_fold
    {| children_map := []; parent_map := []; eq_map := [] |} cs) as (_ & _ & -> & _).
  simpl. fold (dict_of (tn_eqs cs)).
  rewrite dict_of_NoDup by by rewrite tn_eqs_keys.
  apply elem_of_dget; [by rewrite tn_eqs_keys|].
  unfold tn_eqs. apply list_elem_of_omap. by exists (p, Some l, Some r, eq).
Qed.

Lemma elem_of_tn_binary (cs : list Contraction) p l r :
  (p, (l, r)) ∈ tn_binary cs ↔ ∃ eq, (p, Some l, Some r, eq) ∈ cs.
Proof.
  unfold tn_binary. rewrite list_elem_of_omap. split.
  - intros ([[[p' l'] r'] eq] & Hin & Hsome).
    destruct l' as [l'|], r' as [r'|]; try done. injection Hsome as -> -> ->.
    by exists eq.
  - intros (eq & Hin). by exists (p, Some l, Some r, eq).
Qed.

Lemma tn_children_map (cs : list Contraction) :
  NoDup (tn_binary cs).*1 → children_map (build_maps cs) = tn_binary cs.
Proof.
  intros Hnd. unfold build_maps. destruct (tn_build_maps_fold
    {| children_map := []; parent_map := []; eq_map := [] |} cs) as (-> & _).
  by apply dict_of_NoDup.
Qed.

Lemma tn_parent_map (cs : list Contraction) :
  parent_map (build_maps cs) = dict_of (tn_items (tn_binary cs)).
Proof.
  unfold build_maps. by destruct (tn_build_maps_fold
    {| children_map := []; parent_map := []; eq_map := [] |} cs) as (_ & -> & _).
Qed.

Lemma tn_eq_map_keys (cs : list Contraction) :
  (eq_map (build_maps cs)).*1 = (children_map (build_maps cs)).*1.
Proof.
  destruct (tn_build_maps_fold
    {| children_map := []; parent_map := []; eq_map := [] |} cs) as (_ & _ & _ & Hkeys).
  by apply Hkeys.
Qed.

Lemma tn_register_loop (P : Instance → Signature → Prop) t nodes cs table :
  (∀ p l r eq sl sr,
     (p, Some l, Some r, eq) ∈ cs →
     dget l nodes = Some sl → dget r nodes = Some sr →
     P (t, p, l, r) (eq, sl, sr)) →
  NoDup table.*1 → grouped P table →
  ∃ table',
    for_each (register t nodes) cs table = Ok table'
    ∧ NoDup table'.*1 ∧ grouped P table'
    ∧ concat table'.*2 ≡ₚ concat table.*2 ++ tn_ready_entries t nodes cs.
Proof.
  revert table. induction cs as [|[[[p l] r] eq] cs IH]; intros table HP Hnd Hgr.
  - exists table. unfold tn_ready_entries. simpl. by rewrite app_nil_r.
  - assert (HP' : ∀ p l r eq sl sr,
       (p, Some l, Some r, eq) ∈ cs →
       dget l nodes = Some sl → dget r nodes = Some sr →
       P (t, p, l, r) (eq, sl, sr)).
    { intros ? ? ? ? ? ? Hin. apply HP. apply elem_of_cons. by right. }
    unfold tn_ready_entries in *. simpl.
    destruct l as [l|], r as [r|]; simpl; try by apply IH.
    destruct (dmem l nodes && dmem r nodes) eqn:Hmem; simpl; [|by apply IH].
    apply andb_true_iff in Hmem as [[sl Hl]%dmem_true [sr Hr]%dmem_true].
    unfold dindex. rewrite Hl, Hr. simpl.
    destruct (IH (dappend (eq, sl, sr) (t, p, l, r) table)) as (table' & -> & ? & ? & Hperm);
      [done | by apply NoDup_dappend | |].
    { apply grouped_dappend; [done|]. apply HP; [apply elem_of_cons; by left|done..]. }
    exists table'. split_and!; [done..|].
    rewrite Hperm, concat_dappend. by rewrite <-app_assoc.
Qed.

Lemma tn_seed_loop (P : Instance → Signature → Prop)
    (cb : list (list Contraction)) (sb : list (list ArrayShape)) table :
  (∀ t cs shapes p l r eq sl sr,
     cb !! t = Some cs → sb !! t = Some shapes →
     (p, Some l, Some r, eq) ∈ cs →
     dget l (leaf_dict shapes) = Some sl → dget r (leaf_dict shapes) = Some sr →
     P (t, p, l, r) (eq, sl, sr)) →
  NoDup table.*1 → grouped P table →
  ∃ table',
    for_each seed (enumerate (zip cb (map leaf_dict sb))) table = Ok table'
    ∧ NoDup table'.*1 ∧ grouped P table'
    ∧ concat table'.*2 ≡ₚ concat table.*2 ++ tn_initial_ready cb sb.
Proof.
  intros HP Hnd Hgr.
  assert (Hgen : ∀ pairs : list (list Contraction * list ArrayShape),
    (∀ t cs shapes, pairs !! t = Some (cs, shapes) →
                    cb !! t = Some cs ∧ sb !! t = Some shapes) →
    ∃ table',
      for_each seed (enumerate ((λ '(cs, shapes), (cs, leaf_dict shapes)) <$> pairs))
               table = Ok table'
      ∧ NoDup table'.*1 ∧ grouped P table'
      ∧ concat table'.*2
        ≡ₚ concat table.*2
           ++ flat_map (λ '(t, (cs, shapes)),
                          tn_ready_entries t (leaf_dict shapes) cs)
                       (enumerate pairs)).
  { induction pairs as [|[cs shapes] pairs IH] using rev_ind; intros Hsub.
    - exists table. simpl. by rewrite app_nil_r.
    - destruct IH as (table1 & Hloop & Hnd1 & Hgr1 & Hperm1).
      { intros t cs' shapes' Ht. apply Hsub. by apply lookup_app_l_Some. }
      rewrite fmap_app. change ((λ '(cs, shapes), (cs, leaf_dict shapes)) <$> [(cs, shapes)])
        with [(cs, leaf_dict shapes)].
      rewrite !enumerate_snoc, for_each_app, Hloop, flat_map_app. simpl.
      rewrite length_fmap.
      destruct (Hsub (length pairs) cs shapes) as [Hcs Hshapes].
      { by rewrite lookup_app_r, Nat.sub_diag. }
      destruct (tn_register_loop P (length pairs) (leaf_dict shapes) cs table1)
        as (table' & -> & Hnd' & Hgr' & Hperm'); [|done..|].
      { intros p l r eq sl sr Hin Hl Hr. by eapply HP. }
      exists table'. split_and!; [done..|].
      rewrite Hperm', Hperm1, app_nil_r. by rewrite <-app_assoc. }
  destruct (Hgen (zip cb sb)) as (table' & Hloop & ? & ? & Hperm).
  { intros t cs shapes Ht. apply lookup_zip_with_Some in Ht as (? & ? & [= <- <-] & ? & ?). done. }
  exists table'. split_and!; [|done..].
  rewrite <-Hloop. f_equal. f_equal.
  clear. revert sb. induction cb as [|cs cb IH]; intros [|shapes sb]; simpl; try done.
  by rewrite IH.
Qed.

Lemma tn_init_spec (cb : list (list Contraction)) (sb : list (list ArrayShape)) :
  ∃ st, init cb sb = Ok st
        ∧ node2shape_batch st = map leaf_dict sb
        ∧ batched_contractions st = []
        ∧ NoDup (contractible st).*1
        ∧ grouped (tn_initial_key cb sb) (contractible st)
        ∧ concat (contractible st).*2 ≡ₚ tn_initial_ready cb sb.
Proof.
  destruct (tn_seed_loop (tn_initial_key cb sb) cb sb [])
    as (table & Hloop & Hnd & Hgr & Hperm).
  - intros t cs shapes p l r eq sl sr ? ? ? ? ?. by exists cs, shapes.
  - apply NoDup_nil_2.
  - apply Forall_nil_2.
  - unfold init. rewrite Hloop. simpl. eexists. by split_and!.
Qed.

End MapsB.

(** * [batch_tn/batch.py]: the scheduling loop *)

Lemma tn_replayable_app {B : Backend} cb ab val L s1 s2 :
  tn_replayable cb ab val L (s1 ++ s2)
  ↔ tn_replayable cb ab val L s1
    ∧ tn_replayable cb ab val (L ++ concat s1.*2) s2.
Proof.
  revert L. induction s1 as [|[eq targets] s1 IH]; intros L; simpl.
  - rewrite app_nil_r. tauto.
  - rewrite IH, <-app_assoc. tauto.
Qed.

Lemma for_each_cons {A S} (body : A → S → result S) (x : A) (l : list A) (st : S) :
  for_each body (x :: l) st = (st' ← body x st; for_each body l st').
Proof. done. Qed.

Section LoopB.
Context {B : Backend}.
Import Batch.

Variables (cb : list (list Contraction)) (ab : list (list Tensor))
          (val : nat → TreeNode → Tensor).
Hypothesis Hwf : tn_well_formed cb ab.
Hypothesis Hshapes : tn_shapes_sound cb ab val.
Hypothesis Hleaves : leaf_values ab val.

Let F : Forest := tn_forest cb ab.
Let maps : list Maps := map build_maps cb.
Let shape_val : nat → TreeNode → ArrayShape := λ t x, tshape (val t x).
Local Abbreviation inv :=
  (sched_inv F shape_val (tn_sig_of cb val)).

Lemma tn_wf_forest : wf_forest F.
Proof. by destruct Hwf. Qed.

Lemma tn_forest_lookup t n ch :
  F !! t = Some (n, ch)
  ↔ ∃ cs arrays, cb !! t = Some cs ∧ ab !! t = Some arrays
                 ∧ n = length arrays ∧ ch = tn_binary cs.
Proof.
  unfold F, tn_forest. rewrite list_lookup_fmap. split.
  - destruct (zip cb ab !! t) as [[cs arrays]|] eqn:Hz; [|done].
    intros [= <- <-].
    apply lookup_zip_with_Some in Hz as (? & ? & [= <- <-] & ? & ?).
    by exists cs, arrays.
  - intros (cs & arrays & Hcs & Harr & -> & ->).
    assert (Hz : zip cb ab !! t = Some (cs, arrays)).
    { apply lookup_zip_with_Some. by exists cs, arrays. }
    by rewrite Hz.
Qed.

Lemma tn_keys_NoDup t cs :
  cb !! t = Some cs → NoDup (tn_binary cs).*1.
Proof.
  intros Hcs. destruct (ab !! t) as [arrays|] eqn:Harr.
  2:{ apply lookup_ge_None in Harr. apply lookup_lt_Some in Hcs.
      destruct Hwf as [Hlen _]. lia. }
  assert (HF : F !! t = Some (length arrays, tn_binary cs)).
  { apply tn_forest_lookup. by exists cs, arrays. }
  destruct (tn_wf_forest _ _ _ HF) as [bt Htree]. by eapply tree_keys_NoDup.
Qed.

Lemma tn_entry t p l r :
  entry F t p l r
  ↔ ∃ cs, cb !! t = Some cs
          ∧ dget p (children_map (build_maps cs)) = Some (l, r).
Proof.
  unfold entry. split.
  - intros (n & ch & (cs & arrays & Hcs & Harr & -> & ->)%tn_forest_lookup & Hp).
    exists cs. split; [done|]. by rewrite tn_children_map by by eapply tn_keys_NoDup.
  - intros (cs & Hcs & Hp).
    destruct (ab !! t) as [arrays|] eqn:Harr.
    2:{ apply lookup_ge_None in Harr. apply lookup_lt_Some in Hcs.
        destruct Hwf as [Hlen _]. lia. }
    exists (length arrays), (tn_binary cs). split.
    + apply tn_forest_lookup. by exists cs, arrays.
    + by rewrite tn_children_map in Hp by by eapply tn_keys_NoDup.
Qed.

Lemma tn_parent_map_spec t cs x g :
  cb !! t = Some cs →
  dget x (parent_map (build_maps cs)) = Some g
  ↔ ∃ l r, entry F t g l r ∧ (x = l ∨ x = r).
Proof.
  intros Hcs. destruct (ab !! t) as [arrays|] eqn:Harr.
  2:{ apply lookup_ge_None in Harr. apply lookup_lt_Some in Hcs.
      destruct Hwf as [Hlen _]. lia. }
  assert (HF : F !! t = Some (length arrays, tn_binary cs)).
  { apply tn_forest_lookup. by exists cs, arrays. }
  destruct (tn_wf_forest _ _ _ HF) as [bt Htree].
  pose proof (tree_children_NoDup _ _ _ Htree) as [_ Hnd]%NoDup_cons.
  pose proof (tree_keys_NoDup _ _ _ Htree) as Hkeys.
  rewrite tn_parent_map. unfold tn_items. rewrite parent_dict_items by done.
  split; intros (l & r & Hin & Hx); exists l, r; (split; [|done]).
  - exists (length arrays), (tn_binary cs). split; [done|]. by apply elem_of_dget.
  - destruct Hin as (n & ch & HF' & Hp). rewrite HF in HF'.
    injection HF' as <- <-. by apply dget_Some_elem_of.
Qed.

Lemma tn_eq_exists t cs p l r :
  cb !! t = Some cs → entry F t p l r →
  ∃ eq, dget p (eq_map (build_maps cs)) = Some eq.
Proof.
  intros Hcs (cs' & Hcs' & Hp)%tn_entry. rewrite Hcs in Hcs'. injection Hcs' as <-.
  apply dget_is_Some. rewrite tn_eq_map_keys. apply dget_is_Some. by eauto.
Qed.

Lemma tn_promote_ok st L todo t p l r :
  inv (node2shape_batch st) (contractible st) L ((t, p, l, r) :: todo) →
  ∃ st', promote maps (shape_val t p) (t, p, l, r) st = Ok st'
         ∧ inv (node2shape_batch st') (contractible st') (L ++ [(t, p, l, r)]) todo
         ∧ batched_contractions st' = batched_contractions st.
Proof.
  intros Hinv.
  destruct (sched_inv_operands F shape_val _ tn_wf_forest _ _ _ _ t p l r Hinv)
    as (nodes & Hnodes & Hl & Hr & Hlr); [apply elem_of_cons; by left|].
  assert (Hp : entry F t p l r).
  { destruct Hinv as (_ & _ & _ & _ & _ & _ & Hpend).
    by destruct (proj1 (Hpend (t, p, l, r)) ltac:(apply elem_of_cons; by left)). }
  pose proof Hp as (cs & Hcs & Hch)%tn_entry.
  set (nodes' := dset p (shape_val t p) (ddel r (ddel l nodes))).
  unfold promote.
  rewrite (proj2 (lindex_Ok _ _ _) Hnodes). simpl.
  unfold dpop. rewrite Hl. simpl.
  rewrite dget_ddel_ne by done. rewrite Hr. simpl.
  unfold maps, lindex. rewrite list_lookup_fmap, Hcs. simpl.
  fold nodes'.
  destruct (dget p (parent_map (build_maps cs))) as [g|] eqn:Hg.
  - pose proof Hg as (gl & gr & Hgentry & Hchild)%(tn_parent_map_spec t cs p g Hcs).
    pose proof Hgentry as (cs' & Hcs' & Hgch)%tn_entry.
    rewrite Hcs in Hcs'. injection Hcs' as <-.
    unfold dindex. rewrite Hgch. simpl.
    destruct (dmem gl nodes' && dmem gr nodes') eqn:Hmem.
    + apply andb_true_iff in Hmem as [Hgl Hgr].
      pose proof Hgl as [sl Hsl]%dmem_true. pose proof Hgr as [sr Hsr]%dmem_true.
      destruct (tn_eq_exists t cs g gl gr Hcs Hgentry) as [eq Heq].
      rewrite Hsl, Hsr, Heq. simpl. eexists. split; [done|]. simpl. split; [|done].
      apply (sched_inv_promote F shape_val _ tn_wf_forest _ _ _ _ _ _ _ _ nodes _ Hinv Hnodes).
      right. exists g, gl, gr, (eq, sl, sr). split_and!; try done.
      intros [_ Hok]. exists cs. split_and!; [done..| |].
      * by apply (Hok gl).
      * by apply (Hok gr).
    + eexists. split; [done|]. simpl. split; [|done].
      apply (sched_inv_promote F shape_val _ tn_wf_forest _ _ _ _ _ _ _ _ nodes _ Hinv Hnodes).
      left. split; [done|]. intros (g' & gl' & gr' & Hg' & Hc' & Hgl' & Hgr').
      destruct (entry_unique_parent F tn_wf_forest _ _ _ _ _ _ _ p Hgentry Hg' Hchild Hc')
        as (<- & <- & <-).
      fold nodes' in Hgl', Hgr'. by rewrite Hgl', Hgr' in Hmem.
  - eexists. split; [done|]. simpl. split; [|done].
    apply (sched_inv_promote F shape_val _ tn_wf_forest _ _ _ _ _ _ _ _ nodes _ Hinv Hnodes).
    left. split; [done|]. intros (g' & gl' & gr' & Hg' & Hc' & _).
    assert (Hsome : dget p (parent_map (build_maps cs)) = Some g').
    { apply (tn_parent_map_spec t cs p g' Hcs). by exists gl', gr'. }
    by rewrite Hg in Hsome.
Qed.

Lemma tn_promote_all st L todo result_shape :
  inv (node2shape_batch st) (contractible st) L todo →
  Forall (λ '(t, p, _, _), shape_val t p = result_shape) todo →
  ∃ st', for_each (promote maps result_shape) todo st = Ok st'
         ∧ inv (node2shape_batch st') (contractible st') (L ++ todo) []
         ∧ batched_contractions st' = batched_contractions st.
Proof.
  revert st L. induction todo as [|[[[t p] l] r] todo IH]; intros st L Hinv Hrs.
  - exists st. simpl. by rewrite app_nil_r.
  - apply Forall_cons in Hrs as [<- Hrs].
    destruct (tn_promote_ok _ _ _ _ _ _ _ Hinv) as (st1 & Hprom & Hinv1 & Hb1).
    destruct (IH st1 _ Hinv1 Hrs) as (st' & Hloop & Hinv' & Hb').
    exists st'. rewrite for_each_cons, Hprom. simpl.
    split_and!; [done| |congruence]. by rewrite <-app_assoc in Hinv'.
Qed.

Lemma tn_step_ok st L :
  tn_invariant cb ab val st L [] → contractible st ≠ [] →
  ∃ st' L', step maps st = Ok st' ∧ tn_invariant cb ab val st' L' []
            ∧ length L < length L'.
Proof.
  intros (Hinv & Hlog & Hreplay) Hne. fold F shape_val in Hinv.
  assert (Hkeys : NoDup (contractible st).*1) by by destruct Hinv as (_ & _ & _ & ? & _).
  destruct (pop_largest _ Hkeys Hne) as ([[eq sl] sr] & group & Hmax & Hget & _).
  destruct (sched_inv_pop F shape_val _ _ _ _ _ _ Hinv Hget) as (Hinv1 & Hgne & Hsig).
  set (st1 := {| contractible := ddel (eq, sl, sr) (contractible st);
                 node2shape_batch := node2shape_batch st;
                 batched_contractions := batched_contractions st ++ [(eq, group)] |}).
  assert (Hpending : Forall (pending F L) group).
  { apply Forall_forall. intros inst Hin.
    destruct Hinv1 as (_ & _ & _ & _ & _ & _ & Hpend).
    apply Hpend. apply elem_of_app. by left. }
  assert (Hrs : ∃ rs, get_result_shape eq [sl; sr] = Ok rs
                      ∧ Forall (λ '(t, p, _, _), shape_val t p = rs) group).
  { destruct group as [|[[[t0 p0] l0] r0] group']; [done|].
    exists (shape_val t0 p0).
    assert (Hres : ∀ t p l r, (t, p, l, r) ∈ (t0, p0, l0, r0) :: group' →
              get_result_shape eq [sl; sr] = Ok (shape_val t p)).
    { intros t p l r Hin. apply (Hshapes t p l r eq sl sr).
      - apply elem_of_all_instances_entry; [apply tn_wf_forest|].
        by destruct (proj1 (Forall_forall _ _) Hpending _ Hin).
      - by apply (proj1 (Forall_forall _ _) Hsig _ Hin). }
    split; [apply (Hres t0 p0 l0 r0); apply elem_of_cons; by left|].
    apply Forall_forall. intros [[[t p] l] r] Hin.
    pose proof (Hres t p l r Hin) as H1.
    pose proof (Hres t0 p0 l0 r0 ltac:(apply elem_of_cons; by left)) as H2.
    rewrite H1 in H2. by injection H2. }
  destruct Hrs as (rs & Hget_rs & Hrs).
  destruct (tn_promote_all st1 L group rs Hinv1 Hrs) as (st' & Hloop & Hinv' & Hb').
  exists st', (L ++ group). split_and!.
  - unfold step. rewrite Hmax. simpl. unfold dpop. rewrite Hget. simpl.
    fold st1. rewrite Hget_rs. simpl. done.
  - split_and!; [done| |].
    + rewrite Hb'. simpl. rewrite fmap_app, concat_app, Hlog. simpl.
      by rewrite !app_nil_r.
    + rewrite Hb'. simpl. apply tn_replayable_app. split; [done|].
      rewrite Hlog, app_nil_r. simpl. split; [|done].
      split_and!; simpl; [done| |done|by exists sl, sr].
      destruct Hinv1 as (_ & _ & _ & _ & _ & Hnd & _).
      by apply NoDup_app in Hnd as (? & _).
  - rewrite length_app. destruct group; [done | simpl; lia].
Qed.

Lemma tn_log_bound st L todo :
  inv (node2shape_batch st) (contractible st) L todo →
  length L ≤ length (all_instances F).
Proof.
  intros ([Hnd Hlog] & _). apply submseteq_length, NoDup_submseteq; [done|].
  intros [[[t p] l] r] Hin.
  apply elem_of_all_instances_entry; [apply tn_wf_forest|]. by apply Hlog.
Qed.

Lemma tn_loop_ok fuel st L :
  tn_invariant cb ab val st L [] →
  length (all_instances F) - length L ≤ fuel →
  ∃ st' L', loop fuel maps st = Some (Ok st')
            ∧ tn_invariant cb ab val st' L' []
            ∧ contractible st' = [].
Proof.
  revert st L. induction fuel as [|fuel IH]; intros st L Hinv Hfuel.
  - destruct (contractible st) as [|kl table] eqn:Htable.
    + exists st, L. simpl. by rewrite Htable.
    + destruct (tn_step_ok st L Hinv) as (st' & L' & _ & Hinv' & Hlt);
        [by rewrite Htable|].
      destruct Hinv' as (Hinv' & _). pose proof (tn_log_bound st' L' [] Hinv'). lia.
  - simpl. destruct (contractible st) as [|kl table] eqn:Htable.
    + by exists st, L.
    + destruct (tn_step_ok st L Hinv) as (st' & L' & -> & Hinv' & Hlt);
        [by rewrite Htable|].
      apply (IH st' L'); [done|lia].
Qed.

End LoopB.

Lemma tn_ready_entries_sublist (t : nat) (nodes : dict TreeNode ArrayShape)
    (cs : list Batch.Contraction) :
  tn_ready_entries t nodes cs
  `sublist_of` map (λ '(p, (l, r)), (t, p, l, r)) (tn_binary cs).
Proof.
  induction cs as [|[[[p l] r] eq] cs IH]; [done|].
  unfold tn_ready_entries, tn_binary in *. simpl.
  destruct l as [l|], r as [r|]; simpl; try done.
  destruct (dmem l nodes && dmem r nodes); simpl.
  - by apply sublist_skip.
  - by apply sublist_cons.
Qed.

Lemma elem_of_tn_ready_entries (t : nat) (nodes : dict TreeNode ArrayShape)
    (cs : list Batch.Contraction) inst :
  inst ∈ tn_ready_entries t nodes cs
  ↔ ∃ p l r eq, inst = (t, p, l, r) ∧ (p, Some l, Some r, eq) ∈ cs
                ∧ dmem l nodes = true ∧ dmem r nodes = true.
Proof.
  unfold tn_ready_entries. rewrite list_elem_of_omap. split.
  - intros ([[[p l] r] eq] & Hin & Hsome).
    destruct l as [l|], r as [r|]; try done.
    destruct (dmem l nodes) eqn:Hl, (dmem r nodes) eqn:Hr; simpl in Hsome; try done.
    injection Hsome as <-. by exists p, l, r, eq.
  - intros (p & l & r & eq & -> & Hin & Hl & Hr). exists (p, Some l, Some r, eq).
    split; [done|]. by rewrite Hl, Hr.
Qed.

Lemma zip_fmap_r {A C D} (f : C → D) (l : list A) (k : list C) :
  zip l (f <$> k) = (λ '(x, y), (x, f y)) <$> zip l k.
Proof.
  revert k. induction l as [|x l IH]; intros [|y k]; csimpl; try done.
  by rewrite IH.
Qed.

Section ScheduleB.
Context {B : Backend}.
Import Batch.

Variables (cb : list (list Contraction)) (ab : list (list Tensor))
          (val : nat → TreeNode → Tensor).
Hypothesis Hwf : tn_well_formed cb ab.
Hypothesis Hshapes : tn_shapes_sound cb ab val.
Hypothesis Hleaves : leaf_values ab val.

Let F : Forest := tn_forest cb ab.
Let sb : list (list ArrayShape) := map (map tshape) ab.

Lemma tn_initial_ready_sublist :
  tn_initial_ready cb sb `sublist_of` all_instances F.
Proof.
  unfold tn_initial_ready, all_instances, F, tn_forest, sb.
  change (map (map tshape) ab) with (map tshape <$> ab).
  rewrite zip_fmap_r, !enumerate_fmap, !flat_map_fmap.
  apply flat_map_sublist. intros [t [cs arrays]] _. simpl.
  apply tn_ready_entries_sublist.
Qed.

Lemma tn_leaf_dict_active t arrays x :
  ab !! t = Some arrays → t < length cb →
  (is_Some (dget x (leaf_dict (map tshape arrays))) ↔ is_leaf F t x)
  ∧ ∀ v, dget x (leaf_dict (map tshape arrays)) = Some v → v = tshape (val t x).
Proof.
  intros Ha Hlt.
  destruct (cb !! t) as [cs|] eqn:Hcs; [|by apply lookup_ge_None in Hcs; lia].
  assert (HF : F !! t = Some (length arrays, tn_binary cs)).
  { apply (tn_forest_lookup cb ab). by exists cs, arrays. }
  split; [split|].
  - intros [v (i & -> & Hv)%leaf_dict_dget].
    exists (length arrays), (tn_binary cs), i. split_and!; [done| |done].
    apply lookup_lt_Some in Hv. by rewrite length_map in Hv.
  - intros (n & ch & i & HF' & Hi & ->). rewrite HF in HF'. injection HF' as <- <-.
    destruct (arrays !! i) as [a|] eqn:Hai; [|by apply lookup_ge_None in Hai; lia].
    exists (tshape a). apply leaf_dict_dget. exists i. split; [done|].
    by rewrite list_lookup_fmap, Hai.
  - intros v (i & -> & Hv)%leaf_dict_dget.
    rewrite list_lookup_fmap in Hv.
    destruct (arrays !! i) as [a|] eqn:Hai; [|done]. injection Hv as <-.
    by rewrite (Hleaves t arrays i a Ha Hai).
Qed.

Lemma tn_init_ok :
  ∃ st, init cb sb = Ok st ∧ tn_invariant cb ab val st [] [].
Proof.
  destruct (tn_init_spec cb sb) as (st & Hinit & Hnodes & Hb & Hnd & Hgr & Hperm).
  exists st. split; [done|].
  pose proof (tn_wf_forest cb ab Hwf) as HwfF. fold F in HwfF.
  destruct Hwf as [Hlen _].
  assert (HlenF : length F = length ab).
  { unfold F, tn_forest. rewrite length_map, length_zip_with. lia. }
  split_and!; [|by rewrite Hb|by rewrite Hb].
  fold F. split_and!; try done.
  - apply log_ok_nil.
  - rewrite Hnodes, HlenF. unfold sb. by rewrite !length_map.
  - intros t nodes Hn. rewrite Hnodes in Hn. unfold sb in Hn.
    rewrite !list_lookup_fmap in Hn.
    destruct (ab !! t) as [arrays|] eqn:Ha; [|done]. simpl in Hn. injection Hn as <-.
    assert (Hlt : t < length cb) by (apply lookup_lt_Some in Ha; lia).
    split; [rewrite leaf_dict_zip; apply leaf_keys_NoDup|].
    intros x. destruct (tn_leaf_dict_active t arrays x Ha Hlt) as [Hiff Hval].
    split; [|done]. fold F in Hiff. by rewrite active_nil.
  - eapply Forall_impl; [exact Hgr|]. intros [[[eq sl] sr] group] [Hne Hall].
    split; [done|]. eapply Forall_impl; [exact Hall|].
    intros [[[t p] l] r] (cs & shapes & Hcs & Hsh & Hin & Hl & Hr). simpl.
    exists cs. unfold sb in Hsh. rewrite list_lookup_fmap in Hsh.
    destruct (ab !! t) as [arrays|] eqn:Ha; [|done]. simpl in Hsh. injection Hsh as <-.
    assert (Hlt : t < length cb) by by eapply lookup_lt_Some.
    split_and!; [done| | |].
    + eapply tn_eq_map; [|done]. by eapply (tn_keys_NoDup cb ab).
    + by apply (tn_leaf_dict_active t arrays l Ha Hlt).
    + by apply (tn_leaf_dict_active t arrays r Ha Hlt).
  - simpl. rewrite Hperm. eapply sublist_NoDup; [|apply tn_initial_ready_sublist].
    by apply all_instances_NoDup.
  - intros [[[t p] l] r]. rewrite (pending_nil F).
    simpl. rewrite Hperm.
    unfold tn_initial_ready. rewrite elem_of_flat_map_enumerate. split.
    + intros (t' & [cs shapes] & Ht & Hin).
      apply lookup_zip_with_Some in Ht as (? & ? & [= <- <-] & Hcs & Hsh).
      apply elem_of_tn_ready_entries in Hin
        as (p' & l' & r' & eq & [= -> -> -> ->] & Hin & Hl & Hr).
      unfold sb in Hsh. rewrite list_lookup_fmap in Hsh.
      destruct (ab !! t') as [arrays|] eqn:Ha; [|done]. simpl in Hsh. injection Hsh as <-.
      assert (Hlt : t' < length cb) by by eapply lookup_lt_Some.
      split_and!.
      * apply (tn_entry cb ab Hwf). exists cs. split; [done|].
        rewrite tn_children_map by by eapply (tn_keys_NoDup cb ab).
        apply elem_of_dget; [by eapply (tn_keys_NoDup cb ab)|].
        apply elem_of_tn_binary. by exists eq.
      * by apply (tn_leaf_dict_active t' arrays l' Ha Hlt), dmem_true.
      * by apply (tn_leaf_dict_active t' arrays r' Ha Hlt), dmem_true.
    + intros (Hentry & Hl & Hr).
      pose proof Hentry as (cs & Hcs & Hp)%(tn_entry cb ab Hwf).
      rewrite tn_children_map in Hp by by eapply (tn_keys_NoDup cb ab).
      apply dget_Some_elem_of, elem_of_tn_binary in Hp as [eq Hin].
      destruct (ab !! t) as [arrays|] eqn:Ha.
      2:{ apply lookup_ge_None in Ha. apply lookup_lt_Some in Hcs. lia. }
      assert (Hlt : t < length cb) by by eapply lookup_lt_Some.
      exists t, (cs, map tshape arrays). split.
      * apply lookup_zip_with_Some. exists cs, (map tshape arrays).
        split_and!; [done..|]. unfold sb. by rewrite list_lookup_fmap, Ha.
      * apply elem_of_tn_ready_entries. exists p, l, r, eq.
        split_and!; [done..| |];
          by apply dmem_true, (tn_leaf_dict_active t arrays _ Ha Hlt).
Qed.

(** With enough fuel the scheduler returns; its schedule lists every
    instance of the forest once, batch by batch, and every batch can be run
    when the batches before it have been run. *)
Lemma tn_schedule_ok fuel :
  length (all_instances F) ≤ fuel →
  ∃ st, schedule fuel cb sb = Some (Ok st)
        ∧ contractible st = []
        ∧ concat (batched_contractions st).*2 ≡ₚ all_instances F
        ∧ log_ok F (concat (batched_contractions st).*2)
        ∧ tn_replayable cb ab val [] (batched_contractions st).
Proof.
  intros Hfuel. destruct tn_init_ok as (st0 & Hinit & Hinv0).
  destruct (tn_loop_ok cb ab val Hwf Hshapes fuel st0 [] Hinv0)
    as (st & L & Hloop & (Hinv & Hlog & Hreplay) & Hempty).
  { simpl. fold F. lia. }
  exists st. unfold schedule. rewrite Hinit. rewrite app_nil_r in Hlog.
  split_and!; [done..| | |done].
  - rewrite Hlog.
    eapply (sched_inv_final F); [by apply (tn_wf_forest cb ab) | exact Hinv|].
    by rewrite Hempty.
  - rewrite Hlog. by destruct Hinv.
Qed.

End ScheduleB.

(** * Promotion of a whole batch *)

Section BatchFacts.
Variable F : Forest.
Hypothesis Hwf : wf_forest F.

Implicit Types (L targets : list Instance) (t : nat) (x : TreeNode).

Lemma elem_of_operands targets t x :
  (t, x) ∈ operands targets
  ↔ ∃ p l r, (t, p, l, r) ∈ targets ∧ (x = l ∨ x = r).
Proof.
  unfold operands. rewrite list_elem_of_In, in_flat_map. split.
  - intros ([[[t' p] l] r] & Hin%list_elem_of_In & Hx). exists p, l, r.
    simpl in Hx. destruct Hx as [[= <- <-]|[[= <- <-]|[]]]; auto.
  - intros (p & l & r & Hin & Hx). exists (t, p, l, r).
    split; [by apply list_elem_of_In|]. simpl. destruct Hx as [->| ->]; auto.
Qed.

Lemma pending_keep L inst inst' :
  log_ok F L → pending F L inst → pending F L inst' → inst' ≠ inst →
  pending F (L ++ [inst]) inst'.
Proof.
  destruct inst as [[[t p] l] r], inst' as [[[t' p'] l'] r'].
  intros Hlog Hp Hp' Hne. apply (pending_promote F Hwf); [done..|]. by left.
Qed.

Lemma pending_many_step L inst targets :
  log_ok F L → NoDup (inst :: targets) →
  Forall (pending F L) (inst :: targets) →
  log_ok F (L ++ [inst]) ∧ Forall (pending F (L ++ [inst])) targets.
Proof.
  intros Hlog [Hnotin Hnd]%NoDup_cons [Hp Hall]%Forall_cons.
  destruct inst as [[[t p] l] r]. split; [by apply log_ok_promote|].
  apply Forall_forall. intros inst' Hin.
  apply pending_keep; [done..| |].
  - by apply (proj1 (Forall_forall _ _) Hall).
  - by intros ->.
Qed.

Lemma log_ok_many L targets :
  log_ok F L → NoDup targets → Forall (pending F L) targets →
  log_ok F (L ++ targets).
Proof.
  revert L. induction targets as [|inst targets IH]; intros L Hlog Hnd Hall.
  - by rewrite app_nil_r.
  - destruct (pending_many_step L inst targets Hlog Hnd Hall) as [Hlog' Hall'].
    apply NoDup_cons in Hnd as [_ Hnd].
    rewrite (cons_middle inst), app_assoc. by apply IH.
Qed.

Lemma active_many L targets t x :
  log_ok F L → NoDup targets → Forall (pending F L) targets →
  active F (L ++ targets) t x
  ↔ (∃ l r, (t, x, l, r) ∈ targets)
    ∨ (active F L t x ∧ (t, x) ∉ operands targets).
Proof.
  revert L. induction targets as [|[[[t0 p0] l0] r0] targets IH]; intros L Hlog Hnd Hall.
  - rewrite app_nil_r. split.
    + intros Hact. right. split; [done | apply not_elem_of_nil].
    + intros [(l & r & Hin%elem_of_nil)|[? _]]; done.
  - destruct (pending_many_step L _ targets Hlog Hnd Hall) as [Hlog' Hall'].
    pose proof Hall as [Hp0 _]%Forall_cons.
    apply NoDup_cons in Hnd as [Hnotin Hnd].
    rewrite (cons_middle (t0, p0, l0, r0)), app_assoc.
    rewrite (IH _ Hlog' Hnd Hall').
    rewrite (active_promote F Hwf L t0 p0 l0 r0 t x Hlog Hp0).
    rewrite !elem_of_operands.
    destruct (pending_active F Hwf _ _ _ _ _ Hlog Hp0) as (_ & _ & Hnp).
    split.
    + intros [(l & r & Hin)|[[[-> ->]|[Hact Hne]] Hno]].
      * left. exists l, r. apply elem_of_cons. by right.
      * left. exists l0, r0. apply elem_of_cons. by left.
      * right. split; [done|].
        intros (p & l & r & [[= -> -> -> ->]|Hin]%elem_of_cons & Hx); [tauto|].
        apply Hno. by exists p, l, r.
    + intros [(l & r & [[= -> -> -> ->]|Hin]%elem_of_cons)|[Hact Hno]].
      * right. split; [by left|].
        intros (p & l' & r' & Hin & Hx).
        destruct (proj1 (Forall_forall _ _) Hall (t0, p, l', r')) as (_ & _ & Hl' & Hr').
        { apply elem_of_cons. by right. }
        destruct Hx as [->| ->]; tauto.
      * left. by exists l, r.
      * right. split.
        -- right. split; [done|]. intros [-> Hx]. apply Hno.
           exists p0, l0, r0. split; [apply elem_of_cons; by left | done].
        -- intros (p & l & r & Hin & Hx). apply Hno. exists p, l, r.
           split; [apply elem_of_cons; by right | done].
Qed.

Lemma operands_NoDup L targets :
  log_ok F L → NoDup targets → Forall (pending F L) targets →
  NoDup (operands targets).
Proof.
  intros Hlog. induction targets as [|[[[t p] l] r] targets IH]; intros Hnd Hall.
  - apply NoDup_nil_2.
  - apply NoDup_cons in Hnd as [Hnotin Hnd].
    apply Forall_cons in Hall as [(Hentry & _) Hall].
    destruct (entry_distinct F Hwf _ _ _ _ Hentry) as (_ & _ & Hlr).
    assert (Hfresh : ∀ x, x = l ∨ x = r → (t, x) ∉ operands targets).
    { intros x Hx (p' & l' & r' & Hin & Hx')%elem_of_operands.
      destruct (proj1 (Forall_forall _ _) Hall _ Hin) as (Hentry' & _).
      destruct (entry_unique_parent F Hwf _ _ _ _ _ _ _ x Hentry Hentry' Hx Hx')
        as (-> & -> & ->). done. }
    unfold operands. simpl. fold (operands targets).
    apply NoDup_cons. split.
    + rewrite not_elem_of_cons. split; [congruence | apply Hfresh; by left].
    + apply NoDup_cons. split; [apply Hfresh; by right | by apply IH].
Qed.

End BatchFacts.

(** * [batch_tn/batch.py]: the replay of the schedule *)

Lemma dicts_ok_iff {V} (value : nat → TreeNode → V) (P Q : nat → TreeNode → Prop)
    (arrs : list (dict TreeNode V)) :
  (∀ t x, P t x ↔ Q t x) → dicts_ok value P arrs → dicts_ok value Q arrs.
Proof.
  intros Hiff Hok t nodes Hn. destruct (Hok t nodes Hn) as [Hnd Hx].
  split; [done|]. intros x. destruct (Hx x) as [Hp Hv]. split; [|done].
  by rewrite <-Hiff.
Qed.

(** The root is the only key left when every entry has been promoted. *)
Lemma nodes_final {V} (F : Forest) (value : nat → TreeNode → V)
    (L : list Instance) t n ch bt (nodes : dict TreeNode V) :
  log_ok F L → (∀ t p l r, entry F t p l r → done L t p) →
  F !! t = Some (n, ch) → is_tree n ch bt →
  nodes_ok F value L t nodes →
  nodes = [(root_id bt, value t (root_id bt))].
Proof.
  intros Hlog Hall Ht Htree [Hnd0 Hok].
  assert (Hkey : ∀ x, x ∈ nodes.*1 ↔ x = root_id bt).
  { intros x. rewrite <-dget_is_Some. destruct (Hok x) as [-> _].
    by eapply final_active. }
  destruct nodes as [|[x v] nodes].
  { pose proof (proj2 (Hkey (root_id bt)) eq_refl) as Hin. by apply elem_of_nil in Hin. }
  assert (x = root_id bt) as -> by (apply Hkey; simpl; apply elem_of_cons; by left).
  destruct nodes as [|[y w] nodes].
  - f_equal. f_equal. destruct (Hok (root_id bt)) as [_ Hval].
    apply Hval. simpl. by rewrite decide_True.
  - assert (y = root_id bt) as ->.
    { apply Hkey. simpl. apply elem_of_cons. right. apply elem_of_cons. by left. }
    simpl in Hnd0. apply NoDup_cons in Hnd0 as [Hnotin _].
    destruct Hnotin. apply elem_of_cons. by left.
Qed.

Section DictLoops.
Context {B : Backend}.
Import Batch.
Variable val : nat → TreeNode → Tensor.

Lemma tn_take_one t p l r al ar arrs nodes a b :
  arrs !! t = Some nodes → dget l nodes = Some a → dget r nodes = Some b →
  l ≠ r →
  take_operands (t, p, l, r) (al, ar, arrs)
  = Ok (al ++ [a], ar ++ [b], <[t := ddel r (ddel l nodes)]> arrs).
Proof.
  intros Hn Hl Hr Hlr. unfold take_operands, lindex. rewrite Hn. simpl.
  unfold dpop. rewrite Hl. simpl.
  rewrite list_lookup_insert_eq by by eapply lookup_lt_Some. simpl.
  rewrite dget_ddel_ne by done. rewrite Hr. simpl.
  by rewrite list_insert_insert_eq.
Qed.

Lemma tn_store_one res i t p l r arrs nodes slice :
  rows res !! i = Some slice → arrs !! t = Some nodes →
  store_result res (i, (t, p, l, r)) arrs
  = Ok (<[t := dset p slice nodes]> arrs).
Proof.
  intros Hi Hn. unfold store_result, lindex. rewrite Hi. simpl. by rewrite Hn.
Qed.

Lemma tn_take_loop targets P al ar arrs :
  dicts_ok val P arrs →
  NoDup (operands targets) →
  (∀ t x, (t, x) ∈ operands targets → P t x) →
  (∀ t p l r, (t, p, l, r) ∈ targets → t < length arrs) →
  ∃ arrs',
    for_each take_operands targets (al, ar, arrs)
    = Ok (al ++ map (λ '(t, _, l, _), val t l) targets,
          ar ++ map (λ '(t, _, _, r), val t r) targets, arrs')
    ∧ length arrs' = length arrs
    ∧ dicts_ok val (λ t x, P t x ∧ (t, x) ∉ operands targets) arrs'.
Proof.
  revert P al ar arrs.
  induction targets as [|[[[t p] l] r] targets IH]; intros P al ar arrs Hok Hnd HP Hlen.
  - exists arrs. simpl. rewrite !app_nil_r. split_and!; [done..|].
    eapply dicts_ok_iff; [|exact Hok]. intros t x. split; [|tauto].
    intros ?. split; [done | apply not_elem_of_nil].
  - unfold operands in Hnd, HP. simpl in Hnd, HP. fold (operands targets) in Hnd, HP.
    apply NoDup_cons in Hnd as [Hl Hnd]. apply NoDup_cons in Hnd as [Hr Hnd].
    apply not_elem_of_cons in Hl as [Hlr Hl].
    assert (l ≠ r) by congruence.
    destruct (arrs !! t) as [nodes|] eqn:Hn.
    2:{ apply lookup_ge_None in Hn.
        specialize (Hlen t p l r ltac:(apply elem_of_cons; by left)). lia. }
    destruct (Hok t nodes Hn) as [Hndk Hx].
    assert (Hvl : dget l nodes = Some (val t l)).
    { destruct (Hx l) as [Hiff Hv].
      destruct (proj2 Hiff) as [v Hget]; [apply HP; apply elem_of_cons; by left|].
      by rewrite Hget, (Hv v Hget). }
    assert (Hvr : dget r nodes = Some (val t r)).
    { destruct (Hx r) as [Hiff Hv].
      destruct (proj2 Hiff) as [v Hget].
      { apply HP. apply elem_of_cons. right. apply elem_of_cons. by left. }
      by rewrite Hget, (Hv v Hget). }
    set (arrs2 := <[t := ddel r (ddel l nodes)]> arrs).
    set (P1 := λ t' x, P t' x ∧ (t', x) ∉ [(t, l); (t, r)]).
    assert (Hok2 : dicts_ok val P1 arrs2).
    { intros t' nodes' Hn'. unfold arrs2 in Hn'.
      destruct (decide (t' = t)) as [->|Hne].
      - rewrite list_lookup_insert_eq in Hn' by by eapply lookup_lt_Some.
        injection Hn' as <-. split; [by apply NoDup_ddel, NoDup_ddel|].
        intros x. destruct (Hx x) as [Hiff Hv]. unfold P1.
        rewrite dget_ddel by by apply NoDup_ddel. rewrite dget_ddel by done.
        rewrite !not_elem_of_cons.
        destruct (decide (x = r)) as [->|Hxr].
        { split; [|done]. split; [by intros [? ?] | intros (_ & _ & ? & _); done]. }
        destruct (decide (x = l)) as [->|Hxl].
        { split; [|done]. split; [by intros [? ?] | intros (_ & ? & _); done]. }
        split; [|done]. rewrite Hiff. split; [|tauto].
        intros ?. split_and!; [done|congruence|congruence|apply not_elem_of_nil].
      - rewrite list_lookup_insert_ne in Hn' by done.
        destruct (Hok t' nodes' Hn') as [Hndk' Hx']. split; [done|].
        intros x. destruct (Hx' x) as [Hiff Hv]. split; [|done].
        rewrite Hiff. unfold P1. rewrite !not_elem_of_cons. split; [|tauto].
        intros ?. split_and!; [done|congruence|congruence|apply not_elem_of_nil]. }
    destruct (IH P1 (al ++ [val t l]) (ar ++ [val t r]) arrs2 Hok2 Hnd)
      as (arrs' & Hloop & Hlen' & Hok').
    { intros t' x Hin. split.
      - apply HP. apply elem_of_cons. right. apply elem_of_cons. by right.
      - rewrite !not_elem_of_cons. split_and!; [| |apply not_elem_of_nil];
          intros [= -> ->]; done. }
    { intros t' p' l' r' Hin. unfold arrs2. rewrite length_insert.
      eapply Hlen. apply elem_of_cons. by right. }
    exists arrs'. split_and!.
    + rewrite for_each_cons.
      rewrite (tn_take_one t p l r al ar arrs nodes _ _ Hn Hvl Hvr) by done.
      simpl. fold arrs2. rewrite Hloop. by rewrite <-!app_assoc.
    + rewrite Hlen'. unfold arrs2. by rewrite length_insert.
    + eapply dicts_ok_iff; [|exact Hok']. intros t' x. unfold P1, operands.
      simpl. fold (operands targets). rewrite !not_elem_of_cons. split.
      * intros [[? (? & ? & _)] ?]. by split_and!.
      * intros (? & ? & ? & ?). split_and!; [done..|apply not_elem_of_nil|done].
Qed.

Lemma tn_store_loop targets P k arrs res :
  dicts_ok val P arrs →
  (∀ j t p l r, targets !! j = Some (t, p, l, r) →
                rows res !! (k + j) = Some (val t p)) →
  (∀ t p l r, (t, p, l, r) ∈ targets → t < length arrs) →
  ∃ arrs',
    for_each (store_result res) (zip (seq k (length targets)) targets) arrs
    = Ok arrs'
    ∧ length arrs' = length arrs
    ∧ dicts_ok val (λ t x, P t x ∨ ∃ l r, (t, x, l, r) ∈ targets) arrs'.
Proof.
  revert P k arrs.
  induction targets as [|[[[t p] l] r] targets IH]; intros P k arrs Hok Hrows Hlen.
  - exists arrs. simpl. split_and!; [done..|].
    eapply dicts_ok_iff; [|exact Hok]. intros t x. split; [tauto|].
    intros [?|(l & r & ?%elem_of_nil)]; done.
  - destruct (arrs !! t) as [nodes|] eqn:Hn.
    2:{ apply lookup_ge_None in Hn.
        specialize (Hlen t p l r ltac:(apply elem_of_cons; by left)). lia. }
    destruct (Hok t nodes Hn) as [Hndk Hx].
    set (arrs1 := <[t := dset p (val t p) nodes]> arrs).
    set (P1 := λ t' x, P t' x ∨ (t' = t ∧ x = p)).
    assert (Hok1 : dicts_ok val P1 arrs1).
    { intros t' nodes' Hn'. unfold arrs1 in Hn'.
      destruct (decide (t' = t)) as [->|Hne].
      - rewrite list_lookup_insert_eq in Hn' by by eapply lookup_lt_Some.
        injection Hn' as <-. split; [by apply NoDup_dset|].
        intros x. destruct (Hx x) as [Hiff Hv]. unfold P1. rewrite dget_dset.
        destruct (decide (x = p)) as [->|Hxp].
        + split; [|by intros v [= <-]]. split; [by right | by eauto].
        + split; [|done]. rewrite Hiff. split; [by left | intros [?|[_ ?]]; done].
      - rewrite list_lookup_insert_ne in Hn' by done.
        destruct (Hok t' nodes' Hn') as [Hndk' Hx']. split; [done|].
        intros x. destruct (Hx' x) as [Hiff Hv]. split; [|done].
        rewrite Hiff. unfold P1. split; [by left | intros [?|[? _]]; done]. }
    destruct (IH P1 (S k) arrs1 Hok1) as (arrs' & Hloop & Hlen' & Hok').
    { intros j t' p' l' r' Hj. replace (S k + j) with (k + S j) by lia.
      by apply (Hrows (S j) t' p' l' r'). }
    { intros t' p' l' r' Hin. unfold arrs1. rewrite length_insert.
      eapply Hlen. apply elem_of_cons. by right. }
    exists arrs'. split_and!.
    + change (zip (seq k (length ((t, p, l, r) :: targets))) ((t, p, l, r) :: targets))
        with ((k, (t, p, l, r)) :: zip (seq (S k) (length targets)) targets).
      rewrite for_each_cons.
      rewrite (tn_store_one res k t p l r arrs nodes (val t p)); [exact Hloop| |done].
      rewrite <-(Nat.add_0_r k). by apply (Hrows 0 t p l r).
    + rewrite Hlen'. unfold arrs1. by rewrite length_insert.
    + eapply dicts_ok_iff; [|exact Hok']. intros t' x. unfold P1. split.
      * intros [[?|[-> ->]]|(l' & r' & Hin)]; [by left | |].
        -- right. exists l, r. apply elem_of_cons. by left.
        -- right. exists l', r'. apply elem_of_cons. by right.
      * intros [?|(l' & r' & [[= -> -> -> ->]|Hin]%elem_of_cons)];
          [by left; left | by left; right | right; by exists l', r'].
Qed.

End DictLoops.

Lemma traverse_first_value {V} (arrs : list (dict TreeNode V)) :
  (∀ t nodes, arrs !! t = Some nodes → ∃ x v, nodes = [(x, v)]) →
  ∃ outs, traverse first_value arrs = Ok outs
          ∧ length outs = length arrs
          ∧ ∀ t x v, arrs !! t = Some [(x, v)] → outs !! t = Some v.
Proof.
  induction arrs as [|nodes arrs IH]; intros Hall.
  - exists []. split_and!; [done..|]. by intros t x v ?.
  - destruct (Hall 0 nodes eq_refl) as (x & v & ->).
    destruct IH as (outs & Htr & Hlen & Hout).
    { intros t nodes' Hn. by apply (Hall (S t)). }
    exists (v :: outs). simpl. rewrite Htr. simpl. split_and!; [done|by rewrite Hlen|].
    intros [|t] x' v' Hn; simpl in *; [by injection Hn as _ <- | by eapply Hout].
Qed.

Section ReplayB.
Context {B : Backend}.
Import Batch.

Variables (cb : list (list Contraction)) (ab : list (list Tensor))
          (val : nat → TreeNode → Tensor).
Hypothesis Hwf : tn_well_formed cb ab.
Hypothesis Hshapes : tn_shapes_sound cb ab val.
Hypothesis Hsound : tn_backend_sound cb ab val.
Hypothesis Hleaves : leaf_values ab val.

Let F : Forest := tn_forest cb ab.

Lemma tn_batched_einsum_ok L eq targets arrs :
  log_ok F L → length arrs = length F →
  dicts_ok val (active F L) arrs →
  tn_batch_valid cb ab val L (eq, targets) →
  ∃ arrs', _batched_einsum eq targets arrs = Ok arrs'
           ∧ length arrs' = length arrs
           ∧ dicts_ok val (active F (L ++ targets)) arrs'
           ∧ log_ok F (L ++ targets).
Proof.
  intros Hlog Hlen Hok (Hne & Hnd & Hpend & sl & sr & Hsig). simpl in *.
  pose proof (tn_wf_forest cb ab Hwf) as HwfF. fold F in HwfF, Hpend.
  destruct (Hsound (eq, sl, sr) targets Hne)
    as (beq & Ls & Rs & res & Hbeq & HL & HR & Hres & Hrows).
  { apply Forall_forall. intros [[[t p] l] r] Hin. split.
    - apply elem_of_all_instances_entry; [done|].
      by destruct (proj1 (Forall_forall _ _) Hpend _ Hin).
    - by apply (proj1 (Forall_forall _ _) Hsig _ Hin). }
  simpl in Hbeq.
  assert (Hidx : ∀ t p l r, (t, p, l, r) ∈ targets → t < length arrs).
  { intros t p l r Hin.
    destruct (proj1 (Forall_forall _ _) Hpend _ Hin) as ((n & ch & Ht & _) & _).
    apply lookup_lt_Some in Ht. lia. }
  destruct (tn_take_loop val targets (active F L) [] [] arrs Hok)
    as (arrs1 & Htake & Hlen1 & Hok1); [|  |done|].
  { by eapply operands_NoDup. }
  { intros t x (p & l & r & Hin & Hx)%elem_of_operands.
    pose proof (proj1 (Forall_forall _ _) Hpend _ Hin) as Hp.
    destruct (pending_active F HwfF _ _ _ _ _ Hlog Hp) as (Hl & Hr & _).
    by destruct Hx as [->| ->]. }
  destruct (tn_store_loop val targets _ 0 arrs1 res Hok1) as (arrs2 & Hstore & Hlen2 & Hok2).
  { intros j t p l r Hj. rewrite Hrows. simpl. by rewrite list_lookup_fmap, Hj. }
  { intros t p l r Hin. rewrite Hlen1. by eapply Hidx. }
  exists arrs2. split_and!.
  - unfold _batched_einsum. rewrite Hbeq. simpl. rewrite Htake. simpl.
    rewrite HL. simpl. rewrite HR. simpl. rewrite Hres. simpl. exact Hstore.
  - by rewrite Hlen2, Hlen1.
  - eapply dicts_ok_iff; [|exact Hok2]. intros t x. simpl.
    rewrite (active_many F HwfF L targets t x Hlog Hnd Hpend). tauto.
  - by apply log_ok_many.
Qed.

Lemma tn_replay_loop batched L arrs :
  log_ok F L → length arrs = length F →
  dicts_ok val (active F L) arrs →
  tn_replayable cb ab val L batched →
  ∃ arrs', for_each (λ '(eq, targets), _batched_einsum eq targets) batched arrs
           = Ok arrs'
           ∧ length arrs' = length arrs
           ∧ dicts_ok val (active F (L ++ concat batched.*2)) arrs'.
Proof.
  revert L arrs. induction batched as [|[eq targets] batched IH];
    intros L arrs Hlog Hlen Hok Hrep.
  - exists arrs. simpl. by rewrite app_nil_r.
  - destruct Hrep as [Hvalid Hrep]. simpl in Hrep.
    destruct (tn_batched_einsum_ok L eq targets arrs Hlog Hlen Hok Hvalid)
      as (arrs1 & Hb & Hlen1 & Hok1 & Hlog1).
    destruct (IH (L ++ targets) arrs1 Hlog1) as (arrs' & Hloop & Hlen' & Hok');
      [congruence | done | done |].
    exists arrs'. rewrite for_each_cons, Hb. simpl.
    split_and!; [done | congruence |]. by rewrite app_assoc.
Qed.

(** The outputs of [batch_contract]: with enough fuel it returns, for each
    tree, the tensor that [val] gives to its root. *)
Lemma tn_batch_contract_ok fuel :
  length (all_instances F) ≤ fuel →
  ∃ outs, batch_contract fuel cb ab = Some (Ok outs)
          ∧ length outs = length ab
          ∧ ∀ t n ch bt, F !! t = Some (n, ch) → is_tree n ch bt →
              outs !! t = Some (val t (root_id bt)).
Proof.
  intros Hfuel.
  pose proof (tn_wf_forest cb ab Hwf) as HwfF. fold F in HwfF.
  destruct (tn_schedule_ok cb ab val Hwf Hshapes Hleaves fuel Hfuel)
    as (st & Hsched & Hempty & Hperm & Hlog & Hrep).
  fold F in Hperm, Hlog.
  assert (HlenF : length F = length ab).
  { unfold F, tn_forest. rewrite length_map, length_zip_with.
    destruct Hwf as [Hlen _]. lia. }
  destruct (tn_replay_loop (batched_contractions st) [] (map leaf_dict ab))
    as (arrs & Hloop & Hlen & Hok); [apply log_ok_nil | by rewrite length_map | | done |].
  { intros t nodes Hn. rewrite list_lookup_fmap in Hn.
    destruct (ab !! t) as [arrays|] eqn:Ha; [|done]. injection Hn as <-.
    split; [rewrite leaf_dict_zip; apply leaf_keys_NoDup|].
    intros x. rewrite (active_nil F). split; [split|].
    - intros [v (i & -> & Hv)%leaf_dict_dget].
      assert (Ht : t < length F) by (rewrite HlenF; by eapply lookup_lt_Some).
      apply lookup_lt_is_Some in Ht as [[n ch] HF].
      pose proof HF as (cs & arrays' & _ & Ha' & -> & _)%(tn_forest_lookup cb ab).
      rewrite Ha in Ha'. injection Ha' as <-.
      exists (length arrays), ch, i. split_and!; [done| |done]. by eapply lookup_lt_Some.
    - intros (n & ch & i & HF & Hi & ->).
      pose proof HF as (cs & arrays' & _ & Ha' & -> & _)%(tn_forest_lookup cb ab).
      rewrite Ha in Ha'. injection Ha' as <-.
      apply lookup_lt_is_Some in Hi as [a Hai].
      exists a. apply leaf_dict_dget. by exists i.
    - intros v (i & -> & Hv)%leaf_dict_dget. symmetry. by eapply Hleaves. }
  simpl in Hok.
  assert (Hall : ∀ t p l r, entry F t p l r →
                            done (concat (batched_contractions st).*2) t p).
  { intros t p l r Hentry. exists l, r. rewrite Hperm.
    by apply elem_of_all_instances_entry. }
  assert (Hroot : ∀ t n ch bt, F !! t = Some (n, ch) → is_tree n ch bt →
                               arrs !! t = Some [(root_id bt, val t (root_id bt))]).
  { intros t n ch bt HF Htree.
    destruct (arrs !! t) as [nodes|] eqn:Hn.
    2:{ apply lookup_ge_None in Hn. apply lookup_lt_Some in HF.
        rewrite Hlen, length_map in Hn. lia. }
    f_equal. eapply (nodes_final F val); [exact Hlog | exact Hall | exact HF | exact Htree|].
    exact (Hok t nodes Hn). }
  destruct (traverse_first_value arrs) as (outs & Htr & Hlen' & Hout).
  { intros t nodes Hn.
    assert (Ht : t < length F).
    { apply lookup_lt_Some in Hn. rewrite Hlen, length_map in Hn. lia. }
    apply lookup_lt_is_Some in Ht as [[n ch] HF].
    destruct (HwfF _ _ _ HF) as [bt Htree].
    rewrite (Hroot t n ch bt HF Htree) in Hn. injection Hn as <-. by eauto. }
  exists outs. split_and!.
  - unfold batch_contract, get_batched_contractions. fold (map (map tshape) ab).
    rewrite Hsched. unfold replay. rewrite Hloop. simpl. by rewrite Htr.
  - by rewrite Hlen', Hlen, length_map.
  - intros t n ch bt HF Htree. eapply Hout. by eapply Hroot.
Qed.

End ReplayB.

(** * The outputs of [batch_contract.py] *)

Section OutputsA.
Context {B : Backend}.
Import BatchContract.

Variables (trees : list ContractionTree) (arrays : list (list Tensor))
          (val : nat → TreeNode → Tensor).
Hypothesis Hwf : bc_well_formed trees arrays.
Hypothesis Hsound : bc_backend_sound trees val.
Hypothesis Hleaves : leaf_values arrays val.

Lemma bc_batch_contract_ok fuel :
  length (all_instances (bc_forest trees)) ≤ fuel →
  ∃ outs, batch_contract fuel trees arrays = Some (Ok outs)
          ∧ length outs = length trees
          ∧ ∀ t tree bt, trees !! t = Some tree →
              is_tree (N tree) (children tree) bt →
              outs !! t = Some (val t (root_id bt)).
Proof.
  intros Hfuel.
  destruct (bc_run_ok trees arrays val Hwf Hsound Hleaves fuel Hfuel)
    as (st & Hrun & Hany & Hperm & Hlen & Hroot).
  pose proof (bc_wf_forest trees arrays Hwf) as HwfF.
  assert (Hsingle : ∀ t nodes, tree_active_nodes st !! t = Some nodes →
                               ∃ x v, nodes = [(x, v)]).
  { intros t nodes Hn.
    assert (Ht : t < length trees) by (rewrite <-Hlen; by eapply lookup_lt_Some).
    apply lookup_lt_is_Some in Ht as [tree Ht].
    assert (HF : bc_forest trees !! t = Some (N tree, children tree)).
    { apply bc_forest_lookup. by exists tree. }
    destruct (HwfF _ _ _ HF) as [bt Htree].
    rewrite (Hroot t tree bt Ht Htree) in Hn. injection Hn as <-. by eauto. }
  destruct (traverse_first_value (tree_active_nodes st) Hsingle)
    as (outs & Htr & Hlen' & Hout).
  exists outs. split_and!.
  - unfold batch_contract. rewrite Hrun. f_equal. unfold finish.
    rewrite (proj2 (forallb_forall _ _)); [done|].
    intros nodes Hin%list_elem_of_In%list_elem_of_lookup. destruct Hin as [t Hn].
    destruct (Hsingle t nodes Hn) as (x & v & ->). by apply bool_decide_eq_true_2.
  - by rewrite Hlen', Hlen.
  - intros t tree bt Ht Htree. eapply Hout. by eapply Hroot.
Qed.

End OutputsA.

(** * Termination and the number of promotions *)

Lemma bc_instances_total {B : Backend} (trees : list BatchContract.ContractionTree)
    (arrays : list (list Tensor)) :
  bc_well_formed trees arrays →
  length (all_instances (bc_forest trees))
  = sum_list (map (λ tree, BatchContract.N tree - 1) trees).
Proof.
  intros (_ & HwfF & _). rewrite all_instances_length by done.
  unfold bc_forest. by rewrite map_map.
Qed.

Lemma tn_instances_total {B : Backend} (cb : list (list Batch.Contraction))
    (ab : list (list Tensor)) :
  tn_well_formed cb ab →
  length (all_instances (tn_forest cb ab))
  = sum_list (map (λ arrays, length arrays - 1) ab).
Proof.
  intros (Hlen & HwfF). rewrite all_instances_length by done.
  unfold tn_forest. rewrite map_map. f_equal.
  clear HwfF. revert ab Hlen. induction cb as [|cs cb IH]; intros [|arrays ab] Hlen;
    simpl in *; try done.
  f_equal. apply IH. lia.
Qed.

(** * The log and the dictionaries *)

Lemma replay_log_app {V} (value : nat → TreeNode → V) (L K : list Instance)
    (dicts : list (dict TreeNode V)) :
  replay_log value (L ++ K) dicts = replay_log value K (replay_log value L dicts).
Proof. unfold replay_log. by rewrite foldl_app. Qed.

Section TraceA.
Context {B : Backend}.
Import BatchContract.

Variables (trees : list ContractionTree) (arrays : list (list Tensor))
          (val : nat → TreeNode → Tensor).
Hypothesis Hwf : bc_well_formed trees arrays.
Hypothesis Hsound : bc_backend_sound trees val.
Hypothesis Hleaves : leaf_values arrays val.

Lemma bc_promote_all_trace st todo :
  bc_invariant trees val st todo →
  ∃ st', for_each (promote trees)
           (zip (map (λ '(t, p, _, _), val t p) todo) todo) st = Ok st'
         ∧ bc_invariant trees val st' []
         ∧ promoted st' = promoted st ++ todo
         ∧ tree_active_nodes st'
           = replay_log val todo (tree_active_nodes st).
Proof.
  revert st. induction todo as [|[[[t p] l] r] todo IH]; intros st Hinv.
  - exists st. simpl. by rewrite app_nil_r.
  - destruct (bc_promote_ok trees arrays val Hwf _ _ _ _ _ _ Hinv)
      as (st1 & Hprom & Hinv1 & Hlog1).
    destruct (IH st1 Hinv1) as (st' & Hloop & Hinv' & Hlog' & Hdict').
    pose proof (bc_promote_inv _ _ _ _ _ _ _ _ Hprom)
      as (tree & nodes & _ & Hn & _ & _ & Hact & _).
    exists st'. split_and!; [| done | |].
    + change (for_each (promote trees)
                (zip (map (λ '(t, p, _, _), val t p) ((t, p, l, r) :: todo))
                     ((t, p, l, r) :: todo)) st)
        with (st1 ← promote trees (val t p, (t, p, l, r)) st;
              for_each (promote trees)
                (zip (map (λ '(t, p, _, _), val t p) todo) todo) st1).
      by rewrite Hprom.
    + rewrite Hlog', Hlog1, <-app_assoc. done.
    + rewrite Hdict', Hact. unfold replay_log. simpl. by rewrite Hn.
Qed.

Lemma bc_step_trace st :
  bc_invariant trees val st [] → any_values (ready st) = true →
  ∃ st' group,
    step trees st = Ok st' ∧ bc_invariant trees val st' []
    ∧ group ≠ []
    ∧ promoted st' = promoted st ++ group
    ∧ tree_active_nodes st' = replay_log val group (tree_active_nodes st).
Proof.
  intros Hinv Hany.
  assert (Hkeys : NoDup (ready st).*1) by by destruct Hinv as (_ & _ & _ & ? & _).
  assert (Hne : ready st ≠ []) by (intros Heq; by rewrite Heq in Hany).
  destruct (pop_largest _ Hkeys Hne) as (sig & group & Hmax & Hget & _).
  destruct (sched_inv_pop (bc_forest trees) val _ _ _ _ _ _ Hinv Hget)
    as (Hinv1 & Hgne & Hsig).
  set (st1 := {| ready := ddel sig (ready st);
                 tree_active_nodes := tree_active_nodes st;
                 promoted := promoted st |}).
  change (bc_invariant trees val st1 group) in Hinv1.
  destruct (bc_execute_ok trees arrays val Hwf Hsound st1 sig group Hinv1 Hgne Hsig)
    as (res & Hexec & Hrows).
  destruct (bc_promote_all_trace st1 group Hinv1)
    as (st' & Hloop & Hinv' & Hlog' & Hdict').
  exists st', group. split_and!; [|done..].
  unfold step. rewrite Hmax. simpl. unfold dindex. rewrite Hget. simpl.
  fold st1. simpl in Hexec. rewrite Hexec. simpl. by rewrite Hrows.
Qed.

Lemma bc_loop_trace fuel st :
  bc_invariant trees val st [] →
  length (all_instances (bc_forest trees)) - length (promoted st) ≤ fuel →
  ∃ st' K,
    loop fuel trees st = Some (Ok st') ∧ bc_invariant trees val st' []
    ∧ any_values (ready st') = false
    ∧ promoted st' = promoted st ++ K
    ∧ tree_active_nodes st' = replay_log val K (tree_active_nodes st).
Proof.
  revert st. induction fuel as [|fuel IH]; intros st Hinv Hfuel.
  - destruct (any_values (ready st)) eqn:Hany.
    + destruct (bc_step_trace st Hinv Hany) as (st' & group & _ & Hinv' & Hg & Hlog & _).
      pose proof (bc_log_bound trees arrays val Hwf st' [] Hinv') as Hb.
      rewrite Hlog, length_app in Hb. destruct group; [done | simpl in Hb; lia].
    + exists st, []. simpl. rewrite Hany, app_nil_r. by split_and!.
  - simpl. destruct (any_values (ready st)) eqn:Hany.
    + destruct (bc_step_trace st Hinv Hany)
        as (st1 & group & -> & Hinv1 & Hg & Hlog1 & Hdict1).
      destruct (IH st1 Hinv1) as (st' & K & Hloop & Hinv' & Hany' & Hlog' & Hdict').
      { rewrite Hlog1, length_app. destruct group; [done | simpl; lia]. }
      exists st', (group ++ K). split_and!; [done..| |].
      * by rewrite Hlog', Hlog1, app_assoc.
      * by rewrite replay_log_app, <-Hdict1.
    + exists st, []. rewrite app_nil_r. by split_and!.
Qed.

(** A run on a well-formed forest: the dictionaries start with the leaves,
    end with the root of every tree, and are at the end what the logged
    promotions make of the leaves. *)
Lemma bc_run_trace fuel :
  length (all_instances (bc_forest trees)) ≤ fuel →
  ∃ st0 st,
    init trees arrays = Ok st0
    ∧ run fuel trees arrays = Some (Ok st)
    ∧ promoted st0 = []
    ∧ (∀ t tree array, trees !! t = Some tree → arrays !! t = Some array →
         tree_active_nodes st0 !! t = Some (bc_leaf_nodes tree array))
    ∧ tree_active_nodes st
      = replay_log val (promoted st) (tree_active_nodes st0)
    ∧ ∀ t tree bt, trees !! t = Some tree →
        is_tree (N tree) (children tree) bt →
        tree_active_nodes st !! t = Some [(root_id bt, val t (root_id bt))].
Proof.
  intros Hfuel.
  destruct (bc_init_ok trees arrays val Hwf Hleaves) as (st0 & Hinit & Hinv0 & Hlog0).
  destruct (bc_loop_trace fuel st0 Hinv0)
    as (st & K & Hloop & Hinv & Hany & Hlog & Hdict).
  { rewrite Hlog0. simpl. lia. }
  destruct (bc_run_ok trees arrays val Hwf Hsound Hleaves fuel Hfuel)
    as (st' & Hrun & _ & _ & _ & Hroot).
  assert (Hrun0 : run fuel trees arrays = Some (Ok st)).
  { unfold run. by rewrite Hinit. }
  rewrite Hrun0 in Hrun. injection Hrun as <-.
  exists st0, st. split_and!; [done..| | |done].
  - intros t tree array Ht Ha.
    destruct (bc_init_spec _ _ _ Hinit) as (_ & _ & Hact & _).
    destruct (Hact t tree Ht) as (array' & Ha' & Hn). congruence.
  - rewrite Hlog0 in Hlog. simpl in Hlog. by rewrite Hlog.
Qed.

End TraceA.

Section TraceB.
Context {B : Backend}.
Import Batch.

Variables (cb : list (list Contraction)) (ab : list (list Tensor))
          (val : nat → TreeNode → Tensor).
Hypothesis Hwf : tn_well_formed cb ab.
Hypothesis Hshapes : tn_shapes_sound cb ab val.
Hypothesis Hleaves : leaf_values ab val.

Let F : Forest := tn_forest cb ab.
Let maps : list Maps := map build_maps cb.
Let sb : list (list ArrayShape) := map (map tshape) ab.
Let shape_val : nat → TreeNode → ArrayShape := λ t x, tshape (val t x).

Lemma tn_promote_all_trace st L todo result_shape :
  sched_inv F shape_val (tn_sig_of cb val)
    (node2shape_batch st) (contractible st) L todo →
  Forall (λ '(t, p, _, _), shape_val t p = result_shape) todo →
  ∃ st', for_each (promote maps result_shape) todo st = Ok st'
         ∧ sched_inv F shape_val (tn_sig_of cb val)
             (node2shape_batch st') (contractible st') (L ++ todo) []
         ∧ batched_contractions st' = batched_contractions st
         ∧ node2shape_batch st'
           = replay_log shape_val todo (node2shape_batch st).
Proof.
  revert st L. induction todo as [|[[[t p] l] r] todo IH]; intros st L Hinv Hrs.
  - exists st. simpl. by rewrite app_nil_r.
  - apply Forall_cons in Hrs as [<- Hrs].
    destruct (tn_promote_ok cb ab val Hwf _ _ _ _ _ _ _ Hinv)
      as (st1 & Hprom & Hinv1 & Hb1).
    destruct (IH st1 _ Hinv1 Hrs) as (st' & Hloop & Hinv' & Hb' & Hdict').
    pose proof (tn_promote_inv _ _ _ _ _ _ _ _ Hprom)
      as (m & nodes & _ & Hn & _ & _ & Hact & _).
    exists st'. rewrite for_each_cons.
    change (promote maps (shape_val t p) (t, p, l, r) st)
      with (promote (map build_maps cb) (tshape (val t p)) (t, p, l, r) st).
    rewrite Hprom. simpl.
    split_and!; [done| |congruence|].
    + by rewrite <-app_assoc in Hinv'.
    + rewrite Hdict', Hact. unfold replay_log. simpl. by rewrite Hn.
Qed.

Lemma tn_step_trace st L :
  tn_invariant cb ab val st L [] → contractible st ≠ [] →
  ∃ st' group,
    step maps st = Ok st' ∧ tn_invariant cb ab val st' (L ++ group) []
    ∧ group ≠ []
    ∧ node2shape_batch st'
      = replay_log shape_val group (node2shape_batch st).
Proof.
  intros (Hinv & Hlog & Hreplay) Hne. fold F shape_val in Hinv.
  assert (Hkeys : NoDup (contractible st).*1) by by destruct Hinv as (_ & _ & _ & ? & _).
  destruct (pop_largest _ Hkeys Hne) as ([[eq sl] sr] & group & Hmax & Hget & _).
  destruct (sched_inv_pop F shape_val _ _ _ _ _ _ Hinv Hget) as (Hinv1 & Hgne & Hsig).
  set (st1 := {| contractible := ddel (eq, sl, sr) (contractible st);
                 node2shape_batch := node2shape_batch st;
                 batched_contractions := batched_contractions st ++ [(eq, group)] |}).
  assert (Hpending : Forall (pending F L) group).
  { apply Forall_forall. intros inst Hin.
    destruct Hinv1 as (_ & _ & _ & _ & _ & _ & Hpend).
    apply Hpend. apply elem_of_app. by left. }
  assert (Hrs : ∃ rs, get_result_shape eq [sl; sr] = Ok rs
                      ∧ Forall (λ '(t, p, _, _), shape_val t p = rs) group).
  { destruct group as [|[[[t0 p0] l0] r0] group']; [done|].
    exists (shape_val t0 p0).
    assert (Hres : ∀ t p l r, (t, p, l, r) ∈ (t0, p0, l0, r0) :: group' →
              get_result_shape eq [sl; sr] = Ok (shape_val t p)).
    { intros t p l r Hin. apply (Hshapes t p l r eq sl sr).
      - apply elem_of_all_instances_entry; [by apply tn_wf_forest|].
        by destruct (proj1 (Forall_forall _ _) Hpending _ Hin).
      - by apply (proj1 (Forall_forall _ _) Hsig _ Hin). }
    split; [apply (Hres t0 p0 l0 r0); apply elem_of_cons; by left|].
    apply Forall_forall. intros [[[t p] l] r] Hin.
    pose proof (Hres t p l r Hin) as H1.
    pose proof (Hres t0 p0 l0 r0 ltac:(apply elem_of_cons; by left)) as H2.
    rewrite H1 in H2. by injection H2. }
  destruct Hrs as (rs & Hget_rs & Hrs).
  destruct (tn_promote_all_trace st1 L group rs Hinv1 Hrs)
    as (st' & Hloop & Hinv' & Hb' & Hdict').
  exists st', group. split_and!; [| |done|done].
  - unfold step. rewrite Hmax. simpl. unfold dpop. rewrite Hget. simpl.
    fold st1. rewrite Hget_rs. simpl. done.
  - split_and!; [done| |].
    + rewrite Hb'. simpl. rewrite fmap_app, concat_app, Hlog. simpl.
      by rewrite !app_nil_r.
    + rewrite Hb'. simpl. apply tn_replayable_app. split; [done|].
      rewrite Hlog, app_nil_r. simpl. split; [|done].
      split_and!; simpl; [done| |done|by exists sl, sr].
      destruct Hinv1 as (_ & _ & _ & _ & _ & Hnd & _).
      by apply NoDup_app in Hnd as (? & _).
Qed.

Lemma tn_loop_trace fuel st L :
  tn_invariant cb ab val st L [] →
  length (all_instances F) - length L ≤ fuel →
  ∃ st' K,
    loop fuel maps st = Some (Ok st')
    ∧ tn_invariant cb ab val st' (L ++ K) []
    ∧ contractible st' = []
    ∧ node2shape_batch st'
      = replay_log shape_val K (node2shape_batch st).
Proof.
  revert st L. induction fuel as [|fuel IH]; intros st L Hinv Hfuel.
  - destruct (contractible st) as [|kl table] eqn:Htable.
    + exists st, []. simpl. rewrite Htable, app_nil_r. by split_and!.
    + destruct (tn_step_trace st L Hinv) as (st' & group & _ & Hinv' & Hg & _);
        [by rewrite Htable|].
      destruct Hinv' as (Hinv' & _).
      pose proof (tn_log_bound cb ab val Hwf st' _ [] Hinv') as Hb.
      rewrite length_app in Hb. fold F in Hb.
      destruct group; [done | simpl in Hb; lia].
  - simpl. destruct (contractible st) as [|kl table] eqn:Htable.
    + exists st, []. rewrite app_nil_r. by split_and!.
    + destruct (tn_step_trace st L Hinv)
        as (st1 & group & Hstep & Hinv1 & Hg & Hdict1); [by rewrite Htable|].
      rewrite Hstep.
      destruct (IH st1 _ Hinv1) as (st' & K & Hloop & Hinv' & Hempty & Hdict').
      { rewrite length_app. destruct group; [done | simpl; lia]. }
      exists st', (group ++ K). split_and!; [done| |done|].
      * by rewrite app_assoc.
      * by rewrite replay_log_app, <-Hdict1.
Qed.

(** The scheduling of a well-formed batch: the shape dictionaries start with
    the leaves, end with the root of every network, and are at the end what
    the recorded contractions make of the leaves. *)
Lemma tn_schedule_trace fuel :
  length (all_instances F) ≤ fuel →
  ∃ st0 st,
    init cb sb = Ok st0
    ∧ schedule fuel cb sb = Some (Ok st)
    ∧ node2shape_batch st0 = map leaf_dict sb
    ∧ batched_contractions st0 = []
    ∧ node2shape_batch st
      = replay_log shape_val (concat (batched_contractions st).*2)
                   (node2shape_batch st0)
    ∧ ∀ t cs arrays bt, cb !! t = Some cs → ab !! t = Some arrays →
        is_tree (length arrays) (tn_binary cs) bt →
        node2shape_batch st !! t
        = Some [(root_id bt, shape_val t (root_id bt))].
Proof.
  intros Hfuel.
  destruct (tn_init_ok cb ab val Hwf Hleaves) as (st0 & Hinit & Hinv0).
  destruct (tn_loop_trace fuel st0 [] Hinv0)
    as (st & K & Hloop & (Hinv & Hlog & _) & Hempty & Hdict).
  { simpl. lia. }
  fold sb in Hinit.
  destruct (tn_init_spec cb sb) as (st0' & Hinit' & Hnodes0 & Hb0 & _).
  rewrite Hinit in Hinit'. injection Hinit' as <-.
  exists st0, st. unfold schedule. rewrite Hinit. simpl in Hlog, Hinv.
  rewrite app_nil_r in Hlog.
  split_and!; [done..| |].
  - by rewrite Hlog.
  - intros t cs arrays bt Hcs Harr Htree.
    eapply (sched_inv_final F shape_val);
      [by apply (tn_wf_forest cb ab) | exact Hinv | by rewrite Hempty | | done].
    apply tn_forest_lookup. by exists cs, arrays.
Qed.

End TraceB.

(** C1.  On a well-formed forest, with a backend that returns the tensor of
    each parent for every batch, the loop of [batch_contract.py] ends
    within [sum (N - 1)] iterations with an empty table.  The active-node
    dictionaries hold the leaves with their arrays before the loop and, for
    every tree, the root alone with its tensor after it; in between they
    change by the promotions of the log and by nothing else: the final
    dictionaries are the initial ones after popping the two children and
    assigning the parent for every logged instance, in order.  The logged
    instances are exactly the entries of the [children] dictionaries, each
    once, so the number of parents assigned is the sum over the trees of
    the number of leaves minus one.  The same holds for the loop of
    [get_batched_contractions] of [batch_tn/batch.py], its dictionaries of
    shapes and the targets of the batches it returns, where the number of
    leaves of a tree is the number of its arrays. *)
Theorem scheduler_terminates_and_counts (B : Backend) :
  (∀ (trees : list BatchContract.ContractionTree) arrays val,
     bc_well_formed trees arrays → leaf_values arrays val →
     bc_backend_sound trees val →
     ∀ fuel,
       sum_list (map (λ tree, BatchContract.N tree - 1) trees) ≤ fuel →
       ∃ st0 st,
         BatchContract.init trees arrays = Ok st0
         ∧ BatchContract.run fuel trees arrays = Some (Ok st)
         ∧ any_values (BatchContract.ready st) = false
         ∧ (∀ t tree array,
              trees !! t = Some tree → arrays !! t = Some array →
              BatchContract.tree_active_nodes st0 !! t
              = Some (bc_leaf_nodes tree array))
         ∧ BatchContract.promoted st0 = []
         ∧ BatchContract.tree_active_nodes st
           = replay_log val (BatchContract.promoted st)
                        (BatchContract.tree_active_nodes st0)
         ∧ (∀ t tree bt,
              trees !! t = Some tree →
              is_tree (BatchContract.N tree) (BatchContract.children tree) bt →
              BatchContract.tree_active_nodes st !! t
              = Some [(root_id bt, val t (root_id bt))])
         ∧ NoDup (BatchContract.promoted st)
         ∧ (∀ t p l r,
              (t, p, l, r) ∈ BatchContract.promoted st
              ↔ ∃ tree, trees !! t = Some tree
                        ∧ dget p (BatchContract.children tree) = Some (l, r))
         ∧ length (BatchContract.promoted st)
           = sum_list (map (λ tree, BatchContract.N tree - 1) trees))
  ∧ (∀ (cb : list (list Batch.Contraction)) ab val,
       tn_well_formed cb ab → leaf_values ab val →
       tn_shapes_sound cb ab val →
       ∀ fuel,
         sum_list (map (λ arrays, length arrays - 1) ab) ≤ fuel →
         ∃ st0 st,
           Batch.init cb (map (map tshape) ab) = Ok st0
           ∧ Batch.schedule fuel cb (map (map tshape) ab) = Some (Ok st)
           ∧ Batch.contractible st = []
           ∧ Batch.node2shape_batch st0
             = map Batch.leaf_dict (map (map tshape) ab)
           ∧ Batch.batched_contractions st0 = []
           ∧ Batch.node2shape_batch st
             = replay_log (λ t x, tshape (val t x))
                          (concat (Batch.batched_contractions st).*2)
                          (Batch.node2shape_batch st0)
           ∧ (∀ t cs arrays bt,
                cb !! t = Some cs → ab !! t = Some arrays →
                is_tree (length arrays) (tn_binary cs) bt →
                Batch.node2shape_batch st !! t
                = Some [(root_id bt, tshape (val t (root_id bt)))])
           ∧ NoDup (concat (Batch.batched_contractions st).*2)
           ∧ (∀ t p l r,
                (t, p, l, r) ∈ concat (Batch.batched_contractions st).*2
                ↔ ∃ cs, cb !! t = Some cs
                        ∧ dget p (Batch.children_map (Batch.build_maps cs))
                          = Some (l, r))
           ∧ length (concat (Batch.batched_contractions st).*2)
             = sum_list (map (λ arrays, length arrays - 1) ab)).
Proof.
  split.
  - intros trees arrays val Hwf Hleaves Hsound fuel Hfuel.
    rewrite <-(bc_instances_total trees arrays Hwf) in Hfuel |- *.
    destruct (bc_run_trace trees arrays val Hwf Hsound Hleaves fuel Hfuel)
      as (st0 & st & Hinit & Hrun & Hlog0 & Hleaf & Hreplay & Hroot).
    destruct (bc_run_ok trees arrays val Hwf Hsound Hleaves fuel Hfuel)
      as (st' & Hrun' & Hany & Hperm & _).
    rewrite Hrun in Hrun'. injection Hrun' as <-.
    pose proof (bc_wf_forest trees arrays Hwf) as HwfF.
    exists st0, st. split_and!; [done..| | |].
    + rewrite Hperm. by apply all_instances_NoDup.
    + intros t p l r. rewrite Hperm, elem_of_all_instances_entry by done.
      apply bc_entry.
    + by rewrite Hperm.
  - intros cb ab val Hwf Hleaves Hshapes fuel Hfuel.
    rewrite <-(tn_instances_total cb ab Hwf) in Hfuel |- *.
    destruct (tn_schedule_trace cb ab val Hwf Hshapes Hleaves fuel Hfuel)
      as (st0 & st & Hinit & Hsched & Hnodes0 & Hb0 & Hreplay & Hroot).
    destruct (tn_schedule_ok cb ab val Hwf Hshapes Hleaves fuel Hfuel)
      as (st' & Hsched' & Hempty & Hperm & _).
    rewrite Hsched in Hsched'. injection Hsched' as <-.
    pose proof (tn_wf_forest cb ab Hwf) as HwfF.
    exists st0, st. split_and!; [done..| | |].
    + rewrite Hperm. by apply all_instances_NoDup.
    + intros t p l r. rewrite Hperm, elem_of_all_instances_entry by done.
      by apply tn_entry.
    + by rewrite Hperm.
Qed.

(** * The same tree several times *)

Lemma outputs_replicate {V} (outs : list V) (n : nat) (x : V) :
  length outs = n → (∀ t, t < n → outs !! t = Some x) → outs = replicate n x.
Proof.
  intros Hlen Hall. apply list_eq. intros t.
  destruct (decide (t < n)) as [Hlt|Hge].
  - rewrite Hall by done. symmetry. by apply lookup_replicate_2.
  - rewrite (proj2 (lookup_ge_None _ _)) by lia.
    symmetry. apply lookup_ge_None. rewrite length_replicate. lia.
Qed.

Section ReplicateA.
Context {B : Backend}.
Import BatchContract.
Variables (tree : ContractionTree) (array : list Tensor).

Lemma bc_instances_replicate n t p l r :
  (t, p, l, r) ∈ all_instances (bc_forest (replicate n tree))
  ↔ t < n ∧ (p, (l, r)) ∈ children tree.
Proof.
  rewrite elem_of_all_instances. split.
  - intros (k & ch & (tree' & [-> Hlt]%lookup_replicate & -> & ->)%bc_forest_lookup & Hin).
    done.
  - intros [Hlt Hin]. exists (N tree), (children tree). split; [|done].
    apply bc_forest_lookup. exists tree. by rewrite lookup_replicate_2.
Qed.

Lemma bc_sig_of_replicate n t p l r sig :
  bc_sig_of (replicate n tree) (t, p, l, r) sig
  ↔ t < n ∧ extract_signature tree p = Ok sig.
Proof.
  simpl. split.
  - by intros (tree' & [-> Hlt]%lookup_replicate & Hsig).
  - intros [Hlt Hsig]. exists tree. by rewrite lookup_replicate_2.
Qed.

Lemma bc_well_formed_replicate m n :
  1 ≤ m → bc_well_formed (replicate m tree) (replicate m array) →
  bc_well_formed (replicate n tree) (replicate n array).
Proof.
  intros Hm (_ & HwfF & Hlen & Hsig). split_and!.
  - by rewrite !length_replicate.
  - intros t k ch (tree' & [-> Hlt]%lookup_replicate & -> & ->)%bc_forest_lookup.
    apply (HwfF 0). apply bc_forest_lookup. exists tree.
    by rewrite lookup_replicate_2 by lia.
  - intros t tree' array' [-> _]%lookup_replicate [-> _]%lookup_replicate.
    apply (Hlen 0); by rewrite lookup_replicate_2 by lia.
  - intros [[[t p] l] r] [Hlt Hin]%bc_instances_replicate.
    destruct (Hsig (0, p, l, r)) as [sig [_ Hs]%bc_sig_of_replicate].
    { apply bc_instances_replicate. split; [lia | done]. }
    exists sig. by apply bc_sig_of_replicate.
Qed.

Lemma bc_backend_sound_replicate m n val :
  m ≤ n → bc_backend_sound (replicate n tree) val →
  bc_backend_sound (replicate m tree) val.
Proof.
  intros Hmn Hsound sig group Hne Hall. apply Hsound; [done|].
  eapply Forall_impl; [exact Hall|].
  intros [[[t p] l] r] [[Hlt Hin]%bc_instances_replicate [_ Hsig]%bc_sig_of_replicate].
  split; [apply bc_instances_replicate | apply bc_sig_of_replicate];
    (split; [lia | done]).
Qed.

Lemma leaf_values_replicate n (v : TreeNode → Tensor) :
  leaf_values [array] (λ _, v) → leaf_values (replicate n array) (λ _, v).
Proof.
  intros Hleaves t array' i a [-> _]%lookup_replicate Hi.
  by apply (Hleaves 0 array i a).
Qed.

Lemma bc_batch_invariance (v : TreeNode → Tensor) n :
  1 ≤ n →
  bc_well_formed [tree] [array] →
  leaf_values [array] (λ _, v) →
  bc_backend_sound (replicate n tree) (λ _, v) →
  ∃ x, ∀ fuel,
    n * (N tree - 1) ≤ fuel →
    batch_contract fuel [tree] [array] = Some (Ok [x])
    ∧ batch_contract fuel (replicate n tree) (replicate n array)
      = Some (Ok (replicate n x)).
Proof.
  intros Hn Hwf Hleaves Hsound.
  assert (Hwfn : bc_well_formed (replicate n tree) (replicate n array)).
  { by apply (bc_well_formed_replicate 1 n). }
  destruct Hwf as (Hlen1 & HwfF & Hrest).
  destruct (HwfF 0 (N tree) (children tree) eq_refl) as [bt Htree].
  exists (v (root_id bt)). intros fuel Hfuel.
  assert (Hout : ∀ k, 1 ≤ k → k ≤ n →
            batch_contract fuel (replicate k tree) (replicate k array)
            = Some (Ok (replicate k (v (root_id bt))))).
  { intros k Hk Hkn.
    assert (Hwfk : bc_well_formed (replicate k tree) (replicate k array)).
    { apply (bc_well_formed_replicate n k); [lia | done]. }
    destruct (bc_batch_contract_ok (replicate k tree) (replicate k array) (λ _, v)
                Hwfk) with (fuel := fuel) as (outs & -> & Hlen & Hroot).
    - by apply (bc_backend_sound_replicate k n).
    - by apply leaf_values_replicate.
    - rewrite (bc_instances_total _ _ Hwfk).
      assert (Hsum : ∀ j, sum_list (map (λ tree0, N tree0 - 1) (replicate j tree))
                          = j * (N tree - 1)).
      { induction j as [|j IH]; simpl; [done | rewrite IH; lia]. }
      rewrite Hsum. nia.
    - f_equal. f_equal. apply outputs_replicate.
      + by rewrite Hlen, length_replicate.
      + intros t Hlt. apply (Hroot t tree bt); [by rewrite lookup_replicate_2 | done]. }
  split.
  - apply (Hout 1); lia.
  - by apply (Hout n).
Qed.

End ReplicateA.

Section ReplicateB.
Context {B : Backend}.
Import Batch.
Variables (cs : list Contraction) (array : list Tensor).

Lemma tn_forest_replicate n t k ch :
  tn_forest (replicate n cs) (replicate n array) !! t = Some (k, ch)
  ↔ t < n ∧ k = length array ∧ ch = tn_binary cs.
Proof.
  rewrite tn_forest_lookup. split.
  - by intros (cs' & arrays & [-> Hlt]%lookup_replicate & [-> _]%lookup_replicate & -> & ->).
  - intros (Hlt & -> & ->). exists cs, array. by rewrite !lookup_replicate_2.
Qed.

Lemma tn_instances_replicate n t p l r :
  (t, p, l, r) ∈ all_instances (tn_forest (replicate n cs) (replicate n array))
  ↔ t < n ∧ (p, (l, r)) ∈ tn_binary cs.
Proof.
  rewrite elem_of_all_instances. split.
  - by intros (k & ch & (Hlt & -> & ->)%tn_forest_replicate & Hin).
  - intros [Hlt Hin]. exists (length array), (tn_binary cs).
    split; [by apply tn_forest_replicate | done].
Qed.

Lemma tn_sig_of_replicate n (v : TreeNode → Tensor) t p l r eq sl sr :
  tn_sig_of (replicate n cs) (λ _, v) (t, p, l, r) (eq, sl, sr)
  ↔ t < n ∧ dget p (eq_map (build_maps cs)) = Some eq
    ∧ sl = tshape (v l) ∧ sr = tshape (v r).
Proof.
  simpl. split.
  - by intros (cs' & [-> Hlt]%lookup_replicate & ? & ? & ?).
  - intros (Hlt & ? & ? & ?). exists cs. by rewrite lookup_replicate_2.
Qed.

Lemma tn_well_formed_replicate m n :
  1 ≤ m → tn_well_formed (replicate m cs) (replicate m array) →
  tn_well_formed (replicate n cs) (replicate n array).
Proof.
  intros Hm (_ & HwfF). split.
  - by rewrite !length_replicate.
  - intros t k ch (Hlt & -> & ->)%tn_forest_replicate.
    apply (HwfF 0). apply tn_forest_replicate. split_and!; [lia|done..].
Qed.

Lemma tn_shapes_sound_replicate m n (v : TreeNode → Tensor) :
  1 ≤ m →
  tn_shapes_sound (replicate m cs) (replicate m array) (λ _, v) →
  tn_shapes_sound (replicate n cs) (replicate n array) (λ _, v).
Proof.
  intros Hm Hsh t p l r eq sl sr [Hlt Hin]%tn_instances_replicate
    (_ & Hsig)%tn_sig_of_replicate.
  apply (Hsh 0 p l r eq sl sr).
  - apply tn_instances_replicate. split; [lia | done].
  - apply tn_sig_of_replicate. split; [lia | done].
Qed.

Lemma tn_backend_sound_replicate m n val :
  m ≤ n →
  tn_backend_sound (replicate n cs) (replicate n array) val →
  tn_backend_sound (replicate m cs) (replicate m array) val.
Proof.
  intros Hmn Hsound sig group Hne Hall. apply Hsound; [done|].
  eapply Forall_impl; [exact Hall|].
  intros [[[t p] l] r] [[Hlt Hin]%tn_instances_replicate Hsig].
  split; [apply tn_instances_replicate; split; [lia | done]|].
  destruct sig as [[eq sl] sr]. simpl in *.
  destruct Hsig as (cs' & [-> _]%lookup_replicate & ?).
  exists cs. split; [|done]. apply lookup_replicate_2. lia.
Qed.

Lemma tn_batch_invariance (v : TreeNode → Tensor) n :
  1 ≤ n →
  tn_well_formed [cs] [array] →
  leaf_values [array] (λ _, v) →
  tn_shapes_sound [cs] [array] (λ _, v) →
  tn_backend_sound (replicate n cs) (replicate n array) (λ _, v) →
  ∃ x, ∀ fuel,
    n * (length array - 1) ≤ fuel →
    batch_contract fuel [cs] [array] = Some (Ok [x])
    ∧ batch_contract fuel (replicate n cs) (replicate n array)
      = Some (Ok (replicate n x)).
Proof.
  intros Hn Hwf Hleaves Hshapes Hsound.
  assert (Hwfn : tn_well_formed (replicate n cs) (replicate n array)).
  { by apply (tn_well_formed_replicate 1 n). }
  destruct Hwf as (Hlen1 & HwfF).
  destruct (HwfF 0 (length array) (tn_binary cs) eq_refl) as [bt Htree].
  exists (v (root_id bt)). intros fuel Hfuel.
  assert (Hout : ∀ k, 1 ≤ k → k ≤ n →
            batch_contract fuel (replicate k cs) (replicate k array)
            = Some (Ok (replicate k (v (root_id bt))))).
  { intros k Hk Hkn.
    assert (Hwfk : tn_well_formed (replicate k cs) (replicate k array)).
    { apply (tn_well_formed_replicate n k); [lia | done]. }
    destruct (tn_batch_contract_ok (replicate k cs) (replicate k array) (λ _, v)
                Hwfk) with (fuel := fuel) as (outs & -> & Hlen & Hroot).
    - by apply (tn_shapes_sound_replicate 1 k).
    - by apply (tn_backend_sound_replicate k n).
    - by apply leaf_values_replicate.
    - rewrite (tn_instances_total _ _ Hwfk).
      assert (Hsum : ∀ j, sum_list (map (λ arrays, length arrays - 1)
                                        (replicate j array))
                          = j * (length array - 1)).
      { induction j as [|j IH]; simpl; [done | rewrite IH; lia]. }
      rewrite Hsum. nia.
    - f_equal. f_equal. apply outputs_replicate.
      + by rewrite Hlen, length_replicate.
      + intros t Hlt. apply (Hroot t (length array) (tn_binary cs) bt); [|done].
        by apply tn_forest_replicate. }
  split.
  - apply (Hout 1); lia.
  - by apply (Hout n).
Qed.

End ReplicateB.

(** C8.  When a tree and its leaf tensors are given [n >= 1] times in one
    call, on a backend that returns the tensor of each parent for every
    batch of that call, [batch_contract] returns [n] equal tensors, each the
    one it returns for the tree alone.  This holds for [batch_contract.py]
    and for [batch_tn/batch.py]; for the latter the same holds for
    [batch_einsum], which only adds the planning of the contraction list. *)
Theorem batch_invariance (B : Backend) :
  (∀ (tree : BatchContract.ContractionTree) array (v : TreeNode → Tensor) n,
     1 ≤ n →
     bc_well_formed [tree] [array] →
     leaf_values [array] (λ _, v) →
     bc_backend_sound (replicate n tree) (λ _, v) →
     ∃ x, ∀ fuel,
       n * (BatchContract.N tree - 1) ≤ fuel →
       BatchContract.batch_contract fuel [tree] [array] = Some (Ok [x])
       ∧ BatchContract.batch_contract fuel (replicate n tree) (replicate n array)
         = Some (Ok (replicate n x)))
  ∧ (∀ (get_contractions : str → list ArrayShape → list Batch.Contraction)
       (eq : str) array (v : TreeNode → Tensor) n,
       let cs := get_contractions eq (map tshape array) in
       1 ≤ n →
       tn_well_formed [cs] [array] →
       leaf_values [array] (λ _, v) →
       tn_shapes_sound [cs] [array] (λ _, v) →
       tn_backend_sound (replicate n cs) (replicate n array) (λ _, v) →
       ∃ x, ∀ fuel,
         n * (length array - 1) ≤ fuel →
         Batch.batch_contract fuel [cs] [array] = Some (Ok [x])
         ∧ Batch.batch_contract fuel (replicate n cs) (replicate n array)
           = Some (Ok (replicate n x))
         ∧ Batch.batch_einsum get_contractions fuel
             (replicate n eq) (replicate n array)
           = Some (Ok (replicate n x))).
Proof.
  split.
  - intros tree array v n. apply bc_batch_invariance.
  - intros get_contractions eq array v n cs Hn Hwf Hleaves Hshapes Hsound.
    destruct (tn_batch_invariance cs array v n Hn Hwf Hleaves Hshapes Hsound)
      as [x Hx].
    exists x. intros fuel Hfuel. destruct (Hx fuel Hfuel) as [H1 Hn'].
    split_and!; [done..|].
    unfold Batch.batch_einsum. rewrite <-Hn'. f_equal.
    clear. induction n as [|n IH]; simpl; [done|]. by rewrite IH.
Qed.

(** * The shape backend satisfies the contract of the backend *)

Lemma shape_stack_const (s : ArrayShape) (l : list ArrayShape) :
  l ≠ [] → Forall (λ a, a = s) l →
  ShapeBackend.stack l = Ok (Z.of_nat (length l) :: s).
Proof.
  destruct l as [|a l]; [done|]. intros _ [-> Hall]%Forall_cons.
  unfold ShapeBackend.stack.
  rewrite (proj2 (forallb_forall _ _)); [done|].
  intros a Hin%list_elem_of_In. apply bool_decide_eq_true_2.
  by apply (proj1 (Forall_forall _ _) Hall).
Qed.

Lemma map_const {A C} (f : A → C) (c : C) (l : list A) :
  Forall (λ x, f x = c) l → map f l = replicate (length l) c.
Proof. induction 1 as [|x l Hx Hl IH]; simpl; [done | by rewrite Hx, IH]. Qed.

Lemma shape_batched_call (getb : result str) (val : nat → TreeNode → ArrayShape)
    (sl sr : ArrayShape) (group : list Instance) (beq : str) :
  group ≠ [] → getb = Ok beq →
  Forall (λ '(t, p, l, r),
            val t l = sl ∧ val t r = sr
            ∧ ∀ m, ShapeBackend.einsum beq (m :: sl) (m :: sr)
                   = Ok (m :: val t p)) group →
  batched_call (B := ShapeBackend.backend) getb
    (map (λ '(t, _, l, _), val t l) group)
    (map (λ '(t, _, _, r), val t r) group)
    (map (λ '(t, p, _, _), val t p) group).
Proof.
  intros Hne Hbeq Hall.
  destruct group as [|[[[t0 p0] l0] r0] rest] eqn:Hgroup; [done|]. rewrite <-Hgroup in *.
  assert (H0 : ∀ m, ShapeBackend.einsum beq (m :: sl) (m :: sr) = Ok (m :: val t0 p0)).
  { rewrite Hgroup in Hall. by apply Forall_cons in Hall as [(_ & _ & ?) _]. }
  set (n := length group).
  assert (Hl : map (λ '(t, _, l, _), val t l) group = replicate n sl).
  { apply map_const. eapply Forall_impl; [exact Hall|]. by intros [[[t p] l] r] (? & _). }
  assert (Hr : map (λ '(t, _, _, r), val t r) group = replicate n sr).
  { apply map_const. eapply Forall_impl; [exact Hall|]. by intros [[[t p] l] r] (_ & ? & _). }
  assert (Hp : map (λ '(t, p, _, _), val t p) group = replicate n (val t0 p0)).
  { apply map_const. eapply Forall_impl; [exact Hall|].
    intros [[[t p] l] r] (_ & _ & Hm). specialize (Hm 0%Z). rewrite H0 in Hm.
    by injection Hm. }
  assert (Hn : n ≠ 0) by (unfold n; rewrite Hgroup; simpl; lia).
  exists beq, (Z.of_nat n :: sl), (Z.of_nat n :: sr), (Z.of_nat n :: val t0 p0).
  rewrite Hl, Hr, Hp. simpl. split_and!; [done| | |apply H0|].
  - rewrite <-(length_replicate n sl) at 2. apply shape_stack_const.
    + by destruct n.
    + by apply Forall_replicate.
  - rewrite <-(length_replicate n sr) at 2. apply shape_stack_const.
    + by destruct n.
    + by apply Forall_replicate.
  - by rewrite Nat2Z.id.
Qed.

(** The batched equations of the examples on stacks of any height. *)
Lemma einsum_matmul_ellipsis (m : Z) :
  ShapeBackend.einsum (py "...ab,...bc->...ac") (m :: [2; 3]%Z) (m :: [3; 4]%Z)
  = Ok (m :: [2; 4]%Z).
Proof.
  unfold ShapeBackend.einsum.
  replace (split arrow (py "...ab,...bc->...ac"))
    with [py "...ab,...bc"; py "...ac"] by by vm_compute.
  cbn [unpack2 mbind result_bind].
  replace (split comma (py "...ab,...bc")) with [py "...ab"; py "...bc"]
    by by vm_compute.
  cbn [unpack2 mbind result_bind].
  replace (ShapeBackend.operand (py "...ab") [m; 2%Z; 3%Z])
    with (Ok ([m], py "ab", [2; 3]%Z) : result (ArrayShape * str * ArrayShape))
    by by vm_compute.
  replace (ShapeBackend.operand (py "...bc") [m; 3%Z; 4%Z])
    with (Ok ([m], py "bc", [3; 4]%Z) : result (ArrayShape * str * ArrayShape))
    by by vm_compute.
  cbn [mbind result_bind].
  unfold ShapeBackend.broadcast. rewrite bool_decide_eq_true_2 by done.
  cbn [mbind result_bind]. by vm_compute.
Qed.

Lemma einsum_chain_ellipsis (m : Z) :
  ShapeBackend.einsum (py "...ac,...cd->...ad") (m :: [2; 4]%Z) (m :: [4; 5]%Z)
  = Ok (m :: [2; 5]%Z).
Proof.
  unfold ShapeBackend.einsum.
  replace (split arrow (py "...ac,...cd->...ad"))
    with [py "...ac,...cd"; py "...ad"] by by vm_compute.
  cbn [unpack2 mbind result_bind].
  replace (split comma (py "...ac,...cd")) with [py "...ac"; py "...cd"]
    by by vm_compute.
  cbn [unpack2 mbind result_bind].
  replace (ShapeBackend.operand (py "...ac") [m; 2%Z; 4%Z])
    with (Ok ([m], py "ac", [2; 4]%Z) : result (ArrayShape * str * ArrayShape))
    by by vm_compute.
  replace (ShapeBackend.operand (py "...cd") [m; 4%Z; 5%Z])
    with (Ok ([m], py "cd", [4; 5]%Z) : result (ArrayShape * str * ArrayShape))
    by by vm_compute.
  cbn [mbind result_bind].
  unfold ShapeBackend.broadcast. rewrite bool_decide_eq_true_2 by done.
  cbn [mbind result_bind]. by vm_compute.
Qed.

(** A term that starts with the batch symbol binds it to the height of the
    stack; the second operand then finds it bound to the same height. *)
Lemma bind_size_known (c m : Z) (size_dict : dict Z Z) :
  dget c size_dict = Some m → Batch.bind_size (c, m) size_dict = Ok size_dict.
Proof.
  intros Hget. unfold Batch.bind_size. rewrite Hget.
  by rewrite bool_decide_eq_false_2 by (intros Hne; by apply Hne).
Qed.

Lemma einsum_matmul_fresh (m : Z) :
  ShapeBackend.einsum (py "dab,dbc->dac") (m :: [2; 3]%Z) (m :: [3; 4]%Z)
  = Ok (m :: [2; 4]%Z).
Proof.
  unfold ShapeBackend.einsum.
  replace (split arrow (py "dab,dbc->dac")) with [py "dab,dbc"; py "dac"]
    by by vm_compute.
  cbn [unpack2 mbind result_bind].
  replace (split comma (py "dab,dbc")) with [py "dab"; py "dbc"] by by vm_compute.
  cbn [unpack2 mbind result_bind].
  replace (ShapeBackend.operand (py "dab") [m; 2%Z; 3%Z])
    with (Ok ([], py "dab", [m; 2; 3]%Z) : result (ArrayShape * str * ArrayShape))
    by by vm_compute.
  replace (ShapeBackend.operand (py "dbc") [m; 3%Z; 4%Z])
    with (Ok ([], py "dbc", [m; 3; 4]%Z) : result (ArrayShape * str * ArrayShape))
    by by vm_compute.
  cbn [mbind result_bind ShapeBackend.broadcast].
  replace (for_each Batch.bind_size (zip (py "dab") [m; 2%Z; 3%Z]) [])
    with (Ok [(100%Z, m); (97%Z, 2%Z); (98%Z, 3%Z)] : result (dict Z Z))
    by by vm_compute.
  cbn [mbind result_bind].
  replace (zip (py "dbc") [m; 3%Z; 4%Z])
    with [(100%Z, m); (98%Z, 3%Z); (99%Z, 4%Z)] by by vm_compute.
  rewrite for_each_cons, bind_size_known by by vm_compute.
  cbn [mbind result_bind]. by vm_compute.
Qed.

Lemma einsum_chain_fresh (m : Z) :
  ShapeBackend.einsum (py "eac,ecd->ead") (m :: [2; 4]%Z) (m :: [4; 5]%Z)
  = Ok (m :: [2; 5]%Z).
Proof.
  unfold ShapeBackend.einsum.
  replace (split arrow (py "eac,ecd->ead")) with [py "eac,ecd"; py "ead"]
    by by vm_compute.
  cbn [unpack2 mbind result_bind].
  replace (split comma (py "eac,ecd")) with [py "eac"; py "ecd"] by by vm_compute.
  cbn [unpack2 mbind result_bind].
  replace (ShapeBackend.operand (py "eac") [m; 2%Z; 4%Z])
    with (Ok ([], py "eac", [m; 2; 4]%Z) : result (ArrayShape * str * ArrayShape))
    by by vm_compute.
  replace (ShapeBackend.operand (py "ecd") [m; 4%Z; 5%Z])
    with (Ok ([], py "ecd", [m; 4; 5]%Z) : result (ArrayShape * str * ArrayShape))
    by by vm_compute.
  cbn [mbind result_bind ShapeBackend.broadcast].
  replace (for_each Batch.bind_size (zip (py "eac") [m; 2%Z; 4%Z]) [])
    with (Ok [(101%Z, m); (97%Z, 2%Z); (99%Z, 4%Z)] : result (dict Z Z))
    by by vm_compute.
  cbn [mbind result_bind].
  replace (zip (py "ecd") [m; 4%Z; 5%Z])
    with [(101%Z, m); (99%Z, 4%Z); (100%Z, 5%Z)] by by vm_compute.
  rewrite for_each_cons, bind_size_known by by vm_compute.
  cbn [mbind result_bind]. by vm_compute.
Qed.

Lemma shape_bc_backend_sound (trees : list BatchContract.ContractionTree)
    (val : nat → TreeNode → ArrayShape) :
  (∀ t p l r sig,
     (t, p, l, r) ∈ all_instances (bc_forest trees) →
     bc_sig_of trees (t, p, l, r) sig →
     ∃ beq, BatchContract.get_batched_einsum_equation sig.1.1 = Ok beq
            ∧ val t l = sig.1.2 ∧ val t r = sig.2
            ∧ ∀ m, ShapeBackend.einsum beq (m :: sig.1.2) (m :: sig.2)
                   = Ok (m :: val t p)) →
  bc_backend_sound (B := ShapeBackend.backend) trees val.
Proof.
  intros Hinst sig group Hne Hall.
  destruct group as [|[[[t0 p0] l0] r0] rest] eqn:Hgroup; [done|].
  rewrite <-Hgroup in *.
  assert (Hbeq : ∃ beq, BatchContract.get_batched_einsum_equation sig.1.1 = Ok beq).
  { rewrite Hgroup in Hall. apply Forall_cons in Hall as [[Hin Hsig] _].
    destruct (Hinst _ _ _ _ _ Hin Hsig) as (beq & ? & _). by exists beq. }
  destruct Hbeq as (beq & Hbeq).
  apply (shape_batched_call _ val sig.1.2 sig.2 group beq); [done..|].
  eapply Forall_impl; [exact Hall|].
  intros [[[t p] l] r] [Hin Hsig].
  destruct (Hinst _ _ _ _ _ Hin Hsig) as (beq' & Hbeq' & Hl & Hr & Hm).
  rewrite Hbeq in Hbeq'. injection Hbeq' as <-. done.
Qed.

Lemma shape_tn_backend_sound (cb : list (list Batch.Contraction))
    (ab : list (list ArrayShape)) (val : nat → TreeNode → ArrayShape) :
  (∀ t p l r sig,
     (t, p, l, r) ∈ all_instances (tn_forest (B := ShapeBackend.backend) cb ab) →
     tn_sig_of (B := ShapeBackend.backend) cb val (t, p, l, r) sig →
     ∃ beq, Batch.get_batched_einsum_equation sig.1.1 None = Ok beq
            ∧ ∀ m, ShapeBackend.einsum beq (m :: sig.1.2) (m :: sig.2)
                   = Ok (m :: val t p)) →
  tn_backend_sound (B := ShapeBackend.backend) cb ab val.
Proof.
  intros Hinst sig group Hne Hall.
  destruct group as [|[[[t0 p0] l0] r0] rest] eqn:Hgroup; [done|].
  rewrite <-Hgroup in *.
  assert (Hbeq : ∃ beq, Batch.get_batched_einsum_equation sig.1.1 None = Ok beq).
  { rewrite Hgroup in Hall. apply Forall_cons in Hall as [[Hin Hsig] _].
    destruct (Hinst _ _ _ _ _ Hin Hsig) as (beq & ? & _). by exists beq. }
  destruct Hbeq as (beq & Hbeq).
  apply (shape_batched_call _ val sig.1.2 sig.2 group beq); [done..|].
  eapply Forall_impl; [exact Hall|].
  intros [[[t p] l] r] [Hin Hsig].
  destruct (Hinst _ _ _ _ _ Hin Hsig) as (beq' & Hbeq' & Hm).
  rewrite Hbeq in Hbeq'. injection Hbeq' as <-.
  destruct sig as [[eq sl] sr]. destruct Hsig as (cs & _ & _ & -> & ->). done.
Qed.

(** ** The example trees are well formed *)

Lemma tree3_is_tree :
  is_tree 3 (BatchContract.children Examples.tree3) Witness.bt3.
Proof.
  split_and!.
  - simpl. apply perm_swap.
  - by vm_compute.
  - refine (bool_decide_unpack _ _). by vm_compute.
Qed.

Lemma tree2_is_tree :
  is_tree 2 (BatchContract.children Examples.tree2) Witness.bt2.
Proof.
  split_and!.
  - by vm_compute.
  - by vm_compute.
  - refine (bool_decide_unpack _ _). by vm_compute.
Qed.

Lemma tree3_signatures :
  BatchContract.extract_signature Examples.tree3 Examples.node01
  = Ok (Examples.matmul, [2; 3]%Z, [3; 4]%Z)
  ∧ BatchContract.extract_signature Examples.tree3 Examples.root3
    = Ok (Examples.chain, [2; 4]%Z, [4; 5]%Z).
Proof. split; by vm_compute. Qed.

Lemma val3_values :
  Witness.val3 (leaf 0) = [2; 3]%Z ∧ Witness.val3 (leaf 1) = [3; 4]%Z
  ∧ Witness.val3 (leaf 2) = [4; 5]%Z ∧ Witness.val3 Examples.node01 = [2; 4]%Z
  ∧ Witness.val3 Examples.root3 = [2; 5]%Z.
Proof. split_and!; by vm_compute. Qed.

Lemma tree3_instances (F : Forest) (inst : Instance) :
  F = [(3, BatchContract.children Examples.tree3)] →
  inst ∈ all_instances F →
  inst = (0, Examples.node01, leaf 0, leaf 1)
  ∨ inst = (0, Examples.root3, Examples.node01, leaf 2).
Proof.
  intros -> Hin. cbn in Hin.
  rewrite !elem_of_cons, elem_of_nil in Hin. tauto.
Qed.

Lemma tree3_well_formed :
  bc_well_formed (B := ShapeBackend.backend) [Examples.tree3] [Examples.arrays3].
Proof.
  split_and!.
  - done.
  - intros [|t] n ch Hlook; [|done].
    injection Hlook as <- <-. exists Witness.bt3. apply tree3_is_tree.
  - intros [|t] tree array Htree Harray; [|done].
    by injection Htree as <-; injection Harray as <-.
  - intros inst [->| ->]%(tree3_instances _ _ eq_refl).
    + eexists. exists Examples.tree3. split; [done|]. apply tree3_signatures.
    + eexists. exists Examples.tree3. split; [done|]. apply tree3_signatures.
Qed.

Lemma tree3_leaf_values :
  leaf_values (B := ShapeBackend.backend) [Examples.arrays3] (λ _, Witness.val3).
Proof.
  intros [|t] array i a Harray Ha; [|done]. injection Harray as <-.
  destruct i as [|[|[|i]]]; [..|done]; injection Ha as <-; apply val3_values.
Qed.

Lemma tree3_backend_sound :
  bc_backend_sound (B := ShapeBackend.backend) [Examples.tree3] (λ _, Witness.val3).
Proof.
  apply shape_bc_backend_sound.
  intros t p l r sig [Heq|Heq]%(tree3_instances _ _ eq_refl) (tree & Htree & Hsig);
    injection Heq as -> -> -> ->; injection Htree as <-.
  - rewrite (proj1 tree3_signatures) in Hsig. injection Hsig as <-.
    exists (py "...ab,...bc->...ac"). cbn [fst snd].
    destruct val3_values as (-> & -> & _ & -> & _).
    split_and!; [by vm_compute|done..|apply einsum_matmul_ellipsis].
  - rewrite (proj2 tree3_signatures) in Hsig. injection Hsig as <-.
    exists (py "...ac,...cd->...ad"). cbn [fst snd].
    destruct val3_values as (_ & _ & -> & -> & ->).
    split_and!; [by vm_compute|done..|apply einsum_chain_ellipsis].
Qed.

Lemma contractions3_instances (inst : Instance) :
  inst ∈ all_instances (tn_forest (B := ShapeBackend.backend)
                          [Examples.contractions3] [Examples.arrays3]) →
  inst = (0, Examples.node01, leaf 0, leaf 1)
  ∨ inst = (0, Examples.root3, Examples.node01, leaf 2).
Proof. by apply tree3_instances. Qed.

Lemma contractions3_equations (t : nat) (p : TreeNode) (contractions : list Batch.Contraction)
    (eq : str) :
  [Examples.contractions3] !! t = Some contractions →
  dget p (Batch.eq_map (Batch.build_maps contractions)) = Some eq →
  (p = Examples.node01 → eq = Examples.matmul)
  ∧ (p = Examples.root3 → eq = Examples.chain).
Proof.
  destruct t as [|t]; [|done]. intros [= <-] Heq.
  split; intros ->; vm_compute in Heq; by injection Heq as <-.
Qed.

Lemma contractions3_well_formed :
  tn_well_formed (B := ShapeBackend.backend)
    [Examples.contractions3] [Examples.arrays3].
Proof.
  split; [done|].
  intros [|t] n ch Hlook; [|done].
  injection Hlook as <- <-. exists Witness.bt3. apply tree3_is_tree.
Qed.

Lemma contractions3_shapes_sound :
  tn_shapes_sound (B := ShapeBackend.backend)
    [Examples.contractions3] [Examples.arrays3] (λ _, Witness.val3).
Proof.
  intros t p l r eq sl sr [Heq|Heq]%contractions3_instances
    (cs & Hcs & Hget & -> & ->);
    injection Heq as -> -> -> ->;
    destruct (contractions3_equations _ _ _ _ Hcs Hget) as [Hm Hc].
  - rewrite (Hm eq_refl). by vm_compute.
  - rewrite (Hc eq_refl). by vm_compute.
Qed.

Lemma contractions3_backend_sound :
  tn_backend_sound (B := ShapeBackend.backend)
    [Examples.contractions3] [Examples.arrays3] (λ _, Witness.val3).
Proof.
  apply shape_tn_backend_sound.
  intros t p l r [[eq sl] sr] [Heq|Heq]%contractions3_instances
    (cs & Hcs & Hget & -> & ->);
    injection Heq as -> -> -> ->;
    destruct (contractions3_equations _ _ _ _ Hcs Hget) as [Hm Hc].
  - rewrite (Hm eq_refl). exists (py "dab,dbc->dac"). cbn [fst snd tshape ShapeBackend.backend].
    destruct val3_values as (-> & -> & _ & -> & _).
    split; [by vm_compute|apply einsum_matmul_fresh].
  - rewrite (Hc eq_refl). exists (py "eac,ecd->ead"). cbn [fst snd tshape ShapeBackend.backend].
    destruct val3_values as (_ & _ & -> & -> & ->).
    split; [by vm_compute|apply einsum_chain_fresh].
Qed.

(** The chain of three leaves in both files: two iterations, two promoted
    instances, the dictionaries going from the three leaves to the root. *)
Lemma scheduler_terminates_and_counts_witness :
  (∃ st0 st,
     BatchContract.init (B := ShapeBackend.backend)
       [Examples.tree3] [Examples.arrays3] = Ok st0
     ∧ BatchContract.run (B := ShapeBackend.backend) 2
         [Examples.tree3] [Examples.arrays3] = Some (Ok st)
     ∧ any_values (BatchContract.ready st) = false
     ∧ (∀ t tree array,
          [Examples.tree3] !! t = Some tree →
          [Examples.arrays3] !! t = Some array →
          BatchContract.tree_active_nodes st0 !! t
          = Some (bc_leaf_nodes (B := ShapeBackend.backend) tree array))
     ∧ BatchContract.promoted st0 = []
     ∧ BatchContract.tree_active_nodes st
       = replay_log (λ _, Witness.val3) (BatchContract.promoted st)
                    (BatchContract.tree_active_nodes st0)
     ∧ (∀ t tree bt,
          [Examples.tree3] !! t = Some tree →
          is_tree (BatchContract.N tree) (BatchContract.children tree) bt →
          BatchContract.tree_active_nodes st !! t
          = Some [(root_id bt, Witness.val3 (root_id bt))])
     ∧ NoDup (BatchContract.promoted st)
     ∧ (∀ t p l r,
          (t, p, l, r) ∈ BatchContract.promoted st
          ↔ ∃ tree, [Examples.tree3] !! t = Some tree
                    ∧ dget p (BatchContract.children tree) = Some (l, r))
     ∧ length (BatchContract.promoted st) = 2)
  ∧ (∃ st0 st,
       Batch.init [Examples.contractions3] [Examples.arrays3] = Ok st0
       ∧ Batch.schedule 2 [Examples.contractions3] [Examples.arrays3]
         = Some (Ok st)
       ∧ Batch.contractible st = []
       ∧ Batch.node2shape_batch st0
         = map Batch.leaf_dict [Examples.arrays3]
       ∧ Batch.batched_contractions st0 = []
       ∧ Batch.node2shape_batch st
         = replay_log (λ _, Witness.val3)
                      (concat (Batch.batched_contractions st).*2)
                      (Batch.node2shape_batch st0)
       ∧ (∀ t cs (arrays : list ArrayShape) bt,
            [Examples.contractions3] !! t = Some cs →
            [Examples.arrays3] !! t = Some arrays →
            is_tree (length arrays) (tn_binary cs) bt →
            Batch.node2shape_batch st !! t
            = Some [(root_id bt, Witness.val3 (root_id bt))])
       ∧ NoDup (concat (Batch.batched_contractions st).*2)
       ∧ (∀ t p l r,
            (t, p, l, r) ∈ concat (Batch.batched_contractions st).*2
            ↔ ∃ cs, [Examples.contractions3] !! t = Some cs
                    ∧ dget p (Batch.children_map (Batch.build_maps cs))
                      = Some (l, r))
       ∧ length (concat (Batch.batched_contractions st).*2) = 2).
Proof.
  split.
  - apply (proj1 (scheduler_terminates_and_counts ShapeBackend.backend)
             [Examples.tree3] [Examples.arrays3] (λ _, Witness.val3)
             tree3_well_formed tree3_leaf_values tree3_backend_sound 2).
    simpl. lia.
  - apply (proj2 (scheduler_terminates_and_counts ShapeBackend.backend)
             [Examples.contractions3] [Examples.arrays3] (λ _, Witness.val3)
             contractions3_well_formed tree3_leaf_values
             contractions3_shapes_sound 2).
    simpl. lia.
Defined.

Lemma tree2_signature :
  BatchContract.extract_signature Examples.tree2 Examples.root2
  = Ok (Examples.matmul, [2; 3]%Z, [3; 4]%Z).
Proof. by vm_compute. Qed.

Lemma val2_values :
  Witness.val2 (leaf 0) = [2; 3]%Z ∧ Witness.val2 (leaf 1) = [3; 4]%Z
  ∧ Witness.val2 Examples.root2 = [2; 4]%Z.
Proof. split_and!; by vm_compute. Qed.

Lemma tree2_instance (F : Forest) (inst : Instance) :
  F = [(2, BatchContract.children Examples.tree2)] →
  inst ∈ all_instances F → inst = (0, Examples.root2, leaf 0, leaf 1).
Proof.
  intros -> Hin. cbn in Hin. rewrite !elem_of_cons, elem_of_nil in Hin. tauto.
Qed.

Lemma tree2_instances (F : Forest) (inst : Instance) :
  F = replicate 3 (2, BatchContract.children Examples.tree2) →
  inst ∈ all_instances F → ∃ t, inst = (t, Examples.root2, leaf 0, leaf 1).
Proof.
  intros -> Hin. cbn in Hin. rewrite !elem_of_cons, elem_of_nil in Hin.
  destruct Hin as [->|[->|[->|[]]]]; by eexists.
Qed.

Lemma tree2_well_formed :
  bc_well_formed (B := ShapeBackend.backend) [Examples.tree2] [Examples.arrays2].
Proof.
  split_and!.
  - done.
  - intros [|t] n ch Hlook; [|done].
    injection Hlook as <- <-. exists Witness.bt2. apply tree2_is_tree.
  - intros [|t] tree array Htree Harray; [|done].
    by injection Htree as <-; injection Harray as <-.
  - intros inst ->%(tree2_instance _ _ eq_refl).
    eexists. exists Examples.tree2. split; [done|]. apply tree2_signature.
Qed.

Lemma tree2_leaf_values :
  leaf_values (B := ShapeBackend.backend) [Examples.arrays2] (λ _, Witness.val2).
Proof.
  intros [|t] array i a Harray Ha; [|done]. injection Harray as <-.
  destruct i as [|[|i]]; [..|done]; injection Ha as <-; apply val2_values.
Qed.

Lemma tree2_backend_sound :
  bc_backend_sound (B := ShapeBackend.backend)
    (replicate 3 Examples.tree2) (λ _, Witness.val2).
Proof.
  apply shape_bc_backend_sound.
  intros t p l r sig (t' & Heq)%(tree2_instances _ _ eq_refl) (tree & Htree & Hsig).
  injection Heq as -> -> -> ->.
  apply lookup_replicate in Htree as [-> _].
  rewrite tree2_signature in Hsig. injection Hsig as <-.
  exists (py "...ab,...bc->...ac"). cbn [fst snd].
  destruct val2_values as (-> & -> & ->).
  split_and!; [by vm_compute|done..|apply einsum_matmul_ellipsis].
Qed.

Lemma contractions2_equation (n t : nat) (contractions : list Batch.Contraction)
    (eq : str) :
  replicate n Examples.contractions2 !! t = Some contractions →
  dget Examples.root2 (Batch.eq_map (Batch.build_maps contractions)) = Some eq →
  eq = Examples.matmul.
Proof.
  intros [-> _]%lookup_replicate Heq. vm_compute in Heq. by injection Heq as <-.
Qed.

Lemma contractions2_well_formed :
  tn_well_formed (B := ShapeBackend.backend)
    [Examples.contractions2] [Examples.arrays2].
Proof.
  split; [done|].
  intros [|t] n ch Hlook; [|done].
  injection Hlook as <- <-. exists Witness.bt2. apply tree2_is_tree.
Qed.

Lemma contractions2_shapes_sound :
  tn_shapes_sound (B := ShapeBackend.backend)
    [Examples.contractions2] [Examples.arrays2] (λ _, Witness.val2).
Proof.
  intros t p l r eq sl sr Heq%(tree2_instance _ _ eq_refl)
    (cs & Hcs & Hget & -> & ->).
  injection Heq as -> -> -> ->.
  rewrite (contractions2_equation 1 _ _ _ Hcs Hget). by vm_compute.
Qed.

Lemma contractions2_backend_sound :
  tn_backend_sound (B := ShapeBackend.backend)
    (replicate 3 Examples.contractions2) (replicate 3 Examples.arrays2)
    (λ _, Witness.val2).
Proof.
  apply shape_tn_backend_sound.
  intros t p l r [[eq sl] sr] (t' & Heq)%(tree2_instances _ _ eq_refl)
    (cs & Hcs & Hget & -> & ->).
  injection Heq as -> -> -> ->.
  rewrite (contractions2_equation 3 _ _ _ Hcs Hget).
  exists (py "dab,dbc->dac"). cbn [fst snd tshape ShapeBackend.backend].
  destruct val2_values as (-> & -> & ->).
  split; [by vm_compute|apply einsum_matmul_fresh].
Qed.

(** The test of the repository with three copies instead of ten: the
    product of a [(2, 3)] and a [(3, 4)] matrix, alone and three times. *)
Lemma batch_invariance_witness :
  (∃ x, ∀ fuel, 3 ≤ fuel →
     BatchContract.batch_contract (B := ShapeBackend.backend) fuel
       [Examples.tree2] [Examples.arrays2] = Some (Ok [x])
     ∧ BatchContract.batch_contract (B := ShapeBackend.backend) fuel
         (replicate 3 Examples.tree2) (replicate 3 Examples.arrays2)
       = Some (Ok (replicate 3 x)))
  ∧ (∃ x, ∀ fuel, 3 ≤ fuel →
       Batch.batch_contract (B := ShapeBackend.backend) fuel
         [Examples.contractions2] [Examples.arrays2] = Some (Ok [x])
       ∧ Batch.batch_contract (B := ShapeBackend.backend) fuel
           (replicate 3 Examples.contractions2) (replicate 3 Examples.arrays2)
         = Some (Ok (replicate 3 x))
       ∧ Batch.batch_einsum (B := ShapeBackend.backend)
           (λ _ _, Examples.contractions2) fuel
           (replicate 3 Examples.matmul) (replicate 3 Examples.arrays2)
         = Some (Ok (replicate 3 x))).
Proof.
  split.
  - apply (proj1 (batch_invariance ShapeBackend.backend)
             Examples.tree2 Examples.arrays2 Witness.val2 3);
      [lia | apply tree2_well_formed | apply tree2_leaf_values
       | apply tree2_backend_sound].
  - apply (proj2 (batch_invariance ShapeBackend.backend)
             (λ _ _, Examples.contractions2) Examples.matmul
             Examples.arrays2 Witness.val2 3);
      [lia | apply contractions2_well_formed | apply tree2_leaf_values
       | apply contractions2_shapes_sound | apply contractions2_backend_sound].
Defined.

(** * Initialisation *)

(** C7.  Initialisation.  When the set-up loop of [batch_contract] of
    [batch_contract.py] (lines 100-117) ends without an exception, the
    active-node dictionary of every tree holds exactly its leaves, leaf [i]
    with [arrays[tree_idx][i]]; nothing has been promoted; every list of the
    table holds instances whose signature is the key of the list; and the
    instances in the table are, each once, the entries of the [children]
    dictionaries whose two children are both in the dictionary of the tree.
    On a well-formed input the set-up ends without an exception.  The set-up
    of [get_batched_contractions] of [batch_tn/batch.py] (lines 67-97)
    never raises and registers the same instances, the dictionaries holding
    the shapes of the leaves; [batch_contract] of that file seeds its
    dictionaries with the arrays of the leaves. *)
Theorem initialization_registers_ready (B : Backend) :
  (∀ (trees : list BatchContract.ContractionTree) arrays st,
     BatchContract.init trees arrays = Ok st →
     (∀ t tree, trees !! t = Some tree →
        ∃ array nodes,
          arrays !! t = Some array
          ∧ BatchContract.tree_active_nodes st !! t = Some nodes
          ∧ ∀ x a, dget x nodes = Some a
                   ↔ ∃ i, i < BatchContract.N tree ∧ x = leaf i
                          ∧ array !! i = Some a)
     ∧ BatchContract.promoted st = []
     ∧ grouped (bc_sig_of trees) (BatchContract.ready st)
     ∧ concat (BatchContract.ready st).*2 ≡ₚ bc_initial_ready trees arrays
     ∧ (∀ t p l r,
          (t, p, l, r) ∈ concat (BatchContract.ready st).*2
          ↔ ∃ tree nodes,
              trees !! t = Some tree
              ∧ BatchContract.tree_active_nodes st !! t = Some nodes
              ∧ (p, (l, r)) ∈ BatchContract.children tree
              ∧ dmem l nodes = true ∧ dmem r nodes = true))
  ∧ (∀ (trees : list BatchContract.ContractionTree) arrays,
       bc_well_formed trees arrays →
       ∃ st, BatchContract.init trees arrays = Ok st)
  ∧ (∀ (cb : list (list Batch.Contraction)) (ab : list (list Tensor)),
       ∃ st,
         Batch.init cb (map (map tshape) ab) = Ok st
         ∧ Batch.node2shape_batch st
           = map Batch.leaf_dict (map (map tshape) ab)
         ∧ Batch.batched_contractions st = []
         ∧ grouped (tn_initial_key cb (map (map tshape) ab))
                   (Batch.contractible st)
         ∧ concat (Batch.contractible st).*2
           ≡ₚ tn_initial_ready cb (map (map tshape) ab)
         ∧ (∀ t p l r,
              (t, p, l, r) ∈ concat (Batch.contractible st).*2
              ↔ ∃ cs nodes eq,
                  cb !! t = Some cs
                  ∧ Batch.node2shape_batch st !! t = Some nodes
                  ∧ (p, Some l, Some r, eq) ∈ cs
                  ∧ dmem l nodes = true ∧ dmem r nodes = true))
  ∧ (∀ (arrays : list Tensor) x a,
       dget x (Batch.leaf_dict arrays) = Some a
       ↔ ∃ i, x = leaf i ∧ arrays !! i = Some a).
Proof.
  split_and!.
  - intros trees arrays st Hinit.
    destruct (bc_init_spec _ _ _ Hinit) as (Hprom & Hlen & Hact & _ & Hgr & Hperm).
    split_and!; [|done..|].
    + intros t tree Ht. destruct (Hact t tree Ht) as (array & Ha & Hn).
      exists array, (bc_leaf_nodes tree array). split_and!; [done..|].
      intros x a. apply zip_dget_leaf.
    + intros t p l r. rewrite Hperm. unfold bc_initial_ready.
      rewrite elem_of_flat_map_enumerate. split.
      * intros (i & tree & Ht & Hin).
        apply elem_of_ready_entries in Hin as (p' & l' & r' & Heq & Hin & Hl & Hr).
        injection Heq as -> -> -> ->.
        destruct (Hact _ _ Ht) as (array & Ha & Hn). rewrite Ha in Hl, Hr.
        by exists tree, (bc_leaf_nodes tree array).
      * intros (tree & nodes & Ht & Hn & Hin & Hl & Hr).
        exists t, tree. split; [done|].
        destruct (Hact _ _ Ht) as (array & Ha & Hn'). rewrite Ha.
        rewrite Hn in Hn'. injection Hn' as ->.
        apply elem_of_ready_entries. by exists p, l, r.
  - intros trees arrays Hwf. by apply bc_init_success.
  - intros cb ab.
    destruct (tn_init_spec cb (map (map tshape) ab))
      as (st & Hinit & Hnodes & Hb & _ & Hgr & Hperm).
    exists st. split_and!; [done..|].
    intros t p l r. rewrite Hperm, Hnodes. unfold tn_initial_ready.
    rewrite elem_of_flat_map_enumerate. split.
    + intros (i & [cs shapes] & Ht & Hin).
      apply elem_of_tn_ready_entries in Hin
        as (p' & l' & r' & eq & Heq & Hin & Hl & Hr).
      injection Heq as -> -> -> ->.
      apply lookup_zip_with_Some in Ht as (cs' & shapes' & [= <- <-] & Hcs & Hsh).
      exists cs, (Batch.leaf_dict shapes), eq.
      rewrite list_lookup_fmap, Hsh. by split_and!.
    + intros (cs & nodes & eq & Hcs & Hn & Hin & Hl & Hr).
      rewrite list_lookup_fmap in Hn.
      destruct (map (map tshape) ab !! t) as [shapes|] eqn:Hsh; [|done].
      injection Hn as <-.
      exists t, (cs, shapes). split.
      * apply lookup_zip_with_Some. by exists cs, shapes.
      * apply elem_of_tn_ready_entries. by exists p, l, r, eq.
  - intros arrays x a. apply leaf_dict_dget.
Qed.

(** The chain of three leaves: the set-up of the first file gives [state3]
    and that of the second file [sched3]. *)
Lemma initialization_registers_ready_witness :
  BatchContract.init (B := ShapeBackend.backend)
    [Examples.tree3] [Examples.arrays3] = Ok Examples.state3
  ∧ concat (BatchContract.ready Examples.state3).*2
    ≡ₚ bc_initial_ready (B := ShapeBackend.backend)
         [Examples.tree3] [Examples.arrays3]
  ∧ ∃ st, BatchContract.init (B := ShapeBackend.backend)
            [Examples.tree3] [Examples.arrays3] = Ok st.
Proof.
  assert (Hinit : BatchContract.init (B := ShapeBackend.backend)
                    [Examples.tree3] [Examples.arrays3] = Ok Examples.state3)
    by (by vm_compute).
  split; [exact Hinit|]. split.
  - apply (proj1 (initialization_registers_ready ShapeBackend.backend)
             [Examples.tree3] [Examples.arrays3] Examples.state3 Hinit).
  - apply (proj1 (proj2 (initialization_registers_ready ShapeBackend.backend))
             [Examples.tree3] [Examples.arrays3]).
    apply tree3_well_formed.
Defined.

(** * The executor and the dictionaries *)

Lemma node_at_insert_frame {V} (dicts : list (dict TreeNode V)) t nodes nodes' t' x :
  dicts !! t = Some nodes →
  (t' = t → dget x nodes' = dget x nodes) →
  node_at (<[t := nodes']> dicts) t' x = node_at dicts t' x.
Proof.
  intros Hn Hx. unfold node_at. destruct (decide (t' = t)) as [->|Hne].
  - rewrite list_lookup_insert_eq by by eapply lookup_lt_Some.
    rewrite Hn. simpl. by apply Hx.
  - by rewrite list_lookup_insert_ne.
Qed.

Lemma node_at_insert_eq {V} (dicts : list (dict TreeNode V)) t nodes nodes' x :
  dicts !! t = Some nodes →
  node_at (<[t := nodes']> dicts) t x = dget x nodes'.
Proof.
  intros Hn. unfold node_at.
  by rewrite list_lookup_insert_eq by by eapply lookup_lt_Some.
Qed.

Lemma NoDup_keys_insert {V} (dicts : list (dict TreeNode V)) t nodes' :
  Forall (λ d, NoDup d.*1) dicts → NoDup nodes'.*1 →
  Forall (λ d, NoDup d.*1) (<[t := nodes']> dicts).
Proof. intros Hall Hnd. by apply Forall_insert. Qed.

Section ExecutorB.
Context {B : Backend}.
Import Batch.

Lemma tn_take_inv t p l r al ar arrs al' ar' arrs' :
  take_operands (t, p, l, r) (al, ar, arrs) = Ok (al', ar', arrs') →
  ∃ nodes a b,
    arrs !! t = Some nodes ∧ dget l nodes = Some a
    ∧ dget r (ddel l nodes) = Some b
    ∧ al' = al ++ [a] ∧ ar' = ar ++ [b]
    ∧ arrs' = <[t := ddel r (ddel l nodes)]> arrs.
Proof.
  unfold take_operands. intros Ht.
  apply bind_Ok in Ht as (nodes & Hn%lindex_Ok & Ht).
  apply bind_Ok in Ht as ([a nodes1] & [Hl ->]%dpop_Ok & Ht).
  apply bind_Ok in Ht as (nodes2 & Hn2%lindex_Ok & Ht).
  rewrite list_lookup_insert_eq in Hn2 by by eapply lookup_lt_Some.
  injection Hn2 as <-.
  apply bind_Ok in Ht as ([b nodes3] & [Hr ->]%dpop_Ok & Ht).
  injection Ht as <- <- <-.
  exists nodes, a, b. split_and!; [done..|].
  by rewrite list_insert_insert_eq.
Qed.

Lemma tn_take_frame targets al ar arrs al' ar' arrs' :
  for_each take_operands targets (al, ar, arrs) = Ok (al', ar', arrs') →
  length arrs' = length arrs
  ∧ (∀ t x, (∀ p l r, (t, p, l, r) ∈ targets → x ≠ l ∧ x ≠ r) →
            node_at arrs' t x = node_at arrs t x)
  ∧ (∀ t x, node_at arrs t x = None → node_at arrs' t x = None)
  ∧ (Forall (λ d, NoDup d.*1) arrs →
     Forall (λ d, NoDup d.*1) arrs'
     ∧ ∀ t p l r, (t, p, l, r) ∈ targets →
                  node_at arrs' t l = None ∧ node_at arrs' t r = None).
Proof.
  revert al ar arrs.
  induction targets as [|[[[t p] l] r] targets IH]; intros al ar arrs Hloop.
  - injection Hloop as <- <- <-. split_and!; [done..|].
    intros Hnd. split; [done|]. by intros t p l r ?%elem_of_nil.
  - rewrite for_each_cons in Hloop.
    apply bind_Ok in Hloop as ([[al1 ar1] arrs1] & Htake & Hloop).
    apply tn_take_inv in Htake as (nodes & a & b & Hn & Hl & Hr & -> & -> & ->).
    destruct (IH _ _ _ Hloop) as (Hlen & Hframe & Hnone & Hpop).
    assert (Hstep_none : ∀ t' x, node_at arrs t' x = None →
              node_at (<[t := ddel r (ddel l nodes)]> arrs) t' x = None).
    { intros t' x Hx. unfold node_at in *.
      destruct (decide (t' = t)) as [->|Hne]; [|by rewrite list_lookup_insert_ne].
      rewrite list_lookup_insert_eq by by eapply lookup_lt_Some.
      rewrite Hn in Hx. simpl in *.
      apply dget_None. intros Hin. apply dget_None in Hx. apply Hx.
      by apply (ddel_keys_subseteq l), (ddel_keys_subseteq r). }
    split_and!.
    + by rewrite Hlen, length_insert.
    + intros t' x Hx. rewrite Hframe.
      * apply (node_at_insert_frame _ _ nodes); [done|]. intros ->.
        destruct (Hx p l r) as [Hxl Hxr]; [apply elem_of_cons; by left|].
        by rewrite !dget_ddel_ne.
      * intros p' l' r' Hin. apply (Hx p' l' r'). apply elem_of_cons. by right.
    + intros t' x Hx. by apply Hnone, Hstep_none.
    + intros Hnd.
      assert (Hnd_nodes : NoDup nodes.*1).
      { by apply (proj1 (Forall_lookup _ _) Hnd t). }
      destruct Hpop as [Hnd' Hpop].
      { apply NoDup_keys_insert; [done|]. by apply NoDup_ddel, NoDup_ddel. }
      split; [done|].
      intros t' p' l' r' [[= -> -> -> ->]|Hin]%elem_of_cons; [|by eapply Hpop].
      split; apply Hnone; rewrite (node_at_insert_eq _ _ nodes) by done.
      * apply dget_None. intros Hin%(ddel_keys_subseteq r).
        apply dget_is_Some in Hin. rewrite dget_ddel_eq in Hin by done.
        by destruct Hin.
      * apply dget_ddel_eq. by apply NoDup_ddel.
Qed.

Lemma tn_store_inv res i t p l r arrs arrs' :
  store_result res (i, (t, p, l, r)) arrs = Ok arrs' →
  ∃ slice nodes,
    rows res !! i = Some slice ∧ arrs !! t = Some nodes
    ∧ arrs' = <[t := dset p slice nodes]> arrs.
Proof.
  unfold store_result. intros Hs.
  apply bind_Ok in Hs as (slice & Hi%lindex_Ok & Hs).
  apply bind_Ok in Hs as (nodes & Hn%lindex_Ok & Hs).
  injection Hs as <-. by exists slice, nodes.
Qed.

Lemma tn_store_frame res (its : list (nat * Instance)) arrs arrs' :
  for_each (store_result res) its arrs = Ok arrs' →
  length arrs' = length arrs
  ∧ ∀ t x, (∀ i p l r, (i, (t, p, l, r)) ∈ its → x ≠ p) →
           node_at arrs' t x = node_at arrs t x.
Proof.
  revert arrs. induction its as [|[i [[[t p] l] r]] its IH]; intros arrs Hloop.
  - by injection Hloop as <-.
  - rewrite for_each_cons in Hloop.
    apply bind_Ok in Hloop as (arrs1 & Hstore & Hloop).
    apply tn_store_inv in Hstore as (slice & nodes & Hi & Hn & ->).
    destruct (IH _ Hloop) as (Hlen & Hframe). split.
    + by rewrite Hlen, length_insert.
    + intros t' x Hx. rewrite Hframe.
      * apply (node_at_insert_frame _ _ nodes); [done|]. intros ->.
        rewrite dget_dset, decide_False; [done|].
        apply (Hx i p l r). apply elem_of_cons. by left.
      * intros i' p' l' r' Hin. apply (Hx i' p' l' r'). apply elem_of_cons. by right.
Qed.

(** [_batched_einsum] pops the operands of its targets and assigns the
    parents; every other entry of every dictionary is as before. *)
Lemma tn_batched_einsum_frame eq targets arrs arrs' :
  _batched_einsum eq targets arrs = Ok arrs' →
  length arrs' = length arrs
  ∧ (∀ t x, (∀ p l r, (t, p, l, r) ∈ targets → x ≠ p ∧ x ≠ l ∧ x ≠ r) →
            node_at arrs' t x = node_at arrs t x)
  ∧ (Forall (λ d, NoDup d.*1) arrs →
     ∀ t p l r x, (t, p, l, r) ∈ targets → x = l ∨ x = r →
       (∀ p' l' r', (t, p', l', r') ∈ targets → x ≠ p') →
       node_at arrs' t x = None).
Proof.
  unfold _batched_einsum. intros Hb.
  apply bind_Ok in Hb as (beq & _ & Hb).
  apply bind_Ok in Hb as ([[al ar] arrs1] & Htake & Hb).
  apply bind_Ok in Hb as (sl & _ & Hb).
  apply bind_Ok in Hb as (sr & _ & Hb).
  apply bind_Ok in Hb as (res & _ & Hstore).
  apply tn_take_frame in Htake as (Hlen1 & Hframe1 & _ & Hpop).
  apply tn_store_frame in Hstore as (Hlen2 & Hframe2).
  assert (Hin_enum : ∀ i inst, (i, inst) ∈ enumerate targets → inst ∈ targets).
  { intros i inst Hin%enumerate_lookup. by eapply list_elem_of_lookup_2. }
  split_and!.
  - congruence.
  - intros t x Hx. rewrite Hframe2, Hframe1; [done| |].
    + intros p l r Hin. destruct (Hx p l r Hin) as (_ & ? & ?). done.
    + intros i p l r Hin%Hin_enum. by destruct (Hx p l r Hin) as (? & _).
  - intros Hnd t p l r x Hin Hx Hfresh.
    destruct (Hpop Hnd) as [_ Hnone]. destruct (Hnone t p l r Hin) as [Hl Hr].
    rewrite Hframe2.
    + by destruct Hx as [-> | ->].
    + intros i p' l' r' Hin'%Hin_enum. by eapply Hfresh.
Qed.

End ExecutorB.




(** * The end of [batch_contract] *)

Lemma traverse_first_value_nonempty {V} (dicts : list (dict TreeNode V)) :
  Forall (λ d, d ≠ []) dicts →
  ∃ outs, traverse first_value dicts = Ok outs
          ∧ Forall2 (λ d out, ∃ x rest, d = (x, out) :: rest) dicts outs.
Proof.
  induction 1 as [|d dicts Hd Hall (outs & Htr & Hout)].
  - exists []. by split; [|constructor].
  - destruct d as [|[x v] rest]; [done|].
    exists (v :: outs). simpl. rewrite Htr. simpl. split; [done|].
    constructor; [by exists x, rest | done].
Qed.

Lemma forallb_single {V} (dicts : list (dict TreeNode V)) :
  forallb (λ nodes, bool_decide (length nodes = 1)) dicts = true
  ↔ Forall (λ nodes, length nodes = 1) dicts.
Proof.
  rewrite forallb_forall, Forall_forall. split.
  - intros Hall nodes Hin%list_elem_of_In.
    specialize (Hall _ Hin). by apply bool_decide_eq_true in Hall.
  - intros Hall nodes Hin%list_elem_of_In.
    apply bool_decide_eq_true. by apply Hall.
Qed.

(** The end of both functions.  [batch_contract] of [batch_contract.py] ends
    with a check: when every active-node dictionary holds exactly one entry
    it returns the tensors of these entries in the order of the trees, and
    otherwise it raises [AssertionError].  On a well-formed forest, with a
    backend that keeps its contract, the loop ends with an empty table and
    the dictionary of every tree holding its root alone, and the call
    returns the tensor of the root of every tree.  [batch_contract] of
    [batch_tn/batch.py] makes no such check: it returns the first value of
    every final dictionary, however many entries the dictionary holds as
    long as it holds one; on a well-formed input that value is the tensor
    of the root. *)
Theorem final_check_and_outputs (B : Backend) :
  (∀ st : BatchContract.State,
     (Forall (λ nodes, length nodes = 1) (BatchContract.tree_active_nodes st) →
      ∃ outs, BatchContract.finish st = Ok outs
              ∧ Forall2 (λ nodes out, ∃ x, nodes = [(x, out)])
                        (BatchContract.tree_active_nodes st) outs)
     ∧ (¬ Forall (λ nodes, length nodes = 1)
                 (BatchContract.tree_active_nodes st) →
        BatchContract.finish st = Raise AssertionError))
  ∧ (∀ (trees : list BatchContract.ContractionTree) arrays val,
       bc_well_formed trees arrays → leaf_values arrays val →
       bc_backend_sound trees val →
       ∀ fuel,
         sum_list (map (λ tree, BatchContract.N tree - 1) trees) ≤ fuel →
         ∃ st outs,
           BatchContract.run fuel trees arrays = Some (Ok st)
           ∧ any_values (BatchContract.ready st) = false
           ∧ BatchContract.batch_contract fuel trees arrays = Some (Ok outs)
           ∧ length outs = length trees
           ∧ ∀ t tree bt,
               trees !! t = Some tree →
               is_tree (BatchContract.N tree) (BatchContract.children tree) bt →
               BatchContract.tree_active_nodes st !! t
               = Some [(root_id bt, val t (root_id bt))]
               ∧ outs !! t = Some (val t (root_id bt)))
  ∧ (∀ (batched : list (str * list Instance)) (ab : list (list Tensor)) dicts,
       for_each (λ '(eq, targets), Batch._batched_einsum eq targets)
                batched (map Batch.leaf_dict ab) = Ok dicts →
       Forall (λ d, d ≠ []) dicts →
       ∃ outs, Batch.replay batched ab = Ok outs
               ∧ Forall2 (λ d out, ∃ x rest, d = (x, out) :: rest) dicts outs)
  ∧ (∀ (cb : list (list Batch.Contraction)) ab val,
       tn_well_formed cb ab → leaf_values ab val →
       tn_shapes_sound cb ab val → tn_backend_sound cb ab val →
       ∀ fuel,
         sum_list (map (λ arrays, length arrays - 1) ab) ≤ fuel →
         ∃ outs,
           Batch.batch_contract fuel cb ab = Some (Ok outs)
           ∧ length outs = length ab
           ∧ ∀ t cs arrays bt,
               cb !! t = Some cs → ab !! t = Some arrays →
               is_tree (length arrays) (tn_binary cs) bt →
               outs !! t = Some (val t (root_id bt))).
Proof.
  split_and!.
  - intros st. unfold BatchContract.finish. split.
    + intros Hall. rewrite (proj2 (forallb_single _) Hall).
      destruct (traverse_first_value_nonempty (BatchContract.tree_active_nodes st))
        as (outs & Htr & Hout).
      { eapply Forall_impl; [exact Hall|]. by intros [|] ?. }
      exists outs. split; [done|].
      clear Htr. revert Hall. induction Hout as [|d out ds outs (x & rest & ->) Hrest IH];
        intros Hall; [constructor|].
      apply Forall_cons in Hall as [Hd Hall]. constructor; [|by apply IH].
      destruct rest; [by exists x | done].
    + intros Hnot.
      destruct (forallb _ _) eqn:Hb; [|done].
      by apply forallb_single in Hb.
  - intros trees arrays val Hwf Hleaves Hsound fuel Hfuel.
    rewrite <-(bc_instances_total trees arrays Hwf) in Hfuel.
    destruct (bc_run_ok trees arrays val Hwf Hsound Hleaves fuel Hfuel)
      as (st & Hrun & Hany & _ & _ & Hroot).
    destruct (bc_batch_contract_ok trees arrays val Hwf Hsound Hleaves fuel Hfuel)
      as (outs & Hbc & Hlen & Hout).
    exists st, outs. split_and!; [done..|].
    intros t tree bt Ht Htree. split; [by apply (Hroot t tree bt) | by apply (Hout t tree bt)].
  - intros batched ab dicts Hloop Hne. unfold Batch.replay.
    rewrite Hloop. simpl. by apply traverse_first_value_nonempty.
  - intros cb ab val Hwf Hleaves Hshapes Hsound fuel Hfuel.
    rewrite <-(tn_instances_total cb ab Hwf) in Hfuel.
    destruct (tn_batch_contract_ok cb ab val Hwf Hshapes Hsound Hleaves fuel Hfuel)
      as (outs & Hbc & Hlen & Hout).
    exists outs. split_and!; [done..|].
    intros t cs arrays bt Hcs Harr Htree.
    apply (Hout t (length arrays) (tn_binary cs)); [|done].
    apply tn_forest_lookup. by exists cs, arrays.
Qed.

Lemma final_check_and_outputs_witness :
  (∃ outs,
     BatchContract.finish (B := ShapeBackend.backend)
       (@BatchContract.Build_State ShapeBackend.backend
          [] [[(Examples.root2, [2; 4]%Z)]] []) = Ok outs
     ∧ Forall2 (λ nodes out, ∃ x, nodes = [(x, out)])
               [[(Examples.root2, [2; 4]%Z)]] outs)
  ∧ BatchContract.finish (B := ShapeBackend.backend) Examples.state3
    = Raise AssertionError
  ∧ (∃ st outs,
       BatchContract.run (B := ShapeBackend.backend) 2
         [Examples.tree3] [Examples.arrays3] = Some (Ok st)
       ∧ any_values (BatchContract.ready st) = false
       ∧ BatchContract.batch_contract (B := ShapeBackend.backend) 2
           [Examples.tree3] [Examples.arrays3] = Some (Ok outs)
       ∧ length outs = 1
       ∧ ∀ t tree bt,
           [Examples.tree3] !! t = Some tree →
           is_tree (BatchContract.N tree) (BatchContract.children tree) bt →
           BatchContract.tree_active_nodes st !! t
           = Some [(root_id bt, Witness.val3 (root_id bt))]
           ∧ outs !! t = Some (Witness.val3 (root_id bt)))
  ∧ (∃ outs,
       Batch.replay (B := ShapeBackend.backend) [] [Examples.arrays2] = Ok outs
       ∧ Forall2 (λ d out, ∃ x rest, d = (x, out) :: rest)
                 (map Batch.leaf_dict [Examples.arrays2]) outs)
  ∧ (∃ outs,
       Batch.batch_contract (B := ShapeBackend.backend) 2
         [Examples.contractions3] [Examples.arrays3] = Some (Ok outs)
       ∧ length outs = 1
       ∧ ∀ t cs arrays bt,
           [Examples.contractions3] !! t = Some cs →
           [Examples.arrays3] !! t = Some arrays →
           is_tree (length arrays) (tn_binary cs) bt →
           outs !! t = Some (Witness.val3 (root_id bt))).
Proof.
  split_and!.
  - apply (proj1 (proj1 (final_check_and_outputs ShapeBackend.backend)
                    (@BatchContract.Build_State ShapeBackend.backend
                       [] [[(Examples.root2, [2; 4]%Z)]] []))).
    apply Forall_singleton. reflexivity.
  - apply (proj2 (proj1 (final_check_and_outputs ShapeBackend.backend)
                    Examples.state3)).
    intros Hall. pose proof (proj1 (Forall_lookup _ _) Hall 0 _ eq_refl) as Hlen.
    by vm_compute in Hlen.
  - apply (proj1 (proj2 (final_check_and_outputs ShapeBackend.backend))
             [Examples.tree3] [Examples.arrays3] (λ _, Witness.val3)
             tree3_well_formed tree3_leaf_values tree3_backend_sound 2).
    simpl. lia.
  - apply (proj1 (proj2 (proj2 (final_check_and_outputs ShapeBackend.backend)))
             [] [Examples.arrays2] (map Batch.leaf_dict [Examples.arrays2])).
    + reflexivity.
    + apply Forall_singleton. by vm_compute.
  - apply (proj2 (proj2 (proj2 (final_check_and_outputs ShapeBackend.backend)))
             [Examples.contractions3] [Examples.arrays3] (λ _, Witness.val3)
             contractions3_well_formed tree3_leaf_values
             contractions3_shapes_sound contractions3_backend_sound 2).
    simpl. lia.
Defined.

(** C6.  The final check is missing in [batch_tn/batch.py].  On two arrays
    and an empty contraction list nothing is scheduled, the dictionary of
    the network still holds both leaves after the replay, and
    [batch_contract] returns the first array instead of failing; on three
    arrays of which only the first two are contracted the dictionary ends
    with the third leaf and the contracted pair, and [batch_contract]
    returns the third array unchanged.  [batch_contract] of
    [batch_contract.py] fails on both forests with the [AssertionError] of
    its final check. *)
Theorem missing_final_check :
  Batch.get_batched_contractions 0 [[]] [Examples.arrays2] = Some (Ok [])
  ∧ for_each (λ '(eq, targets),
                Batch._batched_einsum (B := ShapeBackend.backend) eq targets)
             [] (map Batch.leaf_dict [Examples.arrays2])
    = Ok [[(leaf 0, [2; 3]%Z); (leaf 1, [3; 4]%Z)]]
  ∧ Batch.batch_contract (B := ShapeBackend.backend) 0 [[]] [Examples.arrays2]
    = Some (Ok [[2; 3]%Z])
  ∧ BatchContract.batch_contract (B := ShapeBackend.backend) 0
      [Incomplete.tree2_no_entry] [Examples.arrays2]
    = Some (Raise AssertionError)
  ∧ Batch.get_batched_contractions 1
      [Incomplete.contractions3_no_root] [Examples.arrays3]
    = Some (Ok [(Examples.matmul, [(0, Examples.node01, leaf 0, leaf 1)])])
  ∧ for_each (λ '(eq, targets),
                Batch._batched_einsum (B := ShapeBackend.backend) eq targets)
             [(Examples.matmul, [(0, Examples.node01, leaf 0, leaf 1)])]
             (map Batch.leaf_dict [Examples.arrays3])
    = Ok [[(leaf 2, [4; 5]%Z); (Examples.node01, [2; 4]%Z)]]
  ∧ Batch.batch_contract (B := ShapeBackend.backend) 1
      [Incomplete.contractions3_no_root] [Examples.arrays3]
    = Some (Ok [[4; 5]%Z])
  ∧ BatchContract.batch_contract (B := ShapeBackend.backend) 1
      [Incomplete.tree3_no_root] [Examples.arrays3]
    = Some (Raise AssertionError).
Proof. split_and!; by vm_compute. Qed.

(** * The executor and the shapes of the signature *)

(** C9, as the code has it.  Neither executor compares a shape with the
    signature.  In [batch_contract.py] the outcome of the batched
    contraction of a group (lines 126-137) does not depend on the two shapes
    of the signature, and the contraction succeeds whenever the equation can
    be batched, the operands are found, both stacks succeed and the einsum
    succeeds.  [_batched_einsum] of [batch_tn/batch.py] is not given any
    shape: it succeeds under the same conditions provided the results can
    be stored. *)
Theorem executor_ignores_signature_shapes (B : Backend) :
  (∀ eq shape_left shape_right shape_left' shape_right' to_contract active,
     BatchContract.execute (eq, shape_left, shape_right) to_contract active
     = BatchContract.execute (eq, shape_left', shape_right') to_contract active)
  ∧ (∀ eq shape_left shape_right to_contract active
       batched_eq left_arrays right_arrays stack_left stack_right res,
       BatchContract.get_batched_einsum_equation eq = Ok batched_eq →
       traverse (λ '(tree_idx, _, left_, _),
                   nodes ← lindex tree_idx active; dindex left_ nodes)
                to_contract = Ok left_arrays →
       traverse (λ '(tree_idx, _, _, right_),
                   nodes ← lindex tree_idx active; dindex right_ nodes)
                to_contract = Ok right_arrays →
       np_stack left_arrays = Ok stack_left →
       np_stack right_arrays = Ok stack_right →
       np_einsum batched_eq stack_left stack_right = Ok res →
       BatchContract.execute (eq, shape_left, shape_right) to_contract active
       = Ok res)
  ∧ (∀ eq targets arrs batched_eq left_arrays right_arrays arrs1
       stack_left stack_right res,
       Batch.get_batched_einsum_equation eq None = Ok batched_eq →
       for_each Batch.take_operands targets ([], [], arrs)
       = Ok (left_arrays, right_arrays, arrs1) →
       np_stack left_arrays = Ok stack_left →
       np_stack right_arrays = Ok stack_right →
       np_einsum batched_eq stack_left stack_right = Ok res →
       Batch._batched_einsum eq targets arrs
       = for_each (Batch.store_result res) (enumerate targets) arrs1).
Proof.
  split_and!.
  - done.
  - intros eq sl sr group active beq ls rs L R res Hbeq Hls Hrs HL HR Hres.
    unfold BatchContract.execute.
    rewrite Hbeq. cbn [mbind result_bind]. rewrite Hls. cbn [mbind result_bind].
    rewrite Hrs. cbn [mbind result_bind]. rewrite HL, HR. by cbn [mbind result_bind].
  - intros eq targets arrs beq ls rs arrs1 L R res Hbeq Htake HL HR Hres.
    unfold Batch._batched_einsum.
    rewrite Hbeq. cbn [mbind result_bind]. rewrite Htake. cbn [mbind result_bind].
    rewrite HL, HR. cbn [mbind result_bind]. by rewrite Hres.
Qed.

(** The product of two leaves that [tree2] declares of shapes [(2, 3)] and
    [(3, 4)], on arrays of shapes [(5, 3)] and [(3, 4)]: the instance is
    grouped under the declared shapes, the contraction goes through and
    [batch_contract] returns an array of shape [(5, 4)]. *)
Lemma no_shape_check_counterexample :
  BatchContract.extract_signature Examples.tree2 Examples.root2
  = Ok (Examples.matmul, [2; 3]%Z, [3; 4]%Z)
  ∧ BatchContract.execute (B := ShapeBackend.backend)
      (Examples.matmul, [2; 3]%Z, [3; 4]%Z)
      [(0, Examples.root2, leaf 0, leaf 1)]
      [[(leaf 0, [5; 3]%Z); (leaf 1, [3; 4]%Z)]]
    = Ok [1; 5; 4]%Z
  ∧ BatchContract.batch_contract (B := ShapeBackend.backend) 1
      [Examples.tree2] [[[5; 3]; [3; 4]]%Z]
    = Some (Ok [[5; 4]%Z]).
Proof. split_and!; by vm_compute. Qed.

Lemma executor_ignores_signature_shapes_witness :
  BatchContract.execute (B := ShapeBackend.backend)
    (Examples.matmul, [2; 3]%Z, [3; 4]%Z)
    [(0, Examples.root2, leaf 0, leaf 1)]
    [[(leaf 0, [5; 3]%Z); (leaf 1, [3; 4]%Z)]]
  = Ok [1; 5; 4]%Z
  ∧ Batch._batched_einsum (B := ShapeBackend.backend) Examples.matmul
      [(0, Examples.root2, leaf 0, leaf 1)]
      [[(leaf 0, [2; 3]%Z); (leaf 1, [3; 4]%Z)]]
    = for_each (Batch.store_result (B := ShapeBackend.backend) [1; 2; 4]%Z)
        (enumerate [(0, Examples.root2, leaf 0, leaf 1)]) [[]].
Proof.
  split.
  - apply (proj1 (proj2 (executor_ignores_signature_shapes ShapeBackend.backend))
             Examples.matmul [2; 3]%Z [3; 4]%Z
             [(0, Examples.root2, leaf 0, leaf 1)]
             [[(leaf 0, [5; 3]%Z); (leaf 1, [3; 4]%Z)]]
             (py "...ab,...bc->...ac") [[5; 3]%Z] [[3; 4]%Z]
             [1; 5; 3]%Z [1; 3; 4]%Z [1; 5; 4]%Z); by vm_compute.
  - apply (proj2 (proj2 (executor_ignores_signature_shapes ShapeBackend.backend))
             Examples.matmul [(0, Examples.root2, leaf 0, leaf 1)]
             [[(leaf 0, [2; 3]%Z); (leaf 1, [3; 4]%Z)]]
             (py "dab,dbc->dac") [[2; 3]%Z] [[3; 4]%Z] [[]]
             [1; 2; 3]%Z [1; 3; 4]%Z [1; 2; 4]%Z); by vm_compute.
Defined.

(** * Termination on every input *)

Lemma dict_size_insert {K V} (dicts : list (dict K V)) t nodes nodes' :
  dicts !! t = Some nodes →
  dict_size (<[t := nodes']> dicts) + length nodes
  = dict_size dicts + length nodes'.
Proof.
  unfold dict_size. revert t. induction dicts as [|d dicts IH]; intros [|t] Hn;
    simpl in *; try done.
  - injection Hn as ->. lia.
  - specialize (IH t Hn). lia.
Qed.

Lemma dappend_length_le {K I} {EqK : EqDecision K} (k : K) (i : I) d :
  length (dappend k i d) ≤ S (length d).
Proof.
  induction d as [|[k0 l0] d IH]; simpl; [done|].
  destruct (decide (k = k0)); simpl; lia.
Qed.

Lemma popped_twice_length {K V} {EqK : EqDecision K} (l r p : K) (v : V) nodes :
  is_Some (dget l nodes) → is_Some (dget r (ddel l nodes)) →
  S (length (dset p v (ddel r (ddel l nodes)))) ≤ length nodes.
Proof.
  intros [a Ha] [b Hb].
  rewrite (ddel_length _ _ _ Ha), (ddel_length _ _ _ Hb).
  pose proof (dset_length_le p v (ddel r (ddel l nodes))). lia.
Qed.

Lemma flat_map_length_le {A C} (f : A → list C) (g : A → nat) (l : list A) :
  (∀ x, x ∈ l → length (f x) ≤ g x) →
  length (flat_map f l) ≤ sum_list (map g l).
Proof.
  induction l as [|x l IH]; intros Hall; [done|].
  pose proof (Hall x ltac:(apply elem_of_cons; by left)) as Hx.
  assert (Hl : length (flat_map f l) ≤ sum_list (map g l)).
  { apply IH. intros y Hy. apply Hall. apply elem_of_cons. by right. }
  change (length (f x ++ flat_map f l) ≤ g x + sum_list (map g l)).
  rewrite length_app. lia.
Qed.

Lemma enumerate_sum {A} (g : A → nat) (l : list A) :
  sum_list (map (λ it : nat * A, g it.2) (enumerate l)) = sum_list (map g l).
Proof.
  unfold enumerate. generalize 0.
  induction l as [|x l IH]; intros k; simpl; [done|]. by rewrite IH.
Qed.

Lemma table_length_le {K I} (table : dict K (list I)) :
  Forall (λ kl, kl.2 ≠ []) table → length table ≤ length (concat table.*2).
Proof.
  induction 1 as [|[k l] table Hl Hall IH]; [done|].
  change (S (length table) ≤ length (l ++ concat table.*2)).
  rewrite length_app. destruct l; [done|]. simpl length. lia.
Qed.

Lemma dict_size_le {K V A} (dicts : list (dict K V)) (arrays : list (list A)) :
  (∀ t d, dicts !! t = Some d →
          ∃ a, arrays !! t = Some a ∧ length d ≤ length a) →
  dict_size dicts ≤ sum_list (map length arrays).
Proof.
  unfold dict_size. revert arrays.
  induction dicts as [|d dicts IH]; intros arrays Hall; simpl; [lia|].
  destruct (Hall 0 d eq_refl) as (a & Ha & Hlen).
  destruct arrays as [|a' arrays]; [done|]. injection Ha as ->. simpl.
  assert (sum_list (map length dicts) ≤ sum_list (map length arrays)).
  { apply IH. intros t d' Hd. by apply (Hall (S t)). }
  lia.
Qed.


Section TotalA.
Context {B : Backend}.
Import BatchContract.

Variable trees : list ContractionTree.

Lemma bc_promote_measure item st st' :
  promote trees item st = Ok st' →
  S (dict_size (tree_active_nodes st')) + length (ready st')
  ≤ S (dict_size (tree_active_nodes st) + length (ready st)).
Proof.
  destruct item as [res [[[t p] l] r]]. intros Hp.
  apply bc_promote_inv in Hp
    as (tree & nodes & _ & Hn & Hl & Hr & Hact & _ & Hready).
  rewrite Hact.
  pose proof (dict_size_insert _ _ _ (dset p res (ddel r (ddel l nodes))) Hn).
  pose proof (popped_twice_length l r p res nodes Hl Hr).
  assert (length (ready st') ≤ S (length (ready st))).
  { destruct (dget p (parent_dict tree)) as [g|]; [|rewrite Hready; lia].
    destruct Hready as (gl & gr & _ & Hready).
    destruct (dmem gl _ && dmem gr _); [|rewrite Hready; lia].
    destruct Hready as (sig & _ & ->). apply dappend_length_le. }
  lia.
Qed.

Lemma bc_promote_all_measure items st st' :
  for_each (promote trees) items st = Ok st' →
  dict_size (tree_active_nodes st') + length (ready st')
  ≤ dict_size (tree_active_nodes st) + length (ready st).
Proof.
  revert st. induction items as [|item items IH]; intros st Hloop.
  - by injection Hloop as <-.
  - rewrite for_each_cons in Hloop.
    apply bind_Ok in Hloop as (st1 & Hp%bc_promote_measure & Hloop%IH). lia.
Qed.

Lemma bc_step_measure st st' :
  step trees st = Ok st' →
  dict_size (tree_active_nodes st') + length (ready st')
  < dict_size (tree_active_nodes st) + length (ready st).
Proof.
  unfold step. intros Hstep.
  apply bind_Ok in Hstep as (signature & _ & Hstep).
  apply bind_Ok in Hstep as (to_contract & Hget%dindex_Ok & Hstep).
  apply bind_Ok in Hstep as (result_stack & _ & Hloop%bc_promote_all_measure).
  simpl in Hloop. rewrite (ddel_length _ _ _ Hget). lia.
Qed.

(** The loop ends, with a state or with an exception, within as many
    iterations as the dictionaries and the table have entries. *)
Lemma bc_loop_total fuel st :
  dict_size (tree_active_nodes st) + length (ready st) ≤ fuel →
  ∃ r, ∀ k, loop (fuel + k) trees st = Some r.
Proof.
  revert st. induction fuel as [|fuel IH]; intros st Hm.
  - exists (Ok st). intros k.
    assert (Hempty : ready st = []) by (destruct (ready st); [done | simpl in Hm; lia]).
    destruct k; simpl; by rewrite Hempty.
  - destruct (any_values (ready st)) eqn:Hany.
    + destruct (step trees st) as [st'|e] eqn:Hstep.
      * destruct (IH st') as [r Hr].
        { apply bc_step_measure in Hstep. lia. }
        exists r. intros k. simpl. by rewrite Hany, Hstep.
      * exists (Raise e). intros k. simpl. by rewrite Hany, Hstep.
    + exists (Ok st). intros k. simpl. by rewrite Hany.
Qed.

Lemma bc_init_measure arrays st :
  init trees arrays = Ok st →
  dict_size (tree_active_nodes st) + length (ready st)
  ≤ sum_list (map length arrays)
    + sum_list (map (λ tree, length (children tree)) trees).
Proof.
  intros Hinit.
  destruct (bc_init_spec _ _ _ Hinit) as (_ & Hlen & Hact & _ & Hgr & Hperm).
  assert (Hd : dict_size (tree_active_nodes st) ≤ sum_list (map length arrays)).
  { apply dict_size_le. intros t d Hd.
    assert (Ht : t < length trees) by (rewrite <-Hlen; by eapply lookup_lt_Some).
    apply lookup_lt_is_Some in Ht as [tree Ht].
    destruct (Hact t tree Ht) as (array & Ha & Hn).
    rewrite Hn in Hd. injection Hd as <-. exists array. split; [done|].
    unfold bc_leaf_nodes. rewrite length_zip_with. lia. }
  assert (Ht : length (ready st)
               ≤ sum_list (map (λ tree, length (children tree)) trees)).
  { etrans; [apply table_length_le|].
    { eapply Forall_impl; [exact Hgr|]. by intros kl [? _]. }
    rewrite Hperm. unfold bc_initial_ready.
    rewrite <-(enumerate_sum (λ tree, length (children tree))).
    apply flat_map_length_le. intros [t tree] _. simpl.
    etrans; [apply sublist_length, ready_entries_sublist|].
    by rewrite length_map. }
  lia.
Qed.

Lemma bc_batch_contract_total arrays fuel :
  sum_list (map length arrays)
  + sum_list (map (λ tree, length (children tree)) trees) ≤ fuel →
  ∃ r, ∀ k, batch_contract (fuel + k) trees arrays = Some r.
Proof.
  intros Hfuel. unfold batch_contract, run.
  destruct (init trees arrays) as [st|e] eqn:Hinit; [|by exists (Raise e)].
  destruct (bc_loop_total fuel st) as [r Hr].
  { apply bc_init_measure in Hinit. lia. }
  destruct r as [st'|e].
  - exists (finish st'). intros k. by rewrite Hr.
  - exists (Raise e). intros k. by rewrite Hr.
Qed.

End TotalA.

Section TotalB.
Context {B : Backend}.
Import Batch.

Variable maps : list Maps.

Lemma tn_promote_measure result_shape target st st' :
  promote maps result_shape target st = Ok st' →
  S (dict_size (node2shape_batch st')) + length (contractible st')
  ≤ S (dict_size (node2shape_batch st) + length (contractible st)).
Proof.
  destruct target as [[[t p] l] r]. intros Hp.
  apply tn_promote_inv in Hp
    as (m & nodes & _ & Hn & Hl & Hr & Hact & _ & Hready).
  rewrite Hact.
  pose proof (dict_size_insert _ _ _ (dset p result_shape (ddel r (ddel l nodes))) Hn).
  pose proof (popped_twice_length l r p result_shape nodes Hl Hr).
  assert (length (contractible st') ≤ S (length (contractible st))).
  { destruct (dget p (parent_map m)) as [g|]; [|rewrite Hready; lia].
    destruct Hready as (gl & gr & _ & Hready).
    destruct (dmem gl _ && dmem gr _); [|rewrite Hready; lia].
    destruct Hready as (eq & sl & sr & _ & _ & _ & ->). apply dappend_length_le. }
  lia.
Qed.

Lemma tn_promote_all_measure result_shape targets st st' :
  for_each (promote maps result_shape) targets st = Ok st' →
  dict_size (node2shape_batch st') + length (contractible st')
  ≤ dict_size (node2shape_batch st) + length (contractible st).
Proof.
  revert st. induction targets as [|target targets IH]; intros st Hloop.
  - by injection Hloop as <-.
  - rewrite for_each_cons in Hloop.
    apply bind_Ok in Hloop as (st1 & Hp%tn_promote_measure & Hloop%IH). lia.
Qed.

Lemma tn_step_measure st st' :
  step maps st = Ok st' →
  dict_size (node2shape_batch st') + length (contractible st')
  < dict_size (node2shape_batch st) + length (contractible st).
Proof.
  unfold step. intros Hstep.
  apply bind_Ok in Hstep as (key & _ & Hstep).
  apply bind_Ok in Hstep as ([targets table] & [Hget ->]%dpop_Ok & Hstep).
  destruct key as [[eq sl] sr].
  apply bind_Ok in Hstep as (result_shape & _ & Hloop%tn_promote_all_measure).
  simpl in Hloop. rewrite (ddel_length _ _ _ Hget). lia.
Qed.

Lemma tn_loop_total fuel st :
  dict_size (node2shape_batch st) + length (contractible st) ≤ fuel →
  ∃ r, ∀ k, loop (fuel + k) maps st = Some r.
Proof.
  revert st. induction fuel as [|fuel IH]; intros st Hm.
  - exists (Ok st). intros k.
    assert (Hempty : contractible st = [])
      by (destruct (contractible st); [done | simpl in Hm; lia]).
    destruct k; simpl; by rewrite Hempty.
  - destruct (contractible st) as [|kl table] eqn:Htable.
    + exists (Ok st). intros k. simpl. by rewrite Htable.
    + destruct (step maps st) as [st'|e] eqn:Hstep.
      * destruct (IH st') as [r Hr].
        { apply tn_step_measure in Hstep. rewrite Htable in Hstep. lia. }
        exists r. intros k. simpl. by rewrite Htable, Hstep.
      * exists (Raise e). intros k. simpl. by rewrite Htable, Hstep.
Qed.

End TotalB.

Lemma leaf_dict_length {V} (values : list V) :
  length (Batch.leaf_dict values) = length values.
Proof.
  rewrite leaf_dict_zip, length_zip_with, length_map, length_seq. lia.
Qed.

Lemma dict_size_leaf_dict {V} (batch : list (list V)) :
  dict_size (map Batch.leaf_dict batch) = sum_list (map length batch).
Proof.
  unfold dict_size. induction batch as [|values batch IH]; [done|].
  change (length (Batch.leaf_dict values)
          + sum_list (map length (map Batch.leaf_dict batch))
          = length values + sum_list (map length batch)).
  by rewrite leaf_dict_length, IH.
Qed.

Lemma omap_length_le {A C} (f : A → option C) (l : list A) :
  length (omap f l) ≤ length l.
Proof.
  induction l as [|x l IH]; [done|]. csimpl. destruct (f x); simpl; lia.
Qed.

Lemma zip_sum_le {A C} (g : A → nat) (l : list A) (k : list C) :
  sum_list (map (λ it : A * C, g it.1) (zip l k)) ≤ sum_list (map g l).
Proof.
  revert k. induction l as [|x l IH]; intros [|y k]; simpl; try lia.
  specialize (IH k). lia.
Qed.

Lemma tn_init_measure (cb : list (list Batch.Contraction))
    (sb : list (list ArrayShape)) st :
  Batch.init cb sb = Ok st →
  dict_size (Batch.node2shape_batch st) + length (Batch.contractible st)
  ≤ sum_list (map length sb) + sum_list (map length cb).
Proof.
  intros Hinit.
  destruct (tn_init_spec cb sb) as (st0 & Hinit0 & Hnodes & _ & _ & Hgr & Hperm).
  rewrite Hinit in Hinit0. injection Hinit0 as <-.
  rewrite Hnodes, dict_size_leaf_dict.
  assert (Ht : length (Batch.contractible st) ≤ sum_list (map length cb)).
  { etrans; [apply table_length_le|].
    { eapply Forall_impl; [exact Hgr|]. by intros kl [? _]. }
    rewrite Hperm. unfold tn_initial_ready.
    etrans; [apply (flat_map_length_le _ (λ it, length it.2.1))|].
    - intros [t [cs shapes]] _. apply omap_length_le.
    - rewrite (enumerate_sum (λ it : list Batch.Contraction * list ArrayShape,
                                length it.1)).
      apply (zip_sum_le length). }
  lia.
Qed.

Section TotalOutputsB.
Context {B : Backend}.
Import Batch.

Lemma tn_schedule_total cb sb fuel :
  sum_list (map length sb) + sum_list (map length cb) ≤ fuel →
  ∃ r, ∀ k, schedule (fuel + k) cb sb = Some r.
Proof.
  intros Hfuel. unfold schedule.
  destruct (init cb sb) as [st|e] eqn:Hinit; [|by exists (Raise e)].
  apply (tn_loop_total _ fuel st).
  apply tn_init_measure in Hinit. lia.
Qed.

End TotalOutputsB.

(** Every call of [batch_contract] of [batch_contract.py] ends: whatever the
    trees, the arrays and the backend, the [while] loop makes at most as
    many iterations as there are arrays and [children] entries, and the call
    returns or raises. *)
Theorem batch_contract_terminates (B : Backend)
    (trees : list BatchContract.ContractionTree) (arrays : list (list Tensor)) :
  ∃ r, ∀ fuel,
    sum_list (map length arrays)
    + sum_list (map (λ tree, length (BatchContract.children tree)) trees)
    ≤ fuel →
    BatchContract.batch_contract fuel trees arrays = Some r.
Proof.
  destruct (bc_batch_contract_total trees arrays _ (Nat.le_refl _)) as [r Hr].
  exists r. intros fuel Hfuel.
  rewrite <-(Hr (fuel - (sum_list (map length arrays)
    + sum_list (map (λ tree, length (BatchContract.children tree)) trees)))).
  f_equal. lia.
Qed.

(** Every call of [get_batched_contractions] and of [batch_contract] of
    [batch_tn/batch.py] ends: whatever the contraction lists, the shapes,
    the arrays and the backend, the [while] loop makes at most as many
    iterations as there are arrays and contraction entries. *)
Theorem get_batched_contractions_terminates (B : Backend)
    (cb : list (list Batch.Contraction)) :
  (∀ sb : list (list ArrayShape),
     ∃ r, ∀ fuel,
       sum_list (map length sb) + sum_list (map length cb) ≤ fuel →
       Batch.get_batched_contractions fuel cb sb = Some r)
  ∧ (∀ ab : list (list Tensor),
       ∃ r, ∀ fuel,
         sum_list (map length ab) + sum_list (map length cb) ≤ fuel →
         Batch.batch_contract fuel cb ab = Some r).
Proof.
  assert (Hs : ∀ sb : list (list ArrayShape),
     ∃ r, ∀ fuel,
       sum_list (map length sb) + sum_list (map length cb) ≤ fuel →
       Batch.get_batched_contractions fuel cb sb = Some r).
  { intros sb.
    destruct (tn_schedule_total cb sb _ (Nat.le_refl _)) as [r Hr].
    exists (match r with
            | Ok st => Ok (Batch.batched_contractions st)
            | Raise e => Raise e
            end).
    intros fuel Hfuel. unfold Batch.get_batched_contractions.
    replace fuel with (sum_list (map length sb) + sum_list (map length cb)
                       + (fuel - (sum_list (map length sb)
                                  + sum_list (map length cb)))) by lia.
    rewrite Hr. by destruct r. }
  split; [exact Hs|].
  intros ab. destruct (Hs (map (map tshape) ab)) as [r Hr].
  exists (match r with
          | Ok batched => Batch.replay batched ab
          | Raise e => Raise e
          end).
  intros fuel Hfuel. unfold Batch.batch_contract. rewrite Hr.
  - by destruct r.
  - assert (Hlen : sum_list (map length (map (map tshape) ab))
                   = sum_list (map length ab)).
    { clear. induction ab as [|a ab IH]; [done|].
      change (length (map tshape a) + sum_list (map length (map (map tshape) ab))
              = length a + sum_list (map length ab)).
      by rewrite length_map, IH. }
    lia.
Qed.

(** The chain of three leaves, with fuel 5 and more. *)
Lemma batch_contract_terminates_witness :
  ∃ r, BatchContract.batch_contract (B := ShapeBackend.backend) 5
         [Examples.tree3] [Examples.arrays3] = Some r.
Proof.
  destruct (batch_contract_terminates ShapeBackend.backend
              [Examples.tree3] [Examples.arrays3]) as [r Hr].
  exists r. apply Hr. simpl. lia.
Defined.

Lemma get_batched_contractions_terminates_witness :
  ∃ r, Batch.batch_contract (B := ShapeBackend.backend) 5
         [Examples.contractions3] [Examples.arrays3] = Some r.
Proof.
  destruct (proj2 (get_batched_contractions_terminates ShapeBackend.backend
                     [Examples.contractions3]) [Examples.arrays3]) as [r Hr].
  exists r. apply Hr. simpl. lia.
Defined.

(** * The number of outputs *)

Lemma traverse_length {A C} (f : A → result C) (l : list A) (out : list C) :
  traverse f l = Ok out → length out = length l.
Proof.
  revert out. induction l as [|x l IH]; intros out Htr; simpl in *.
  - by injection Htr as <-.
  - apply bind_Ok in Htr as (y & _ & Htr).
    apply bind_Ok in Htr as (ys & Hys%IH & Htr).
    injection Htr as <-. simpl. by rewrite Hys.
Qed.

Section LengthA.
Context {B : Backend}.
Import BatchContract.

Variable trees : list ContractionTree.

Lemma bc_promote_all_length items st st' :
  for_each (promote trees) items st = Ok st' →
  length (tree_active_nodes st') = length (tree_active_nodes st).
Proof.
  revert st. induction items as [|[res [[[t p] l] r]] items IH]; intros st Hloop.
  - by injection Hloop as <-.
  - rewrite for_each_cons in Hloop.
    apply bind_Ok in Hloop as (st1 & Hp & Hloop%IH).
    apply bc_promote_inv in Hp as (tree & nodes & _ & _ & _ & _ & Hact & _).
    by rewrite Hloop, Hact, length_insert.
Qed.

Lemma bc_loop_length fuel st st' :
  loop fuel trees st = Some (Ok st') →
  length (tree_active_nodes st') = length (tree_active_nodes st).
Proof.
  revert st. induction fuel as [|fuel IH]; intros st; simpl;
    destruct (any_values (ready st)); try done.
  - by intros [= <-].
  - destruct (step trees st) as [st1|e] eqn:Hstep; [|done].
    intros Hloop%IH. rewrite Hloop.
    unfold step in Hstep.
    apply bind_Ok in Hstep as (signature & _ & Hstep).
    apply bind_Ok in Hstep as (to_contract & _ & Hstep).
    apply bind_Ok in Hstep as (result_stack & _ & Hp%bc_promote_all_length).
    done.
  - by intros [= <-].
Qed.

Lemma bc_batch_contract_length fuel arrays outs :
  batch_contract fuel trees arrays = Some (Ok outs) →
  length outs = length trees.
Proof.
  unfold batch_contract, run.
  destruct (init trees arrays) as [st0|e] eqn:Hinit; [|done].
  destruct (loop fuel trees st0) as [[st|e]|] eqn:Hloop; [|done..].
  intros [= Hfin]. unfold finish in Hfin.
  destruct (forallb _ _); [|done].
  apply traverse_length in Hfin. rewrite Hfin.
  rewrite (bc_loop_length _ _ _ Hloop).
  by destruct (bc_init_spec _ _ _ Hinit) as (_ & ? & _).
Qed.

(** With fewer array lists than trees the set-up raises: the loop is not
    entered. *)
Lemma bc_too_few_arrays arrays :
  length arrays < length trees →
  ∃ e, init trees arrays = Raise e.
Proof.
  intros Hlt. destruct (init trees arrays) as [st|e] eqn:Hinit; [|by exists e].
  destruct (bc_init_spec _ _ _ Hinit) as (_ & _ & Hact & _).
  destruct (lookup_lt_is_Some_2 trees (length arrays) Hlt) as [tree Ht].
  destruct (Hact _ _ Ht) as (array & Ha & _).
  apply lookup_lt_Some in Ha. lia.
Qed.

End LengthA.

Section LengthB.
Context {B : Backend}.
Import Batch.

Lemma tn_replay_length batched (arrs arrs' : list (dict TreeNode Tensor)) :
  for_each (λ '(eq, targets), _batched_einsum eq targets) batched arrs = Ok arrs' →
  length arrs' = length arrs.
Proof.
  revert arrs. induction batched as [|[eq targets] batched IH]; intros arrs Hloop.
  - by injection Hloop as <-.
  - rewrite for_each_cons in Hloop.
    apply bind_Ok in Hloop as (arrs1 & Hb & Hloop%IH).
    apply tn_batched_einsum_frame in Hb as (Hlen & _). congruence.
Qed.

Lemma tn_batch_contract_length fuel cb ab outs :
  batch_contract fuel cb ab = Some (Ok outs) → length outs = length ab.
Proof.
  unfold batch_contract.
  destruct (get_batched_contractions _ _ _) as [[batched|e]|]; [|done..].
  intros [= Hrep]. unfold replay in Hrep.
  apply bind_Ok in Hrep as (arrs & Hloop%tn_replay_length & Htr%traverse_length).
  rewrite Htr, Hloop. by rewrite length_map.
Qed.

End LengthB.

(** When [batch_contract] returns, it returns one tensor per tree in
    [batch_contract.py] and one tensor per array list in
    [batch_tn/batch.py], whatever the input. *)
Theorem batch_contract_output_length (B : Backend) :
  (∀ fuel (trees : list BatchContract.ContractionTree) arrays outs,
     BatchContract.batch_contract fuel trees arrays = Some (Ok outs) →
     length outs = length trees)
  ∧ (∀ fuel (cb : list (list Batch.Contraction)) ab outs,
       Batch.batch_contract fuel cb ab = Some (Ok outs) →
       length outs = length ab).
Proof.
  split.
  - intros fuel trees arrays outs. apply bc_batch_contract_length.
  - intros fuel cb ab outs. apply tn_batch_contract_length.
Qed.

Lemma batch_contract_output_length_witness :
  length [[2; 5]%Z] = length [Examples.tree3]
  ∧ length [[2; 5]%Z] = length [Examples.arrays3].
Proof.
  split.
  - apply (proj1 (batch_contract_output_length ShapeBackend.backend)
             2 [Examples.tree3] [Examples.arrays3] [[2; 5]%Z]).
    by vm_compute.
  - apply (proj2 (batch_contract_output_length ShapeBackend.backend)
             2 [Examples.contractions3] [Examples.arrays3] [[2; 5]%Z]).
    by vm_compute.
Defined.

(** [batch_contract] of [batch_contract.py] with fewer array lists than
    trees raises during the set-up, before any contraction, whatever the
    fuel. *)
Theorem batch_contract_too_few_arrays (B : Backend)
    (trees : list BatchContract.ContractionTree) (arrays : list (list Tensor)) :
  length arrays < length trees →
  ∃ e, BatchContract.init trees arrays = Raise e
       ∧ ∀ fuel, BatchContract.batch_contract fuel trees arrays = Some (Raise e).
Proof.
  intros Hlt. destruct (bc_too_few_arrays trees arrays Hlt) as [e He].
  exists e. split; [done|]. intros fuel.
  unfold BatchContract.batch_contract, BatchContract.run. by rewrite He.
Qed.

Lemma batch_contract_too_few_arrays_witness :
  ∃ e, BatchContract.init (B := ShapeBackend.backend)
         [Examples.tree2; Examples.tree3] [Examples.arrays2] = Raise e
       ∧ ∀ fuel, BatchContract.batch_contract (B := ShapeBackend.backend) fuel
                   [Examples.tree2; Examples.tree3] [Examples.arrays2]
                 = Some (Raise e).
Proof.
  apply (batch_contract_too_few_arrays ShapeBackend.backend
           [Examples.tree2; Examples.tree3] [Examples.arrays2]).
  simpl. lia.
Defined.

(** * Entries with a missing child are skipped *)

Lemma for_each_Forall2 {A S} (body : A → S → result S) (l1 l2 : list A) (st : S) :
  Forall2 (λ x y, ∀ s, body x s = body y s) l1 l2 →
  for_each body l1 st = for_each body l2 st.
Proof.
  intros Hall. revert st. induction Hall as [|x y l1 l2 Hxy Hall IH]; intros st.
  - done.
  - rewrite !for_each_cons, Hxy. destruct (body y st); simpl; [apply IH | done].
Qed.

Lemma build_maps_binary_only (cs : list Batch.Contraction) :
  Batch.build_maps (binary_only cs) = Batch.build_maps cs.
Proof.
  unfold Batch.build_maps, binary_only.
  generalize (Batch.Build_Maps [] [] []).
  induction cs as [|[[[p l] r] eq] cs IH]; intros m; [done|].
  destruct l as [l|], r as [r|]; simpl; apply IH.
Qed.

Lemma register_binary_only i (nodes : dict TreeNode ArrayShape)
    (cs : list Batch.Contraction) table :
  for_each (Batch.register i nodes) (binary_only cs) table
  = for_each (Batch.register i nodes) cs table.
Proof.
  unfold binary_only. revert table.
  induction cs as [|[[[p l] r] eq] cs IH]; intros table; [done|].
  destruct l as [l|], r as [r|]; simpl; try apply IH.
  destruct (dmem l nodes && dmem r nodes); simpl; [|apply IH].
  destruct (dindex l nodes); simpl; [|done].
  destruct (dindex r nodes); simpl; [|done]. apply IH.
Qed.

Lemma init_binary_only (cb : list (list Batch.Contraction))
    (sb : list (list ArrayShape)) :
  Batch.init (map binary_only cb) sb = Batch.init cb sb.
Proof.
  unfold Batch.init. f_equal. apply for_each_Forall2.
  unfold enumerate. rewrite !length_zip_with, length_map.
  generalize (length cb `min` length (map Batch.leaf_dict sb)).
  generalize (map Batch.leaf_dict sb). generalize 0.
  induction cb as [|cs cb IH]; intros k shapes n; [by destruct n|].
  destruct shapes as [|nodes shapes]; [by destruct n|].
  destruct n as [|n]; [done|]. simpl. constructor; [|apply IH].
  intros table. apply register_binary_only.
Qed.

(** An entry of a contraction list whose left or right child is [None] has
    no effect: the schedule and the result of [batch_contract] of
    [batch_tn/batch.py] are those of the lists without these entries. *)
Theorem unary_entries_ignored (B : Backend) (fuel : nat)
    (cb : list (list Batch.Contraction)) :
  (∀ sb, Batch.get_batched_contractions fuel (map binary_only cb) sb
         = Batch.get_batched_contractions fuel cb sb)
  ∧ (∀ ab, Batch.batch_contract fuel (map binary_only cb) ab
           = Batch.batch_contract fuel cb ab).
Proof.
  assert (Hs : ∀ sb, Batch.get_batched_contractions fuel (map binary_only cb) sb
                     = Batch.get_batched_contractions fuel cb sb).
  { intros sb. unfold Batch.get_batched_contractions, Batch.schedule.
    rewrite init_binary_only, map_map.
    by rewrite (map_ext _ _ build_maps_binary_only). }
  split; [exact Hs|].
  intros ab. unfold Batch.batch_contract. by rewrite Hs.
Qed.

(** * Every tree is contracted as if it were alone *)

Lemma sum_list_lookup_le {A} (g : A → nat) (l : list A) (i : nat) (x : A) :
  l !! i = Some x → g x ≤ sum_list (map g l).
Proof.
  revert i. induction l as [|y l IH]; intros [|i] Hi; simpl in *; try done.
  - injection Hi as ->. lia.
  - specialize (IH i Hi). lia.
Qed.

Lemma leaf_values_single {B : Backend} (arrays : list (list Tensor))
    (val : nat → TreeNode → Tensor) (t : nat) (array : list Tensor) :
  leaf_values arrays val → arrays !! t = Some array →
  leaf_values [array] (λ _, val t).
Proof.
  intros Hleaves Ha [|t0] array' i a Ha' Hi; [|done]. injection Ha' as <-.
  by apply (Hleaves t array).
Qed.

Section SingleA.
Context {B : Backend}.
Import BatchContract.

Variables (trees : list ContractionTree) (arrays : list (list Tensor))
          (val : nat → TreeNode → Tensor).
Hypothesis Hwf : bc_well_formed trees arrays.
Hypothesis Hleaves : leaf_values arrays val.
Hypothesis Hsound : bc_backend_sound trees val.

Variables (t : nat) (tree : ContractionTree) (array : list Tensor).
Hypothesis Ht : trees !! t = Some tree.
Hypothesis Ha : arrays !! t = Some array.

Lemma bc_single_instance t0 p l r :
  (t0, p, l, r) ∈ all_instances (bc_forest [tree]) →
  t0 = 0 ∧ (t, p, l, r) ∈ all_instances (bc_forest trees).
Proof.
  intros [Hlt Hin]%(bc_instances_replicate tree 1). split; [lia|].
  apply elem_of_all_instances. exists (N tree), (children tree).
  split; [|done]. apply bc_forest_lookup. by exists tree.
Qed.

Lemma bc_single_well_formed : bc_well_formed [tree] [array].
Proof.
  destruct Hwf as (Hlen & HwfF & Hsize & Hsig). split_and!.
  - done.
  - intros [|t0] n ch Hlook; [|done]. injection Hlook as <- <-.
    apply (HwfF t). apply bc_forest_lookup. by exists tree.
  - intros [|t0] tree' array' Ht' Ha'; [|done].
    injection Ht' as <-. injection Ha' as <-. by apply (Hsize t).
  - intros [[[t0 p] l] r] [-> Hin]%bc_single_instance.
    destruct (Hsig _ Hin) as (sig & tree' & Ht' & Hs).
    rewrite Ht in Ht'. injection Ht' as <-.
    exists sig, tree. by split.
Qed.

Lemma bc_single_backend_sound : bc_backend_sound [tree] (λ _, val t).
Proof.
  intros sig group Hne Hall.
  set (retag := λ inst : Instance, (t, inst.1.1.2, inst.1.2, inst.2)).
  assert (Hcall := Hsound sig (map retag group)).
  rewrite !map_map in Hcall.
  rewrite (map_ext _ (λ '(_, _, l, _), val t l)) in Hcall by by intros [[[? ?] ?] ?].
  rewrite (map_ext (λ x, let '(t0, _, _, r) := retag x in val t0 r)
                   (λ '(_, _, _, r), val t r)) in Hcall by by intros [[[? ?] ?] ?].
  rewrite (map_ext (λ x, let '(t0, p, _, _) := retag x in val t0 p)
                   (λ '(_, p, _, _), val t p)) in Hcall by by intros [[[? ?] ?] ?].
  apply Hcall.
  - by destruct group.
  - apply Forall_map. eapply Forall_impl; [exact Hall|].
    intros [[[t0 p] l] r] [[-> Hin]%bc_single_instance (tree' & Ht' & Hs)].
    injection Ht' as <-. split; [done|]. by exists tree.
Qed.

Lemma bc_single_output fuel :
  sum_list (map (λ tree, N tree - 1) trees) ≤ fuel →
  ∃ outs x, batch_contract fuel trees arrays = Some (Ok outs)
            ∧ outs !! t = Some x
            ∧ batch_contract fuel [tree] [array] = Some (Ok [x]).
Proof.
  intros Hfuel.
  destruct (bc_batch_contract_ok trees arrays val Hwf Hsound Hleaves fuel)
    as (outs & Hbc & Hlen & Hout).
  { by rewrite (bc_instances_total _ _ Hwf). }
  destruct Hwf as (_ & HwfF & _).
  destruct (HwfF t (N tree) (children tree)) as [bt Htree].
  { apply bc_forest_lookup. by exists tree. }
  exists outs, (val t (root_id bt)). split; [done|].
  split; [by apply (Hout t tree bt)|].
  destruct (bc_batch_contract_ok [tree] [array] (λ _, val t)
              bc_single_well_formed bc_single_backend_sound
              (leaf_values_single _ _ _ _ Hleaves Ha) fuel) as (outs1 & Hbc1 & Hlen1 & Hout1).
  { rewrite (bc_instances_total _ _ bc_single_well_formed).
    change (N tree - 1 + 0 ≤ fuel).
    pose proof (sum_list_lookup_le (λ tree, N tree - 1) trees t tree Ht) as Hle.
    cbv beta in Hle. lia. }
  rewrite Hbc1. f_equal. f_equal.
  specialize (Hout1 0 tree bt eq_refl Htree).
  destruct outs1 as [|x [|y outs1]]; try done. by injection Hout1 as ->.
Qed.

End SingleA.

Section SingleB.
Context {B : Backend}.
Import Batch.

Variables (cb : list (list Contraction)) (ab : list (list Tensor))
          (val : nat → TreeNode → Tensor).
Hypothesis Hwf : tn_well_formed cb ab.
Hypothesis Hleaves : leaf_values ab val.
Hypothesis Hshapes : tn_shapes_sound cb ab val.
Hypothesis Hsound : tn_backend_sound cb ab val.

Variables (t : nat) (cs : list Contraction) (array : list Tensor).
Hypothesis Ht : cb !! t = Some cs.
Hypothesis Ha : ab !! t = Some array.

Lemma tn_single_instance t0 p l r :
  (t0, p, l, r) ∈ all_instances (tn_forest [cs] [array]) →
  t0 = 0 ∧ (t, p, l, r) ∈ all_instances (tn_forest cb ab).
Proof.
  intros [Hlt Hin]%(tn_instances_replicate cs array 1). split; [lia|].
  apply elem_of_all_instances. exists (length array), (tn_binary cs).
  split; [|done]. apply tn_forest_lookup. by exists cs, array.
Qed.

Lemma tn_single_sig_of t0 p l r sig :
  tn_sig_of [cs] (λ _, val t) (t0, p, l, r) sig →
  tn_sig_of cb val (t, p, l, r) sig.
Proof.
  destruct sig as [[eq sl] sr]. intros (cs' & Hcs' & Hsig).
  destruct t0; [|done]. injection Hcs' as <-. by exists cs.
Qed.

Lemma tn_single_well_formed : tn_well_formed [cs] [array].
Proof.
  destruct Hwf as (Hlen & HwfF). split; [done|].
  intros [|t0] n ch Hlook; [|done]. injection Hlook as <- <-.
  apply (HwfF t). apply tn_forest_lookup. by exists cs, array.
Qed.

Lemma tn_single_shapes_sound : tn_shapes_sound [cs] [array] (λ _, val t).
Proof.
  intros t0 p l r eq sl sr [-> Hin]%tn_single_instance Hsig%tn_single_sig_of.
  by apply (Hshapes t p l r eq sl sr).
Qed.

Lemma tn_single_backend_sound : tn_backend_sound [cs] [array] (λ _, val t).
Proof.
  intros sig group Hne Hall.
  set (retag := λ inst : Instance, (t, inst.1.1.2, inst.1.2, inst.2)).
  assert (Hcall := Hsound sig (map retag group)).
  rewrite !map_map in Hcall.
  rewrite (map_ext _ (λ '(_, _, l, _), val t l)) in Hcall by by intros [[[? ?] ?] ?].
  rewrite (map_ext (λ x, let '(t0, _, _, r) := retag x in val t0 r)
                   (λ '(_, _, _, r), val t r)) in Hcall by by intros [[[? ?] ?] ?].
  rewrite (map_ext (λ x, let '(t0, p, _, _) := retag x in val t0 p)
                   (λ '(_, p, _, _), val t p)) in Hcall by by intros [[[? ?] ?] ?].
  apply Hcall.
  - by destruct group.
  - apply Forall_map. eapply Forall_impl; [exact Hall|].
    intros [[[t0 p] l] r] [[-> Hin]%tn_single_instance Hsig%tn_single_sig_of].
    by split.
Qed.

Lemma tn_single_output fuel :
  sum_list (map (λ arrays, length arrays - 1) ab) ≤ fuel →
  ∃ outs x, batch_contract fuel cb ab = Some (Ok outs)
            ∧ outs !! t = Some x
            ∧ batch_contract fuel [cs] [array] = Some (Ok [x]).
Proof.
  intros Hfuel.
  destruct (tn_batch_contract_ok cb ab val Hwf Hshapes Hsound Hleaves fuel)
    as (outs & Hbc & Hlen & Hout).
  { by rewrite (tn_instances_total _ _ Hwf). }
  assert (HF : tn_forest cb ab !! t = Some (length array, tn_binary cs)).
  { apply tn_forest_lookup. by exists cs, array. }
  destruct Hwf as (_ & HwfF).
  destruct (HwfF t _ _ HF) as [bt Htree].
  exists outs, (val t (root_id bt)). split; [done|].
  split; [by apply (Hout t _ _ bt HF)|].
  destruct (tn_batch_contract_ok [cs] [array] (λ _, val t)
              tn_single_well_formed tn_single_shapes_sound
              tn_single_backend_sound
              (leaf_values_single _ _ _ _ Hleaves Ha) fuel)
    as (outs1 & Hbc1 & Hlen1 & Hout1).
  { rewrite (tn_instances_total _ _ tn_single_well_formed).
    change (length array - 1 + 0 ≤ fuel).
    pose proof (sum_list_lookup_le (λ arrays : list Tensor, length arrays - 1)
                  ab t array Ha) as Hle.
    cbv beta in Hle. lia. }
  rewrite Hbc1. f_equal. f_equal.
  specialize (Hout1 0 _ _ bt eq_refl Htree).
  destruct outs1 as [|x [|y outs1]]; try done. by injection Hout1 as ->.
Qed.

End SingleB.

(** The output for a tree does not depend on the rest of the batch: on a
    well-formed forest, with a backend that keeps its contract, the tensor
    that [batch_contract] returns for tree [t] is the tensor that
    [batch_contract] returns for that tree and its arrays alone.  This holds
    for both files. *)
Theorem batch_independence (B : Backend) :
  (∀ (trees : list BatchContract.ContractionTree) arrays val fuel,
     bc_well_formed trees arrays → leaf_values arrays val →
     bc_backend_sound trees val →
     sum_list (map (λ tree, BatchContract.N tree - 1) trees) ≤ fuel →
     ∃ outs,
       BatchContract.batch_contract fuel trees arrays = Some (Ok outs)
       ∧ ∀ t tree array,
           trees !! t = Some tree → arrays !! t = Some array →
           ∃ x, outs !! t = Some x
                ∧ BatchContract.batch_contract fuel [tree] [array]
                  = Some (Ok [x]))
  ∧ (∀ (cb : list (list Batch.Contraction)) ab val fuel,
       tn_well_formed cb ab → leaf_values ab val →
       tn_shapes_sound cb ab val → tn_backend_sound cb ab val →
       sum_list (map (λ arrays, length arrays - 1) ab) ≤ fuel →
       ∃ outs,
         Batch.batch_contract fuel cb ab = Some (Ok outs)
         ∧ ∀ t cs array,
             cb !! t = Some cs → ab !! t = Some array →
             ∃ x, outs !! t = Some x
                  ∧ Batch.batch_contract fuel [cs] [array] = Some (Ok [x])).
Proof.
  split.
  - intros trees arrays val fuel Hwf Hleaves Hsound Hfuel.
    destruct (bc_batch_contract_ok trees arrays val Hwf Hsound Hleaves fuel)
      as (outs & Hbc & _).
    { by rewrite (bc_instances_total _ _ Hwf). }
    exists outs. split; [done|]. intros t tree array Ht Ha.
    destruct (bc_single_output trees arrays val Hwf Hleaves Hsound
                t tree array Ht Ha fuel Hfuel) as (outs' & x & Hbc' & Hx & Hone).
    rewrite Hbc in Hbc'. injection Hbc' as <-. by exists x.
  - intros cb ab val fuel Hwf Hleaves Hshapes Hsound Hfuel.
    destruct (tn_batch_contract_ok cb ab val Hwf Hshapes Hsound Hleaves fuel)
      as (outs & Hbc & _).
    { by rewrite (tn_instances_total _ _ Hwf). }
    exists outs. split; [done|]. intros t cs array Ht Ha.
    destruct (tn_single_output cb ab val Hwf Hleaves Hshapes Hsound
                t cs array Ht Ha fuel Hfuel) as (outs' & x & Hbc' & Hx & Hone).
    rewrite Hbc in Hbc'. injection Hbc' as <-. by exists x.
Qed.

(** Three copies of the product of two leaves. *)
Lemma batch_independence_witness :
  (∃ outs,
     BatchContract.batch_contract (B := ShapeBackend.backend) 3
       (replicate 3 Examples.tree2) (replicate 3 Examples.arrays2)
     = Some (Ok outs)
     ∧ ∀ t tree array,
         replicate 3 Examples.tree2 !! t = Some tree →
         replicate 3 Examples.arrays2 !! t = Some array →
         ∃ x, outs !! t = Some x
              ∧ BatchContract.batch_contract (B := ShapeBackend.backend) 3
                  [tree] [array] = Some (Ok [x]))
  ∧ (∃ outs,
       Batch.batch_contract (B := ShapeBackend.backend) 3
         (replicate 3 Examples.contractions2) (replicate 3 Examples.arrays2)
       = Some (Ok outs)
       ∧ ∀ t cs array,
           replicate 3 Examples.contractions2 !! t = Some cs →
           replicate 3 Examples.arrays2 !! t = Some array →
           ∃ x, outs !! t = Some x
                ∧ Batch.batch_contract (B := ShapeBackend.backend) 3
                    [cs] [array] = Some (Ok [x])).
Proof.
  split.
  - apply (proj1 (batch_independence ShapeBackend.backend)
             (replicate 3 Examples.tree2) (replicate 3 Examples.arrays2)
             (λ _, Witness.val2) 3).
    + apply (bc_well_formed_replicate (B := ShapeBackend.backend)
               Examples.tree2 Examples.arrays2 1 3);
        [lia | apply tree2_well_formed].
    + apply (leaf_values_replicate (B := ShapeBackend.backend)),
        tree2_leaf_values.
    + apply tree2_backend_sound.
    + simpl. lia.
  - apply (proj2 (batch_independence ShapeBackend.backend)
             (replicate 3 Examples.contractions2) (replicate 3 Examples.arrays2)
             (λ _, Witness.val2) 3).
    + apply (tn_well_formed_replicate (B := ShapeBackend.backend)
               Examples.contractions2 Examples.arrays2 1 3);
        [lia | apply contractions2_well_formed].
    + apply (leaf_values_replicate (B := ShapeBackend.backend)),
        tree2_leaf_values.
    + apply (tn_shapes_sound_replicate (B := ShapeBackend.backend)
               Examples.contractions2 Examples.arrays2 1 3);
        [lia | apply contractions2_shapes_sound].
    + apply contractions2_backend_sound.
    + simpl. lia.
Defined.

(** * The two files agree *)

Lemma sum_list_pointwise {A C} (f : A → nat) (g : C → nat) (l : list A) (k : list C) :
  length l = length k →
  (∀ i x y, l !! i = Some x → k !! i = Some y → f x = g y) →
  sum_list (map f l) = sum_list (map g k).
Proof.
  revert k. induction l as [|x l IH]; intros [|y k] Hlen Hall; simpl in *; try done.
  rewrite (Hall 0 x y eq_refl eq_refl). f_equal. apply IH; [lia|].
  intros i x' y' Hx Hy. by apply (Hall (S i)).
Qed.

Section Agree.
Context {B : Backend}.

Variables (trees : list BatchContract.ContractionTree)
          (cb : list (list Batch.Contraction))
          (arrays : list (list Tensor)) (val : nat → TreeNode → Tensor).
Hypothesis Hwf : bc_well_formed trees arrays.
Hypothesis Hlen : length cb = length trees.
Hypothesis Hsame : ∀ t tree cs, trees !! t = Some tree → cb !! t = Some cs →
                                tn_binary cs ≡ₚ BatchContract.children tree.

Lemma agree_is_tree t tree cs array bt :
  trees !! t = Some tree → cb !! t = Some cs → arrays !! t = Some array →
  is_tree (BatchContract.N tree) (BatchContract.children tree) bt
  ↔ is_tree (length array) (tn_binary cs) bt.
Proof.
  intros Ht Hcs Ha. destruct Hwf as (_ & _ & Hsize & _).
  rewrite (Hsize t tree array Ht Ha). unfold is_tree.
  by rewrite (Hsame t tree cs Ht Hcs).
Qed.

Lemma agree_well_formed : tn_well_formed cb arrays.
Proof.
  pose proof Hwf as (Hla & HwfF & _). split; [congruence|].
  intros t n ch (cs & array & Hcs & Ha & -> & ->)%tn_forest_lookup.
  assert (Ht : t < length trees) by (rewrite <-Hlen; by eapply lookup_lt_Some).
  apply lookup_lt_is_Some in Ht as [tree Ht].
  destruct (HwfF t (BatchContract.N tree) (BatchContract.children tree))
    as [bt Htree].
  { apply bc_forest_lookup. by exists tree. }
  exists bt. by apply (agree_is_tree t tree cs array bt).
Qed.

Lemma agree_fuel :
  sum_list (map (λ arrays, length arrays - 1) arrays)
  = sum_list (map (λ tree, BatchContract.N tree - 1) trees).
Proof.
  destruct Hwf as (Hla & _ & Hsize & _).
  apply sum_list_pointwise; [done|].
  intros t array tree Ha Ht. by rewrite (Hsize t tree array Ht Ha).
Qed.

End Agree.

(** On a well-formed forest that a contraction list describes tree by tree
    (the entries with two children are those of the [children] dictionary),
    with a backend that keeps its contract for both batched equations,
    [batch_contract] of [batch_contract.py] and [batch_contract] of
    [batch_tn/batch.py] return the same tensors. *)
Theorem implementations_agree (B : Backend)
    (trees : list BatchContract.ContractionTree)
    (cb : list (list Batch.Contraction)) (arrays : list (list Tensor))
    (val : nat → TreeNode → Tensor) (fuel : nat) :
  bc_well_formed trees arrays →
  length cb = length trees →
  (∀ t tree cs, trees !! t = Some tree → cb !! t = Some cs →
                tn_binary cs ≡ₚ BatchContract.children tree) →
  leaf_values arrays val →
  bc_backend_sound trees val →
  tn_shapes_sound cb arrays val → tn_backend_sound cb arrays val →
  sum_list (map (λ tree, BatchContract.N tree - 1) trees) ≤ fuel →
  ∃ outs,
    BatchContract.batch_contract fuel trees arrays = Some (Ok outs)
    ∧ Batch.batch_contract fuel cb arrays = Some (Ok outs).
Proof.
  intros Hwf Hlen Hsame Hleaves HsoundA Hshapes HsoundB Hfuel.
  pose proof (agree_well_formed trees cb arrays Hwf Hlen Hsame) as HwfB.
  destruct (bc_batch_contract_ok trees arrays val Hwf HsoundA Hleaves fuel)
    as (outs & Hbc & HlenA & HoutA).
  { by rewrite (bc_instances_total _ _ Hwf). }
  destruct (tn_batch_contract_ok cb arrays val HwfB Hshapes HsoundB Hleaves fuel)
    as (outs' & Hbc' & HlenB & HoutB).
  { rewrite (tn_instances_total _ _ HwfB).
    by rewrite (agree_fuel trees arrays Hwf). }
  exists outs. split; [done|]. rewrite Hbc'. f_equal. f_equal.
  pose proof Hwf as (Hla & HwfF & _).
  apply list_eq. intros t.
  destruct (decide (t < length trees)) as [Hlt|Hge].
  - destruct (lookup_lt_is_Some_2 trees t Hlt) as [tree Ht].
    destruct (lookup_lt_is_Some_2 cb t ltac:(lia)) as [cs Hcs].
    destruct (lookup_lt_is_Some_2 arrays t ltac:(lia)) as [array Ha].
    destruct (HwfF t (BatchContract.N tree) (BatchContract.children tree))
      as [bt Htree].
    { apply bc_forest_lookup. by exists tree. }
    rewrite (HoutA t tree bt Ht Htree).
    apply (HoutB t (length array) (tn_binary cs) bt).
    + apply tn_forest_lookup. by exists cs, array.
    + by apply (agree_is_tree trees cb arrays Hwf Hsame t tree cs array bt).
  - rewrite !(proj2 (lookup_ge_None _ _)); [done | lia | lia].
Qed.

(** The chain of three leaves in both files. *)
Lemma implementations_agree_witness :
  ∃ outs,
    BatchContract.batch_contract (B := ShapeBackend.backend) 2
      [Examples.tree3] [Examples.arrays3] = Some (Ok outs)
    ∧ Batch.batch_contract (B := ShapeBackend.backend) 2
        [Examples.contractions3] [Examples.arrays3] = Some (Ok outs).
Proof.
  apply (implementations_agree ShapeBackend.backend
           [Examples.tree3] [Examples.contractions3] [Examples.arrays3]
           (λ _, Witness.val3) 2).
  - apply tree3_well_formed.
  - reflexivity.
  - intros [|t] tree cs Ht Hcs; [|done].
    injection Ht as <-. injection Hcs as <-. reflexivity.
  - apply tree3_leaf_values.
  - apply tree3_backend_sound.
  - apply contractions3_shapes_sound.
  - apply contractions3_backend_sound.
  - simpl. lia.
Defined.

(** * The schedule respects the dependencies *)

Lemma tn_replayable_lookup {B : Backend} cb ab val L batched i batch :
  tn_replayable cb ab val L batched → batched !! i = Some batch →
  tn_batch_valid cb ab val (L ++ concat (take i batched).*2) batch.
Proof.
  intros Hrep Hi.
  rewrite <-(take_drop_middle batched i batch Hi) in Hrep.
  apply tn_replayable_app in Hrep as [_ Hrep]. simpl in Hrep. by destruct Hrep.
Qed.

Lemma elem_of_concat_take {A K} (batched : list (K * list A)) i x :
  x ∈ concat (take i batched).*2 →
  ∃ j k targets, j < i ∧ batched !! j = Some (k, targets) ∧ x ∈ targets.
Proof.
  intros Hx. apply list_elem_of_In, in_concat in Hx as (targets & Hin & Hx).
  apply list_elem_of_In in Hin, Hx.
  apply list_elem_of_fmap in Hin as ([k targets'] & -> & Hin).
  apply list_elem_of_lookup in Hin as [j Hj].
  apply lookup_take_Some in Hj as [Hj Hlt].
  by exists j, k, targets'.
Qed.

(** On a well-formed input the schedule of [get_batched_contractions] has
    at most as many batches as there are instances; no batch is empty or
    lists a target twice; the targets of a batch have the equation of the
    batch and operands of the same two shapes; and every operand of a target
    is a leaf or the parent of a target of an earlier batch. *)
Theorem schedule_respects_dependencies (B : Backend)
    (cb : list (list Batch.Contraction)) (ab : list (list Tensor))
    (val : nat → TreeNode → Tensor) (fuel : nat) :
  tn_well_formed cb ab → leaf_values ab val → tn_shapes_sound cb ab val →
  sum_list (map (λ arrays, length arrays - 1) ab) ≤ fuel →
  ∃ batched,
    Batch.get_batched_contractions fuel cb (map (map tshape) ab)
    = Some (Ok batched)
    ∧ length batched ≤ sum_list (map (λ arrays, length arrays - 1) ab)
    ∧ ∀ i eq targets,
        batched !! i = Some (eq, targets) →
        targets ≠ [] ∧ NoDup targets
        ∧ (∃ shape_left shape_right,
             ∀ t p l r, (t, p, l, r) ∈ targets →
               ∃ cs, cb !! t = Some cs
                 ∧ dget p (Batch.children_map (Batch.build_maps cs)) = Some (l, r)
                 ∧ dget p (Batch.eq_map (Batch.build_maps cs)) = Some eq
                 ∧ tshape (val t l) = shape_left
                 ∧ tshape (val t r) = shape_right)
        ∧ ∀ t p l r x, (t, p, l, r) ∈ targets → x = l ∨ x = r →
            (∃ arrays j, ab !! t = Some arrays ∧ j < length arrays ∧ x = leaf j)
            ∨ (∃ i' eq' targets' l' r',
                 i' < i ∧ batched !! i' = Some (eq', targets')
                 ∧ (t, x, l', r') ∈ targets').
Proof.
  intros Hwf Hleaves Hshapes Hfuel.
  rewrite <-(tn_instances_total cb ab Hwf) in Hfuel |- *.
  destruct (tn_schedule_ok cb ab val Hwf Hshapes Hleaves fuel Hfuel)
    as (st & Hsched & _ & Hperm & _ & Hrep).
  exists (Batch.batched_contractions st).
  unfold Batch.get_batched_contractions. rewrite Hsched. split; [done|].
  assert (Hvalid : ∀ i batch, Batch.batched_contractions st !! i = Some batch →
            tn_batch_valid cb ab val
              (concat (take i (Batch.batched_contractions st)).*2) batch).
  { intros i batch Hi. by apply (tn_replayable_lookup cb ab val [] _ i batch). }
  split.
  - rewrite <-Hperm. apply table_length_le.
    apply Forall_lookup. intros i batch Hi. by destruct (Hvalid i batch Hi).
  - intros i eq targets Hi.
    destruct (Hvalid i _ Hi) as (Hne & Hnd & Hpend & sl & sr & Hsig).
    simpl in *. split_and!; [done..| |].
    + exists sl, sr. intros t p l r Hin.
      pose proof (proj1 (Forall_forall _ _) Hsig _ Hin) as (cs & Hcs & Heq & -> & ->).
      pose proof (proj1 (Forall_forall _ _) Hpend _ Hin) as (Hentry & _).
      apply (tn_entry cb ab Hwf) in Hentry as (cs' & Hcs' & Hch).
      rewrite Hcs in Hcs'. injection Hcs' as <-. by exists cs.
    + intros t p l r x Hin Hx.
      pose proof (proj1 (Forall_forall _ _) Hpend _ Hin) as (_ & _ & Hl & Hr).
      assert (Hav : avail (tn_forest cb ab)
                (concat (take i (Batch.batched_contractions st)).*2) t x)
        by (by destruct Hx as [-> | ->]).
      destruct Hav as [(n & ch & j & HF & Hj & ->)|(l' & r' & Hdone)].
      * left. apply tn_forest_lookup in HF as (cs & arrays & _ & Ha & -> & _).
        by exists arrays, j.
      * right. apply elem_of_concat_take in Hdone
          as (i' & eq' & targets' & Hlt & Hi' & Hin').
        by exists i', eq', targets', l', r'.
Qed.

Lemma schedule_respects_dependencies_witness :
  ∃ batched,
    Batch.get_batched_contractions 2 [Examples.contractions3]
      (map (map (tshape (Backend := ShapeBackend.backend))) [Examples.arrays3])
    = Some (Ok batched)
    ∧ length batched ≤ 2.
Proof.
  destruct (schedule_respects_dependencies ShapeBackend.backend
              [Examples.contractions3] [Examples.arrays3] (λ _, Witness.val3) 2
              contractions3_well_formed tree3_leaf_values
              contractions3_shapes_sound)
    as (batched & Hb & Hlen & _).
  - simpl. lia.
  - exists batched. split; [exact Hb | exact Hlen].
Defined.

(** * [get_result_shape] *)

Lemma bind_size_loop (pairs : list (Z * Z)) (d d' : dict Z Z) :
  for_each Batch.bind_size pairs d = Ok d' →
  (∀ c s, dget c d = Some s → dget c d' = Some s)
  ∧ (∀ c s, (c, s) ∈ pairs → dget c d' = Some s)
  ∧ (∀ c, is_Some (dget c d') → is_Some (dget c d) ∨ c ∈ pairs.*1).
Proof.
  revert d. induction pairs as [|[c0 s0] pairs IH]; intros d Hloop.
  - injection Hloop as <-. split_and!; [done| |by left].
    by intros c s ?%elem_of_nil.
  - rewrite for_each_cons in Hloop.
    apply bind_Ok in Hloop as (d1 & Hb & Hloop).
    destruct (IH _ Hloop) as (Hmono & Hin & Hkeys).
    assert (Hd1 : (∀ c s, dget c d = Some s → dget c d1 = Some s)
                  ∧ dget c0 d1 = Some s0
                  ∧ ∀ c, is_Some (dget c d1) → is_Some (dget c d) ∨ c = c0).
    { unfold Batch.bind_size in Hb. destruct (dget c0 d) as [known|] eqn:Hc0.
      - case_bool_decide as Hne; [done|]. injection Hb as <-.
        split_and!; [done| |by left].
        rewrite Hc0. f_equal. by destruct (decide (known = s0)).
      - injection Hb as <-. split_and!.
        + intros c s Hc. rewrite dget_dset.
          destruct (decide (c = c0)) as [->|]; [congruence | done].
        + rewrite dget_dset. by rewrite decide_True.
        + intros c. rewrite dget_dset.
          destruct (decide (c = c0)); [by right | by left]. }
    destruct Hd1 as (Hmono1 & Hc0 & Hkeys1). split_and!.
    + intros c s Hc. by apply Hmono, Hmono1.
    + intros c s [[= -> ->]|Hcs]%elem_of_cons; [by apply Hmono | by apply Hin].
    + intros c Hc. destruct (Hkeys c Hc) as [Hc1|Hc1].
      * destruct (Hkeys1 c Hc1) as [?| ->]; [by left|].
        right. apply elem_of_cons. by left.
      * right. apply elem_of_cons. by right.
Qed.

Lemma bind_size_raises (pairs : list (Z * Z)) (d : dict Z Z) e :
  for_each Batch.bind_size pairs d = Raise e → e = ValueError.
Proof.
  revert d. induction pairs as [|[c0 s0] pairs IH]; intros d Hloop; [done|].
  rewrite for_each_cons in Hloop.
  destruct (Batch.bind_size (c0, s0) d) as [d1|e1] eqn:Hb; simpl in Hloop.
  - by eapply IH.
  - injection Hloop as <-. unfold Batch.bind_size in Hb.
    destruct (dget c0 d); [|done]. case_bool_decide; [|done]. by injection Hb.
Qed.

Lemma zip_lookup_elem {A C} (l : list A) (k : list C) j x y :
  l !! j = Some x → k !! j = Some y → (x, y) ∈ zip l k.
Proof.
  intros Hx Hy. apply list_elem_of_lookup. exists j.
  apply lookup_zip_with_Some. by exists x, y.
Qed.

Lemma bind_term_loop (tss : list (str * ArrayShape)) (d d' : dict Z Z) :
  for_each Batch.bind_term tss d = Ok d' →
  (∀ c s, dget c d = Some s → dget c d' = Some s)
  ∧ (∀ term shape, (term, shape) ∈ tss →
       length shape = length term
       ∧ ∀ j c s, term !! j = Some c → shape !! j = Some s →
                  dget c d' = Some s)
  ∧ (∀ c, is_Some (dget c d') →
          is_Some (dget c d) ∨ ∃ term shape, (term, shape) ∈ tss ∧ c ∈ term).
Proof.
  revert d. induction tss as [|[term0 shape0] tss IH]; intros d Hloop.
  - injection Hloop as <-. split_and!; [done| |by left].
    by intros term shape ?%elem_of_nil.
  - rewrite for_each_cons in Hloop.
    apply bind_Ok in Hloop as (d1 & Hb & Hloop).
    destruct (IH _ Hloop) as (Hmono & Hin & Hkeys).
    unfold Batch.bind_term in Hb. case_bool_decide as Hlen; [done|].
    apply bind_size_loop in Hb as (Hmono1 & Hin1 & Hkeys1).
    split_and!.
    + intros c s Hc. by apply Hmono, Hmono1.
    + intros term shape [[= -> ->]|Hts]%elem_of_cons; [|by apply Hin].
      split; [lia|]. intros j c s Hc Hs.
      apply Hmono, Hin1. by eapply zip_lookup_elem.
    + intros c Hc. destruct (Hkeys c Hc) as [Hc1|(term & shape & Hts & Hct)].
      * destruct (Hkeys1 c Hc1) as [?|Hc0]; [by left|]. right.
        exists term0, shape0. split; [apply elem_of_cons; by left|].
        rewrite fst_zip in Hc0 by lia. done.
      * right. exists term, shape. split; [apply elem_of_cons; by right | done].
Qed.

Lemma bind_term_raises (tss : list (str * ArrayShape)) (d : dict Z Z) e :
  for_each Batch.bind_term tss d = Raise e → e = ValueError.
Proof.
  revert d. induction tss as [|[term0 shape0] tss IH]; intros d Hloop; [done|].
  rewrite for_each_cons in Hloop.
  destruct (Batch.bind_term (term0, shape0) d) as [d1|e1] eqn:Hb; simpl in Hloop.
  - by eapply IH.
  - injection Hloop as <-. unfold Batch.bind_term in Hb.
    case_bool_decide; [by injection Hb|]. by eapply bind_size_raises.
Qed.

(** The two outcomes of [get_result_shape] on an equation
    [t1,...,tn->out]: the sizes are bound and the output is looked up, or
    [ValueError]. *)
Lemma get_result_shape_cases (terms : list str) (output : str)
    (shapes : list ArrayShape) :
  terms ≠ [] → Forall (λ t, (44%Z ∉ t) ∧ (45%Z ∉ t)) terms → 45%Z ∉ output →
  let eq := join comma terms ++ arrow ++ output in
  (∃ d, length terms = length shapes
        ∧ for_each Batch.bind_term (zip terms shapes) [] = Ok d
        ∧ Batch.get_result_shape eq shapes
          = traverse (λ c, dindex c d) output)
  ∨ (Batch.get_result_shape eq shapes = Raise ValueError
     ∧ (length terms ≠ length shapes
        ∨ for_each Batch.bind_term (zip terms shapes) [] = Raise ValueError)).
Proof.
  intros Hne Hterms Hout eq.
  destruct (split_equation terms output Hne Hterms Hout) as [Harrow Hcomma].
  fold eq in Harrow. unfold Batch.get_result_shape. rewrite Harrow. simpl.
  rewrite Hcomma. case_bool_decide as Hlen; [right; by split; [|left]|].
  destruct (for_each Batch.bind_term (zip terms shapes) []) as [d|e] eqn:Hloop.
  - left. exists d. by split_and!; [lia|..].
  - right. apply bind_term_raises in Hloop as Heq. subst e. by split; [|right].
Qed.

Lemma traverse_lookup {A C} (f : A → result C) (l : list A) (out : list C) :
  traverse f l = Ok out →
  ∀ k x, l !! k = Some x → ∃ y, out !! k = Some y ∧ f x = Ok y.
Proof.
  revert out. induction l as [|x0 l IH]; intros out Htr k x Hk; [done|].
  simpl in Htr.
  apply bind_Ok in Htr as (y0 & Hy0 & Htr).
  apply bind_Ok in Htr as (ys & Hys & Htr). injection Htr as <-.
  destruct k as [|k]; simpl in *.
  - injection Hk as <-. by exists y0.
  - by apply (IH ys).
Qed.

Lemma traverse_dindex_raises {K V} {EqK : EqDecision K} (d : dict K V)
    (l : list K) :
  (∃ k, k ∈ l ∧ dget k d = None) →
  traverse (λ k, dindex k d) l = Raise KeyError.
Proof.
  intros (k & Hin & Hk). induction l as [|k0 l IH]; [by apply elem_of_nil in Hin|].
  change (traverse (λ k, dindex k d) (k0 :: l))
    with (y ← dindex k0 d; ys ← traverse (λ k, dindex k d) l; Ok (y :: ys)).
  destruct (dget k0 d) as [v|] eqn:Hk0.
  - replace (dindex k0 d) with (Ok v : result V)
      by (unfold dindex; by rewrite Hk0).
    apply elem_of_cons in Hin as [->|Hin]; [congruence|].
    simpl. by rewrite IH.
  - replace (dindex k0 d) with (Raise KeyError : result V)
      by (unfold dindex; by rewrite Hk0).
    done.
Qed.

(** When [get_result_shape] returns on an equation [t1,...,tn->out], there
    is one shape per term and one size per index of every term, the result
    has one size per index of the output, every index of the output occurs
    in a term, and the size returned for an index is the size that every
    operand gives to that index. *)
Theorem get_result_shape_sound (terms : list str) (output : str)
    (shapes : list ArrayShape) (out : ArrayShape) :
  terms ≠ [] → Forall (λ t, (44%Z ∉ t) ∧ (45%Z ∉ t)) terms → 45%Z ∉ output →
  Batch.get_result_shape (join comma terms ++ arrow ++ output) shapes = Ok out →
  length shapes = length terms
  ∧ length out = length output
  ∧ (∀ i term shape, terms !! i = Some term → shapes !! i = Some shape →
                     length shape = length term)
  ∧ (∀ k c, output !! k = Some c →
            ∃ i term, terms !! i = Some term ∧ c ∈ term)
  ∧ (∀ i term shape j c s k,
       terms !! i = Some term → shapes !! i = Some shape →
       term !! j = Some c → shape !! j = Some s →
       output !! k = Some c → out !! k = Some s).
Proof.
  intros Hne Hterms Hout Hres.
  destruct (get_result_shape_cases terms output shapes Hne Hterms Hout)
    as [(d & Hlen & Hloop & Heq)|[Heq _]]; [|congruence].
  rewrite Hres in Heq. symmetry in Heq.
  destruct (bind_term_loop _ _ _ Hloop) as (_ & Hin & Hkeys).
  split_and!.
  - done.
  - by apply traverse_length in Heq.
  - intros i term shape Hi Hs.
    by apply (Hin term shape), (zip_lookup_elem _ _ i).
  - intros k c Hk.
    destruct (traverse_lookup _ _ _ Heq k c Hk) as (s & _ & Hc%dindex_Ok).
    destruct (Hkeys c) as [[? ?]|(term & shape & Hts & Hct)]; [by eauto|done|].
    apply list_elem_of_lookup in Hts as [i Hi].
    apply lookup_zip_with_Some in Hi as (term' & shape' & [= <- <-] & Hi & _).
    by exists i, term.
  - intros i term shape j c s k Hi Hsh Hj Hs Hk.
    destruct (traverse_lookup _ _ _ Heq k c Hk) as (s' & -> & Hc%dindex_Ok).
    destruct (Hin term shape (zip_lookup_elem _ _ i _ _ Hi Hsh)) as [_ Hd].
    rewrite (Hd j c s Hj Hs) in Hc. by injection Hc as ->.
Qed.

Lemma get_result_shape_sound_witness :
  length [[2; 3]; [3; 4]]%Z = length [py "ab"; py "bc"]
  ∧ length [2; 4]%Z = length (py "ac").
Proof.
  destruct (get_result_shape_sound [py "ab"; py "bc"] (py "ac")
              [[2; 3]; [3; 4]]%Z [2; 4]%Z) as (H1 & H2 & _).
  - discriminate.
  - repeat constructor; vm_compute; intros Hin;
      repeat (apply elem_of_cons in Hin as [Hin|Hin]; [discriminate|]);
      by apply elem_of_nil in Hin.
  - vm_compute; intros Hin;
      repeat (apply elem_of_cons in Hin as [Hin|Hin]; [discriminate|]);
      by apply elem_of_nil in Hin.
  - by vm_compute.
  - by split.
Defined.

(** The failures of [get_result_shape] on an equation [t1,...,tn->out]:
    [ValueError] when the number of shapes is not the number of terms, when
    a shape has not one size per index of its term, or when two operands
    give different sizes to one index; and [KeyError] when the sizes are
    consistent but an index of the output occurs in no term. *)
Theorem get_result_shape_errors (terms : list str) (output : str)
    (shapes : list ArrayShape) :
  terms ≠ [] → Forall (λ t, (44%Z ∉ t) ∧ (45%Z ∉ t)) terms → 45%Z ∉ output →
  let eq := join comma terms ++ arrow ++ output in
  (length shapes ≠ length terms →
   Batch.get_result_shape eq shapes = Raise ValueError)
  ∧ ((∃ i term shape, terms !! i = Some term ∧ shapes !! i = Some shape
                      ∧ length shape ≠ length term) →
     Batch.get_result_shape eq shapes = Raise ValueError)
  ∧ ((∃ i term shape j i' term' shape' j' c s s',
        terms !! i = Some term ∧ shapes !! i = Some shape
        ∧ term !! j = Some c ∧ shape !! j = Some s
        ∧ terms !! i' = Some term' ∧ shapes !! i' = Some shape'
        ∧ term' !! j' = Some c ∧ shape' !! j' = Some s' ∧ s ≠ s') →
     Batch.get_result_shape eq shapes = Raise ValueError)
  ∧ ((∃ c, c ∈ output ∧ Forall (λ term, c ∉ term) terms) →
     Batch.get_result_shape eq shapes = Raise ValueError
     ∨ Batch.get_result_shape eq shapes = Raise KeyError).
Proof.
  intros Hne Hterms Hout eq.
  destruct (get_result_shape_cases terms output shapes Hne Hterms Hout)
    as [(d & Hlen & Hloop & Heq)|[Heq _]]; fold eq in Heq;
    [|by split_and!; [..|left]].
  destruct (bind_term_loop _ _ _ Hloop) as (_ & Hin & Hkeys).
  split_and!.
  - intros Hl. lia.
  - intros (i & term & shape & Hi & Hs & Hl).
    destruct (Hin term shape (zip_lookup_elem _ _ i _ _ Hi Hs)) as [? _]. lia.
  - intros (i & term & shape & j & i' & term' & shape' & j' & c & s & s'
            & Hi & Hsh & Hj & Hs & Hi' & Hsh' & Hj' & Hs' & Hdiff).
    destruct (Hin term shape (zip_lookup_elem _ _ i _ _ Hi Hsh)) as [_ Hd].
    destruct (Hin term' shape' (zip_lookup_elem _ _ i' _ _ Hi' Hsh')) as [_ Hd'].
    pose proof (Hd j c s Hj Hs) as Hc. rewrite (Hd' j' c s' Hj' Hs') in Hc.
    congruence.
  - intros (c & Hc & Hno). right. rewrite Heq.
    apply traverse_dindex_raises. exists c. split; [done|].
    destruct (dget c d) as [s|] eqn:Hd; [|done].
    destruct (Hkeys c) as [[? ?]|(term & shape & Hts & Hct)]; [by eauto|done|].
    apply elem_of_zip_l in Hts.
    by pose proof (proj1 (Forall_forall _ _) Hno term Hts).
Qed.

Lemma get_result_shape_errors_witness :
  Batch.get_result_shape (py "ab,bc->ac") [[2; 3]%Z] = Raise ValueError
  ∧ Batch.get_result_shape (py "ab,bc->ac") [[2; 3]; [5; 4]]%Z
    = Raise ValueError.
Proof.
  destruct (get_result_shape_errors [py "ab"; py "bc"] (py "ac") [[2; 3]%Z])
    as (Hlen & _).
  { discriminate. }
  { repeat constructor; vm_compute; intros Hin;
      repeat (apply elem_of_cons in Hin as [Hin|Hin]; [discriminate|]);
      by apply elem_of_nil in Hin. }
  { vm_compute; intros Hin;
      repeat (apply elem_of_cons in Hin as [Hin|Hin]; [discriminate|]);
      by apply elem_of_nil in Hin. }
  destruct (get_result_shape_errors [py "ab"; py "bc"] (py "ac")
              [[2; 3]; [5; 4]]%Z) as (_ & _ & Hsize & _).
  { discriminate. }
  { repeat constructor; vm_compute; intros Hin;
      repeat (apply elem_of_cons in Hin as [Hin|Hin]; [discriminate|]);
      by apply elem_of_nil in Hin. }
  { vm_compute; intros Hin;
      repeat (apply elem_of_cons in Hin as [Hin|Hin]; [discriminate|]);
      by apply elem_of_nil in Hin. }
  split.
  - apply Hlen. simpl. lia.
  - apply Hsize.
    exists 0, (py "ab"), [2; 3]%Z, 1, 1, (py "bc"), [5; 4]%Z, 0, 98%Z, 3%Z, 5%Z.
    by split_and!.
Defined.

(** * Equations that cannot be batched *)

Lemma split_from_nonempty (sep : str) (skip : nat) (s : str) :
  split_from sep skip s ≠ [].
Proof.
  revert skip. induction s as [|c s IH]; intros skip; simpl; [done|].
  destruct skip as [|k]; [|apply IH].
  destruct (is_prefix sep (c :: s)); [done|].
  by destruct (split_from sep 0 s).
Qed.

Lemma unpack2_arrow_none (eq : str) :
  45%Z ∉ eq → unpack2 (split arrow eq) = Raise ValueError.
Proof. intros Hno. unfold arrow. by rewrite split_none. Qed.

Lemma unpack2_arrow_twice (a b c : str) :
  45%Z ∉ a → 45%Z ∉ b →
  unpack2 (split arrow (a ++ arrow ++ b ++ arrow ++ c)) = Raise ValueError.
Proof.
  intros Ha Hb. unfold arrow. rewrite !split_app_sep by done.
  pose proof (split_from_nonempty (45 :: [62])%Z 0 c) as Hne.
  unfold split. by destruct (split_from _ 0 c).
Qed.

(** An equation without a hyphen, or with two arrows, is refused with
    [ValueError] by [get_batched_einsum_equation] of both files, whatever
    the batch symbol; and the function of [batch_tn/batch.py], called
    without a batch symbol, refuses with [ValueError] an equation that
    contains the last code point, U+10FFFF. *)
Theorem batched_equation_errors :
  (∀ eq : str,
     45%Z ∉ eq →
     BatchContract.get_batched_einsum_equation eq = Raise ValueError
     ∧ ∀ symbol, Batch.get_batched_einsum_equation eq symbol = Raise ValueError)
  ∧ (∀ a b c : str,
       45%Z ∉ a → 45%Z ∉ b →
       let eq := a ++ arrow ++ b ++ arrow ++ c in
       BatchContract.get_batched_einsum_equation eq = Raise ValueError
       ∧ ∀ symbol, Batch.get_batched_einsum_equation eq symbol = Raise ValueError)
  ∧ (∀ eq : str,
       max_code_point ∈ eq →
       Batch.get_batched_einsum_equation eq None = Raise ValueError).
Proof.
  assert (Hgen : ∀ eq : str,
    unpack2 (split arrow eq) = Raise ValueError →
    BatchContract.get_batched_einsum_equation eq = Raise ValueError
    ∧ ∀ symbol, Batch.get_batched_einsum_equation eq symbol = Raise ValueError).
  { intros eq Hun. split.
    - unfold BatchContract.get_batched_einsum_equation. by rewrite Hun.
    - intros symbol. unfold Batch.get_batched_einsum_equation.
      destruct symbol as [symbol|]; simpl; [by rewrite Hun|].
      destruct (max_ord eq) as [top|e] eqn:Htop; simpl.
      + unfold chr. case_bool_decide; simpl; [by rewrite Hun | done].
      + destruct eq; [by injection Htop as <- | done]. }
  split_and!.
  - intros eq Hno. by apply Hgen, unpack2_arrow_none.
  - intros a b c Ha Hb eq. by apply Hgen, unpack2_arrow_twice.
  - intros eq Hin. unfold Batch.get_batched_einsum_equation.
    destruct (max_ord eq) as [top|e] eqn:Htop.
    + pose proof (max_ord_upper _ _ _ Htop Hin) as Hle.
      simpl. unfold chr. rewrite bool_decide_eq_false_2; [done|].
      unfold max_code_point in *. lia.
    + destruct eq; [by apply elem_of_nil in Hin | done].
Qed.

Lemma batched_equation_errors_witness :
  BatchContract.get_batched_einsum_equation (py "ab,bc") = Raise ValueError
  ∧ Batch.get_batched_einsum_equation (py "a->b->c") None = Raise ValueError.
Proof.
  split.
  - apply (proj1 batched_equation_errors (py "ab,bc")).
    vm_compute; intros Hin;
      repeat (apply elem_of_cons in Hin as [Hin|Hin]; [discriminate|]);
      by apply elem_of_nil in Hin.
  - apply (proj1 (proj2 batched_equation_errors) (py "a") (py "b") (py "c")).
    + vm_compute; intros Hin;
        repeat (apply elem_of_cons in Hin as [Hin|Hin]; [discriminate|]);
        by apply elem_of_nil in Hin.
    + vm_compute; intros Hin;
        repeat (apply elem_of_cons in Hin as [Hin|Hin]; [discriminate|]);
        by apply elem_of_nil in Hin.
Defined.

(** * The result shape of a batched equation *)

Section BatchAxis.
Variables (z m : Z).

Lemma bind_size_batch_axis (pairs : list (Z * Z)) (d : dict Z Z) :
  z ∉ pairs.*1 →
  for_each Batch.bind_size pairs ((z, m) :: d)
  = match for_each Batch.bind_size pairs d with
    | Ok d' => Ok ((z, m) :: d')
    | Raise e => Raise e
    end.
Proof.
  revert d. induction pairs as [|[c s] pairs IH]; intros d Hz; [done|].
  apply not_elem_of_cons in Hz as [Hc Hz]. simpl in Hc.
  rewrite !for_each_cons.
  assert (Hstep : Batch.bind_size (c, s) ((z, m) :: d)
                  = match Batch.bind_size (c, s) d with
                    | Ok d' => Ok ((z, m) :: d')
                    | Raise e => Raise e
                    end).
  { unfold Batch.bind_size. simpl. rewrite decide_False by congruence.
    destruct (dget c d) as [known|].
    - by case_bool_decide.
    - by rewrite decide_False by congruence. }
  rewrite Hstep. destruct (Batch.bind_size (c, s) d) as [d1|e]; simpl; [|done].
  by apply IH.
Qed.

Lemma fst_zip_subseteq {A C} (l : list A) (k : list C) x :
  x ∈ (zip l k).*1 → x ∈ l.
Proof.
  intros ([a c] & -> & Hin)%list_elem_of_fmap. by apply elem_of_zip_l in Hin.
Qed.

Lemma bind_term_batch_axis (term : str) (shape : ArrayShape) (d : dict Z Z) :
  z ∉ term →
  Batch.bind_term (z :: term, m :: shape) ((z, m) :: d)
  = match Batch.bind_term (term, shape) d with
    | Ok d' => Ok ((z, m) :: d')
    | Raise e => Raise e
    end.
Proof.
  intros Hz. unfold Batch.bind_term.
  change (length (m :: shape)) with (S (length shape)).
  change (length (z :: term)) with (S (length term)).
  destruct (decide (length shape = length term)) as [Hlen|Hlen].
  - rewrite !bool_decide_eq_false_2 by lia.
    change (zip (z :: term) (m :: shape)) with ((z, m) :: zip term shape).
    rewrite for_each_cons.
    assert (Hfirst : Batch.bind_size (z, m) ((z, m) :: d) = Ok ((z, m) :: d)).
    { unfold Batch.bind_size. simpl. rewrite decide_True by done.
      by rewrite bool_decide_eq_false_2 by (intros Hne; by apply Hne). }
    rewrite Hfirst. simpl. apply bind_size_batch_axis.
    intros Hin. by apply Hz, (fst_zip_subseteq term shape).
  - by rewrite !bool_decide_eq_true_2 by lia.
Qed.

Lemma bind_term_first_batch_axis (term : str) (shape : ArrayShape) :
  z ∉ term →
  Batch.bind_term (z :: term, m :: shape) []
  = match Batch.bind_term (term, shape) [] with
    | Ok d' => Ok ((z, m) :: d')
    | Raise e => Raise e
    end.
Proof.
  intros Hz. unfold Batch.bind_term.
  change (length (m :: shape)) with (S (length shape)).
  change (length (z :: term)) with (S (length term)).
  destruct (decide (length shape = length term)) as [Hlen|Hlen].
  - rewrite !bool_decide_eq_false_2 by lia.
    change (zip (z :: term) (m :: shape)) with ((z, m) :: zip term shape).
    rewrite for_each_cons.
    change (Batch.bind_size (z, m) []) with (Ok [(z, m)] : result (dict Z Z)).
    simpl. apply bind_size_batch_axis.
    intros Hin. by apply Hz, (fst_zip_subseteq term shape).
  - by rewrite !bool_decide_eq_true_2 by lia.
Qed.

Lemma bind_terms_batch_axis (terms : list str) (shapes : list ArrayShape)
    (d : dict Z Z) :
  Forall (λ term, z ∉ term) terms →
  for_each Batch.bind_term (zip (map (cons z) terms) (map (cons m) shapes))
           ((z, m) :: d)
  = match for_each Batch.bind_term (zip terms shapes) d with
    | Ok d' => Ok ((z, m) :: d')
    | Raise e => Raise e
    end.
Proof.
  intros Hz. revert shapes d.
  induction Hz as [|term terms Hzt Hz IH]; intros shapes d; [done|].
  destruct shapes as [|shape shapes]; [done|].
  change (zip (map (cons z) (term :: terms)) (map (cons m) (shape :: shapes)))
    with ((z :: term, m :: shape)
          :: zip (map (cons z) terms) (map (cons m) shapes)).
  change (zip (term :: terms) (shape :: shapes))
    with ((term, shape) :: zip terms shapes).
  rewrite !for_each_cons, bind_term_batch_axis by done.
  destruct (Batch.bind_term (term, shape) d) as [d1|e]; simpl; [|done].
  apply IH.
Qed.

Lemma bind_all_batch_axis (terms : list str) (shapes : list ArrayShape) :
  terms ≠ [] → length terms = length shapes →
  Forall (λ term, z ∉ term) terms →
  for_each Batch.bind_term (zip (map (cons z) terms) (map (cons m) shapes)) []
  = match for_each Batch.bind_term (zip terms shapes) [] with
    | Ok d' => Ok ((z, m) :: d')
    | Raise e => Raise e
    end.
Proof.
  intros Hne Hlen Hz.
  destruct terms as [|term terms]; [done|].
  destruct shapes as [|shape shapes]; [done|].
  apply Forall_cons in Hz as [Hzt Hz].
  change (zip (map (cons z) (term :: terms)) (map (cons m) (shape :: shapes)))
    with ((z :: term, m :: shape)
          :: zip (map (cons z) terms) (map (cons m) shapes)).
  change (zip (term :: terms) (shape :: shapes))
    with ((term, shape) :: zip terms shapes).
  rewrite !for_each_cons, bind_term_first_batch_axis by done.
  destruct (Batch.bind_term (term, shape) []) as [d1|e]; simpl; [|done].
  by apply bind_terms_batch_axis.
Qed.

Lemma traverse_batch_axis (output : str) (d : dict Z Z) :
  z ∉ output →
  traverse (λ c, dindex c ((z, m) :: d)) output
  = traverse (λ c, dindex c d) output.
Proof.
  induction output as [|c output IH]; intros Hz; [done|].
  apply not_elem_of_cons in Hz as [Hc Hz]. simpl.
  rewrite IH by done.
  replace (dindex c ((z, m) :: d)) with (dindex c d); [done|].
  unfold dindex. simpl. by rewrite decide_False by congruence.
Qed.

End BatchAxis.

Lemma elem_of_join_term (sep : str) (terms : list str) (term : str) (x : Z) :
  term ∈ terms → x ∈ term → x ∈ join sep terms.
Proof.
  induction terms as [|t0 terms IH]; intros Hin Hx; [by apply elem_of_nil in Hin|].
  apply elem_of_cons in Hin as [->|Hin]; simpl.
  - destruct terms; [done|]. apply elem_of_app. by left.
  - destruct terms as [|t1 terms]; [by apply elem_of_nil in Hin|].
    rewrite !elem_of_app. right. right. by apply IH.
Qed.

Lemma result_shape_batch_axis (terms : list str) (output : str)
    (shapes : list ArrayShape) (out : ArrayShape) (z m : Z) :
  terms ≠ [] → Forall (λ t, (44%Z ∉ t) ∧ (45%Z ∉ t)) terms → 45%Z ∉ output →
  z ≠ 44%Z → z ≠ 45%Z → Forall (λ term, z ∉ term) terms → z ∉ output →
  Batch.get_result_shape (join comma terms ++ arrow ++ output) shapes = Ok out →
  Batch.get_result_shape
    (join comma (map (cons z) terms) ++ arrow ++ z :: output)
    (map (cons m) shapes)
  = Ok (m :: out).
Proof.
  intros Hne Hterms Hout Hz44 Hz45 Hzt Hzo Hres.
  destruct (get_result_shape_cases terms output shapes Hne Hterms Hout)
    as [(d & Hlen & Hloop & Heq)|[Heq _]]; [|congruence].
  rewrite Hres in Heq.
  destruct (split_equation (map (cons z) terms) (z :: output)) as [Harrow Hcomma].
  - by destruct terms.
  - apply Forall_map. eapply Forall_impl; [exact Hterms|].
    intros t [H44 H45]. simpl. rewrite !not_elem_of_cons. by split_and!.
  - apply not_elem_of_cons. by split.
  - unfold Batch.get_result_shape. rewrite Harrow. simpl. rewrite Hcomma.
    rewrite bool_decide_eq_false_2 by (rewrite !length_map; lia).
    rewrite (bind_all_batch_axis z m terms shapes Hne Hlen Hzt), Hloop. simpl.
    replace (dindex z ((z, m) :: d)) with (Ok m : result Z)
      by (unfold dindex; simpl; by rewrite decide_True).
    simpl. by rewrite traverse_batch_axis, <-Heq.
Qed.

(** The batch axis passes through [get_result_shape]: when
    [get_result_shape] returns [out] for an equation [t1,...,tn->out] and
    shapes, it returns [m :: out] for the batched equation and the shapes
    with a leading axis of size [m], both for a batch symbol that is a
    single character not in the equation, other than the comma and the
    hyphen, and for the symbol that [get_batched_einsum_equation] of
    [batch_tn/batch.py] chooses when none is given. *)
Theorem batched_equation_result_shape (terms : list str) (output : str)
    (shapes : list ArrayShape) (out : ArrayShape) (m : Z) :
  terms ≠ [] → Forall (λ t, (44%Z ∉ t) ∧ (45%Z ∉ t)) terms → 45%Z ∉ output →
  let eq := join comma terms ++ arrow ++ output in
  Batch.get_result_shape eq shapes = Ok out →
  (∀ z, z ≠ 44%Z → z ≠ 45%Z → z ∉ eq →
        ∃ beq, Batch.get_batched_einsum_equation eq (Some [z]) = Ok beq
               ∧ Batch.get_result_shape beq (map (cons m) shapes)
                 = Ok (m :: out))
  ∧ (Forall (λ c, (c < max_code_point)%Z) eq →
     ∃ beq, Batch.get_batched_einsum_equation eq None = Ok beq
            ∧ Batch.get_result_shape beq (map (cons m) shapes)
              = Ok (m :: out)).
Proof.
  intros Hne Hterms Hout eq Hres.
  destruct (split_equation terms output Hne Hterms Hout) as [Harrow Hcomma].
  fold eq in Harrow.
  assert (Hfresh : ∀ z, z ∉ eq → Forall (λ term, z ∉ term) terms ∧ z ∉ output).
  { intros z Hz. split.
    - apply Forall_forall. intros term Hin Hx. apply Hz.
      unfold eq. apply elem_of_app. left. by eapply elem_of_join_term.
    - intros Hx. apply Hz. unfold eq. rewrite !elem_of_app. by right; right. }
  assert (Hsome : ∀ z, z ≠ 44%Z → z ≠ 45%Z → z ∉ eq →
    Batch.get_batched_einsum_equation eq (Some [z])
    = Ok (join comma (map (cons z) terms) ++ arrow ++ z :: output)
    ∧ Batch.get_result_shape
        (join comma (map (cons z) terms) ++ arrow ++ z :: output)
        (map (cons m) shapes) = Ok (m :: out)).
  { intros z Hz44 Hz45 Hz. destruct (Hfresh z Hz) as [Hzt Hzo]. split.
    - unfold Batch.get_batched_einsum_equation. simpl.
      rewrite Harrow. simpl. by rewrite Hcomma.
    - by apply result_shape_batch_axis. }
  split.
  - intros z Hz44 Hz45 Hz. eexists. by apply Hsome.
  - intros Hbound.
    assert (Hin : 62%Z ∈ eq).
    { unfold eq, arrow. rewrite !elem_of_app. right. left.
      apply elem_of_cons. right. apply elem_of_cons. by left. }
    destruct (max_ord eq) as [top|e] eqn:Htop.
    2:{ destruct eq; [by apply elem_of_nil in Hin | done]. }
    assert (Hlow : (62 ≤ top)%Z) by (by eapply max_ord_upper).
    assert (Hup : (top < max_code_point)%Z).
    { destruct eq as [|c s]; [done|]. simpl in Htop. injection Htop as <-.
      apply Forall_cons in Hbound as [Hc Hs]. by apply foldl_max_bound. }
    assert (Hz : (top + 1)%Z ∉ eq).
    { intros Hz. pose proof (max_ord_upper _ _ _ Htop Hz). lia. }
    destruct (Hsome (top + 1)%Z) as [Hbeq Hshape]; [lia | lia | done |].
    eexists. split; [|exact Hshape].
    unfold Batch.get_batched_einsum_equation in *. rewrite Htop. simpl.
    unfold chr. rewrite bool_decide_eq_true_2 by lia. exact Hbeq.
Qed.

Lemma batched_equation_result_shape_witness :
  ∃ beq, Batch.get_batched_einsum_equation (py "ab,bc->ac") None = Ok beq
         ∧ Batch.get_result_shape beq (map (cons 7%Z) [[2; 3]; [3; 4]]%Z)
           = Ok [7; 2; 4]%Z.
Proof.
  apply (batched_equation_result_shape [py "ab"; py "bc"] (py "ac")
           [[2; 3]; [3; 4]]%Z [2; 4]%Z 7%Z).
  - discriminate.
  - repeat constructor; vm_compute; intros Hin;
      repeat (apply elem_of_cons in Hin as [Hin|Hin]; [discriminate|]);
      by apply elem_of_nil in Hin.
  - vm_compute; intros Hin;
      repeat (apply elem_of_cons in Hin as [Hin|Hin]; [discriminate|]);
      by apply elem_of_nil in Hin.
  - by vm_compute.
  - repeat constructor.
Defined.

(** * Copies of a tree are batched together *)

Section TableKeys.
Context {K I J : Type} {EqK : EqDecision K}.

Lemma dappend_keys_eq (k : K) (x : I) (y : J) (T : dict K (list I))
    (T' : dict K (list J)) :
  T.*1 = T'.*1 → (dappend k x T).*1 = (dappend k y T').*1.
Proof.
  revert T'. induction T as [|[k0 l0] T IH]; intros [|[k0' l0'] T'] Hkeys;
    try done.
  injection Hkeys as -> Hkeys. simpl.
  destruct (decide (k = k0')); simpl; [by f_equal|].
  f_equal. by apply IH.
Qed.

Lemma dappend_keys_present (k : K) (x : I) (T : dict K (list I)) :
  k ∈ T.*1 → (dappend k x T).*1 = T.*1.
Proof.
  induction T as [|[k0 l0] T IH]; intros Hin; [by apply elem_of_nil in Hin|].
  simpl. destruct (decide (k = k0)) as [->|Hne]; simpl; [done|].
  f_equal. apply IH. by apply elem_of_cons in Hin as [?|?].
Qed.

Lemma ddel_keys_eq (k : K) (T : dict K (list I)) (T' : dict K (list J)) :
  T.*1 = T'.*1 → (ddel k T).*1 = (ddel k T').*1.
Proof.
  revert T'. induction T as [|[k0 l0] T IH]; intros [|[k0' l0'] T'] Hkeys;
    try done.
  injection Hkeys as -> Hkeys. simpl.
  destruct (decide (k = k0')); simpl; [done|]. f_equal. by apply IH.
Qed.

Lemma dget_keys_eq (k : K) (T : dict K (list I)) (T' : dict K (list J)) :
  T.*1 = T'.*1 → is_Some (dget k T) → is_Some (dget k T').
Proof. intros Hkeys. rewrite !dget_is_Some. by rewrite Hkeys. Qed.

(** The key chosen by [max] depends on the keys and on the order of the
    lengths only. *)
Lemma max_by_len_scaled (n : nat) (best : K * list I) (best' : K * list J)
    (T : dict K (list I)) (T' : dict K (list J)) :
  1 ≤ n → best.1 = best'.1 → length best'.2 = n * length best.2 →
  Forall2 (λ kl kl', kl.1 = kl'.1 ∧ length kl'.2 = n * length kl.2) T T' →
  max_by_len best' T' = max_by_len best T.
Proof.
  intros Hn Hk Hl Hall. revert best best' Hk Hl.
  induction Hall as [|[k l] [k' l'] T T' [Hkk Hll] Hall IH];
    intros best best' Hk Hl; simpl in *; [done|]. subst k'.
  destruct (decide (length best.2 < length l)) as [Hlt|Hge].
  - rewrite !bool_decide_eq_true_2 by nia. by apply IH.
  - rewrite !bool_decide_eq_false_2 by nia. by apply IH.
Qed.

Lemma dmax_scaled (n : nat) (T : dict K (list I)) (T' : dict K (list J)) :
  1 ≤ n →
  Forall2 (λ kl kl', kl.1 = kl'.1 ∧ length kl'.2 = n * length kl.2) T T' →
  dmax T' = dmax T.
Proof.
  intros Hn Hall. destruct Hall as [|[k l] [k' l'] T T' [Hk Hl] Hall]; [done|].
  simpl. f_equal. by apply (max_by_len_scaled n).
Qed.

(** With distinct keys a table is determined by its keys and its lists. *)
Lemma table_lookup_dget {V} (T : dict K V) i k l :
  NoDup T.*1 → T !! i = Some (k, l) → dget k T = Some l.
Proof.
  intros Hnd Hi. apply elem_of_dget; [done|]. by eapply list_elem_of_lookup_2.
Qed.

Lemma table_Forall2 (R : list I → list J → Prop) (T : dict K (list I))
    (T' : dict K (list J)) :
  T.*1 = T'.*1 → NoDup T.*1 →
  (∀ k, R (default [] (dget k T)) (default [] (dget k T'))) →
  Forall2 (λ kl kl', kl.1 = kl'.1 ∧ R kl.2 kl'.2) T T'.
Proof.
  intros Hkeys Hnd HR. apply Forall2_same_length_lookup. split.
  - by rewrite <-(length_fmap fst T), Hkeys, length_fmap.
  - intros i [k l] [k' l'] Hi Hi'. simpl.
    assert (Hk : k = k').
    { assert (T.*1 !! i = Some k) by (by rewrite list_lookup_fmap, Hi).
      assert (T'.*1 !! i = Some k') by (by rewrite list_lookup_fmap, Hi').
      congruence. }
    subst k'. split; [done|]. specialize (HR k).
    rewrite (table_lookup_dget T i k l Hnd Hi) in HR.
    rewrite (table_lookup_dget T' i k l') in HR; [done | by rewrite <-Hkeys | done].
Qed.

End TableKeys.

Lemma expand_length (n : nat) (seg : list Entry) :
  length (expand n seg) = n * length seg.
Proof.
  unfold expand. generalize 0.
  induction n as [|n IH]; intros k; simpl; [done|].
  by rewrite length_app, length_map, IH.
Qed.

Lemma expand_S (n : nat) (seg : list Entry) :
  expand (S n) seg = expand n seg ++ map (tag n) seg.
Proof. unfold expand. by rewrite seq_S, flat_map_app; simpl; rewrite app_nil_r. Qed.

Lemma replicated_nil (n : nat) : replicated n [] [].
Proof. by exists []. Qed.

Lemma replicated_app (n : nat) (l1 ln : list Instance) (seg : list Entry) :
  replicated n l1 ln →
  replicated n (l1 ++ map (tag 0) seg) (ln ++ expand n seg).
Proof.
  intros (segs & -> & ->). exists (segs ++ [seg]).
  rewrite concat_app, map_app, flat_map_app. simpl. by rewrite !app_nil_r.
Qed.

Lemma replicated_length (n : nat) (l1 ln : list Instance) :
  replicated n l1 ln → length ln = n * length l1.
Proof.
  intros (segs & -> & ->). rewrite length_map.
  induction segs as [|seg segs IH]; simpl; [lia|].
  rewrite !length_app, expand_length, IH. lia.
Qed.

Lemma replicated_one (l1 ln : list Instance) : replicated 1 l1 ln → ln = l1.
Proof.
  intros (segs & -> & ->). induction segs as [|seg segs IH]; simpl; [done|].
  rewrite map_app, IH. unfold expand. simpl. by rewrite app_nil_r.
Qed.

Section Extend.
Context {K : Type} {EqK : EqDecision K}.
Implicit Types (T : dict K (list Instance)) (A : list (K * Entry)).

Lemma extend_snoc T A k e t :
  extend T (A ++ [(k, e)]) t = dappend k (tag t e) (extend T A t).
Proof. unfold extend. by rewrite foldl_app. Qed.

Lemma extend_dget T A t k :
  default [] (dget k (extend T A t))
  = default [] (dget k T) ++ map (tag t) (select k A).
Proof.
  induction A as [|[k0 e0] A IH] using rev_ind.
  - simpl. by rewrite app_nil_r.
  - rewrite extend_snoc, dget_dappend. unfold select in *. rewrite omap_app.
    simpl. destruct (decide (k = k0)) as [->|Hne].
    + rewrite decide_True by done. simpl.
      rewrite IH, map_app, app_assoc. done.
    + rewrite decide_False by congruence. simpl. by rewrite app_nil_r.
Qed.

Lemma extend_keys_eq T T' A t t' :
  T.*1 = T'.*1 → (extend T A t).*1 = (extend T' A t').*1.
Proof.
  intros Hkeys. induction A as [|[k0 e0] A IH] using rev_ind; [done|].
  rewrite !extend_snoc. by apply dappend_keys_eq.
Qed.

Lemma extend_keys_mono T A t k : k ∈ T.*1 → k ∈ (extend T A t).*1.
Proof.
  intros Hin. induction A as [|[k0 e0] A IH] using rev_ind; [done|].
  rewrite extend_snoc, dappend_keys. by right.
Qed.

Lemma extend_keys_elem T A t k e : (k, e) ∈ A → k ∈ (extend T A t).*1.
Proof.
  induction A as [|[k0 e0] A IH] using rev_ind; [by intros ?%elem_of_nil|].
  rewrite extend_snoc, dappend_keys.
  intros [Hin|[= -> ->]%list_elem_of_singleton]%elem_of_app; [right; auto | by left].
Qed.

Lemma extend_keys_present T A t :
  (∀ k e, (k, e) ∈ A → k ∈ T.*1) → (extend T A t).*1 = T.*1.
Proof.
  induction A as [|[k0 e0] A IH] using rev_ind; intros Hall; [done|].
  rewrite extend_snoc, dappend_keys_present.
  - apply IH. intros k e Hin. apply (Hall k e). apply elem_of_app. by left.
  - apply extend_keys_mono. apply (Hall k0 e0).
    apply elem_of_app. right. by apply list_elem_of_singleton.
Qed.

Lemma extend_NoDup T A t : NoDup T.*1 → NoDup (extend T A t).*1.
Proof.
  intros Hnd. induction A as [|[k0 e0] A IH] using rev_ind; [done|].
  rewrite extend_snoc. by apply NoDup_dappend.
Qed.

(** The instances of [A] appended for the trees [0], ..., [k - 1] in
    turn. *)
Lemma extend_passes_S T A k :
  foldl (λ T t, extend T A t) T (seq 0 (S k))
  = extend (foldl (λ T t, extend T A t) T (seq 0 k)) A k.
Proof. by rewrite seq_S, foldl_app. Qed.

Lemma extend_passes_keys T A k :
  (foldl (λ T t, extend T A t) T (seq 0 (S k))).*1 = (extend T A 0).*1.
Proof.
  induction k as [|k IH]; [done|].
  rewrite extend_passes_S, extend_keys_present; [done|].
  intros k0 e0 Hin. rewrite IH. by eapply extend_keys_elem.
Qed.

Lemma extend_passes_dget T A k key :
  default [] (dget key (foldl (λ T t, extend T A t) T (seq 0 k)))
  = default [] (dget key T) ++ expand k (select key A).
Proof.
  induction k as [|k IH]; [simpl; by rewrite app_nil_r|].
  rewrite extend_passes_S, extend_dget, IH, expand_S. by rewrite app_assoc.
Qed.

Lemma table_rel_extend n (T1 Tn : dict K (list Instance)) A :
  1 ≤ n → table_rel n T1 Tn →
  table_rel n (extend T1 A 0) (foldl (λ T t, extend T A t) Tn (seq 0 n)).
Proof.
  intros Hn (Hkeys & Hnd & Hrel). destruct n as [|n]; [lia|]. split_and!.
  - rewrite extend_passes_keys. by apply extend_keys_eq.
  - by apply extend_NoDup.
  - intros k. rewrite extend_passes_dget, extend_dget. by apply replicated_app.
Qed.

Lemma table_rel_ddel n (T1 Tn : dict K (list Instance)) k :
  table_rel n T1 Tn → table_rel n (ddel k T1) (ddel k Tn).
Proof.
  intros (Hkeys & Hnd & Hrel). split_and!.
  - by apply ddel_keys_eq.
  - by apply NoDup_ddel.
  - intros k'. rewrite !dget_ddel by (by rewrite <-?Hkeys).
    destruct (decide (k' = k)); [apply replicated_nil | apply Hrel].
Qed.

Lemma table_rel_dmax n (T1 Tn : dict K (list Instance)) :
  1 ≤ n → table_rel n T1 Tn → dmax Tn = dmax T1.
Proof.
  intros Hn (Hkeys & Hnd & Hrel). apply (dmax_scaled n); [done|].
  apply (table_Forall2 (λ l l', length l' = n * length l)); [done..|].
  intros k. by apply replicated_length.
Qed.

Lemma table_rel_dget n (T1 Tn : dict K (list Instance)) k l1 :
  table_rel n T1 Tn → dget k T1 = Some l1 →
  ∃ ln, dget k Tn = Some ln ∧ replicated n l1 ln.
Proof.
  intros (Hkeys & Hnd & Hrel) Hget.
  destruct (dget_keys_eq k T1 Tn Hkeys) as [ln Hln]; [by eauto|].
  exists ln. split; [done|]. specialize (Hrel k). by rewrite Hget, Hln in Hrel.
Qed.

Lemma table_rel_nil n : table_rel (K := K) n [] [].
Proof. split_and!; [done | apply NoDup_nil_2 | intros k; apply replicated_nil]. Qed.

Lemma table_rel_is_nil n (T1 Tn : dict K (list Instance)) :
  table_rel n T1 Tn → T1 = [] ↔ Tn = [].
Proof.
  intros (Hkeys & _). split; intros ->; simpl in Hkeys.
  - by destruct Tn.
  - by destruct T1.
Qed.

End Extend.

Section CopiesB.
Import Batch.

Lemma promote_tree_factor maps rs t e st nodes m :
  node2shape_batch st !! t = Some nodes → maps !! t = Some m →
  promote maps rs (tag t e) st
  = match promote_tree m rs e nodes with
    | Ok (nodes', a) =>
      Ok {| contractible := extend (contractible st) a t;
            node2shape_batch := <[t := nodes']> (node2shape_batch st);
            batched_contractions := batched_contractions st |}
    | Raise err => Raise err
    end.
Proof.
  intros Hn Hm. destruct e as [[p l] r]. unfold promote, promote_tree, tag, lindex.
  rewrite Hn, Hm. simpl.
  destruct (dpop l nodes) as [[v1 nodes1]|err]; simpl; [|done].
  destruct (dpop r nodes1) as [[v2 nodes2]|err]; simpl; [|done].
  destruct (dget p (parent_map m)) as [g|]; simpl; [|done].
  destruct (dindex g (children_map m)) as [[gl gr]|err]; simpl; [|done].
  destruct (dmem gl _ && dmem gr _); simpl; [|done].
  destruct (dindex gl _) as [sl|err]; simpl; [|done].
  destruct (dindex gr _) as [sr|err]; simpl; [|done].
  by destruct (dindex g (eq_map m)) as [eq|err].
Qed.

Lemma promote_tree_all_acc m rs seg nodes A0 :
  promote_tree_all m rs seg (nodes, A0)
  = match promote_tree_all m rs seg (nodes, []) with
    | Ok (nodes', A) => Ok (nodes', A0 ++ A)
    | Raise err => Raise err
    end.
Proof.
  unfold promote_tree_all. revert nodes A0.
  induction seg as [|e seg IH]; intros nodes A0.
  - simpl. by rewrite app_nil_r.
  - rewrite !for_each_cons.
    destruct (promote_tree m rs e nodes) as [[nodes1 a]|err]; simpl; [|done].
    rewrite (IH nodes1 (A0 ++ a)), (IH nodes1 a).
    destruct (for_each _ seg (nodes1, [])) as [[nodes' A]|err]; [|done].
    by rewrite app_assoc.
Qed.

Lemma promote_tree_all_factor maps rs t seg st nodes m :
  node2shape_batch st !! t = Some nodes → maps !! t = Some m →
  for_each (promote maps rs) (map (tag t) seg) st
  = match promote_tree_all m rs seg (nodes, []) with
    | Ok (nodes', A) =>
      Ok {| contractible := extend (contractible st) A t;
            node2shape_batch := <[t := nodes']> (node2shape_batch st);
            batched_contractions := batched_contractions st |}
    | Raise err => Raise err
    end.
Proof.
  intros Hn Hm. revert st nodes Hn.
  induction seg as [|e seg IH]; intros st nodes Hn.
  - simpl. destruct st as [T dicts bs]. simpl in *.
    by rewrite list_insert_id.
  - change (map (tag t) (e :: seg)) with (tag t e :: map (tag t) seg).
    rewrite for_each_cons, (promote_tree_factor maps rs t e st nodes m Hn Hm).
    unfold promote_tree_all at 1. rewrite for_each_cons.
    destruct (promote_tree m rs e nodes) as [[nodes1 a]|err]; simpl; [|done].
    fold (promote_tree_all m rs seg (nodes1, a)).
    rewrite promote_tree_all_acc, (IH _ nodes1).
    2:{ simpl. apply list_lookup_insert_eq. by eapply lookup_lt_Some. }
    destruct (promote_tree_all m rs seg (nodes1, [])) as [[nodes' A]|err]; [|done].
    simpl. unfold extend. rewrite foldl_app, list_insert_insert_eq. done.
Qed.

Lemma insert_replicate_boundary {A} (k n : nat) (x y : A) :
  k < n →
  <[k := y]> (replicate k y ++ replicate (n - k) x)
  = replicate (S k) y ++ replicate (n - S k) x.
Proof.
  intros Hlt. rewrite insert_app_r_alt by (rewrite length_replicate; lia).
  rewrite length_replicate, Nat.sub_diag.
  replace (n - k) with (S (n - S k)) by lia.
  change (<[0:=y]> (replicate (S (n - S k)) x)) with (y :: replicate (n - S k) x).
  rewrite replicate_S_end, <-app_assoc. done.
Qed.

(** The targets [seg], promoted in each of [n] copies of a tree in turn. *)
Lemma promote_block n m rs seg stn nodes nodes' A :
  node2shape_batch stn = replicate n nodes →
  promote_tree_all m rs seg (nodes, []) = Ok (nodes', A) →
  for_each (promote (replicate n m) rs) (expand n seg) stn
  = Ok {| contractible :=
            foldl (λ T t, extend T A t) (contractible stn) (seq 0 n);
          node2shape_batch := replicate n nodes';
          batched_contractions := batched_contractions stn |}.
Proof.
  intros Hdicts Hrun.
  assert (Hgen : ∀ k, k ≤ n →
    for_each (promote (replicate n m) rs) (expand k seg) stn
    = Ok {| contractible :=
              foldl (λ T t, extend T A t) (contractible stn) (seq 0 k);
            node2shape_batch := replicate k nodes' ++ replicate (n - k) nodes;
            batched_contractions := batched_contractions stn |}).
  { induction k as [|k IH]; intros Hk.
    - simpl. rewrite Nat.sub_0_r, <-Hdicts. by destruct stn.
    - rewrite expand_S, for_each_app, IH by lia.
      rewrite extend_passes_S. cbn [mbind result_bind].
      rewrite (promote_tree_all_factor _ rs k seg _ nodes m);
        cbn [node2shape_batch contractible batched_contractions].
      + by rewrite Hrun, insert_replicate_boundary by lia.
      + rewrite lookup_app_r by (rewrite length_replicate; lia).
        rewrite length_replicate, Nat.sub_diag.
        apply lookup_replicate_2. lia.
      + apply lookup_replicate_2. lia. }
  rewrite (Hgen n) by lia. by rewrite Nat.sub_diag, app_nil_r.
Qed.

Lemma sim_targets n m rs segs st1 st1' stn :
  1 ≤ n → sched_sim n st1 stn →
  for_each (promote [m] rs) (map (tag 0) (concat segs)) st1 = Ok st1' →
  ∃ stn', for_each (promote (replicate n m) rs) (flat_map (expand n) segs) stn
          = Ok stn'
          ∧ sched_sim n st1' stn'.
Proof.
  intros Hn. revert st1 stn.
  induction segs as [|seg segs IH]; intros st1 stn Hsim Hrun.
  - injection Hrun as <-. by exists stn.
  - simpl in Hrun. rewrite map_app, for_each_app in Hrun.
    apply bind_Ok in Hrun as (st1a & Hseg & Hrest).
    destruct Hsim as (nodes & Hd1 & Hdn & Htab & Hbat).
    rewrite (promote_tree_all_factor [m] rs 0 seg st1 nodes m) in Hseg;
      [|by rewrite Hd1|done].
    destruct (promote_tree_all m rs seg (nodes, [])) as [[nodes' A]|err] eqn:Hrun;
      [|done].
    injection Hseg as <-.
    simpl. rewrite for_each_app.
    rewrite (promote_block n m rs seg stn nodes nodes' A Hdn Hrun). simpl.
    eapply IH; cycle 1; [exact Hrest|].
    exists nodes'. simpl. rewrite Hd1. split_and!; [done..| |done].
    by apply table_rel_extend.
Qed.

Lemma sim_step n m st1 st1' stn :
  1 ≤ n → sched_sim n st1 stn →
  step [m] st1 = Ok st1' →
  ∃ stn', step (replicate n m) stn = Ok stn' ∧ sched_sim n st1' stn'.
Proof.
  intros Hn Hsim Hstep. unfold step in *.
  pose proof Hsim as (nodes & Hd1 & Hdn & Htab & Hbat).
  rewrite (table_rel_dmax n _ _ Hn Htab).
  apply bind_Ok in Hstep as (key & -> & Hstep). simpl.
  apply bind_Ok in Hstep as ([targets1 T1] & [Hget ->]%dpop_Ok & Hstep).
  destruct (table_rel_dget n _ _ key targets1 Htab Hget)
    as (targetsn & Hgetn & (segs & -> & ->)).
  unfold dpop. rewrite Hgetn. simpl.
  destruct key as [[eq sl] sr].
  apply bind_Ok in Hstep as (rs & -> & Hloop). simpl.
  eapply (sim_targets n m rs segs); [done| |exact Hloop].
  exists nodes. simpl. split_and!; [done..| |].
  - by apply table_rel_ddel.
  - apply Forall2_app; [done|]. constructor; [|constructor]. simpl.
    split; [done|]. by exists segs.
Qed.

Lemma sim_loop n m fuel st1 st1' stn :
  1 ≤ n → sched_sim n st1 stn →
  loop fuel [m] st1 = Some (Ok st1') →
  ∃ stn', loop fuel (replicate n m) stn = Some (Ok stn')
          ∧ sched_sim n st1' stn'.
Proof.
  intros Hn. revert st1 stn. induction fuel as [|fuel IH]; intros st1 stn Hsim Hloop.
  - simpl in *. pose proof Hsim as (_ & _ & _ & Htab%table_rel_is_nil & _).
    destruct (contractible st1) as [|kl T] eqn:HT; [|done].
    injection Hloop as <-. rewrite (proj1 Htab eq_refl). by exists stn.
  - simpl in *. pose proof Hsim as (_ & _ & _ & Htab%table_rel_is_nil & _).
    destruct (contractible st1) as [|kl T] eqn:HT.
    + injection Hloop as <-. rewrite (proj1 Htab eq_refl). by exists stn.
    + destruct (contractible stn) as [|kl' T'] eqn:HT'.
      { by pose proof (proj2 Htab eq_refl). }
      destruct (step [m] st1) as [st1a|err] eqn:Hstep; [|done].
      destruct (sim_step n m st1 st1a stn Hn Hsim Hstep) as (stna & -> & Hsima).
      by apply (IH st1a).
Qed.

Lemma register_tree_factor i nodes cs table :
  for_each (register i nodes) cs table
  = Ok (extend table (register_tree nodes cs) i).
Proof.
  revert table. induction cs as [|[[[p l] r] eq] cs IH]; intros table; [done|].
  rewrite for_each_cons. unfold register_tree. simpl.
  destruct l as [l|], r as [r|]; simpl; try apply IH.
  unfold dmem, dindex.
  destruct (dget l nodes) as [sl|], (dget r nodes) as [sr|]; simpl; apply IH.
Qed.

Lemma enumerate_replicate {A} (n : nat) (x : A) :
  enumerate (replicate n x) = map (λ t, (t, x)) (seq 0 n).
Proof.
  unfold enumerate. rewrite length_replicate. generalize 0.
  induction n as [|n IH]; intros k; simpl; [done|]. by rewrite IH.
Qed.

Lemma sim_init n cs shapes :
  1 ≤ n →
  ∃ st1 stn, init [cs] [shapes] = Ok st1
             ∧ init (replicate n cs) (replicate n shapes) = Ok stn
             ∧ sched_sim n st1 stn.
Proof.
  intros Hn. set (nodes := leaf_dict shapes).
  set (A := register_tree nodes cs).
  assert (Hpasses : ∀ k,
    for_each seed (map (λ t, (t, (cs, nodes))) (seq 0 k)) []
    = Ok (foldl (λ T t, extend T A t) [] (seq 0 k))).
  { induction k as [|k IH]; [done|].
    rewrite seq_S, map_app, for_each_app, IH, foldl_app. simpl.
    by rewrite register_tree_factor. }
  eexists _, _. split_and!.
  - unfold init. simpl. fold nodes. rewrite register_tree_factor. simpl. done.
  - unfold init. change (map leaf_dict ?l) with (leaf_dict <$> l).
    rewrite fmap_replicate. fold nodes.
    rewrite zip_with_replicate, enumerate_replicate, Hpasses. simpl. done.
  - exists nodes. simpl. split_and!; [done..| |done].
    fold A. apply (table_rel_extend n [] []); [done | apply table_rel_nil].
Qed.

End CopiesB.

Lemma elem_of_expand (n : nat) (seg : list Entry) t p l r :
  (t, p, l, r) ∈ expand n seg ↔ t < n ∧ (p, l, r) ∈ seg.
Proof.
  unfold expand. rewrite list_elem_of_In, in_flat_map. split.
  - intros (t' & Ht'%in_seq & Hin%list_elem_of_In).
    apply list_elem_of_fmap in Hin as ([[p' l'] r'] & [= -> -> -> ->] & Hin).
    split; [lia | done].
  - intros [Hlt Hin]. exists t. split; [apply in_seq; lia|].
    apply list_elem_of_In, list_elem_of_fmap. by exists (p, l, r).
Qed.

Lemma replicated_elem (n : nat) (l1 ln : list Instance) t p l r :
  replicated n l1 ln →
  (t, p, l, r) ∈ ln ↔ t < n ∧ (0, p, l, r) ∈ l1.
Proof.
  intros (segs & -> & ->).
  rewrite list_elem_of_In, in_flat_map, list_elem_of_fmap. split.
  - intros (seg & Hseg & Hin). apply list_elem_of_In in Hin.
    apply elem_of_expand in Hin as [Hlt Hin].
    split; [done|]. exists (p, l, r). split; [done|].
    apply list_elem_of_In, in_concat. exists seg.
    split; [done | by apply list_elem_of_In].
  - intros [Hlt ([[p' l'] r'] & [= -> -> ->] & Hin)].
    apply list_elem_of_In, in_concat in Hin as (seg & Hseg & Hin).
    exists seg. split; [done|].
    apply list_elem_of_In, elem_of_expand. split; [done|].
    by apply list_elem_of_In.
Qed.

(** Copies of one network are contracted together: when
    [get_batched_contractions] returns a schedule for one contraction list
    and its shapes, it returns, with the same number of iterations, a
    schedule for [n >= 1] copies that has the same number of batches with
    the same equations, and a batch of the copies holds the targets of the
    corresponding batch in every one of the [n] trees. *)
Theorem copies_batched_together (n fuel : nat) (cs : list Batch.Contraction)
    (shapes : list ArrayShape) (batched1 : list (str * list Instance)) :
  1 ≤ n →
  Batch.get_batched_contractions fuel [cs] [shapes] = Some (Ok batched1) →
  ∃ batchedn,
    Batch.get_batched_contractions fuel (replicate n cs) (replicate n shapes)
    = Some (Ok batchedn)
    ∧ length batchedn = length batched1
    ∧ ∀ i eq targets1,
        batched1 !! i = Some (eq, targets1) →
        ∃ targetsn,
          batchedn !! i = Some (eq, targetsn)
          ∧ length targetsn = n * length targets1
          ∧ ∀ t p l r, (t, p, l, r) ∈ targetsn
                       ↔ t < n ∧ (0, p, l, r) ∈ targets1.
Proof.
  intros Hn Hone. unfold Batch.get_batched_contractions, Batch.schedule in *.
  destruct (sim_init n cs shapes Hn) as (st1 & stn & Hinit1 & Hinitn & Hsim).
  rewrite Hinit1 in Hone. rewrite Hinitn.
  change (map Batch.build_maps (replicate n cs))
    with (Batch.build_maps <$> replicate n cs).
  rewrite fmap_replicate.
  change (map Batch.build_maps [cs]) with [Batch.build_maps cs] in Hone.
  destruct (Batch.loop fuel [Batch.build_maps cs] st1) as [[st1'|e]|] eqn:Hloop;
    [|done..].
  injection Hone as <-.
  destruct (sim_loop n _ fuel st1 st1' stn Hn Hsim Hloop) as (stn' & -> & Hsim').
  destruct Hsim' as (_ & _ & _ & _ & Hbat).
  exists (Batch.batched_contractions stn'). split; [done|]. split.
  - symmetry. by eapply Forall2_length.
  - intros i eq targets1 Hi.
    destruct (Forall2_lookup_l _ _ _ i _ Hbat Hi) as ([eq' targetsn] & Hin & Heq & Hrep).
    simpl in *. subst eq'. exists targetsn. split_and!; [done| |].
    + by apply replicated_length.
    + intros t p l r. by apply replicated_elem.
Qed.

Lemma copies_batched_together_witness :
  ∃ batchedn,
    Batch.get_batched_contractions 2 (replicate 3 Examples.contractions3)
      (replicate 3 Examples.arrays3) = Some (Ok batchedn)
    ∧ length batchedn = 2.
Proof.
  destruct (copies_batched_together 3 2 Examples.contractions3 Examples.arrays3
              [(Examples.matmul, [(0, Examples.node01, leaf 0, leaf 1)]);
               (Examples.chain, [(0, Examples.root3, Examples.node01, leaf 2)])])
    as (batchedn & Hn & Hlen & _).
  - lia.
  - by vm_compute.
  - exists batchedn. split; [exact Hn | exact Hlen].
Defined.

(** * [get_node_shape] and [extract_signature] *)

Lemma traverse_dindex_Ok {K V} {EqK : EqDecision K} (d : dict K V)
    (l : list K) (out : list V) :
  traverse (λ k, dindex k d) l = Ok out
  ↔ Forall2 (λ k v, dget k d = Some v) l out.
Proof.
  revert out. induction l as [|k l IH]; intros out; simpl.
  - split; [intros [= <-]; constructor | by intros ->%Forall2_nil_inv_l].
  - split.
    + intros Htr. apply bind_Ok in Htr as (v & Hv%dindex_Ok & Htr).
      apply bind_Ok in Htr as (vs & Hvs%IH & [= <-]). by constructor.
    + intros (v & vs & Hv & Hvs & ->)%Forall2_cons_inv_l.
      apply dindex_Ok in Hv. apply IH in Hvs. by rewrite Hv, Hvs.
Qed.

Lemma traverse_dindex_cases {K V} {EqK : EqDecision K} (d : dict K V)
    (l : list K) :
  (∃ out, traverse (λ k, dindex k d) l = Ok out)
  ∨ traverse (λ k, dindex k d) l = Raise KeyError.
Proof.
  destruct (decide (Forall (λ k, is_Some (dget k d)) l)) as [Hall|Hno].
  - left. induction Hall as [|k l [v Hv] Hall [out IH]]; [by exists []|].
    exists (v :: out). simpl. apply dindex_Ok in Hv. by rewrite Hv, IH.
  - right. apply traverse_dindex_raises.
    apply not_Forall_Exists in Hno; [|apply _].
    apply Exists_exists in Hno as (k & Hin & Hk). exists k. split; [done|].
    by apply eq_None_not_Some.
Qed.

(** [get_node_shape] returns the size of every index of the node, in order,
    and raises [KeyError] when the size of one of them is unknown;
    [extract_signature] returns the equation of the parent with the shapes
    of its two children, and raises [KeyError] when the parent has no entry
    in [children] or the size of an index of a child is unknown. *)
Theorem extract_signature_spec (tree : BatchContract.ContractionTree)
    (parent : TreeNode) :
  (∀ node shape,
     BatchContract.get_node_shape tree node = Ok shape
     ↔ Forall2 (λ i size, dget i (BatchContract.size_dict tree) = Some size)
               (BatchContract.get_inds tree node) shape)
  ∧ (∀ node,
       (∃ i, i ∈ BatchContract.get_inds tree node
             ∧ dget i (BatchContract.size_dict tree) = None) →
       BatchContract.get_node_shape tree node = Raise KeyError)
  ∧ (∀ sig,
       BatchContract.extract_signature tree parent = Ok sig
       ↔ ∃ left_ right_,
           dget parent (BatchContract.children tree) = Some (left_, right_)
           ∧ sig.1.1 = BatchContract.get_einsum_eq tree parent
           ∧ BatchContract.get_node_shape tree left_ = Ok sig.1.2
           ∧ BatchContract.get_node_shape tree right_ = Ok sig.2)
  ∧ ((∃ sig, BatchContract.extract_signature tree parent = Ok sig)
     ∨ BatchContract.extract_signature tree parent = Raise KeyError).
Proof.
  split_and!.
  - intros node shape. apply traverse_dindex_Ok.
  - intros node Hmissing. by apply traverse_dindex_raises.
  - intros [[eq sl] sr]. unfold BatchContract.extract_signature. simpl. split.
    + intros Hsig.
      apply bind_Ok in Hsig as ([l r] & Hp%dindex_Ok & Hsig).
      apply bind_Ok in Hsig as (sl' & Hl & Hsig).
      apply bind_Ok in Hsig as (sr' & Hr & [= <- <- <-]).
      by exists l, r.
    + intros (l & r & Hp%dindex_Ok & -> & Hl & Hr).
      rewrite Hp. simpl. by rewrite Hl, Hr.
  - unfold BatchContract.extract_signature.
    destruct (dget parent (BatchContract.children tree)) as [[l r]|] eqn:Hp.
    2:{ right. unfold dindex. by rewrite Hp. }
    apply dindex_Ok in Hp. rewrite Hp. simpl.
    unfold BatchContract.get_node_shape.
    destruct (traverse_dindex_cases (BatchContract.size_dict tree)
                (BatchContract.get_inds tree l)) as [[sl ->]| ->]; [|by right].
    destruct (traverse_dindex_cases (BatchContract.size_dict tree)
                (BatchContract.get_inds tree r)) as [[sr ->]| ->]; [|by right].
    left. by eexists.
Qed.

Lemma extract_signature_spec_witness :
  BatchContract.extract_signature Examples.tree2 Examples.root2
  = Ok (Examples.matmul, [2; 3]%Z, [3; 4]%Z).
Proof.
  apply (proj1 (proj2 (proj2 (extract_signature_spec Examples.tree2
                                Examples.root2)))).
  exists (leaf 0), (leaf 1). split_and!; by vm_compute.
Defined.

(** * One call of [_batched_einsum] *)

(** The contract of [_batched_einsum].  Let the dictionaries have distinct
    keys and hold the tensor [val t x] at exactly the nodes [x] of tree [t]
    with [P t x].  For targets whose operands are distinct nodes that are
    present, if the batched call of the backend on the stacked operands
    returns the tensors of the parents, then [_batched_einsum] returns; it
    keeps the number of dictionaries, and afterwards the dictionaries hold
    the former nodes without the operands, and the parents, each with its
    tensor. *)
Theorem batched_einsum_spec (B : Backend) (val : nat → TreeNode → Tensor)
    (P : nat → TreeNode → Prop) (eq : str) (targets : list Instance)
    (arrs : list (dict TreeNode Tensor)) :
  dicts_ok val P arrs →
  NoDup (operands targets) →
  (∀ t x, (t, x) ∈ operands targets → P t x) →
  (∀ t p l r, (t, p, l, r) ∈ targets → t < length arrs) →
  batched_call (Batch.get_batched_einsum_equation eq None)
    (map (λ '(t, _, l, _), val t l) targets)
    (map (λ '(t, _, _, r), val t r) targets)
    (map (λ '(t, p, _, _), val t p) targets) →
  ∃ arrs',
    Batch._batched_einsum eq targets arrs = Ok arrs'
    ∧ length arrs' = length arrs
    ∧ dicts_ok val
        (λ t x, (P t x ∧ (t, x) ∉ operands targets)
                ∨ ∃ l r, (t, x, l, r) ∈ targets)
        arrs'.
Proof.
  intros Hok Hnd HP Hidx (beq & Ls & Rs & res & Hbeq & HL & HR & Hres & Hrows).
  destruct (tn_take_loop val targets P [] [] arrs Hok Hnd HP Hidx)
    as (arrs1 & Htake & Hlen1 & Hok1).
  destruct (tn_store_loop val targets _ 0 arrs1 res Hok1)
    as (arrs2 & Hstore & Hlen2 & Hok2).
  { intros j t p l r Hj. rewrite Hrows. simpl. by rewrite list_lookup_fmap, Hj. }
  { intros t p l r Hin. rewrite Hlen1. by eapply Hidx. }
  exists arrs2. split_and!; [|congruence|done].
  unfold Batch._batched_einsum. rewrite Hbeq. simpl. rewrite Htake. simpl.
  rewrite HL. simpl. rewrite HR. simpl. rewrite Hres. simpl. exact Hstore.
Qed.

(** The product of the two leaves of [tree2]. *)
Lemma batched_einsum_spec_witness :
  ∃ arrs',
    Batch._batched_einsum (B := ShapeBackend.backend) Examples.matmul
      [(0, Examples.root2, leaf 0, leaf 1)]
      [[(leaf 0, [2; 3]%Z); (leaf 1, [3; 4]%Z)]] = Ok arrs'
    ∧ length arrs' = 1.
Proof.
  destruct (batched_einsum_spec ShapeBackend.backend (λ _, Witness.val2)
              (λ t x, t = 0 ∧ (x = leaf 0 ∨ x = leaf 1)) Examples.matmul
              [(0, Examples.root2, leaf 0, leaf 1)]
              [[(leaf 0, [2; 3]%Z); (leaf 1, [3; 4]%Z)]])
    as (arrs' & Hrun & Hlen & _).
  - intros [|t] nodes Hn; [|done]. injection Hn as <-. split.
    + refine (bool_decide_unpack _ _). by vm_compute.
    + intros x. split.
      * split.
        -- intros [v Hv]. split; [done|]. cbn [dget] in Hv.
           destruct (decide (x = leaf 0)) as [->|H0]; [by left|].
           destruct (decide (x = leaf 1)) as [->|H1]; [by right | done].
        -- intros [_ [-> | ->]]; eexists; vm_compute; reflexivity.
      * intros v Hv. cbn [dget] in Hv.
        destruct (decide (x = leaf 0)) as [->|H0].
        { injection Hv as <-. by vm_compute. }
        destruct (decide (x = leaf 1)) as [->|H1]; [|done].
        injection Hv as <-. by vm_compute.
  - refine (bool_decide_unpack _ _). by vm_compute.
  - intros t x [[= -> ->]|[[= -> ->]|[]%elem_of_nil]%elem_of_cons]%elem_of_cons;
      (split; [done|]); [by left | by right].
  - intros t p l r [= -> _ _ _]%list_elem_of_singleton. simpl. lia.
  - apply (shape_batched_call _ (λ _, Witness.val2) [2; 3]%Z [3; 4]%Z
             [(0, Examples.root2, leaf 0, leaf 1)] (py "dab,dbc->dac")).
    + done.
    + by vm_compute.
    + apply Forall_singleton. destruct val2_values as (-> & -> & ->).
      split_and!; [done..|]. apply einsum_matmul_fresh.
  - exists arrs'. split; [exact Hrun | exact Hlen].
Defined.

(** * One batched contraction of [batch_contract.py] *)

Lemma traverse_operands {V} (val : nat → TreeNode → V)
    (P : nat → TreeNode → Prop) (pick : Instance → TreeNode)
    (group : list Instance) (active : list (dict TreeNode V)) :
  dicts_ok val P active →
  (∀ inst, inst ∈ group → inst.1.1.1 < length active) →
  (∀ inst, inst ∈ group → P inst.1.1.1 (pick inst)) →
  traverse (λ inst, nodes ← lindex inst.1.1.1 active; dindex (pick inst) nodes)
           group
  = Ok (map (λ inst, val inst.1.1.1 (pick inst)) group).
Proof.
  intros Hok. induction group as [|inst group IH]; intros Hidx HP; [done|].
  simpl. rewrite IH.
  2:{ intros i Hi. apply Hidx. apply elem_of_cons. by right. }
  2:{ intros i Hi. apply HP. apply elem_of_cons. by right. }
  destruct (lookup_lt_is_Some_2 active inst.1.1.1) as [nodes Hn].
  { apply Hidx. apply elem_of_cons. by left. }
  destruct (Hok _ _ Hn) as [_ Hx].
  destruct (Hx (pick inst)) as [Hsome Hval].
  destruct (proj2 Hsome) as [v Hv].
  { apply HP. apply elem_of_cons. by left. }
  rewrite (Hval v Hv) in Hv.
  unfold lindex. rewrite Hn. simpl. unfold dindex. by rewrite Hv.
Qed.

(** The contract of the batched contraction of a group (lines 126-137).
    Let the dictionaries hold the tensor [val t x] at exactly the nodes [x]
    of tree [t] with [P t x].  For a group whose operands are present, if
    the batched call of the backend on the stacked operands returns the
    tensors [outs], then the contraction returns a stack whose slices are
    [outs], whatever the two shapes of the signature. *)
Theorem execute_spec (B : Backend) (val : nat → TreeNode → Tensor)
    (P : nat → TreeNode → Prop) (eq : str) (shape_left shape_right : ArrayShape)
    (to_contract : list Instance) (active : list (dict TreeNode Tensor))
    (outs : list Tensor) :
  dicts_ok val P active →
  (∀ t p l r, (t, p, l, r) ∈ to_contract →
              t < length active ∧ P t l ∧ P t r) →
  batched_call (BatchContract.get_batched_einsum_equation eq)
    (map (λ '(t, _, l, _), val t l) to_contract)
    (map (λ '(t, _, _, r), val t r) to_contract) outs →
  ∃ result_stack,
    BatchContract.execute (eq, shape_left, shape_right) to_contract active
    = Ok result_stack
    ∧ rows result_stack = outs.
Proof.
  intros Hok Hall (beq & Ls & Rs & res & Hbeq & HL & HR & Hres & Hrows).
  exists res. split; [|done].
  unfold BatchContract.execute. rewrite Hbeq. simpl.
  assert (Hleft : traverse (λ '(tree_idx, _, left_, _),
                     nodes ← lindex tree_idx active; dindex left_ nodes)
                   to_contract
                  = Ok (map (λ '(t, _, l, _), val t l) to_contract)).
  { trans (traverse (λ inst : Instance,
               nodes ← lindex inst.1.1.1 active; dindex inst.1.2 nodes)
             to_contract).
    { clear. induction to_contract as [|[[[t p] l] r] g IH]; [done|].
      simpl. by rewrite IH. }
    rewrite (traverse_operands val P (λ inst, inst.1.2) to_contract active Hok).
    - f_equal. apply map_ext. by intros [[[? ?] ?] ?].
    - intros [[[t p] l] r] Hin. by destruct (Hall t p l r Hin).
    - intros [[[t p] l] r] Hin. by destruct (Hall t p l r Hin) as (_ & ? & _). }
  assert (Hright : traverse (λ '(tree_idx, _, _, right_),
                      nodes ← lindex tree_idx active; dindex right_ nodes)
                    to_contract
                   = Ok (map (λ '(t, _, _, r), val t r) to_contract)).
  { trans (traverse (λ inst : Instance,
               nodes ← lindex inst.1.1.1 active; dindex inst.2 nodes)
             to_contract).
    { clear. induction to_contract as [|[[[t p] l] r] g IH]; [done|].
      simpl. by rewrite IH. }
    rewrite (traverse_operands val P (λ inst, inst.2) to_contract active Hok).
    - f_equal. apply map_ext. by intros [[[? ?] ?] ?].
    - intros [[[t p] l] r] Hin. by destruct (Hall t p l r Hin).
    - intros [[[t p] l] r] Hin. by destruct (Hall t p l r Hin) as (_ & _ & ?). }
  rewrite Hleft. simpl. rewrite Hright. simpl. rewrite HL, HR. simpl. exact Hres.
Qed.

Lemma tree2_dicts_ok :
  dicts_ok (λ _, Witness.val2) (λ t x, t = 0 ∧ (x = leaf 0 ∨ x = leaf 1))
           [[(leaf 0, [2; 3]%Z); (leaf 1, [3; 4]%Z)]].
Proof.
  intros [|t] nodes Hn; [|done]. injection Hn as <-. split.
  - refine (bool_decide_unpack _ _). by vm_compute.
  - intros x. split.
    + split.
      * intros [v Hv]. split; [done|]. cbn [dget] in Hv.
        destruct (decide (x = leaf 0)) as [->|H0]; [by left|].
        destruct (decide (x = leaf 1)) as [->|H1]; [by right | done].
      * intros [_ [-> | ->]]; eexists; vm_compute; reflexivity.
    + intros v Hv. cbn [dget] in Hv.
      destruct (decide (x = leaf 0)) as [->|H0].
      { injection Hv as <-. by vm_compute. }
      destruct (decide (x = leaf 1)) as [->|H1]; [|done].
      injection Hv as <-. by vm_compute.
Qed.

Lemma execute_spec_witness :
  ∃ result_stack,
    BatchContract.execute (B := ShapeBackend.backend)
      (Examples.matmul, [2; 3]%Z, [3; 4]%Z)
      [(0, Examples.root2, leaf 0, leaf 1)]
      [[(leaf 0, [2; 3]%Z); (leaf 1, [3; 4]%Z)]] = Ok result_stack
    ∧ rows result_stack = [[2; 4]%Z].
Proof.
  apply (execute_spec ShapeBackend.backend (λ _, Witness.val2)
           (λ t x, t = 0 ∧ (x = leaf 0 ∨ x = leaf 1))).
  - apply tree2_dicts_ok.
  - intros t p l r [= -> _ -> ->]%list_elem_of_singleton.
    split; [simpl; lia|]. split; (split; [done|]); [by left | by right].
  - apply (shape_batched_call _ (λ _, Witness.val2) [2; 3]%Z [3; 4]%Z
             [(0, Examples.root2, leaf 0, leaf 1)] (py "...ab,...bc->...ac")).
    + done.
    + by vm_compute.
    + apply Forall_singleton. destruct val2_values as (-> & -> & ->).
      split_and!; [done..|]. apply einsum_matmul_ellipsis.
Defined.
